(** * TheSu-to-DOT: graph rewriting pipeline, filters and identifier generator

    A shallow embedding of the Python sources of TheSu-to-DOT
    (dot/pseudo_nodes.py, dot/postprocess/*.py, config/filters.py and the
    toggle section of dot/orchestrator.py) together with the properties
    their specification states about them.

    Conventions of the embedding.
    - A Python [str] is a [string]; a character is a code point below 256.
    - A text file opened with [open(name, 'r', encoding='utf-8')] is read
      with universal newlines; files are written on a POSIX platform, where
      [write] leaves the newline character as it is.
    - A Python [set] or [dict] that the code iterates over is a list without
      repetitions, in insertion order; membership tests are [existsb]. *)

From Stdlib Require Import String Ascii List Arith ZArith Lia Bool.
From Stdlib Require Import DecimalString DecimalZ.
From Stdlib Require QArith.
Import ListNotations.
Local Open Scope string_scope.
Local Open Scope list_scope.

Set Implicit Arguments.

(* ================================================================== *)
(** ** Python string primitives *)
(* ================================================================== *)

Module PyStr.

Definition nl : ascii := "010"%char.
Definition cr : ascii := "013"%char.
Definition dq : ascii := "034"%char.

(** [str.isspace] on one character, for code points below 256; this is also
    the class [\s] of [re] on [str] patterns. *)
Definition is_space (c : ascii) : bool :=
  let n := nat_of_ascii c in
  (((9 <=? n) && (n <=? 13)) || ((28 <=? n) && (n <=? 32))
   || (n =? 133) || (n =? 160))%nat.

Definition is_empty (s : string) : bool :=
  match s with EmptyString => true | String _ _ => false end.

(** [s.lstrip()] *)
Fixpoint lstrip (s : string) : string :=
  match s with
  | EmptyString => EmptyString
  | String c s' => if is_space c then lstrip s' else s
  end.

(** [s.rstrip()] *)
Fixpoint rstrip (s : string) : string :=
  match s with
  | EmptyString => EmptyString
  | String c s' =>
      let r := rstrip s' in
      if is_space c && is_empty r then EmptyString else String c r
  end.

(** [s.strip()] *)
Definition strip (s : string) : string := rstrip (lstrip s).

(** [s.startswith(p)] *)
Fixpoint startswith (p s : string) : bool :=
  match p, s with
  | EmptyString, _ => true
  | String _ _, EmptyString => false
  | String a p', String b s' => Ascii.eqb a b && startswith p' s'
  end.

(** [p in s] for two strings *)
Fixpoint contains (p s : string) : bool :=
  startswith p s
  || match s with
     | EmptyString => false
     | String _ s' => contains p s'
     end.

(** [s.endswith(p)] *)
Fixpoint endswith (p s : string) : bool :=
  String.eqb p s
  || match s with
     | EmptyString => false
     | String _ s' => endswith p s'
     end.

(** [c in s] for a character *)
Fixpoint has_char (c : ascii) (s : string) : bool :=
  match s with
  | EmptyString => false
  | String a s' => Ascii.eqb a c || has_char c s'
  end.

(** [s[:-1]] *)
Fixpoint drop_last (s : string) : string :=
  match s with
  | EmptyString => EmptyString
  | String c s' => if is_empty s' then EmptyString else String c (drop_last s')
  end.

(** [x in xs] for a set or list of strings *)
Definition mem (x : string) (xs : list string) : bool :=
  existsb (String.eqb x) xs.

(** The f-string that puts [s] between two double quotes. *)
Definition quoted (s : string) : string :=
  String dq (s ++ String dq EmptyString).

(** [''.join(xs)], which is what [writelines] puts in the file *)
Definition join (xs : list string) : string :=
  fold_right String.append EmptyString xs.

(** Universal-newline translation done by a text-mode [read]:
    ["\r\n"] and a lone ["\r"] both become ["\n"]. *)
Fixpoint universal_newlines (s : string) : string :=
  match s with
  | EmptyString => EmptyString
  | String c s' =>
      if Ascii.eqb c cr then
        match s' with
        | String c' _ =>
            if Ascii.eqb c' nl then universal_newlines s'
            else String nl (universal_newlines s')
        | EmptyString => String nl EmptyString
        end
      else String c (universal_newlines s')
  end.

(** Splitting of an already translated text at ["\n"], the line ends kept:
    the list that [f.readlines()] returns. *)
Fixpoint split_keepends (s : string) : list string :=
  match s with
  | EmptyString => []
  | String c s' =>
      if Ascii.eqb c nl then String nl EmptyString :: split_keepends s'
      else match split_keepends s' with
           | [] => [String c EmptyString]
           | l :: ls => String c l :: ls
           end
  end.

(** [open(name, 'r').readlines()] on a file whose content is [content] *)
Definition readlines (content : string) : list string :=
  split_keepends (universal_newlines content).

(** [open(name, 'w').writelines(lines)]: the new content of the file *)
Definition writelines (lines : list string) : string := join lines.

(** How a call ends: it returns, it raises, or the fuel given to one of
    its [while] loops ran out before the loop was left. *)
Inductive outcome (A : Type) : Type :=
| Return (a : A)
| Raise (exn : string)
| OutOfFuel.
Arguments Return {A} a.
Arguments Raise {A} exn.
Arguments OutOfFuel {A}.

Definition bind {A B : Type} (m : outcome A) (k : A -> outcome B) : outcome B :=
  match m with
  | Return a => k a
  | Raise exn => Raise exn
  | OutOfFuel => OutOfFuel
  end.

(** A [for] loop whose body may not return. *)
Fixpoint for_each {A S : Type} (body : S -> A -> outcome S) (xs : list A)
  (s : S) : outcome S :=
  match xs with
  | [] => Return s
  | x :: xs' => bind (body s x) (for_each body xs')
  end.

(** [s.add(x)] for a set kept as a list in insertion order *)
Definition set_add (x : string) (s : list string) : list string :=
  if mem x s then s else s ++ [x].

(** [enumerate(xs)] *)
Definition enumerate {A : Type} (xs : list A) : list (nat * A) :=
  combine (seq 0 (List.length xs)) xs.

End PyStr.

Import PyStr.

(* ================================================================== *)
(** ** dot/postprocess/deduplication.py *)
(* ================================================================== *)

Module Deduplication.

(** The loop of [remove_duplicate_definitions]: [seen] is
    [seen_definitions], the result is [processed_lines]. *)
Fixpoint dedup_loop (seen : list string) (lines : list string) : list string :=
  match lines with
  | [] => []
  | line :: rest =>
      let line_stripped := strip line in
      if startswith (String dq EmptyString) line_stripped then
        if mem line_stripped seen then dedup_loop seen rest
        else line :: dedup_loop (line_stripped :: seen) rest
      else line :: dedup_loop seen rest
  end.

(** [remove_duplicate_definitions(dot_filename)] as a function from the
    content of the file before the call to its content after the call. *)
Definition remove_duplicate_definitions (content : string) : string :=
  writelines (dedup_loop [] (readlines content)).

End Deduplication.

(* ================================================================== *)
(** ** dot/pseudo_nodes.py *)
(* ================================================================== *)

Module PseudoNodes.

(** [str(n)] for an [int] *)
Definition dec (n : Z) : string := NilEmpty.string_of_int (Z.to_int n).

(** [s.isdigit()] on code points below 256: the ASCII digits and the
    superscripts one, two and three. *)
Definition is_digit_char (c : ascii) : bool :=
  let n := nat_of_ascii c in
  (((48 <=? n) && (n <=? 57)) || (n =? 178) || (n =? 179) || (n =? 185))%nat.

Fixpoint all_chars (p : ascii -> bool) (s : string) : bool :=
  match s with
  | EmptyString => true
  | String c s' => p c && all_chars p s'
  end.

Definition isdigit (s : string) : bool :=
  negb (is_empty s) && all_chars is_digit_char s.

(** [int(s)] for a string on which [isdigit] holds: [None] stands for the
    [ValueError] that a superscript digit raises. *)
Definition py_int (s : string) : option Z :=
  option_map Z.of_int (NilEmpty.int_of_string s).

(** The [suffix] argument is an [int] at most call sites and the string
    ["unspecified"] at the others. *)
Inductive suffix : Type :=
| SInt (n : Z)
| SStr (s : string).

(** [f"{suffix}"] *)
Definition format_suffix (sfx : suffix) : string :=
  match sfx with
  | SInt n => dec n
  | SStr s => s
  end.

Definition pseudo_node_exists (written_lines : list string) (unique_id : string) : bool :=
  existsb (contains (quoted unique_id)) written_lines.

(** [any(base_id in line for line in written_lines)] *)
Definition occurs_in_lines (written_lines : list string) (base_id : string) : bool :=
  existsb (contains base_id) written_lines.

Section Generator.

(** The collision test of the loop and the text of the f-string before
    its last field. *)
Variable collides : string -> bool.
Variable prefix : string.

(** [while collides(unique_id): numeric_suffix += 1; unique_id = f"..."] *)
Fixpoint numeric_loop (fuel : nat) (numeric_suffix : Z) (unique_id : string)
  : outcome string :=
  if collides unique_id then
    match fuel with
    | O => OutOfFuel
    | S fuel' =>
        let numeric_suffix := (numeric_suffix + 1)%Z in
        numeric_loop fuel' numeric_suffix (prefix ++ dec numeric_suffix)
    end
  else Return unique_id.

(** [while collides(temp_unique_id):
       temp_unique_id = f"..._{suffix}_{counter}"; counter += 1] *)
Fixpoint string_loop (fuel : nat) (sfx : string) (counter : Z)
  (temp_unique_id : string) : outcome string :=
  if collides temp_unique_id then
    match fuel with
    | O => OutOfFuel
    | S fuel' =>
        string_loop fuel' sfx (counter + 1)%Z
          (prefix ++ sfx ++ "_" ++ dec counter)
    end
  else Return temp_unique_id.

(** The body shared by the seven generators that test the quoted id. *)
Definition generate (fuel : nat) (sfx : suffix) : outcome string :=
  let unique_id := (prefix ++ format_suffix sfx)%string in
  match sfx with
  | SStr s =>
      if negb (isdigit s) then string_loop fuel s 1%Z unique_id
      else match py_int s with
           | Some n => numeric_loop fuel n unique_id
           | None => Raise "ValueError"
           end
  | SInt n => numeric_loop fuel n unique_id
  end.

(** The body of [generate_unique_pseudo_node_id_etiologies]:
    [suffix += 1] on a string suffix is a [TypeError]. *)
Definition generate_plain (fuel : nat) (sfx : suffix) : outcome string :=
  let base_id := (prefix ++ format_suffix sfx)%string in
  match sfx with
  | SInt n => numeric_loop fuel n base_id
  | SStr s => if collides base_id then Raise "TypeError" else Return base_id
  end.

End Generator.

Definition generate_unique_pseudo_node_id_targets fuel written_lines
  (element_id target_ref : string) (sfx : suffix) : outcome string :=
  generate (pseudo_node_exists written_lines)
    (element_id ++ "_to_" ++ target_ref ++ "_") fuel sfx.

Definition generate_unique_pseudo_node_id_entailments fuel written_lines
  (entailed_by_ref element_id : string) (sfx : suffix) : outcome string :=
  generate (pseudo_node_exists written_lines)
    (entailed_by_ref ++ "_to_" ++ element_id ++ "_") fuel sfx.

Definition generate_unique_pseudo_node_id_etiologies fuel written_lines
  (referenced_id element_id : string) (sfx : suffix) : outcome string :=
  generate_plain (occurs_in_lines written_lines)
    (referenced_id ++ "_in_etiology_in_" ++ element_id ++ "_") fuel sfx.

Definition generate_unique_pseudo_node_id_analogies fuel written_lines
  (referenced_id element_id : string) (sfx : suffix) : outcome string :=
  generate (pseudo_node_exists written_lines)
    (referenced_id ++ "_analogy_to_" ++ element_id ++ "_") fuel sfx.

Definition generate_unique_pseudo_node_id_references fuel written_lines
  (element_id referenced_id : string) (sfx : suffix) : outcome string :=
  generate (pseudo_node_exists written_lines)
    (referenced_id ++ "_referenced-in_" ++ element_id ++ "_") fuel sfx.

Definition generate_unique_pseudo_node_id_matching_propositions fuel written_lines
  (prop_ref element_id : string) (sfx : suffix) : outcome string :=
  generate (pseudo_node_exists written_lines)
    (prop_ref ++ "_to_" ++ element_id ++ "_") fuel sfx.

Definition generate_unique_pseudo_node_id_matching_sequences fuel written_lines
  (cluster_id prop_cluster_id : string) (sfx : suffix) : outcome string :=
  generate (pseudo_node_exists written_lines)
    (cluster_id ++ "_to_" ++ prop_cluster_id ++ "_") fuel sfx.

Definition generate_unique_pseudo_node_id_matching_phases fuel written_lines
  (prop_phase_ref current_phase : string) (sfx : suffix) : outcome string :=
  generate (pseudo_node_exists written_lines)
    (prop_phase_ref ++ "_to_" ++ current_phase ++ "_") fuel sfx.

(** The eight generators behind one type of request, the way the lowering
    calls them. *)
Inductive request : Type :=
| Targets (element_id target_ref : string)
| Entailments (entailed_by_ref element_id : string)
| Etiologies (referenced_id element_id : string)
| Analogies (referenced_id element_id : string)
| References (element_id referenced_id : string)
| MatchingPropositions (prop_ref element_id : string)
| MatchingSequences (cluster_id prop_cluster_id : string)
| MatchingPhases (prop_phase_ref current_phase : string).

Definition allocate (fuel : nat) (written_lines : list string)
  (r : request) (sfx : suffix) : outcome string :=
  match r with
  | Targets a b => generate_unique_pseudo_node_id_targets fuel written_lines a b sfx
  | Entailments a b => generate_unique_pseudo_node_id_entailments fuel written_lines a b sfx
  | Etiologies a b => generate_unique_pseudo_node_id_etiologies fuel written_lines a b sfx
  | Analogies a b => generate_unique_pseudo_node_id_analogies fuel written_lines a b sfx
  | References a b => generate_unique_pseudo_node_id_references fuel written_lines a b sfx
  | MatchingPropositions a b =>
      generate_unique_pseudo_node_id_matching_propositions fuel written_lines a b sfx
  | MatchingSequences a b =>
      generate_unique_pseudo_node_id_matching_sequences fuel written_lines a b sfx
  | MatchingPhases a b =>
      generate_unique_pseudo_node_id_matching_phases fuel written_lines a b sfx
  end.

End PseudoNodes.


(* ================================================================== *)
(** ** dot/support.py: [process_explicit_targets] *)
(* ================================================================== *)

Module Support.









End Support.


(* ================================================================== *)
(** ** The document tree ([lxml.etree] elements) *)
(* ================================================================== *)

Module Xml.

(** An element of the document. [uid] stands for the identity of the
    Python object: the code compares and removes elements by identity.
    Tags and attribute names are written without their namespace. *)
#[local] Unset Elimination Schemes.
Inductive element : Type :=
| Element (uid : nat) (tag : string) (attrib : list (string * string))
    (children : list element).
#[local] Set Elimination Schemes.

Definition uid (e : element) : nat := let 'Element u _ _ _ := e in u.
Definition tag (e : element) : string := let 'Element _ t _ _ := e in t.
Definition attrib (e : element) : list (string * string) :=
  let 'Element _ _ a _ := e in a.
Definition children (e : element) : list element :=
  let 'Element _ _ _ cs := e in cs.

(** [e.get(name)] *)
Fixpoint lookup (name : string) (kvs : list (string * string)) : option string :=
  match kvs with
  | [] => None
  | (k, v) :: rest => if String.eqb k name then Some v else lookup name rest
  end.

Definition get (e : element) (name : string) : option string :=
  lookup name (attrib e).

Definition has_tag (t : string) (e : element) : bool := String.eqb (tag e) t.

(** The descendants of an element in document order, itself left out. *)
Fixpoint descendants (e : element) : list element :=
  match e with
  | Element _ _ _ cs => flat_map (fun c => c :: descendants c) cs
  end.

(** [e.xpath('.//thesu:t')] *)
Definition xpath_descendants (t : string) (e : element) : list element :=
  filter (has_tag t) (descendants e).

(** [e.xpath('./thesu:t')] *)
Definition xpath_children (t : string) (e : element) : list element :=
  filter (has_tag t) (children e).

(** The ancestors, nearest first, of the element of identity [u] inside
    [e]; [None] when [e] has no such descendant. *)
Fixpoint ancestors (u : nat) (e : element) : option (list element) :=
  match e with
  | Element _ _ _ cs =>
      (fix among (cs : list element) : option (list element) :=
         match cs with
         | [] => None
         | c :: cs' =>
             if Nat.eqb (uid c) u then Some [e]
             else match ancestors u c with
                  | Some l => Some (l ++ [e])
                  | None => among cs'
                  end
         end) cs
  end.

(** [x.getparent()] for the element of identity [u] of the tree [root] *)
Definition getparent (root : element) (u : nat) : option element :=
  match ancestors u root with
  | Some (p :: _) => Some p
  | _ => None
  end.

(** The first child of identity [u] taken out of a list of children. *)
Fixpoint remove_first (u : nat) (cs : list element) : list element :=
  match cs with
  | [] => []
  | c :: cs' => if Nat.eqb (uid c) u then cs' else c :: remove_first u cs'
  end.

(** [parent.remove(child)] seen from the root: the tree after the child of
    identity [child] was taken out of the element of identity [parent].
    A [ValueError] (no such child) leaves the tree as it is, which is what
    every caller's [except ValueError] does. *)
Fixpoint remove_child (parent child : nat) (e : element) : element :=
  match e with
  | Element u t a cs =>
      if Nat.eqb u parent then Element u t a (remove_first child cs)
      else Element u t a (map (remove_child parent child) cs)
  end.

(** The idiom [parent = x.getparent(); if parent is not None:
    parent.remove(x)] of the filters, for the element [x] of identity [u]:
    [x] leaves the children of its parent, wherever in the tree that is;
    the root has no parent and stays. Identities are unique, so at most
    one element goes. *)
Fixpoint detach (u : nat) (e : element) : element :=
  match e with
  | Element i t a cs =>
      Element i t a
        ((fix among (cs : list element) : list element :=
            match cs with
            | [] => []
            | c :: cs' =>
                if Nat.eqb (uid c) u then among cs'
                else detach u c :: among cs'
            end) cs)
  end.

(** The element of identity [u] as it is now in the tree. *)
Definition find_element (u : nat) (root : element) : option element :=
  if Nat.eqb (uid root) u then Some root
  else find (fun d => Nat.eqb (uid d) u) (descendants root).

End Xml.


(* ================================================================== *)
(** ** config/filters.py: [apply_custom_seq_phase_filters] *)
(* ================================================================== *)

Module Filters.
Import Xml.

(** [s.lstrip('#')] *)
Fixpoint lstrip_hash (s : string) : string :=
  match s with
  | EmptyString => EmptyString
  | String c s' => if Ascii.eqb c "#"%char then lstrip_hash s' else s
  end.

(** The filter map [{sequence_id: [thesis_id, ...]}]. *)
Definition filter_map : Type := list (string * list string).

Fixpoint map_get (k : string) (m : filter_map) : option (list string) :=
  match m with
  | [] => None
  | (k', v) :: rest => if String.eqb k' k then Some v else map_get k rest
  end.

(** [find_parent_thesis(element, namespaces)] of xml_processing/selectors.py:
    the loop goes up through the parents to the first THESIS. *)
Definition find_parent_thesis (root : element) (u : nat) : option element :=
  match ancestors u root with
  | Some l => find (has_tag "THESIS") l
  | None => None
  end.

(** [siblings.index(m_seq)] *)
Fixpoint index_of (u : nat) (l : list element) : option nat :=
  match l with
  | [] => None
  | x :: l' =>
      if Nat.eqb (uid x) u then Some 0
      else option_map S (index_of u l')
  end.

(** An entry [(m_seq, removed_index, num_siblings)] of a list
    [sequences_to_process_in_parent[parent_sequence]]. *)
Definition item : Type := (element * nat * nat)%type.

Definition item_index (it : item) : nat := snd (fst it).

(** The dictionary [sequences_to_process_in_parent], keyed by the parent
    sequence (its identity), in insertion order. *)
Definition parent_table : Type := list (element * list item).

Fixpoint table_append (parent : element) (it : item) (t : parent_table)
  : parent_table :=
  match t with
  | [] => [(parent, [it])]
  | (p, its) :: rest =>
      if Nat.eqb (uid p) (uid parent) then (p, its ++ [it]) :: rest
      else (p, its) :: table_append parent it rest
  end.

(** One turn of the first pass, for the element [m_seq] of the list
    [all_matching_seqs]. *)
Definition first_pass_step (root : element) (seq_to_thesis_map : filter_map)
  (t : parent_table) (m_seq : element) : parent_table :=
  match get m_seq "sequenceRef" with
  | None => t
  | Some seq_ref =>
      if is_empty seq_ref then t
      else
        let seq_ref_id := lstrip_hash seq_ref in
        match map_get seq_ref_id seq_to_thesis_map with
        | None => t
        | Some thesis_ids =>
            match getparent root (uid m_seq) with
            | None => t
            | Some parent_sequence =>
                if negb (has_tag "sequence" parent_sequence) then t
                else
                  match find_parent_thesis root (uid m_seq) with
                  | None => t
                  | Some ancestor_thesis =>
                      match get ancestor_thesis "xml:id" with
                      | None => t
                      | Some ancestor_thesis_id =>
                          if mem ancestor_thesis_id thesis_ids then
                            let siblings :=
                              xpath_children "matchingPropositionSequence"
                                parent_sequence in
                            match index_of (uid m_seq) siblings with
                            | Some removed_index =>
                                table_append parent_sequence
                                  (m_seq, removed_index, List.length siblings) t
                            | None => t
                            end
                          else t
                      end
                  end
            end
        end
  end.

(** [items_to_remove.sort(key=lambda x: x[1], reverse=True)] *)
Fixpoint insert_desc (it : item) (l : list item) : list item :=
  match l with
  | [] => [it]
  | y :: l' =>
      if (item_index it <=? item_index y)%nat then y :: insert_desc it l'
      else it :: l
  end.

Definition sort_desc (l : list item) : list item :=
  fold_left (fun acc it => insert_desc it acc) l [].

(** [parent_sequence.xpath(
      './/thesu:newPhases/thesu:phase[thesu:matchingPropositionPhases]')],
    in document order. *)
Fixpoint phase_holders (e : element) : list element :=
  match e with
  | Element _ t _ cs =>
      flat_map
        (fun c =>
           (if String.eqb t "newPhases" && has_tag "phase" c
               && negb (match xpath_children "matchingPropositionPhases" c with
                        | [] => true
                        | _ :: _ => false
                        end)
            then [c] else [])
           ++ phase_holders c)
        cs
  end.

(** The choice of the phase record to remove for one removed sequence
    record and one phase element: the [if]/[elif] that sets
    [phase_to_remove]. *)
Definition phase_to_remove (removed_index num_m_seq_siblings : nat)
  (mpp_siblings : list element) : option element :=
  let num_mpp_siblings := List.length mpp_siblings in
  if ((num_m_seq_siblings =? 1) && (num_mpp_siblings =? 1))%nat then
    nth_error mpp_siblings 0
  else if ((1 <=? num_mpp_siblings) && (removed_index <? num_mpp_siblings))%nat then
    nth_error mpp_siblings removed_index
  else None.

(** The dictionary [phases_to_remove_map], keyed by the phase element. *)
Definition removal_table : Type := list (element * list element).

Definition mem_element (x : element) (l : list element) : bool :=
  existsb (fun y => Nat.eqb (uid y) (uid x)) l.

(** [if phase_element not in m: m[phase_element] = []] followed by
    [if x not in m[phase_element]: m[phase_element].append(x)] *)
Fixpoint removal_add (phase_element x : element) (m : removal_table)
  : removal_table :=
  match m with
  | [] => [(phase_element, [x])]
  | (p, xs) :: rest =>
      if Nat.eqb (uid p) (uid phase_element)
      then (p, if mem_element x xs then xs else xs ++ [x]) :: rest
      else (p, xs) :: removal_add phase_element x rest
  end.

(** The two nested loops that fill [phases_to_remove_map]. *)
Definition phases_to_remove_map (items_to_remove : list item)
  (phases_info : list (element * list element)) : removal_table :=
  fold_left
    (fun m (it : item) =>
       let '(_, removed_index, num_m_seq_siblings) := it in
       fold_left
         (fun m (ph : element * list element) =>
            let '(phase_element, mpp_siblings) := ph in
            match phase_to_remove removed_index num_m_seq_siblings mpp_siblings with
            | Some x => removal_add phase_element x m
            | None => m
            end)
         phases_info m)
    items_to_remove [].

(** One turn of the second pass: the removals under one parent sequence.
    A parent sequence that is not in the tree any more was detached with
    an ancestor; what the code then removes inside it does not change the
    tree. *)
Definition second_pass_step (root : element) (entry : element * list item)
  : element :=
  let '(parent, items) := entry in
  let items_to_remove := sort_desc items in
  match find_element (uid parent) root with
  | None => root
  | Some parent_sequence =>
      let phase_elements := phase_holders parent_sequence in
      let phases_info :=
        map (fun ph => (ph, xpath_children "matchingPropositionPhases" ph))
          phase_elements in
      let to_remove := phases_to_remove_map items_to_remove phases_info in
      let root :=
        fold_left
          (fun r (it : item) => remove_child (uid parent) (uid (fst (fst it))) r)
          items_to_remove root in
      fold_left
        (fun r (ph : element * list element) =>
           fold_left (fun r mpp => remove_child (uid (fst ph)) (uid mpp) r)
             (snd ph) r)
        to_remove root
  end.

(** [apply_custom_seq_phase_filters(xml_root, seq_to_thesis_map, namespaces)]:
    the document after the call. Each parent sequence is a key of the
    table once, so the test against the set of processed parents never
    skips a turn. *)
Definition apply_custom_seq_phase_filters (xml_root : element)
  (seq_to_thesis_map : filter_map) : element :=
  match seq_to_thesis_map with
  | [] => xml_root
  | _ :: _ =>
      let all_matching_seqs :=
        xpath_descendants "matchingPropositionSequence" xml_root in
      let table :=
        fold_left (first_pass_step xml_root seq_to_thesis_map)
          all_matching_seqs [] in
      fold_left second_pass_step table xml_root
  end.

End Filters.

(* ================================================================== *)
(** ** dot/orchestrator.py: the global toggles of [create_dot] *)
(* ================================================================== *)

Module Orchestrator.
Import Xml.

(** The document and the dictionary [all_propositions] of the included
    PROPOSITION elements, each the root of its own tree. *)
Record document : Type := {
  xml_root : element;
  all_propositions : list (string * element)
}.

(** [for x in found: parent = x.getparent(); if parent is not None:
    parent.remove(x)] *)
Definition remove_each (found : list element) (root : element) : element :=
  fold_left (fun r x => detach (uid x) r) found root.

(** The removal of the [sequence] elements of every proposition. *)
Definition strip_proposition_sequences (props : list (string * element))
  : list (string * element) :=
  map (fun kv => (fst kv, remove_each (xpath_descendants "sequence" (snd kv)) (snd kv)))
    props.

(** (a) and (b): [if filter_propositions: ... elif
    filter_matching_proposition_sequences: ...] *)
Definition toggles_a_b (filter_propositions
  filter_matching_proposition_sequences : bool) (d : document) : document :=
  if filter_propositions then
    {| xml_root := remove_each (xpath_descendants "matchingProposition" (xml_root d))
                     (xml_root d);
       all_propositions := [] |}
  else if filter_matching_proposition_sequences then
    let elements_to_remove :=
      xpath_descendants "matchingPropositionSequence" (xml_root d)
      ++ xpath_descendants "matchingPropositionPhases" (xml_root d) in
    {| xml_root := remove_each elements_to_remove (xml_root d);
       all_propositions := strip_proposition_sequences (all_propositions d) |}
  else d.

(** (c): [if filter_all_sequences: ...] *)
Definition toggle_c (filter_propositions filter_all_sequences : bool)
  (d : document) : document :=
  if filter_all_sequences then
    {| xml_root := remove_each (xpath_descendants "sequence" (xml_root d))
                     (xml_root d);
       all_propositions :=
         if negb filter_propositions
         then strip_proposition_sequences (all_propositions d)
         else all_propositions d |}
  else d.

(** The three global toggles in the order of [create_dot]. *)
Definition apply_global_toggles (filter_propositions
  filter_matching_proposition_sequences filter_all_sequences : bool)
  (d : document) : document :=
  toggle_c filter_propositions filter_all_sequences
    (toggles_a_b filter_propositions filter_matching_proposition_sequences d).

End Orchestrator.


(* ================================================================== *)
(** ** The line patterns of the post-processing passes *)
(* ================================================================== *)

Module DotSyntax.

(** The text up to the next double quote and the text after that quote. *)
Fixpoint until_quote (s : string) : option (string * string) :=
  match s with
  | EmptyString => None
  | String c s' =>
      if Ascii.eqb c dq then Some (EmptyString, s')
      else match until_quote s' with
           | Some (a, r) => Some (String c a, r)
           | None => None
           end
  end.

(** The fragment [Q([^Q]+)Q] at the start of [s], where [Q] is the double
    quote: the group and the text after the closing quote. *)
Definition quoted_id (s : string) : option (string * string) :=
  match s with
  | EmptyString => None
  | String c s' =>
      if Ascii.eqb c dq then
        match until_quote s' with
        | Some (id, rest) => if is_empty id then None else Some (id, rest)
        | None => None
        end
      else None
  end.

(** Whether [r] matches the end [\s*(\[.*?\])?\s*;?\s*$] of both patterns:
    spaces around an optional bracketed text that runs to the end of the
    line without a newline inside, and an optional semicolon after it. *)
Definition tail_ok (r : string) : bool :=
  let r := strip r in
  let r := if endswith ";" r then rstrip (drop_last r) else r in
  is_empty r
  || (startswith "[" r && endswith "]" r && (2 <=? String.length r)%nat
      && negb (has_char nl r)).

(** [node_def_pattern.match(s)]: group 1 of
    [^\s*Q([^Q]+)Q\s*(\[.*?\])?\s*;?\s*$], with [Q] the double quote. *)
Definition node_def_match (s : string) : option string :=
  match quoted_id (lstrip s) with
  | Some (id, rest) => if tail_ok rest then Some id else None
  | None => None
  end.

(** [s[2:]] *)
Definition drop2 (s : string) : string :=
  match s with
  | String _ (String _ s') => s'
  | _ => EmptyString
  end.

(** [edge_def_pattern.match(s)]: groups 1 and 2 of
    [^\s*Q([^Q]+)Q\s*->\s*Q([^Q]+)Q\s*(\[.*?\])?\s*;?\s*$]. *)
Definition edge_def_match (s : string) : option (string * string) :=
  match quoted_id (lstrip s) with
  | Some (src, rest) =>
      let rest := lstrip rest in
      if startswith "->" rest then
        match quoted_id (lstrip (drop2 rest)) with
        | Some (tgt, rest') => if tail_ok rest' then Some (src, tgt) else None
        | None => None
        end
      else None
  | None => None
  end.

(** [s.startswith(('//', '#', 'digraph', 'graph', 'subgraph', '{', '}'))] *)
Definition starts_like_structure (s : string) : bool :=
  startswith "//" s || startswith "#" s || startswith "digraph" s
  || startswith "graph" s || startswith "subgraph" s
  || startswith "{" s || startswith "}" s.

(** The lines that the first pass of a parser skips. *)
Definition skipped (s : string) : bool :=
  is_empty s || starts_like_structure s
  || (contains "=" s && negb (contains "->" s)
      && negb (startswith (String dq EmptyString) s)).

Inductive line_kind : Type :=
| EdgeLine (src tgt : string)
| NodeLine (id : string)
| OtherLine.

(** What [_parse_dot_graph] and the first pass of
    [redirect_or_remove_invalid_edges] take a line for. *)
Definition classify (line : string) : line_kind :=
  let s := strip line in
  if skipped s then OtherLine
  else match edge_def_match s with
       | Some (src, tgt) => EdgeLine src tgt
       | None =>
           match node_def_match s with
           | Some id => if contains "->" s then OtherLine else NodeLine id
           | None => OtherLine
           end
       end.

(** The test [m and '->' not in s] of the rewriting loops, which is applied
    to every line. *)
Definition defines_node (line : string) : option string :=
  let s := strip line in
  match node_def_match s with
  | Some id => if contains "->" s then None else Some id
  | None => None
  end.

End DotSyntax.


(* ================================================================== *)
(** ** dot/postprocess/normalization.py: [collapse_excess_blank_lines] *)
(* ================================================================== *)

Module Normalization.

(** [re.sub(r'\n{3,}', '\n\n', content)]: [run] counts the newlines that
    directly precede the text still to be copied. *)
Fixpoint collapse_newlines (run : nat) (s : string) : string :=
  match s with
  | EmptyString => EmptyString
  | String c s' =>
      if Ascii.eqb c nl then
        if (run <? 2)%nat then String nl (collapse_newlines (S run) s')
        else collapse_newlines (S run) s'
      else String c (collapse_newlines 0 s')
  end.

(** [collapse_excess_blank_lines(dot_filename)] with the default
    [max_consecutive=1]: the content of the file after the call. The file
    is written only when the text changed. *)
Definition collapse_excess_blank_lines (file : string) : string :=
  let content := universal_newlines file in
  let collapsed := collapse_newlines 0 content in
  if String.eqb collapsed content then file else collapsed.

End Normalization.

(* ================================================================== *)
(** ** dot/postprocess/filtered_pruning.py *)
(* ================================================================== *)

Module FilteredPruning.
Import DotSyntax.

Definition is_mediator_node (node_id : string) : bool :=
  endswith "_func" node_id || endswith "_employed" node_id
  || contains "_to_" node_id
  || contains "_in_etiology_in_" node_id
  || contains "_analogy_to_" node_id
  || contains "_referenced-in_" node_id.

(** A dictionary from a node to the set of its neighbours. *)
Definition adjacency_map : Type := list (string * list string).

(** [adj.setdefault(a, set()).add(b)] *)
Fixpoint adj_add (a b : string) (adj : adjacency_map) : adjacency_map :=
  match adj with
  | [] => [(a, [b])]
  | (k, vs) :: rest =>
      if String.eqb k a then (k, set_add b vs) :: rest
      else (k, vs) :: adj_add a b rest
  end.

(** [adj.get(k, [])] *)
Fixpoint adj_get (adj : adjacency_map) (k : string) : list string :=
  match adj with
  | [] => []
  | (k', vs) :: rest => if String.eqb k' k then vs else adj_get rest k
  end.

(** An edge [(src, tgt, line_idx)]. *)
Definition edge : Type := (string * string * nat)%type.

Record graph : Type := {
  defined_nodes : list string;
  edges : list edge;
  adjacency : adjacency_map
}.

Definition parse_step (g : graph) (il : nat * string) : graph :=
  let '(i, line) := il in
  match classify line with
  | EdgeLine src tgt =>
      {| defined_nodes := defined_nodes g;
         edges := edges g ++ [(src, tgt, i)];
         adjacency := adj_add tgt src (adj_add src tgt (adjacency g)) |}
  | NodeLine id =>
      {| defined_nodes := set_add id (defined_nodes g);
         edges := edges g;
         adjacency := adjacency g |}
  | OtherLine => g
  end.

Definition _parse_dot_graph (lines : list string) : graph :=
  fold_left parse_step (enumerate lines)
    {| defined_nodes := []; edges := []; adjacency := [] |}.

(** [a & b] and [a - b] for sets *)
Definition inter (a b : list string) : list string :=
  filter (fun x => mem x b) a.
Definition diff (a b : list string) : list string :=
  filter (fun x => negb (mem x b)) a.
(** [a | b] *)
Definition union (a b : list string) : list string :=
  fold_left (fun s x => set_add x s) b a.

(** *** Phase 1a: which filtered nodes to keep *)

Section Phase1a.

Variable adj : adjacency_map.
Variables unfiltered_nodes mediator_nodes : list string.

(** The [for nb in adjacency.get(curr, [])] loop with its [break]; the
    boolean is [found_unfiltered]. *)
Fixpoint scan_neighbours (nbs visited queue : list string)
  : list string * list string * bool :=
  match nbs with
  | [] => (visited, queue, false)
  | nb :: rest =>
      if mem nb visited then scan_neighbours rest visited queue
      else
        let visited := visited ++ [nb] in
        if mem nb unfiltered_nodes then (visited, queue, true)
        else if mem nb mediator_nodes
             then scan_neighbours rest visited (queue ++ [nb])
             else scan_neighbours rest visited queue
  end.

(** [while queue and not found_unfiltered] *)
Fixpoint reach_loop (fuel : nat) (visited queue : list string) : outcome bool :=
  match queue with
  | [] => Return false
  | curr :: queue =>
      match fuel with
      | O => OutOfFuel
      | S fuel =>
          let '(visited, queue, found) :=
            scan_neighbours (adj_get adj curr) visited queue in
          if found then Return true else reach_loop fuel visited queue
      end
  end.

(** The search started at one filtered node. *)
Definition reaches_unfiltered (fuel : nat) (f_node : string) : outcome bool :=
  reach_loop fuel [f_node] [f_node].

(** [keep_filtered] after the loop over the filtered nodes. *)
Definition keep_filtered_of (fuel : nat) (filtered_nodes : list string)
  : outcome (list string) :=
  for_each
    (fun keep f_node =>
       bind (reaches_unfiltered fuel f_node)
         (fun found => Return (if found then set_add f_node keep else keep)))
    filtered_nodes [].

End Phase1a.

(** *** Phase 2: indirect connections between kept filtered nodes *)

(** An entry [(src, dst, pruned_count)] of [indirect_edges]. *)
Definition indirect_edge : Type := (string * string * nat)%type.

Definition mem_pair (p : string * string) (ps : list (string * string)) : bool :=
  existsb (fun q => String.eqb (fst q) (fst p) && String.eqb (snd q) (snd p)) ps.

Section Phase2.

Variables filtered_nodes mediator_nodes keep_filtered : list string.
Variable all_edges : list edge.

Definition restricted : list string := union filtered_nodes mediator_nodes.

(** [r_adj] and [directed_pairs] *)
Definition restricted_graph : adjacency_map * list (string * string) :=
  fold_left
    (fun (st : adjacency_map * list (string * string)) (e : edge) =>
       let '(src, tgt, _) := e in
       if mem src restricted && mem tgt restricted then
         (adj_add tgt src (adj_add src tgt (fst st)),
          if mem_pair (src, tgt) (snd st) then snd st else snd st ++ [(src, tgt)])
       else st)
    all_edges ([], []).

Definition r_adj : adjacency_map := fst restricted_graph.
Definition directed_pairs : list (string * string) := snd restricted_graph.

(** The [for nb in r_adj.get(node, [])] loop of the component search. *)
Fixpoint component_scan (nbs comp_visited q : list string)
  : list string * list string :=
  match nbs with
  | [] => (comp_visited, q)
  | nb :: rest =>
      if mem nb comp_visited then component_scan rest comp_visited q
      else component_scan rest (comp_visited ++ [nb]) (q ++ [nb])
  end.

(** [while q] of the component search; the result is
    [(comp_filtered, comp_visited)]. *)
Fixpoint component_loop (fuel : nat) (comp_filtered comp_visited q : list string)
  : outcome (list string * list string) :=
  match q with
  | [] => Return (comp_filtered, comp_visited)
  | node :: q =>
      match fuel with
      | O => OutOfFuel
      | S fuel =>
          let comp_filtered :=
            if mem node filtered_nodes then set_add node comp_filtered
            else comp_filtered in
          let '(comp_visited, q) :=
            component_scan (adj_get r_adj node) comp_visited q in
          component_loop fuel comp_filtered comp_visited q
      end
  end.

(** [components_kept]: the sets [kept_in_comp] of the components that hold
    two kept filtered nodes or more. *)
Definition components_kept_of (fuel : nat) : outcome (list (list string)) :=
  bind
    (for_each
       (fun (st : list string * list (list string)) start =>
          let '(comp_visited, components_kept) := st in
          if mem start comp_visited then Return st
          else
            bind (component_loop fuel [] (comp_visited ++ [start]) [start])
              (fun r =>
                 let '(comp_filtered, comp_visited) := r in
                 let kept_in_comp := inter comp_filtered keep_filtered in
                 Return
                   (comp_visited,
                    if (2 <=? List.length kept_in_comp)%nat
                    then components_kept ++ [kept_in_comp]
                    else components_kept)))
       filtered_nodes ([], []))
    (fun st => Return (snd st)).

(** The state of the spanning-tree search of one component. *)
Record tree_state : Type := {
  inner_visited : list string;
  inner_queue : list (string * nat * nat * nat);
  tree_visited : list string;
  tree_queue : list string;
  indirect_edges : list indirect_edge
}.

Section Component.

Variable kept_set : list string.

(** The [for neighbour in adj_map.get(curr, [])] loop. *)
Fixpoint inner_scan (f_node curr : string) (pruned_count fwd bwd : nat)
  (nbs : list string) (st : tree_state) : tree_state :=
  match nbs with
  | [] => st
  | neighbour :: rest =>
      if mem neighbour (inner_visited st)
      then inner_scan f_node curr pruned_count fwd bwd rest st
      else
        let visited := inner_visited st ++ [neighbour] in
        let is_fwd := mem_pair (curr, neighbour) directed_pairs in
        let new_fwd := (fwd + (if is_fwd then 1 else 0))%nat in
        let new_bwd := (bwd + (if is_fwd then 0 else 1))%nat in
        let st :=
          if mem neighbour kept_set then
            if negb (mem neighbour (tree_visited st)) then
              {| inner_visited := visited;
                 inner_queue := inner_queue st;
                 tree_visited := tree_visited st ++ [neighbour];
                 tree_queue := tree_queue st ++ [neighbour];
                 indirect_edges :=
                   indirect_edges st
                   ++ [if (new_bwd <=? new_fwd)%nat
                       then (f_node, neighbour, pruned_count)
                       else (neighbour, f_node, pruned_count)] |}
            else
              {| inner_visited := visited;
                 inner_queue := inner_queue st;
                 tree_visited := tree_visited st;
                 tree_queue := tree_queue st;
                 indirect_edges := indirect_edges st |}
          else if mem neighbour mediator_nodes then
            {| inner_visited := visited;
               inner_queue :=
                 inner_queue st ++ [(neighbour, pruned_count, new_fwd, new_bwd)];
               tree_visited := tree_visited st;
               tree_queue := tree_queue st;
               indirect_edges := indirect_edges st |}
          else if mem neighbour filtered_nodes then
            {| inner_visited := visited;
               inner_queue :=
                 inner_queue st
                 ++ [(neighbour, S pruned_count, new_fwd, new_bwd)];
               tree_visited := tree_visited st;
               tree_queue := tree_queue st;
               indirect_edges := indirect_edges st |}
          else
            {| inner_visited := visited;
               inner_queue := inner_queue st;
               tree_visited := tree_visited st;
               tree_queue := tree_queue st;
               indirect_edges := indirect_edges st |} in
        inner_scan f_node curr pruned_count fwd bwd rest st
  end.

(** [while inner_queue] *)
Fixpoint inner_loop (fuel : nat) (f_node : string) (st : tree_state)
  : outcome tree_state :=
  match inner_queue st with
  | [] => Return st
  | (curr, pruned_count, fwd, bwd) :: queue =>
      match fuel with
      | O => OutOfFuel
      | S fuel =>
          inner_loop fuel f_node
            (inner_scan f_node curr pruned_count fwd bwd (adj_get r_adj curr)
               {| inner_visited := inner_visited st;
                  inner_queue := queue;
                  tree_visited := tree_visited st;
                  tree_queue := tree_queue st;
                  indirect_edges := indirect_edges st |})
      end
  end.

(** [while tree_queue]; [fuel] bounds this loop and [inner_fuel] each run
    of the inner one. *)
Fixpoint tree_loop (fuel inner_fuel : nat) (st : tree_state)
  : outcome tree_state :=
  match tree_queue st with
  | [] => Return st
  | f_node :: queue =>
      match fuel with
      | O => OutOfFuel
      | S fuel =>
          bind
            (inner_loop inner_fuel f_node
               {| inner_visited := [f_node];
                  inner_queue := [(f_node, 0, 0, 0)];
                  tree_visited := tree_visited st;
                  tree_queue := queue;
                  indirect_edges := indirect_edges st |})
            (tree_loop fuel inner_fuel)
      end
  end.

End Component.

(** The body of [for kept_set, _, adj_map in components_kept];
    [next(iter(kept_set))] is the first element of the list. *)
Definition component_edges (fuel : nat) (found : list indirect_edge)
  (kept_set : list string) : outcome (list indirect_edge) :=
  match kept_set with
  | [] => Raise "StopIteration"
  | root :: _ =>
      bind
        (tree_loop kept_set fuel fuel
           {| inner_visited := [];
              inner_queue := [];
              tree_visited := [root];
              tree_queue := [root];
              indirect_edges := found |})
        (fun st => Return (indirect_edges st))
  end.

(** [indirect_edges] at the end of phase 2. *)
Definition indirect_edges_of (fuel : nat) : outcome (list indirect_edge) :=
  if (2 <=? List.length keep_filtered)%nat then
    bind (components_kept_of fuel) (fun comps => for_each (component_edges fuel) comps [])
  else Return [].

End Phase2.

(** *** Phase 1c: dangling mediators *)

Section Phase1c.

Variables mediator_nodes real_nodes : list string.
Variable surviving_edges : list edge.

(** [post_adj], built at the start of a sweep from the surviving edges that
    touch no removed mediator. *)
Definition post_adj_of (removed_mediator_set : list string) : adjacency_map :=
  fold_left
    (fun adj (e : edge) =>
       let '(src, tgt, _) := e in
       if mem src removed_mediator_set || mem tgt removed_mediator_set then adj
       else adj_add tgt src (adj_add src tgt adj))
    surviving_edges [].

Section Sweep.

Variable post_adj : adjacency_map.

(** The [for nb in post_adj.get(cn, set())] loop of the chain search. *)
Fixpoint chain_scan (removed_mediator_set nbs chain_visited chain_queue
  other_real : list string) : list string * list string * list string :=
  match nbs with
  | [] => (chain_visited, chain_queue, other_real)
  | nb :: rest =>
      if mem nb chain_visited || mem nb removed_mediator_set
      then chain_scan removed_mediator_set rest chain_visited chain_queue other_real
      else
        let chain_visited := chain_visited ++ [nb] in
        if mem nb real_nodes
        then chain_scan removed_mediator_set rest chain_visited chain_queue
               (set_add nb other_real)
        else if mem nb mediator_nodes
             then chain_scan removed_mediator_set rest chain_visited
                    (chain_queue ++ [nb]) other_real
             else chain_scan removed_mediator_set rest chain_visited
                    chain_queue other_real
  end.

(** [while chain_queue]; the result is [other_real]. *)
Fixpoint chain_loop (fuel : nat) (removed_mediator_set chain_visited
  chain_queue other_real : list string) : outcome (list string) :=
  match chain_queue with
  | [] => Return other_real
  | cn :: chain_queue =>
      match fuel with
      | O => OutOfFuel
      | S fuel =>
          let '(chain_visited, chain_queue, other_real) :=
            chain_scan removed_mediator_set (adj_get post_adj cn)
              chain_visited chain_queue other_real in
          chain_loop fuel removed_mediator_set chain_visited chain_queue
            other_real
      end
  end.

(** The body of [for med in mediator_nodes - removed_mediator_set]; the
    state is [(removed_mediator_set, changed)]. *)
Definition examine_mediator (fuel : nat) (st : list string * bool)
  (med : string) : outcome (list string * bool) :=
  let '(removed_mediator_set, changed) := st in
  let neighbours := adj_get post_adj med in
  let real_neighbours := inter neighbours real_nodes in
  let mediator_neighbours :=
    inter neighbours (diff mediator_nodes removed_mediator_set) in
  if (2 <=? List.length real_neighbours)%nat then Return st
  else
    bind
      (if (List.length real_neighbours =? 1)%nat
          && negb (match mediator_neighbours with [] => true | _ => false end)
       then
         bind (chain_loop fuel removed_mediator_set [med] [med] [])
           (fun other_real => Return (2 <=? List.length other_real)%nat)
       else Return false)
      (fun part_of_chain =>
         if part_of_chain then Return st
         else Return (set_add med removed_mediator_set, true)).

End Sweep.

(** [while changed]; [fuel] bounds the sweeps and [chain_fuel] each chain
    search. The result is [removed_mediator_set]. *)
Fixpoint sweep_loop (fuel chain_fuel : nat) (removed_mediator_set : list string)
  : outcome (list string) :=
  match fuel with
  | O => OutOfFuel
  | S fuel =>
      let post_adj := post_adj_of removed_mediator_set in
      bind
        (for_each (examine_mediator post_adj chain_fuel)
           (diff mediator_nodes removed_mediator_set)
           (removed_mediator_set, false))
        (fun st =>
           if snd st then sweep_loop fuel chain_fuel (fst st)
           else Return (fst st))
  end.

End Phase1c.

(** *** The whole pass *)

Definition mem_nat (n : nat) (ns : list nat) : bool := existsb (Nat.eqb n) ns.

(** The indices of the edges that touch a node of [nodes]. *)
Definition edge_indices_touching (nodes : list string) (es : list edge)
  : list nat :=
  map (fun e : edge => snd e)
    (filter (fun e : edge => mem (fst (fst e)) nodes || mem (snd (fst e)) nodes)
       es).

(** The line written for one entry of [indirect_edges]. *)
Definition indirect_edge_line (e : indirect_edge) : string :=
  let '(src, dst, pruned_count) := e in
  let xlabel :=
    if (0 <? pruned_count)%nat
    then ("via " ++ PseudoNodes.dec (Z.of_nat pruned_count) ++ " filtered")%string
    else "indirectly connected"%string in
  quoted src ++ " -> " ++ quoted dst ++ " [style=" ++ quoted "dashed"
  ++ ", color=" ++ quoted "#999999" ++ ", xlabel=" ++ quoted xlabel
  ++ ", fontsize=" ++ quoted "9" ++ ", fontcolor=" ++ quoted "#999999"
  ++ "];" ++ String nl (String nl EmptyString).

(** The index of the last line that is a lone closing brace. *)
Definition closing_index (lines : list string) : option nat :=
  fold_left
    (fun found (il : nat * string) =>
       if String.eqb (strip (snd il)) "}" then Some (fst il) else found)
    (enumerate lines) None.

(** [lines[:closing_idx] + extra + lines[closing_idx:]], or [lines] when
    there is no closing brace. *)
Definition insert_before_closing (extra lines : list string) : list string :=
  match closing_index lines with
  | Some i => firstn i lines ++ extra ++ skipn i lines
  | None => lines
  end.

(** What the pass computes before it writes. *)
Record pruning : Type := {
  filtered_nodes : list string;
  mediator_nodes : list string;
  unfiltered_nodes : list string;
  keep_filtered : list string;
  to_remove : list string;
  new_edges : list indirect_edge;
  removed_mediator_set : list string;
  pruned_lines : list string;
  written_lines : list string
}.

(** The lines that survive the rewriting loop. *)
Definition rewrite_lines (all_nodes_to_purge : list string)
  (final_removed_edges : list nat) (lines : list string) : list string :=
  map snd
    (filter
       (fun il : nat * string =>
          negb (mem_nat (fst il) final_removed_edges)
          && negb (match defines_node (snd il) with
                   | Some id => mem id all_nodes_to_purge
                   | None => false
                   end))
       (enumerate lines)).

(** The body of [prune_and_connect_filtered_nodes] from the parse of the
    lines to the lines it writes, for graphs with a filtered node. *)
Definition analyse (fuel : nat) (lines : list string) : outcome pruning :=
  let g := _parse_dot_graph lines in
  let filtered := filter (endswith "_filtered") (defined_nodes g) in
  let mediators := filter is_mediator_node (defined_nodes g) in
  let unfiltered := diff (diff (defined_nodes g) filtered) mediators in
  bind (keep_filtered_of (adjacency g) unfiltered mediators fuel filtered)
    (fun keep =>
       let removing := diff filtered keep in
       bind (indirect_edges_of filtered mediators keep (edges g) fuel)
         (fun indirect =>
            let removed_edge_indices :=
              edge_indices_touching removing (edges g) in
            let surviving_edges :=
              filter (fun e : edge => negb (mem_nat (snd e) removed_edge_indices))
                (edges g) in
            let real_nodes := union unfiltered keep in
            bind (sweep_loop mediators real_nodes surviving_edges fuel fuel [])
              (fun removed_mediators =>
                 let all_nodes_to_purge := union removing removed_mediators in
                 let final_removed_edges :=
                   edge_indices_touching all_nodes_to_purge (edges g) in
                 let output :=
                   rewrite_lines all_nodes_to_purge final_removed_edges lines in
                 let final :=
                   match indirect with
                   | [] => output
                   | _ :: _ =>
                       insert_before_closing
                         (String nl EmptyString :: map indirect_edge_line indirect)
                         output
                   end in
                 Return
                   {| filtered_nodes := filtered;
                      mediator_nodes := mediators;
                      unfiltered_nodes := unfiltered;
                      keep_filtered := keep;
                      to_remove := removing;
                      new_edges := indirect;
                      removed_mediator_set := removed_mediators;
                      pruned_lines := output;
                      written_lines := final |}))).

(** [prune_and_connect_filtered_nodes(dot_filename, elements_to_exclude)]:
    the content of the file after the call. *)
Definition prune_and_connect_filtered_nodes (fuel : nat) (file : string)
  (elements_to_exclude : list string) : outcome string :=
  match elements_to_exclude with
  | [] => Return file
  | _ :: _ =>
      let lines := readlines file in
      match filter (endswith "_filtered")
              (defined_nodes (_parse_dot_graph lines)) with
      | [] => Return file
      | _ :: _ =>
          bind (analyse fuel lines)
            (fun p =>
               Return
                 (Normalization.collapse_excess_blank_lines
                    (writelines (written_lines p))))
      end
  end.

End FilteredPruning.


(* ================================================================== *)
(** ** dot/postprocess/arrow_fixup.py *)
(* ================================================================== *)

Module ArrowFixup.
Import PyStr DotSyntax.

Definition sq : ascii := "039"%char.

(** [s[n:]] *)
Fixpoint drop (n : nat) (s : string) : string :=
  match n, s with
  | O, _ => s
  | S n', String _ s' => drop n' s'
  | S _, EmptyString => EmptyString
  end.

(** [s[:n]] *)
Fixpoint take (n : nat) (s : string) : string :=
  match n, s with
  | S n', String c s' => String c (take n' s')
  | _, _ => EmptyString
  end.

(** *** [str.replace] *)

(** The scan of [s.replace(old, new)] for a non-empty [old]: [skip] counts
    the characters of an occurrence that are still to be passed. *)
Fixpoint replace_from (old new : string) (skip : nat) (s : string) : string :=
  match s with
  | EmptyString => EmptyString
  | String c s' =>
      match skip with
      | S k => replace_from old new k s'
      | O =>
          if startswith old s
          then (new ++ replace_from old new (String.length old - 1) s')%string
          else String c (replace_from old new 0 s')
      end
  end.

(** With an empty [old], [new] goes before every character and at the
    end. *)
Fixpoint intersperse (new s : string) : string :=
  match s with
  | EmptyString => EmptyString
  | String c s' => String c (new ++ intersperse new s')%string
  end.

(** [s.replace(old, new)] *)
Definition replace (old new s : string) : string :=
  if is_empty old then (new ++ intersperse new s)%string
  else replace_from old new 0 s.

(** *** The patterns *)

(** [\s+] at the start of [s]: the text after the spaces. *)
Definition spaces1 (s : string) : option string :=
  match s with
  | String c _ => if is_space c then Some (lstrip s) else None
  | EmptyString => None
  end.

(** The lazy [(.*?)\];] under [re.DOTALL]: the text before the first
    closing bracket that a semicolon follows, and the text after the
    semicolon. *)
Fixpoint until_close (s : string) : option (string * string) :=
  match s with
  | EmptyString => None
  | String c s' =>
      if Ascii.eqb c "]" && startswith ";" s' then Some (EmptyString, drop 1 s')
      else match until_close s' with
           | Some (a, r) => Some (String c a, r)
           | None => None
           end
  end.

(** One match of [edge_pattern]: groups 1, 2 and 3 and the text after the
    match; group 3 is [None] when the bracketed part is absent. *)
Definition edge_pattern_match (s : string)
  : option (string * string * option string * string) :=
  match quoted_id s with
  | Some (src, r1) =>
      match spaces1 r1 with
      | Some r2 =>
          if startswith "->" r2 then
            match spaces1 (drop2 r2) with
            | Some r3 =>
                match quoted_id r3 with
                | Some (tgt, r4) =>
                    let plain :=
                      match r4 with
                      | String c r5 =>
                          if Ascii.eqb c ";" then Some (src, tgt, None, r5)
                          else None
                      | EmptyString => None
                      end in
                    match spaces1 r4 with
                    | Some (String c r6) =>
                        if Ascii.eqb c "[" then
                          match until_close r6 with
                          | Some (attrs, r7) => Some (src, tgt, Some attrs, r7)
                          | None => plain
                          end
                        else plain
                    | _ => plain
                    end
                | None => None
                end
            | None => None
            end
          else None
      | None => None
      end
  | None => None
  end.

(** [dir\s*=\s*[Q']?word[Q']?] at the start of [s], [Q] the double
    quote. *)
Definition dir_value_at (word s : string) : bool :=
  startswith "dir" s
  && (let r := lstrip (drop 3 s) in
      startswith "=" r
      && (let r := lstrip (drop 1 r) in
          startswith word r
          || match r with
             | String c r' =>
                 (Ascii.eqb c dq || Ascii.eqb c sq) && startswith word r'
             | EmptyString => false
             end)).

(** [re.search] of that pattern. *)
Fixpoint search_dir (word s : string) : bool :=
  dir_value_at word s
  || match s with
     | EmptyString => false
     | String _ s' => search_dir word s'
     end.

(** *** [parse_edges] *)

Record edge_info : Type := {
  source : string;
  target : string;
  full_match : string;
  attributes : string;
  is_undirected : bool;
  already_reversed : bool
}.

(** The text [style=Qinvis Q]. *)
Definition style_invis : string := ("style=" ++ quoted "invis")%string.

(** The body of the loop over the matches: the dictionary that is
    appended, if one is. *)
Definition edge_of_match (text : string)
  (m : string * string * option string * string) : option edge_info :=
  let '(source_id, target_id, group3, rest) := m in
  let attributes := match group3 with Some a => a | None => EmptyString end in
  if contains style_invis attributes then None
  else if search_dir "both" attributes then None
  else
    Some {| source := source_id;
            target := target_id;
            full_match := take (String.length text - String.length rest) text;
            attributes := attributes;
            is_undirected := search_dir "none" attributes;
            already_reversed := search_dir "back" attributes |}.

(** [edge_pattern.finditer(dot_content)] with the body of the loop applied
    to each match; [skip] counts the characters of the last match that are
    still to be passed. *)
Fixpoint scan_edges (skip : nat) (s : string) : list edge_info :=
  match s with
  | EmptyString => []
  | String c s' =>
      match skip with
      | S k => scan_edges k s'
      | O =>
          match edge_pattern_match s with
          | Some m =>
              let '(_, _, _, rest) := m in
              let found :=
                match edge_of_match s m with
                | Some e => [e]
                | None => []
                end in
              found ++ scan_edges (String.length s - String.length rest - 1) s'
          | None => scan_edges 0 s'
          end
      end
  end.

Definition parse_edges (dot_content : string) : list edge_info :=
  scan_edges 0 dot_content.

(** *** [identify_edges_to_reverse] *)

(** [node_positions]: the y coordinate that the layout gave each node. *)
Definition positions : Type := list (string * QArith_base.Q).

Fixpoint position_y (node_positions : positions) (id : string)
  : option QArith_base.Q :=
  match node_positions with
  | [] => None
  | (k, y) :: rest => if String.eqb k id then Some y else position_y rest id
  end.

(** [a < b] on coordinates *)
Definition y_lt (a b : QArith_base.Q) : bool := negb (QArith_base.Qle_bool b a).

Definition needs_reversal (node_positions : positions) (e : edge_info) : bool :=
  if is_undirected e then false
  else if already_reversed e then false
  else
    match position_y node_positions (source e),
          position_y node_positions (target e) with
    | Some source_y, Some target_y => y_lt source_y target_y
    | _, _ => false
    end.

Definition identify_edges_to_reverse (edges : list edge_info)
  (node_positions : positions) : list edge_info :=
  filter (needs_reversal node_positions) edges.

(** *** [modify_arrow_directions] *)

(** The text [dir=Qback Q]. *)
Definition dir_back : string := ("dir=" ++ quoted "back")%string.

(** [modified_edge] for one edge of [edges_to_reverse]. *)
Definition modified_edge (e : edge_info) : string :=
  let original_edge := full_match e in
  if has_char "[" original_edge then
    if negb (is_empty (attributes e)) then
      let new_attrs :=
        if endswith "," (strip (attributes e))
        then (attributes e ++ " " ++ dir_back)%string
        else (attributes e ++ ", " ++ dir_back)%string in
      replace ("[" ++ attributes e ++ "]")%string ("[" ++ new_attrs ++ "]")%string
        original_edge
    else replace "[]" ("[" ++ dir_back ++ "]")%string original_edge
  else replace ";" (" [" ++ dir_back ++ "];")%string original_edge.

Definition modify_arrow_directions (dot_content : string)
  (edges_to_reverse : list edge_info) : string :=
  fold_left
    (fun modified_content e =>
       if is_undirected e then modified_content
       else if already_reversed e then modified_content
       else replace (full_match e) (modified_edge e) modified_content)
    edges_to_reverse dot_content.

(** [fix_arrow_directions(dot_filename)] with the layout given: the content
    of the file after the call. The file is read in text mode and written
    only when an edge is to be reversed. *)
Definition fix_arrow_directions (file : string) (node_positions : positions)
  : string :=
  let dot_content := universal_newlines file in
  match node_positions with
  | [] => file
  | _ :: _ =>
      let edges := parse_edges dot_content in
      match identify_edges_to_reverse edges node_positions with
      | [] => file
      | e :: es => modify_arrow_directions dot_content (e :: es)
      end
  end.

End ArrowFixup.


(* ================================================================== *)
(** ** dot/postprocess/excluded_filter.py *)
(* ================================================================== *)

Module ExcludedFilter.
Import PyStr DotSyntax.

(** [set(str(x).strip() for x in elements_to_exclude if x)] for ids that
    are strings. *)
Definition exclude_set_of (elements_to_exclude : list string) : list string :=
  fold_left
    (fun acc x => if is_empty x then acc else set_add (strip x) acc)
    elements_to_exclude [].

(** The body of the loop over the lines: whether the line goes to
    [output_lines]. *)
Definition keeps_line (exclude_set : list string) (line : string) : bool :=
  let line_stripped := strip line in
  if is_empty line_stripped || startswith "//" line_stripped
     || startswith "#" line_stripped
  then true
  else if startswith "digraph" line_stripped || startswith "graph" line_stripped
          || startswith "subgraph" line_stripped
          || startswith "{" line_stripped || startswith "}" line_stripped
  then true
  else if contains "->" line_stripped then true
  else
    match node_def_match line_stripped with
    | Some node_id =>
        if negb (contains "->" line_stripped) && mem node_id exclude_set
        then false
        else true
    | None => true
    end.

(** [remove_excluded_node_definitions(dot_filename, elements_to_exclude)]:
    the content of the file after the call. The file is written only when
    a line was removed. *)
Definition remove_excluded_node_definitions (file : string)
  (elements_to_exclude : list string) : string :=
  match elements_to_exclude with
  | [] => file
  | _ :: _ =>
      match exclude_set_of elements_to_exclude with
      | [] => file
      | x :: xs =>
          let exclude_set := x :: xs in
          let lines := readlines file in
          let output_lines := filter (keeps_line exclude_set) lines in
          let removed_count :=
            List.length
              (filter (fun line => negb (keeps_line exclude_set line)) lines) in
          if (0 <? removed_count)%nat then writelines output_lines else file
      end
  end.

End ExcludedFilter.


(* ================================================================== *)
(** ** config/filters.py: the parsers of the custom filter strings *)
(* ================================================================== *)

Module FilterParsing.
Import Filters.

(** [s.split(sep)] for a separator that is not empty: the pieces between
    the occurrences of [sep], which are found from the left and do not
    overlap. [skip] counts the characters of an occurrence that are still
    to be passed over, [piece] is the piece read so far. *)
Fixpoint split_from (sep : string) (skip : nat) (piece s : string)
  : list string :=
  match s with
  | EmptyString => [piece]
  | String c s' =>
      match skip with
      | S k => split_from sep k piece s'
      | 0 =>
          if startswith sep s
          then piece :: split_from sep (String.length sep - 1) EmptyString s'
          else split_from sep 0 (piece ++ String c EmptyString)%string s'
      end
  end.

Definition split (sep s : string) : list string :=
  split_from sep 0 EmptyString s.

(** [if k not in filters: filters[k] = []] followed by
    [if v not in filters[k]: filters[k].append(v)] *)
Fixpoint add_rule (k v : string) (filters : filter_map) : filter_map :=
  match filters with
  | [] => [(k, [v])]
  | (k', vs) :: rest =>
      if String.eqb k' k
      then (k', if mem v vs then vs else vs ++ [v]) :: rest
      else (k', vs) :: add_rule k v rest
  end.

(** One turn of the loop over the filter strings; a string that does not
    split in two at [" to "] is skipped with a warning. *)
Definition parse_step (filters : filter_map) (f_str : string) : filter_map :=
  match split " to " f_str with
  | [thesis_part; id_part] =>
      add_rule (lstrip_hash (strip id_part)) (strip thesis_part) filters
  | _ => filters
  end.

(** [parse_custom_prop_filters(filter_strings)] *)
Definition parse_custom_prop_filters (filter_strings : list string)
  : filter_map :=
  fold_left parse_step filter_strings [].

(** [parse_custom_seq_phase_filters(filter_strings)]: the same loop, on
    the strings of the sequence filters. *)
Definition parse_custom_seq_phase_filters (filter_strings : list string)
  : filter_map :=
  fold_left parse_step filter_strings [].

End FilterParsing.


(* ================================================================== *)
(** ** dot/postprocess/edge_validation.py *)
(* ================================================================== *)

Module EdgeValidation.
Import DotSyntax Xml.
Import FilterParsing(split).
Import ExcludedFilter(exclude_set_of).
Import FilteredPruning(insert_before_closing).

(** An entry of [_FILTERED_NODE_STYLES]. *)
Record node_style : Type := {
  fill : string;
  border : string;
  shape : string;
  style : string;
  gephi_label : string
}.

Definition thesis_style : node_style :=
  {| fill := "#f0faf0"; border := "#82b366"; shape := "box";
     style := "rounded,filled"; gephi_label := "THES" |}.

Definition support_style : node_style :=
  {| fill := "#dae8fc"; border := "#7c9ac7"; shape := "ellipse";
     style := "rounded,filled"; gephi_label := "SUPP" |}.

(** [_FILTERED_NODE_STYLES.get(element_type, ...)] with the entry of
    THESIS as the default. *)
Definition filtered_node_style (element_type : string) : node_style :=
  if String.eqb element_type "SUPPORT" then support_style else thesis_style.

(** [s.upper().startswith(T)] for the letter T, on code points below 256:
    the first character is the small or the capital letter. *)
Definition upper_startswith_T (s : string) : bool :=
  match s with
  | EmptyString => false
  | String c _ => let n := nat_of_ascii c in ((n =? 84) || (n =? 116))%nat
  end.

(** The same for the letter S; [upper] also turns the sharp s (code point
    223) into two capital letters S. *)
Definition upper_startswith_S (s : string) : bool :=
  match s with
  | EmptyString => false
  | String c _ =>
      let n := nat_of_ascii c in ((n =? 83) || (n =? 115) || (n =? 223))%nat
  end.

(** [s[1:2].isdigit()] *)
Definition second_isdigit (s : string) : bool :=
  match s with
  | String _ (String d _) => PseudoNodes.is_digit_char d
  | _ => false
  end.

(** [_infer_element_type_from_id(node_id)] *)
Definition _infer_element_type_from_id (node_id : string) : string :=
  let id_parts := split "." node_id in
  let last_part := last id_parts node_id in
  if upper_startswith_T last_part && second_isdigit last_part then "THESIS"
  else if upper_startswith_S last_part && second_isdigit last_part
       then "SUPPORT"
       else "THESIS".

(** Whether lxml takes the text of a query: it raises [ValueError] on a
    control character other than tab, newline and carriage return. *)
Definition xml_compatible (s : string) : bool :=
  PseudoNodes.all_chars
    (fun c => let n := nat_of_ascii c in
              ((32 <=? n) || (n =? 9) || (n =? 10) || (n =? 13))%nat) s.

(** Whether the query [*[@xml:id=Q...Q]] can be asked for [id], which is
    written between two double quotes [Q]: the ids that the pass asks for
    are ends of edges or parts of them, and hold no double quote. *)
Definition query_ok (id : string) : bool :=
  xml_compatible id && negb (has_char dq id).

(** The test [@xml:id=Q...Q] of the queries. *)
Definition has_xml_id (id : string) (e : element) : bool :=
  match get e "xml:id" with
  | Some v => String.eqb v id
  | None => false
  end.

(** [_get_excluded_element_type(elem_id, xml_root, namespaces)]. The tags
    are written without their namespace, of which the name holds neither
    word. An exception of the query is caught by the function. *)
Definition _get_excluded_element_type (elem_id : string)
  (xml_root : option element) : string :=
  match xml_root with
  | None => _infer_element_type_from_id elem_id
  | Some root =>
      if negb (query_ok elem_id) then _infer_element_type_from_id elem_id
      else
        let elements := filter (has_xml_id elem_id) (descendants root) in
        let elements :=
          match elements with
          | [] =>
              let id_parts := split "." elem_id in
              if (1 <? List.length id_parts)%nat
              then filter (has_xml_id (last id_parts elem_id))
                     (descendants root)
              else []
          | _ :: _ => elements
          end in
        match elements with
        | e :: _ =>
            if contains "THESIS" (tag e) then "THESIS"
            else if contains "SUPPORT" (tag e) then "SUPPORT"
                 else _infer_element_type_from_id elem_id
        | [] => _infer_element_type_from_id elem_id
        end
  end.

(** [s.rsplit(c, 1)[0]] when [c in s]: the text before the last [c]. *)
Fixpoint before_last (c : ascii) (s : string) : option string :=
  match s with
  | EmptyString => None
  | String a s' =>
      match before_last c s' with
      | Some h => Some (String a h)
      | None => if Ascii.eqb a c then Some EmptyString else None
      end
  end.

(** [_make_filtered_node_line(excluded_id, element_type)] *)
Definition _make_filtered_node_line (excluded_id element_type : string)
  : string :=
  let style_entry := filtered_node_style element_type in
  let label :=
    ("<b>" ++ element_type ++ "</b><br/><i>(filtered)</i>")%string in
  let source_attr :=
    match before_last "." excluded_id with
    | Some source_id => (", source=" ++ quoted source_id)%string
    | None => EmptyString
    end in
  quoted (excluded_id ++ "_filtered") ++ " [label=<" ++ label
  ++ ">, gephi_label=" ++ quoted (gephi_label style_entry)
  ++ ", gephi_filtered=" ++ quoted "true" ++ ", fontsize=" ++ quoted "11"
  ++ ", fillcolor=" ++ quoted (fill style_entry)
  ++ ", color=" ++ quoted (border style_entry)
  ++ ", style=" ++ quoted (style style_entry)
  ++ ", shape=" ++ quoted (shape style_entry) ++ source_attr ++ "];"
  ++ String nl (String nl EmptyString).

(** The first element in document order, among [e] and what is below it,
    whose [xml:id] is [id], with the elements above it from the outermost
    on; [above] are the elements above [e]. *)
Fixpoint locate (id : string) (above : list element) (e : element)
  : option (element * list element) :=
  match e with
  | Element _ _ _ cs =>
      if has_xml_id id e then Some (e, above)
      else
        (fix among (cs : list element) : option (element * list element) :=
           match cs with
           | [] => None
           | c :: cs' =>
               match locate id (above ++ [e]) c with
               | Some r => Some r
               | None => among cs'
               end
           end) cs
  end.

(** [thesis_id = e.get(xml:id)] followed by
    [if thesis_id in valid_defined_nodes: return thesis_id] *)
Definition defined_id (valid_defined_nodes : list string) (e : element)
  : option string :=
  match get e "xml:id" with
  | Some thesis_id =>
      if mem thesis_id valid_defined_nodes then Some thesis_id else None
  | None => None
  end.

(** The helper [find_thesis_ancestor(node_id, valid_defined_nodes,
    xml_root_to_search, local_namespaces)]. The query [//*] looks at every
    element of the document, the root included; the axis [ancestor] gives
    its elements in document order, so that the first one is the
    outermost. Any exception is caught and gives [None]. *)
Definition find_thesis_ancestor (node_id : string)
  (valid_defined_nodes : list string) (xml_root_to_search : option element)
  : option string :=
  match xml_root_to_search with
  | None => None
  | Some root =>
      let id_parts := split "." node_id in
      let extracted_id :=
        if (1 <? List.length id_parts)%nat then last id_parts node_id
        else node_id in
      if negb (query_ok node_id) then None
      else
        let found :=
          match (if is_empty node_id then None else locate node_id [] root)
          with
          | Some r => Some r
          | None =>
              if is_empty extracted_id then None
              else locate extracted_id [] root
          end in
        match found with
        | None => None
        | Some (found_element, above) =>
            match (if has_tag "THESIS" found_element
                   then defined_id valid_defined_nodes found_element
                   else None) with
            | Some thesis_id => Some thesis_id
            | None =>
                match filter (has_tag "THESIS") above with
                | ancestor_thesis :: _ =>
                    defined_id valid_defined_nodes ancestor_thesis
                | [] => None
                end
            end
        end
  end.

(** What the first pass gathers. *)
Record scan : Type := {
  defined_nodes : list string;
  edge_references : list string;
  edges_data : list (nat * string * string * string)
}.

(** One turn of the first pass, for the line [line] of index [i]. *)
Definition scan_step (st : scan) (il : nat * string) : scan :=
  let '(i, line) := il in
  match classify line with
  | EdgeLine source target =>
      {| defined_nodes := defined_nodes st;
         edge_references := set_add target (set_add source (edge_references st));
         edges_data := edges_data st ++ [(i, source, target, line)] |}
  | NodeLine node_id =>
      {| defined_nodes := set_add node_id (defined_nodes st);
         edge_references := edge_references st;
         edges_data := edges_data st |}
  | OtherLine => st
  end.

Definition first_pass (lines : list string) : scan :=
  fold_left scan_step (enumerate lines)
    {| defined_nodes := []; edge_references := []; edges_data := [] |}.

(** [sorted(edges_data, key=lambda x: x[0], reverse=True)], a stable
    sort. *)
Definition datum_index (d : nat * string * string * string) : nat :=
  fst (fst (fst d)).

Fixpoint insert_by_index (d : nat * string * string * string)
  (l : list (nat * string * string * string))
  : list (nat * string * string * string) :=
  match l with
  | [] => [d]
  | y :: l' =>
      if (datum_index d <=? datum_index y)%nat
      then y :: insert_by_index d l'
      else d :: l
  end.

Definition sorted_reverse (l : list (nat * string * string * string))
  : list (nat * string * string * string) :=
  fold_left (fun acc d => insert_by_index d acc) l [].

(** [line[:len(line) - len(line.lstrip())]] *)
Fixpoint indentation_of (line : string) : string :=
  match line with
  | EmptyString => EmptyString
  | String c s' =>
      if is_space c then String c (indentation_of s') else EmptyString
  end.

(** [line[re.search(re.escape(p), line).end():]]: the text after the
    first place where [p] is read in [line]. *)
Fixpoint text_after (p line : string) : option string :=
  if startswith p line
  then Some (ArrowFixup.drop (String.length p) line)
  else match line with
       | EmptyString => None
       | String _ s' => text_after p s'
       end.

(** [d[i] = v] for an index of the list *)
Fixpoint set_at {A : Type} (i : nat) (v : A) (l : list A) : list A :=
  match l, i with
  | [], _ => []
  | _ :: l', 0 => v :: l'
  | x :: l', S i' => x :: set_at i' v l'
  end.

(** [if node not in filtered_nodes_to_add:
       filtered_nodes_to_add[node] = line] *)
Definition add_filtered (node line : string) (added : list (string * string))
  : list (string * string) :=
  if existsb (fun kv : string * string => String.eqb (fst kv) node) added
  then added
  else added ++ [(node, line)].

(** The state of the second pass. *)
Record rewriting : Type := {
  processed_lines : list (option string);
  filtered_nodes_to_add : list (string * string)
}.

(** The resolution of one end of an edge, which the code writes once for
    the source and once for the target: the final end, whether the edge
    can still be preserved, whether it needs a modification, and the
    definitions to add. The entry of [excluded_type_cache] for an excluded
    id is [_get_excluded_element_type] of that id. *)
Definition resolve_end (xml_root_original : option element)
  (defined excluded_set : list string) (node : string)
  (needs_modification : bool) (added : list (string * string))
  : string * bool * bool * list (string * string) :=
  if mem node excluded_set then
    ((node ++ "_filtered")%string, true, true,
     add_filtered node
       (_make_filtered_node_line node
          (_get_excluded_element_type node xml_root_original))
       added)
  else
    match find_thesis_ancestor node defined xml_root_original with
    | Some ancestor =>
        if is_empty ancestor then (node, false, needs_modification, added)
        else (ancestor, true, true, added)
    | None => (node, false, needs_modification, added)
    end.

(** One turn of the second pass. *)
Definition process_edge (xml_root_original : option element)
  (defined missing_nodes excluded_set : list string) (st : rewriting)
  (d : nat * string * string * string) : rewriting :=
  let '(index, source_node, target_node, original_line) := d in
  let source_missing := mem source_node missing_nodes in
  let target_missing := mem target_node missing_nodes in
  if negb source_missing && negb target_missing then st
  else
    let '(final_source, can_preserve, needs_modification, added) :=
      if source_missing
      then resolve_end xml_root_original defined excluded_set source_node
             false (filtered_nodes_to_add st)
      else (source_node, true, false, filtered_nodes_to_add st) in
    let '(final_target, can_preserve, needs_modification, added) :=
      if target_missing && can_preserve
      then resolve_end xml_root_original defined excluded_set target_node
             needs_modification added
      else (target_node, can_preserve, needs_modification, added) in
    let can_preserve :=
      if String.eqb final_source final_target then false else can_preserve in
    if can_preserve then
      if needs_modification then
        match text_after (quoted target_node) original_line with
        | Some rest_of_line =>
            let modified_line :=
              (indentation_of original_line ++ quoted final_source ++ " -> "
               ++ quoted final_target ++ rest_of_line)%string in
            {| processed_lines :=
                 set_at index (Some modified_line) (processed_lines st);
               filtered_nodes_to_add := added |}
        | None =>
            {| processed_lines := set_at index None (processed_lines st);
               filtered_nodes_to_add := added |}
        end
      else {| processed_lines := processed_lines st;
              filtered_nodes_to_add := added |}
    else
      {| processed_lines := set_at index None (processed_lines st);
         filtered_nodes_to_add := added |}.

(** [[line for i, line in sorted(processed_lines.items())
      if line is not None]] *)
Definition present_lines (processed : list (option string)) : list string :=
  flat_map (fun o : option string =>
              match o with
              | Some line => [line]
              | None => []
              end) processed.

(** [redirect_or_remove_invalid_edges(dot_filename, xml_filename,
    namespaces, elements_to_exclude)]: the content of the file after the
    call. [xml_root_original] is the root of the document read again, or
    [None] when that failed. *)
Definition redirect_or_remove_invalid_edges (file : string)
  (xml_root_original : option element) (elements_to_exclude : list string)
  : string :=
  let lines := readlines file in
  let found := first_pass lines in
  let missing_nodes :=
    filter (fun x => negb (mem x (defined_nodes found)))
      (edge_references found) in
  let excluded_set := exclude_set_of elements_to_exclude in
  let st :=
    fold_left
      (process_edge xml_root_original (defined_nodes found) missing_nodes
         excluded_set)
      (sorted_reverse (edges_data found))
      {| processed_lines := map Some lines; filtered_nodes_to_add := [] |} in
  let final_lines := present_lines (processed_lines st) in
  let final_lines :=
    match filtered_nodes_to_add st with
    | [] => final_lines
    | _ :: _ =>
        insert_before_closing
          (EmptyString :: map snd (filtered_nodes_to_add st)) final_lines
    end in
  writelines final_lines.

End EdgeValidation.


(* ================================================================== *)
(** * Properties *)
(* ================================================================== *)

Unset Implicit Arguments.

(** ** Strings *)

Module StrFacts.

Lemma append_empty_r (s : string) : (s ++ "")%string = s.
Proof. induction s; cbn; congruence. Qed.

Lemma append_assoc (a b c : string) : ((a ++ b) ++ c = a ++ (b ++ c))%string.
Proof. induction a; cbn; congruence. Qed.

Lemma append_length (a b : string) :
  String.length (a ++ b) = String.length a + String.length b.
Proof. induction a; cbn; auto. Qed.




Lemma startswith_iff p : forall t,
  startswith p t = true <-> exists post, t = (p ++ post)%string.
Proof.
  induction p as [|a p IH]; intros t; cbn.
  - split; [intros _; now exists t | reflexivity].
  - destruct t as [|b t]; [split; [discriminate | intros [post [=]]]|].
    rewrite andb_true_iff, Ascii.eqb_eq, IH. split.
    + intros [-> [post ->]]. now exists post.
    + intros [post [= -> ->]]. split; [reflexivity | now exists post].
Qed.

Lemma contains_iff p : forall s,
  contains p s = true <-> exists pre post, s = (pre ++ p ++ post)%string.
Proof.
  induction s as [|c s IH]; cbn [contains].
  - rewrite orb_false_r, startswith_iff. split.
    + intros [post E]. now exists EmptyString, post.
    + intros [[|x pre] [post E]]; [now exists post | discriminate].
  - rewrite orb_true_iff, startswith_iff, IH. split.
    + intros [[post E] | [pre [post E]]].
      * now exists EmptyString, post.
      * exists (String c pre), post. cbn. now rewrite E.
    + intros [[|x pre] [post E]].
      * left. now exists post.
      * right. injection E as -> E. now exists pre, post.
Qed.


End StrFacts.

(** ** Lines of a text file *)

Module LineFacts.
Import StrFacts.

(** A line as [readlines] returns it when it is not the last one: free of
    newlines up to its final character, which is the newline. *)
Inductive terminated : string -> Prop :=
| term_nl : terminated (String nl EmptyString)
| term_cons c s : Ascii.eqb c nl = false -> terminated s -> terminated (String c s).

(** A last line that the file does not end with a newline after. *)
Inductive unterminated : string -> Prop :=
| unterm_one c : Ascii.eqb c nl = false -> unterminated (String c EmptyString)
| unterm_cons c s : Ascii.eqb c nl = false -> unterminated s -> unterminated (String c s).

(** The shape of every list of lines read from a file. *)
Inductive file_lines : list string -> Prop :=
| fl_nil : file_lines []
| fl_last l : unterminated l -> file_lines [l]
| fl_cons l ls : terminated l -> file_lines ls -> file_lines (l :: ls).

Fixpoint no_cr (s : string) : Prop :=
  match s with
  | EmptyString => True
  | String c s' => Ascii.eqb c cr = false /\ no_cr s'
  end.

Lemma split_keepends_file_lines s : file_lines (split_keepends s).
Proof.
  induction s as [|c s IH]; simpl; [constructor|].
  destruct (Ascii.eqb c nl) eqn:E.
  - apply fl_cons; [constructor | exact IH].
  - destruct (split_keepends s) as [|l ls]; [apply fl_last; now constructor|].
    inversion IH; subst.
    + apply fl_last. now constructor.
    + apply fl_cons; [now constructor | assumption].
Qed.

Lemma file_lines_tail l ls : file_lines (l :: ls) -> file_lines ls.
Proof. inversion 1; subst; [constructor | assumption]. Qed.

Lemma split_keepends_unterminated l :
  unterminated l -> split_keepends l = [l].
Proof.
  induction 1 as [c E | c s E H IH]; simpl; rewrite E; [reflexivity|].
  now rewrite IH.
Qed.

Lemma split_keepends_terminated l rest :
  terminated l -> split_keepends (l ++ rest) = l :: split_keepends rest.
Proof.
  induction 1 as [| c s E H IH]; simpl.
  - reflexivity.
  - rewrite E, IH. reflexivity.
Qed.

Lemma split_keepends_join ls :
  file_lines ls -> split_keepends (join ls) = ls.
Proof.
  induction 1 as [| l H | l ls H Hls IH]; simpl.
  - reflexivity.
  - rewrite append_empty_r. now apply split_keepends_unterminated.
  - rewrite split_keepends_terminated by assumption. now rewrite IH.
Qed.

Lemma no_cr_app (a b : string) : no_cr a -> no_cr b -> no_cr (a ++ b)%string.
Proof. induction a; simpl; intuition. Qed.

Lemma universal_newlines_no_cr s : no_cr (universal_newlines s).
Proof.
  assert (Hnl : Ascii.eqb nl cr = false) by reflexivity.
  remember (String.length s) as n eqn:Hn.
  revert s Hn. induction n as [n IH] using lt_wf_ind. intros s Hn.
  destruct s as [|c s]; simpl; [exact I|].
  destruct (Ascii.eqb c cr) eqn:E.
  - destruct s as [|c' s']; [simpl; auto|].
    destruct (Ascii.eqb c' nl) eqn:E'.
    + apply (IH (String.length (String c' s'))); [subst; simpl; lia | reflexivity].
    + split; [exact Hnl|].
      apply (IH (String.length (String c' s'))); [subst; simpl; lia | reflexivity].
  - split; [exact E|].
    apply (IH (String.length s)); [subst; simpl; lia | reflexivity].
Qed.

Lemma universal_newlines_id s : no_cr s -> universal_newlines s = s.
Proof.
  induction s as [|c s IH]; simpl; [reflexivity|].
  intros [E H]. rewrite E. now rewrite IH.
Qed.

Lemma no_cr_split_keepends s :
  no_cr s -> Forall no_cr (split_keepends s).
Proof.
  induction s as [|c s IH]; simpl; [constructor|].
  intros [E H]. specialize (IH H).
  destruct (Ascii.eqb c nl).
  - constructor; [simpl; auto | exact IH].
  - destruct (split_keepends s) as [|l ls].
    + constructor; [simpl; auto | constructor].
    + inversion IH; subst. constructor; [simpl; auto | assumption].
Qed.

Lemma no_cr_join ls : Forall no_cr ls -> no_cr (join ls).
Proof.
  induction 1; simpl; [exact I|]. now apply no_cr_app.
Qed.

(** What a pass that keeps a sub-list of the lines it read writes back is
    read again as that same list of lines. *)
Lemma readlines_writelines ls :
  file_lines ls -> Forall no_cr ls -> readlines (writelines ls) = ls.
Proof.
  intros Hfl Hcr. unfold readlines, writelines.
  rewrite universal_newlines_id by now apply no_cr_join.
  now apply split_keepends_join.
Qed.

Lemma readlines_file_lines c : file_lines (readlines c).
Proof. apply split_keepends_file_lines. Qed.

Lemma readlines_no_cr c : Forall no_cr (readlines c).
Proof. apply no_cr_split_keepends, universal_newlines_no_cr. Qed.

End LineFacts.

(** ** Deduplication *)

Module DeduplicationFacts.
Import Deduplication LineFacts.

(** The stripped texts of the definition lines (those that start with a
    double quote) of a list of lines, in order. *)
Fixpoint keys (lines : list string) : list string :=
  match lines with
  | [] => []
  | line :: rest =>
      if startswith (String dq EmptyString) (strip line)
      then strip line :: keys rest else keys rest
  end.

Lemma mem_true_iff x xs : mem x xs = true <-> In x xs.
Proof.
  unfold mem. rewrite existsb_exists. split.
  - intros [y [Hy E]]. apply String.eqb_eq in E. now subst.
  - intros H. exists x. split; [assumption | apply String.eqb_refl].
Qed.

Lemma mem_false_iff x xs : mem x xs = false <-> ~ In x xs.
Proof.
  rewrite <- mem_true_iff. destruct (mem x xs); split; congruence.
Qed.

Lemma dedup_loop_keys lines : forall seen,
  NoDup (keys (dedup_loop seen lines))
  /\ forall k, In k (keys (dedup_loop seen lines)) -> ~ In k seen.
Proof.
  induction lines as [|line rest IH]; intros seen; cbn [dedup_loop keys].
  - split; [constructor | intros k []].
  - destruct (startswith (String dq EmptyString) (strip line)) eqn:Q.
    + destruct (mem (strip line) seen) eqn:M.
      * apply IH.
      * cbn [keys]. rewrite Q. destruct (IH (strip line :: seen)) as [ND D].
        split.
        -- constructor; [|exact ND]. intros Hin. apply (D _ Hin). now left.
        -- intros k [<- | Hin].
           ++ now apply mem_false_iff.
           ++ intros Hs. apply (D _ Hin). now right.
    + cbn [keys]. rewrite Q. apply IH.
Qed.

Lemma dedup_loop_fixed lines : forall seen,
  NoDup (keys lines) ->
  (forall k, In k (keys lines) -> ~ In k seen) ->
  dedup_loop seen lines = lines.
Proof.
  induction lines as [|line rest IH]; intros seen ND D;
    cbn [dedup_loop keys] in *.
  - reflexivity.
  - destruct (startswith (String dq EmptyString) (strip line)) eqn:Q.
    + inversion ND as [|k ks Hk ND']; subst.
      assert (M : mem (strip line) seen = false).
      { apply mem_false_iff. apply D. now left. }
      rewrite M. f_equal. apply IH; [assumption|].
      intros k Hin [<- | Hs]; [contradiction|].
      apply (D k); [now right | assumption].
    + f_equal. now apply IH.
Qed.

Lemma dedup_loop_file_lines lines : forall seen,
  file_lines lines -> file_lines (dedup_loop seen lines).
Proof.
  induction lines as [|line rest IH]; intros seen H; cbn [dedup_loop];
    [constructor|].
  assert (Hk : forall seen', file_lines (line :: dedup_loop seen' rest)).
  { intros seen'. inversion H; subst.
    - cbn [dedup_loop]. now constructor.
    - apply fl_cons; [assumption | now apply IH]. }
  destruct (startswith _ _); [destruct (mem _ _)|]; try apply Hk.
  apply IH. eapply file_lines_tail; eassumption.
Qed.

Lemma dedup_loop_Forall (P : string -> Prop) lines : forall seen,
  Forall P lines -> Forall P (dedup_loop seen lines).
Proof.
  induction lines as [|line rest IH]; intros seen H; cbn [dedup_loop];
    [constructor|].
  inversion H; subst.
  destruct (startswith _ _); [destruct (mem _ _)|]; auto.
Qed.

(** C9. The deduplication pass is idempotent on the content of the file:
    for every text, running [remove_duplicate_definitions] on the file it
    has just rewritten leaves the content exactly as the first run wrote
    it. *)
Theorem C9_remove_duplicate_definitions_idempotent (content : string) :
  remove_duplicate_definitions (remove_duplicate_definitions content)
  = remove_duplicate_definitions content.
Proof.
  unfold remove_duplicate_definitions.
  rewrite readlines_writelines.
  - f_equal. apply dedup_loop_fixed.
    + apply dedup_loop_keys.
    + intros k _ [].
  - apply dedup_loop_file_lines, readlines_file_lines.
  - apply dedup_loop_Forall, readlines_no_cr.
Qed.

End DeduplicationFacts.

(** ** Identifier generator *)

Module PseudoNodesFacts.
Import PseudoNodes StrFacts.










Section Freshness.

Variable lines : list string.
Variable needle : string -> string.
Hypothesis needle_inj : forall a b, needle a = needle b -> a = b.

Let collides (c : string) : bool := existsb (contains (needle c)) lines.


Variable prefix : string.





(** The candidates of the string loop started at [u]. *)
Definition string_candidate (s u : string) (k : nat) : string :=
  match k with
  | O => u
  | S _ => prefix ++ s ++ "_" ++ dec (Z.of_nat k)
  end.


End Freshness.







Section Returns.

Variable lines : list string.
Variable needle : string -> string.
Hypothesis needle_inj : forall a b, needle a = needle b -> a = b.
Variable prefix : string.

Let collides (c : string) : bool := existsb (contains (needle c)) lines.





End Returns.







(** A line is a definition of the node [id] when it starts with the quoted
    id and the opening bracket of its attributes, the way every node line
    of the lowering is written. *)
Definition defines (id line : string) : bool :=
  startswith (quoted id ++ " [") line.

Lemma defines_contains id line :
  defines id line = true -> contains (quoted id) line = true.
Proof.
  unfold defines. rewrite startswith_iff, contains_iff.
  intros [post E]. exists EmptyString, (" [" ++ post)%string.
  cbn [String.append]. now rewrite E, append_assoc.
Qed.

Import Support.







(** Written lines in which the first candidate of an unspecified omitted
    target is taken already. *)
Definition sample_written_lines : list string :=
  [(quoted "S1_to_omitted_ELEMENTS_unspecified" ++ " [label=<x>];")%string;
   (quoted "S1_func" ++ " -> " ++ quoted "S1_to_omitted_ELEMENTS_unspecified"
    ++ ";")%string].

Example allocate_appends_counter :
  allocate 3 sample_written_lines (Targets "S1" "omitted_ELEMENTS")
    (SStr "unspecified")
  = Return "S1_to_omitted_ELEMENTS_unspecified_1"%string.
Proof. reflexivity. Qed.

Example allocate_increments_number :
  allocate 3
    [(quoted "T1_to_T2_1" ++ " [x];")%string; (quoted "T1_to_T2_2" ++ " [x];")%string]
    (Entailments "T1" "T2") (SInt 1)
  = Return "T1_to_T2_3"%string.
Proof. reflexivity. Qed.


End PseudoNodesFacts.

(** ** Custom sequence and phase filters *)

Module FiltersFacts.
Import Xml Filters.




(** The inner loop, over the phase elements, for one removed record. *)
Definition inner_loop (removed_index num_m_seq_siblings : nat)
  (phases_info : list (element * list element)) (m : removal_table)
  : removal_table :=
  fold_left
    (fun m (ph : element * list element) =>
       let '(phase_element, mpp_siblings) := ph in
       match phase_to_remove removed_index num_m_seq_siblings mpp_siblings with
       | Some x => removal_add phase_element x m
       | None => m
       end)
    phases_info m.





(** A THESIS whose sequence has two matching sequence records and one phase
    element with a single phase record. *)
Definition sample_document : element :=
  Element 0 "AEsystem" []
    [Element 1 "THESIS" [("xml:id", "T1")]
       [Element 2 "sequence" []
          [Element 3 "matchingPropositionSequence" [("sequenceRef", "#s1")] [];
           Element 4 "matchingPropositionSequence" [("sequenceRef", "#s2")] [];
           Element 5 "phasesGroup" []
             [Element 6 "newPhases" []
                [Element 7 "phase" []
                   [Element 8 "matchingPropositionPhases" [] []]]]]]].

Example first_sibling_takes_phase_record :
  map uid (descendants
             (apply_custom_seq_phase_filters sample_document [("s1", ["T1"])]))
  = [1; 2; 4; 5; 6; 7].
Proof. reflexivity. Qed.




End FiltersFacts.

(** ** Document trees *)

Module XmlFacts.
Import Xml.

(** Induction on a tree with the hypothesis for all children. *)
Lemma element_ind' (P : element -> Prop) :
  (forall u t a cs, Forall P cs -> P (Element u t a cs)) ->
  forall e, P e.
Proof.
  intros H. fix IH 1. intros [u t a cs]. apply H.
  induction cs as [|c cs IHcs]; constructor; [apply IH | exact IHcs].
Qed.

Lemma in_descendants u t a cs d :
  In d (descendants (Element u t a cs))
  <-> exists c, In c cs /\ (d = c \/ In d (descendants c)).
Proof.
  cbn [descendants]. rewrite in_flat_map. split.
  - intros [c [Hc [<- | Hd]]]; exists c; auto.
  - intros [c [Hc [-> | Hd]]]; exists c; cbn; auto.
Qed.

Lemma detach_children u i t a cs :
  detach u (Element i t a cs)
  = Element i t a
      (map (detach u) (filter (fun c => negb (Nat.eqb (uid c) u)) cs)).
Proof.
  cbn [detach]. f_equal.
  induction cs as [|c cs IH]; cbn [filter map]; [reflexivity|].
  destruct (Nat.eqb (uid c) u); cbn [negb map]; now rewrite IH.
Qed.

Lemma detach_uid u e : uid (detach u e) = uid e.
Proof. now destruct e. Qed.

Lemma detach_tag u e : tag (detach u e) = tag e.
Proof. now destruct e. Qed.

(** What is left after a removal was there before, and is not the element
    that was removed. *)
Lemma detach_descendants u e : forall d,
  In d (descendants (detach u e)) ->
  uid d <> u
  /\ exists d0, In d0 (descendants e) /\ uid d0 = uid d /\ tag d0 = tag d.
Proof.
  induction e as [i t a cs IH] using element_ind'. intros d.
  rewrite detach_children, in_descendants.
  intros [c' [Hc' Hd]].
  apply in_map_iff in Hc' as [c [<- Hc]].
  apply filter_In in Hc as [Hc Hne].
  apply negb_true_iff, Nat.eqb_neq in Hne.
  rewrite Forall_forall in IH.
  destruct Hd as [-> | Hd].
  - rewrite detach_uid, detach_tag. split; [exact Hne|].
    exists c. split; [|auto].
    apply in_descendants. exists c. auto.
  - destruct (IH c Hc d Hd) as [Hu [d0 [Hd0 E]]]. split; [exact Hu|].
    exists d0. split; [|exact E].
    apply in_descendants. exists c. auto.
Qed.

Lemma fold_detach_descendants us : forall e d,
  In d (descendants (fold_left (fun r u => detach u r) us e)) ->
  ~ In (uid d) us
  /\ exists d0, In d0 (descendants e) /\ uid d0 = uid d /\ tag d0 = tag d.
Proof.
  induction us as [|u us IH]; intros e d; cbn [fold_left].
  - intros H. split; [intros [] | exists d; auto].
  - intros H. destruct (IH _ _ H) as [Hn [d1 [Hd1 [Eu Et]]]].
    destruct (detach_descendants u e d1 Hd1) as [Hne [d0 [Hd0 [Eu0 Et0]]]].
    split.
    + intros [E | Hin]; [congruence | contradiction].
    + exists d0. split; [exact Hd0 | split; congruence].
Qed.

End XmlFacts.

(** ** Global toggles *)

Module OrchestratorFacts.
Import Xml Orchestrator XmlFacts.

Lemma remove_each_fold found root :
  remove_each found root
  = fold_left (fun r u => detach u r) (map uid found) root.
Proof.
  unfold remove_each. revert root.
  induction found as [|x found IH]; intros root; cbn [fold_left map];
    [reflexivity | apply IH].
Qed.

(** Removing every element of a tag leaves no element of that tag. *)
Lemma remove_each_tag_gone t root :
  xpath_descendants t (remove_each (xpath_descendants t root) root) = [].
Proof.
  destruct (xpath_descendants t (remove_each _ root)) as [|d l] eqn:E;
    [reflexivity | exfalso].
  assert (Hd : In d (xpath_descendants t
                       (remove_each (xpath_descendants t root) root)))
    by (rewrite E; now left).
  unfold xpath_descendants at 1 in Hd. apply filter_In in Hd as [Hd Ht].
  rewrite remove_each_fold in Hd.
  apply fold_detach_descendants in Hd as [Hn [d0 [Hd0 [Eu Et]]]].
  apply Hn. rewrite <- Eu. apply in_map.
  unfold xpath_descendants. apply filter_In. split; [exact Hd0|].
  unfold has_tag in *. now rewrite Et.
Qed.

(** A THESIS with a sequence of its own and a link to a proposition. *)
Definition sample_toggle_document : document :=
  {| xml_root :=
       Element 0 "AEsystem" []
         [Element 1 "THESIS" [("xml:id", "T1")]
            [Element 2 "matchingProposition" [("propRef", "#P1")] [];
             Element 3 "sequence" []
               [Element 4 "matchingPropositionSequence" [] []]]];
     all_propositions :=
       [("P1", Element 10 "PROPOSITION" [] [Element 11 "sequence" [] []])] |}.

Example propositions_toggle_alone :
  map uid (descendants
             (xml_root (apply_global_toggles true false false sample_toggle_document)))
  = [1; 3; 4].
Proof. reflexivity. Qed.

Example matching_sequences_toggle_alone :
  map uid (descendants
             (xml_root (apply_global_toggles false true false sample_toggle_document)))
  = [1; 2; 3].
Proof. reflexivity. Qed.

(** C5, counterexample. With the propositions toggle and the all-sequences
    toggle both set, the all-sequences toggle fires as well: the sequence
    of the THESIS is removed, which the propositions toggle alone keeps. *)
Lemma C5_counterexample :
  map uid (descendants
             (xml_root (apply_global_toggles true false true sample_toggle_document)))
  = [1]
  /\ apply_global_toggles true false true sample_toggle_document
     <> apply_global_toggles true false false sample_toggle_document.
Proof. split; [reflexivity | discriminate]. Qed.

(** C5, amended. Between the propositions toggle and the matching-sequences
    toggle only the first fires: with the propositions toggle set the
    outcome does not depend on the matching-sequences toggle. The
    all-sequences toggle is not subject to that precedence: set together
    with the propositions toggle, or alone, it still removes every sequence
    element of the document. *)
Theorem C5_toggle_precedence (d : document) :
  (forall fm fa, apply_global_toggles true fm fa d
                 = apply_global_toggles true false fa d)
  /\ xpath_descendants "sequence"
       (xml_root (apply_global_toggles true false true d)) = []
  /\ xpath_descendants "sequence"
       (xml_root (apply_global_toggles false false true d)) = [].
Proof.
  split; [reflexivity|]. split.
  - unfold apply_global_toggles, toggle_c, toggles_a_b. cbn [xml_root].
    apply remove_each_tag_gone.
  - unfold apply_global_toggles, toggle_c, toggles_a_b. cbn [xml_root].
    apply remove_each_tag_gone.
Qed.

End OrchestratorFacts.

(** ** Searches over the graph of a DOT text *)

Module SearchFacts.
Import FilteredPruning.

Lemma mem_In x xs : mem x xs = true <-> In x xs.
Proof.
  unfold mem. rewrite existsb_exists. split.
  - intros [y [Hy E]]. apply String.eqb_eq in E. now subst.
  - intros H. exists x. split; [assumption | apply String.eqb_refl].
Qed.

Lemma mem_not_In x xs : mem x xs = false <-> ~ In x xs.
Proof. rewrite <- mem_In. destruct (mem x xs); split; congruence. Qed.

Lemma set_add_In x y s : In y (set_add x s) <-> y = x \/ In y s.
Proof.
  unfold set_add. destruct (mem x s) eqn:M.
  - apply mem_In in M. split; [auto | intros [-> | H]; assumption].
  - rewrite in_app_iff. cbn. intuition.
Qed.

(** The nodes of [universe] that a search has not visited yet, counted
    with their repetitions: the measure that bounds the turns of a
    search. *)
Definition unvisited (universe visited : list string) : nat :=
  List.length (filter (fun m => negb (mem m visited)) universe).

Lemma unvisited_le universe visited x :
  unvisited universe (visited ++ [x]) <= unvisited universe visited.
Proof.
  unfold unvisited. induction universe as [|m u IH]; cbn [filter]; [lia|].
  destruct (mem m visited) eqn:M1.
  - assert (M2 : mem m (visited ++ [x]) = true).
    { apply mem_In. apply in_or_app. left. now apply mem_In. }
    rewrite M2. cbn. exact IH.
  - destruct (mem m (visited ++ [x])); cbn; lia.
Qed.

Lemma unvisited_lt universe visited x :
  In x universe -> ~ In x visited ->
  unvisited universe (visited ++ [x]) < unvisited universe visited.
Proof.
  unfold unvisited. induction universe as [|m u IH]; [intros []|].
  intros [-> | Hin] Hnv; cbn [filter].
  - assert (M1 : mem x visited = false) by now apply mem_not_In.
    assert (M2 : mem x (visited ++ [x]) = true).
    { apply mem_In. apply in_or_app. right. now left. }
    rewrite M1, M2. cbn. pose proof (unvisited_le u visited x) as H.
    unfold unvisited in H. lia.
  - specialize (IH Hin Hnv).
    destruct (mem m visited) eqn:M1.
    + assert (M2 : mem m (visited ++ [x]) = true).
      { apply mem_In. apply in_or_app. left. now apply mem_In. }
      rewrite M2. cbn. exact IH.
    + destruct (mem m (visited ++ [x])); cbn; lia.
Qed.

Lemma unvisited_bound universe visited :
  unvisited universe visited <= List.length universe.
Proof. unfold unvisited. apply filter_length_le. Qed.

Section Phase1aFacts.

Variable adj : adjacency_map.
Variables unfiltered_nodes mediator_nodes : list string.

Definition adjacent (x y : string) : Prop := In y (adj_get adj x).

(** The nodes that a walk from [f] reaches through mediators only. *)
Inductive chain (f : string) : string -> Prop :=
| chain_start : chain f f
| chain_next x m :
    chain f x -> adjacent x m -> In m mediator_nodes -> chain f m.

(** There is a path from [f] through mediator nodes only to a real
    node. *)
Definition connects (f : string) : Prop :=
  exists x r, chain f x /\ adjacent x r /\ In r unfiltered_nodes.

Lemma chain_kind f x : chain f x -> x = f \/ In x mediator_nodes.
Proof. destruct 1; auto. Qed.

Local Abbreviation scan := (scan_neighbours unfiltered_nodes mediator_nodes).

Lemma scan_found nbs : forall visited queue v q,
  scan nbs visited queue = (v, q, true) ->
  exists nb, In nb nbs /\ In nb unfiltered_nodes.
Proof.
  induction nbs as [|nb rest IH]; intros visited queue v q;
    cbn [scan_neighbours]; [discriminate|].
  destruct (mem nb visited).
  - intros H. destruct (IH _ _ _ _ H) as [x [Hx Hu]]. exists x. cbn. auto.
  - destruct (mem nb unfiltered_nodes) eqn:U.
    + intros _. exists nb. split; [now left | now apply mem_In].
    + destruct (mem nb mediator_nodes); intros H;
        destruct (IH _ _ _ _ H) as [x [Hx Hu]]; exists x; cbn; auto.
Qed.

Lemma scan_not_found nbs : forall visited queue v q,
  scan nbs visited queue = (v, q, false) ->
  incl visited v /\ incl nbs v /\ incl queue q
  /\ (forall x, In x v ->
        In x visited
        \/ (In x nbs /\ ~ In x unfiltered_nodes
            /\ (In x mediator_nodes -> In x q)))
  /\ (forall x, In x q ->
        In x queue \/ (In x nbs /\ In x mediator_nodes /\ In x v))
  /\ List.length q + unvisited mediator_nodes v
     <= List.length queue + unvisited mediator_nodes visited.
Proof.
  induction nbs as [|nb rest IH]; intros visited queue v q;
    cbn [scan_neighbours].
  - intros [= <- <-]. repeat split; try apply incl_refl; auto.
    intros x [].
  - destruct (mem nb visited) eqn:V.
    + intros H. destruct (IH _ _ _ _ H) as [I1 [I2 [I3 [I4 [I5 I6]]]]].
      apply mem_In in V. repeat split; auto.
      * intros x [<- | Hx]; [now apply I1 | now apply I2].
      * intros x Hx. destruct (I4 x Hx) as [H1 | [H1 H2]]; [now left|].
        right. split; [now right | exact H2].
      * intros x Hx. destruct (I5 x Hx) as [H1 | [H1 H2]]; [now left|].
        right. split; [now right | exact H2].
    + apply mem_not_In in V.
      destruct (mem nb unfiltered_nodes) eqn:U; [discriminate|].
      apply mem_not_In in U.
      destruct (mem nb mediator_nodes) eqn:M; intros H;
        destruct (IH _ _ _ _ H) as [I1 [I2 [I3 [I4 [I5 I6]]]]].
      * apply mem_In in M.
        assert (Hnb : In nb v) by (apply I1, in_or_app; right; now left).
        assert (Hq : In nb q) by (apply I3, in_or_app; right; now left).
        repeat split.
        -- intros x Hx. apply I1, in_or_app. now left.
        -- intros x [<- | Hx]; [exact Hnb | now apply I2].
        -- intros x Hx. apply I3, in_or_app. now left.
        -- intros x Hx. destruct (I4 x Hx) as [H1 | [H1 H2]].
           ++ apply in_app_or in H1 as [H1 | [<- | []]]; [now left|].
              right. split; [now left | auto].
           ++ right. split; [now right | exact H2].
        -- intros x Hx. destruct (I5 x Hx) as [H1 | [H1 H2]].
           ++ apply in_app_or in H1 as [H1 | [<- | []]]; [now left|].
              right. split; [now left | auto].
           ++ right. split; [now right | exact H2].
        -- pose proof (unvisited_lt mediator_nodes visited nb M V).
           rewrite length_app in I6. cbn in I6. lia.
      * repeat split.
        -- intros x Hx. apply I1, in_or_app. now left.
        -- intros x [<- | Hx];
             [apply I1, in_or_app; right; now left | now apply I2].
        -- exact I3.
        -- intros x Hx. destruct (I4 x Hx) as [H1 | [H1 H2]].
           ++ apply in_app_or in H1 as [H1 | [<- | []]]; [now left|].
              right. split; [now left|]. split; [exact U|].
              intros Hm. apply mem_In in Hm. congruence.
           ++ right. split; [now right | exact H2].
        -- intros x Hx. destruct (I5 x Hx) as [H1 | [H1 H2]]; [now left|].
           right. split; [now right | exact H2].
        -- pose proof (unvisited_le mediator_nodes visited nb). lia.
Qed.

(** What holds of the visited set and the queue at the head of the
    loop. *)
Record search_invariant (f : string) (visited queue : list string) : Prop := {
  inv_start : In f visited;
  inv_queue : forall x, In x queue -> chain f x /\ In x visited;
  inv_no_real : forall x, In x visited -> ~ In x unfiltered_nodes;
  inv_closed : forall x, chain f x -> In x visited ->
                 In x queue \/ forall y, adjacent x y -> In y visited
}.

Lemma reach_loop_correct f fuel : forall visited queue,
  search_invariant f visited queue ->
  List.length queue + unvisited mediator_nodes visited <= fuel ->
  exists b,
    reach_loop adj unfiltered_nodes mediator_nodes fuel visited queue = Return b
    /\ (b = true <-> connects f).
Proof.
  induction fuel as [|fuel IH]; intros visited queue Inv Hfuel.
  - destruct queue as [|curr queue]; [|cbn in Hfuel; lia].
    exists false. split; [reflexivity|].
    split; [discriminate | intros [x [r [Hc [Ha Hr]]]]; exfalso].
    assert (V : forall y, chain f y -> In y visited).
    { induction 1 as [|y m Hy IHy Hadj Hm]; [apply Inv|].
      destruct (inv_closed _ _ _ Inv y Hy IHy) as [[] | Hall]. now apply Hall. }
    destruct (inv_closed _ _ _ Inv x Hc (V x Hc)) as [[] | Hall].
    exact (inv_no_real _ _ _ Inv r (Hall r Ha) Hr).
  - destruct queue as [|curr queue]; cbn [reach_loop].
    + exists false. split; [reflexivity|].
      split; [discriminate | intros [x [r [Hc [Ha Hr]]]]; exfalso].
      assert (V : forall y, chain f y -> In y visited).
      { induction 1 as [|y m Hy IHy Hadj Hm]; [apply Inv|].
        destruct (inv_closed _ _ _ Inv y Hy IHy) as [[] | Hall]. now apply Hall. }
      destruct (inv_closed _ _ _ Inv x Hc (V x Hc)) as [[] | Hall].
      exact (inv_no_real _ _ _ Inv r (Hall r Ha) Hr).
    + destruct (inv_queue _ _ _ Inv curr (or_introl eq_refl)) as [Hcurr Hvis].
      destruct (scan (adj_get adj curr) visited queue) as [[v q] found] eqn:S.
      destruct found.
      * exists true. split; [reflexivity|]. split; [intros _ | reflexivity].
        apply scan_found in S as [nb [Hnb Hu]]. now exists curr, nb.
      * apply scan_not_found in S as [I1 [I2 [I3 [I4 [I5 I6]]]]].
        apply IH; [|cbn in Hfuel; lia].
        constructor.
        -- apply I1, Inv.
        -- intros x Hx. destruct (I5 x Hx) as [H1 | [H1 [H2 H3]]].
           ++ destruct (inv_queue _ _ _ Inv x (or_intror H1)) as [Hc Hv].
              split; [exact Hc | now apply I1].
           ++ split; [|exact H3]. now apply (chain_next f curr x).
        -- intros x Hx. destruct (I4 x Hx) as [H1 | [_ [H2 _]]];
             [now apply (inv_no_real _ _ _ Inv) | exact H2].
        -- intros x Hc Hx.
           assert (Old : In x visited ->
                         In x q \/ forall y, adjacent x y -> In y v).
           { intros H1.
             destruct (inv_closed _ _ _ Inv x Hc H1) as [[<- | Hq] | Hall].
             - right. intros y Hy. now apply I2.
             - left. now apply I3.
             - right. intros y Hy. now apply I1, Hall. }
           destruct (chain_kind _ _ Hc) as [-> | Hm]; [apply Old, Inv|].
           destruct (I4 x Hx) as [H1 | [_ [_ H3]]]; [now apply Old|].
           left. now apply H3.
Qed.

Lemma reaches_unfiltered_correct f fuel :
  ~ In f unfiltered_nodes ->
  S (List.length mediator_nodes) <= fuel ->
  exists b,
    reaches_unfiltered adj unfiltered_nodes mediator_nodes fuel f = Return b
    /\ (b = true <-> connects f).
Proof.
  intros Hf Hfuel. apply reach_loop_correct.
  - constructor.
    + now left.
    + intros x [<- | []]. split; [constructor | now left].
    + intros x [<- | []]. exact Hf.
    + intros x _ [<- | []]. left. now left.
  - pose proof (unvisited_bound mediator_nodes [f]). cbn. lia.
Qed.

Lemma keep_filtered_correct fuel filtered :
  (forall f, In f filtered -> ~ In f unfiltered_nodes) ->
  S (List.length mediator_nodes) <= fuel ->
  exists keep,
    keep_filtered_of adj unfiltered_nodes mediator_nodes fuel filtered
    = Return keep
    /\ forall f, In f keep <-> In f filtered /\ connects f.
Proof.
  intros Hf Hfuel. unfold keep_filtered_of.
  assert (G : forall l acc,
             (forall f, In f l -> ~ In f unfiltered_nodes) ->
             exists keep,
               for_each
                 (fun keep f_node =>
                    bind (reaches_unfiltered adj unfiltered_nodes
                            mediator_nodes fuel f_node)
                      (fun found =>
                         Return (if found then set_add f_node keep else keep)))
                 l acc = Return keep
               /\ forall f, In f keep <-> In f acc \/ (In f l /\ connects f)).
  { induction l as [|x l IH]; intros acc Hl; cbn [for_each].
    - exists acc. split; [reflexivity|]. intros f. cbn. tauto.
    - destruct (reaches_unfiltered_correct x fuel) as [b [Hb Hc]];
        [apply Hl; now left | exact Hfuel |].
      rewrite Hb. cbn [bind].
      destruct (IH (if b then set_add x acc else acc)) as [keep [Hk Hin]];
        [intros f H; apply Hl; now right|].
      exists keep. split; [exact Hk|]. intros f. rewrite Hin.
      destruct b.
      + rewrite set_add_In. cbn [In]. split.
        * intros [[-> | H] | [H1 H2]]; auto. right. split; [now left|].
          now apply Hc.
        * intros [H | [[<- | H1] H2]]; auto.
      + cbn [In]. split.
        * intros [H | [H1 H2]]; auto.
        * intros [H | [[<- | H1] H2]]; auto.
          exfalso. destruct Hc as [_ Hc]. specialize (Hc H2). discriminate. }
  destruct (G filtered [] Hf) as [keep [Hk Hin]].
  exists keep. split; [exact Hk|]. intros f. rewrite Hin. cbn. tauto.
Qed.

End Phase1aFacts.

(** *** Adjacency maps *)

Lemma adj_get_add a b adj x y :
  In y (adj_get (adj_add a b adj) x)
  <-> In y (adj_get adj x) \/ (x = a /\ y = b).
Proof.
  induction adj as [|[k vs] rest IH]; cbn [adj_add adj_get].
  - destruct (String.eqb_spec a x) as [-> | N]; cbn [In].
    + split; [intros [<- | []]; auto | intros [[] | [_ ->]]; auto].
    + split; [intros [] | intros [[] | [E _]]; congruence].
  - destruct (String.eqb_spec k a) as [-> | N1]; cbn [adj_get].
    + destruct (String.eqb_spec a x) as [-> | N2].
      * rewrite set_add_In. split.
        -- intros [-> | H]; auto.
        -- intros [H | [_ ->]]; auto.
      * split; [auto | intros [H | [E _]]; [exact H | congruence]].
    + destruct (String.eqb_spec k x) as [-> | N2].
      * split; [auto | intros [H | [E _]]; [exact H | congruence]].
      * exact IH.
Qed.

(** Every neighbour recorded in an adjacency map. *)
Definition neighbours_of (adj : adjacency_map) : list string :=
  flat_map snd adj.

Lemma adj_get_universe adj x y : In y (adj_get adj x) -> In y (neighbours_of adj).
Proof.
  unfold neighbours_of. induction adj as [|[k vs] rest IH]; cbn [adj_get];
    [intros []|].
  cbn [flat_map snd]. rewrite in_app_iff.
  destruct (String.eqb k x); auto.
Qed.

Lemma adj_add_universe a b adj :
  List.length (neighbours_of (adj_add a b adj))
  <= S (List.length (neighbours_of adj)).
Proof.
  unfold neighbours_of. induction adj as [|[k vs] rest IH]; cbn [adj_add].
  - cbn. lia.
  - destruct (String.eqb k a); cbn [flat_map snd]; rewrite !length_app.
    + unfold set_add. destruct (mem b vs); [lia|]. rewrite length_app. cbn. lia.
    + lia.
Qed.

End SearchFacts.

(** ** The parse of a DOT text *)

Module ParseFacts.
Import DotSyntax FilteredPruning SearchFacts.

Lemma in_enumerate_from {A : Type} (xs : list A) : forall i j x,
  In (j, x) (combine (seq i (List.length xs)) xs)
  <-> i <= j /\ nth_error xs (j - i) = Some x.
Proof.
  induction xs as [|y xs IH]; intros i j x; cbn [List.length seq combine].
  - split; [intros [] | intros [_ H]]. now destruct (j - i).
  - cbn [In]. rewrite IH. split.
    + intros [[= <- <-] | [H1 H2]].
      * split; [lia|]. now rewrite Nat.sub_diag.
      * split; [lia|]. replace (j - i) with (S (j - S i)) by lia. exact H2.
    + intros [H1 H2]. destruct (Nat.eq_dec i j) as [<- | N].
      * left. rewrite Nat.sub_diag in H2. cbn in H2. congruence.
      * right. split; [lia|].
        replace (j - i) with (S (j - S i)) in H2 by lia. exact H2.
Qed.

Lemma in_enumerate {A : Type} (xs : list A) j x :
  In (j, x) (enumerate xs) <-> nth_error xs j = Some x.
Proof.
  unfold enumerate. rewrite in_enumerate_from, Nat.sub_0_r.
  split; [now intros [_ H] | intros H; split; [lia | exact H]].
Qed.

(** The parse continued from line [i] on. *)
Definition parse_from (i : nat) (lines : list string) (g : graph) : graph :=
  fold_left parse_step (combine (seq i (List.length lines)) lines) g.

Lemma parse_from_cons i line lines g :
  parse_from i (line :: lines) g
  = parse_from (S i) lines (parse_step g (i, line)).
Proof. reflexivity. Qed.

Lemma parse_edges lines : forall i g a b j,
  In (a, b, j) (edges (parse_from i lines g))
  <-> In (a, b, j) (edges g)
      \/ exists line, i <= j /\ nth_error lines (j - i) = Some line
                      /\ classify line = EdgeLine a b.
Proof.
  induction lines as [|line lines IH]; intros i g a b j.
  - cbn. split; [auto | intros [H | [l [_ [H _]]]]; [exact H|]].
    now destruct (j - i).
  - rewrite parse_from_cons, IH. unfold parse_step.
    destruct (classify line) as [src tgt | id |] eqn:C; cbn [edges].
    + rewrite in_app_iff. cbn [In]. split.
      * intros [[H | [[= <- <- <-] | []]] | [l [H1 [H2 H3]]]].
        -- now left.
        -- right. exists line. rewrite Nat.sub_diag. auto.
        -- right. exists l. split; [lia|].
           replace (j - i) with (S (j - S i)) by lia. auto.
      * intros [H | [l [H1 [H2 H3]]]]; [auto|].
        destruct (Nat.eq_dec i j) as [<- | N].
        -- rewrite Nat.sub_diag in H2. cbn in H2. injection H2 as <-.
           rewrite C in H3. injection H3 as <- <-. left. right. now left.
        -- right. exists l. split; [lia|].
           replace (j - i) with (S (j - S i)) in H2 by lia. auto.
    + split.
      * intros [H | [l [H1 [H2 H3]]]]; [auto|].
        right. exists l. split; [lia|].
        replace (j - i) with (S (j - S i)) by lia. auto.
      * intros [H | [l [H1 [H2 H3]]]]; [auto|].
        destruct (Nat.eq_dec i j) as [<- | N].
        -- rewrite Nat.sub_diag in H2. cbn in H2. injection H2 as <-. congruence.
        -- right. exists l. split; [lia|].
           replace (j - i) with (S (j - S i)) in H2 by lia. auto.
    + split.
      * intros [H | [l [H1 [H2 H3]]]]; [auto|].
        right. exists l. split; [lia|].
        replace (j - i) with (S (j - S i)) by lia. auto.
      * intros [H | [l [H1 [H2 H3]]]]; [auto|].
        destruct (Nat.eq_dec i j) as [<- | N].
        -- rewrite Nat.sub_diag in H2. cbn in H2. injection H2 as <-. congruence.
        -- right. exists l. split; [lia|].
           replace (j - i) with (S (j - S i)) in H2 by lia. auto.
Qed.

Lemma parse_defined lines : forall i g id,
  In id (defined_nodes (parse_from i lines g))
  <-> In id (defined_nodes g)
      \/ exists line, In line lines /\ classify line = NodeLine id.
Proof.
  induction lines as [|line lines IH]; intros i g id.
  - cbn. split; [auto | intros [H | [l [[] _]]]; exact H].
  - rewrite parse_from_cons, IH. unfold parse_step.
    destruct (classify line) as [src tgt | id' |] eqn:C; cbn [defined_nodes In].
    + split.
      * intros [H | [l [H1 H2]]]; [auto | right; exists l; auto].
      * intros [H | [l [[<- | H1] H2]]]; [auto | congruence | right; exists l; auto].
    + rewrite set_add_In. split.
      * intros [[-> | H] | [l [H1 H2]]]; [right; exists line; auto | auto |].
        right. exists l. auto.
      * intros [H | [l [[<- | H1] H2]]]; [auto | |right; exists l; auto].
        left. left. congruence.
    + split.
      * intros [H | [l [H1 H2]]]; [auto | right; exists l; auto].
      * intros [H | [l [[<- | H1] H2]]]; [auto | congruence | right; exists l; auto].
Qed.

Lemma parse_adjacency lines : forall i g x y,
  In y (adj_get (adjacency (parse_from i lines g)) x)
  <-> In y (adj_get (adjacency g) x)
      \/ exists line, In line lines
                      /\ (classify line = EdgeLine x y
                          \/ classify line = EdgeLine y x).
Proof.
  induction lines as [|line lines IH]; intros i g x y.
  - cbn. split; [auto | intros [H | [l [[] _]]]; exact H].
  - rewrite parse_from_cons, IH. unfold parse_step.
    destruct (classify line) as [src tgt | id' |] eqn:C; cbn [adjacency In].
    + rewrite !adj_get_add. split.
      * intros [[[H | [-> ->]] | [-> ->]] | [l [H1 H2]]].
        -- now left.
        -- right. exists line. auto.
        -- right. exists line. auto.
        -- right. exists l. auto.
      * intros [H | [l [[<- | H1] H2]]].
        -- left. left. now left.
        -- rewrite C in H2. destruct H2 as [[= -> ->] | [= -> ->]]; auto.
        -- right. exists l. auto.
    + split.
      * intros [H | [l [H1 H2]]]; [auto | right; exists l; auto].
      * intros [H | [l [[<- | H1] H2]]]; [auto | | right; exists l; auto].
        destruct H2; congruence.
    + split.
      * intros [H | [l [H1 H2]]]; [auto | right; exists l; auto].
      * intros [H | [l [[<- | H1] H2]]]; [auto | | right; exists l; auto].
        destruct H2; congruence.
Qed.

Lemma parse_sizes lines : forall i g,
  List.length (edges (parse_from i lines g))
  <= List.length (edges g) + List.length lines
  /\ List.length (defined_nodes (parse_from i lines g))
     <= List.length (defined_nodes g) + List.length lines
  /\ List.length (neighbours_of (adjacency (parse_from i lines g)))
     <= List.length (neighbours_of (adjacency g)) + 2 * List.length lines.
Proof.
  induction lines as [|line lines IH]; intros i g.
  - cbn. lia.
  - rewrite parse_from_cons.
    destruct (IH (S i) (parse_step g (i, line))) as [H1 [H2 H3]].
    assert (S1 : List.length (edges (parse_step g (i, line)))
                 <= S (List.length (edges g))
                 /\ List.length (defined_nodes (parse_step g (i, line)))
                    <= S (List.length (defined_nodes g))
                 /\ List.length (neighbours_of (adjacency (parse_step g (i, line))))
                    <= 2 + List.length (neighbours_of (adjacency g))).
    { unfold parse_step.
      destruct (classify line) as [src tgt | id' |];
        cbn [edges defined_nodes adjacency].
      - rewrite length_app. cbn [List.length].
        pose proof (adj_add_universe tgt src (adj_add src tgt (adjacency g))).
        pose proof (adj_add_universe src tgt (adjacency g)). lia.
      - unfold set_add.
        destruct (mem id' (defined_nodes g)); [|rewrite length_app; cbn];
          lia.
      - lia. }
    cbn [List.length]. lia.
Qed.

Lemma parse_is_parse_from lines :
  _parse_dot_graph lines
  = parse_from 0 lines {| defined_nodes := []; edges := []; adjacency := [] |}.
Proof. reflexivity. Qed.

(** The parsed graph in terms of the lines. *)
Lemma parsed_edge lines a b j :
  In (a, b, j) (edges (_parse_dot_graph lines))
  <-> exists line, nth_error lines j = Some line /\ classify line = EdgeLine a b.
Proof.
  rewrite parse_is_parse_from, parse_edges. cbn [edges In].
  rewrite Nat.sub_0_r. split.
  - intros [[] | [l [_ H]]]. now exists l.
  - intros [l H]. right. exists l. split; [lia | exact H].
Qed.

Lemma parsed_node lines id :
  In id (defined_nodes (_parse_dot_graph lines))
  <-> exists line, In line lines /\ classify line = NodeLine id.
Proof.
  rewrite parse_is_parse_from, parse_defined. cbn [defined_nodes In]. tauto.
Qed.

Lemma parsed_adjacent lines x y :
  In y (adj_get (adjacency (_parse_dot_graph lines)) x)
  <-> exists line, In line lines
                   /\ (classify line = EdgeLine x y
                       \/ classify line = EdgeLine y x).
Proof.
  rewrite parse_is_parse_from, parse_adjacency. cbn [adjacency adj_get In]. tauto.
Qed.

Lemma classify_defines line id :
  classify line = NodeLine id -> defines_node line = Some id.
Proof.
  unfold classify, defines_node.
  destruct (skipped (strip line)); [discriminate|].
  destruct (edge_def_match (strip line)) as [[a b]|]; [discriminate|].
  destruct (node_def_match (strip line)); [|discriminate].
  destruct (contains "->" (strip line)); [discriminate|]. now intros [= ->].
Qed.

End ParseFacts.

(** ** Exclusion connectivity pruning *)

Module PruningFacts.
Import DotSyntax FilteredPruning SearchFacts ParseFacts.

Lemma unvisited_mono universe v v' :
  incl v v' -> unvisited universe v' <= unvisited universe v.
Proof.
  intros Hi. unfold unvisited.
  induction universe as [|m u IH]; cbn [filter]; [lia|].
  destruct (mem m v) eqn:M1.
  - assert (M2 : mem m v' = true) by (apply mem_In, Hi; now apply mem_In).
    rewrite M2. cbn. exact IH.
  - destruct (mem m v'); cbn; lia.
Qed.

Lemma unvisited_strict universe v v' x :
  incl v v' -> In x universe -> ~ In x v -> In x v' ->
  unvisited universe v' < unvisited universe v.
Proof.
  intros Hi Hx Hn Hv. unfold unvisited.
  induction universe as [|m u IH]; [destruct Hx|]. cbn [filter].
  pose proof (unvisited_mono u v v' Hi) as Hm. unfold unvisited in Hm.
  destruct Hx as [-> | Hx].
  - apply mem_not_In in Hn. apply mem_In in Hv. rewrite Hn, Hv. cbn. lia.
  - specialize (IH Hx). destruct (mem m v) eqn:M1.
    + assert (M2 : mem m v' = true) by (apply mem_In, Hi; now apply mem_In).
      rewrite M2. cbn. exact IH.
    + destruct (mem m v'); cbn; lia.
Qed.

Lemma inter_incl a b : incl (inter a b) b.
Proof.
  intros x H. apply filter_In in H as [_ H]. now apply mem_In.
Qed.

Lemma inter_In a b x : In x (inter a b) <-> In x a /\ In x b.
Proof. unfold inter. now rewrite filter_In, mem_In. Qed.

Lemma diff_In a b x : In x (diff a b) <-> In x a /\ ~ In x b.
Proof. unfold diff. now rewrite filter_In, negb_true_iff, mem_not_In. Qed.

Lemma union_In a b x : In x (union a b) <-> In x a \/ In x b.
Proof.
  unfold union. revert a. induction b as [|y b IH]; intros a; cbn [fold_left].
  - cbn. tauto.
  - rewrite IH, set_add_In. cbn [In]. intuition.
Qed.

Section Phase2Facts.

Variables filtered mediators keep : list string.
Variable all_edges : list edge.

Local Abbreviation radj := (r_adj filtered mediators all_edges).
Local Abbreviation universe := (neighbours_of radj).

Lemma restricted_universe :
  List.length universe <= 2 * List.length all_edges.
Proof.
  unfold r_adj, restricted_graph.
  assert (G : forall es st,
             List.length (neighbours_of (fst
               (fold_left
                  (fun (st : adjacency_map * list (string * string)) (e : edge) =>
                     let '(src, tgt, _) := e in
                     if mem src (restricted filtered mediators)
                        && mem tgt (restricted filtered mediators)
                     then
                       (adj_add tgt src (adj_add src tgt (fst st)),
                        if mem_pair (src, tgt) (snd st) then snd st
                        else snd st ++ [(src, tgt)])
                     else st)
                  es st)))
             <= List.length (neighbours_of (fst st)) + 2 * List.length es).
  { induction es as [|[[a b] i] es IH]; intros st; cbn [fold_left List.length].
    - lia.
    - etransitivity; [apply IH|].
      destruct (mem a _ && mem b _); cbn [fst].
      + pose proof (adj_add_universe b a (adj_add a b (fst st))).
        pose proof (adj_add_universe a b (fst st)). lia.
      + lia. }
  specialize (G all_edges ([], [])). cbn in G. exact G.
Qed.

(** *** The component search *)

Lemma component_scan_measure nbs : forall v q v' q',
  incl nbs universe ->
  component_scan nbs v q = (v', q') ->
  List.length q' + unvisited universe v'
  <= List.length q + unvisited universe v.
Proof.
  induction nbs as [|nb rest IH]; intros v q v' q' Hu; cbn [component_scan].
  - intros [= <- <-]. lia.
  - assert (Hr : incl rest universe) by (intros x Hx; apply Hu; now right).
    destruct (mem nb v) eqn:M.
    + now apply IH.
    + intros H. apply IH in H; [|exact Hr].
      apply mem_not_In in M.
      pose proof (unvisited_lt universe v nb (Hu nb (or_introl eq_refl)) M).
      rewrite length_app in H. cbn in H. lia.
Qed.

Lemma component_loop_returns fuel : forall cf v q,
  List.length q + unvisited universe v <= fuel ->
  exists r, component_loop filtered mediators all_edges fuel cf v q = Return r.
Proof.
  induction fuel as [|fuel IH]; intros cf v q Hf.
  - destruct q; [cbn; eauto | cbn in Hf; lia].
  - destruct q as [|node q]; cbn [component_loop]; [eauto|].
    destruct (component_scan (adj_get radj node) v q) as [v' q'] eqn:S.
    apply component_scan_measure in S;
      [|intros x Hx; eapply adj_get_universe; exact Hx].
    apply IH. cbn in Hf. lia.
Qed.

Lemma components_kept_returns fuel :
  S (List.length universe) <= fuel ->
  exists comps,
    components_kept_of filtered mediators keep all_edges fuel = Return comps
    /\ forall kept_set, In kept_set comps ->
         incl kept_set keep /\ 2 <= List.length kept_set.
Proof.
  intros Hf. unfold components_kept_of.
  match goal with
  | |- exists _, bind (for_each ?f _ _) _ = _ /\ _ =>
      assert (G : forall l st,
                 (forall k, In k (snd st) ->
                    incl k keep /\ 2 <= List.length k) ->
                 exists st',
                   for_each f l st = Return st'
                   /\ forall k, In k (snd st') ->
                        incl k keep /\ 2 <= List.length k)
  end.
  { induction l as [|start l IH]; intros [cv ck] Hst; cbn [for_each].
    - eauto.
    - destruct (mem start cv).
      + cbn [bind]. now apply IH.
      + destruct (component_loop_returns fuel [] (cv ++ [start]) [start])
          as [[cf cv'] Hr].
        { pose proof (unvisited_bound universe (cv ++ [start])). cbn. lia. }
        rewrite Hr. cbn [bind]. apply IH. cbn [snd] in *.
        destruct (Nat.leb_spec 2 (List.length (inter cf keep))) as [L | L];
          [|exact Hst].
        intros k Hk. apply in_app_or in Hk as [Hk | [<- | []]];
          [now apply Hst|].
        split; [apply inter_incl | exact L]. }
  destruct (G filtered ([], [])) as [st' [H1 H2]]; [intros k []|].
  exists (snd st'). rewrite H1. cbn [bind]. split; [reflexivity | exact H2].
Qed.

(** *** The spanning-tree search *)

(** A walk through the restricted graph that starts at [a]; the number
    counts the filtered nodes it enters that are no mediators. *)
Inductive walk (a : string) : string -> nat -> Prop :=
| walk_start : walk a a 0
| walk_mediator x m n :
    walk a x n -> In m (adj_get radj x) -> In m mediators -> walk a m n
| walk_filtered x m n :
    walk a x n -> In m (adj_get radj x) -> ~ In m mediators ->
    In m filtered -> walk a m (S n).

(** [b] is a neighbour of the end of a walk from [a] that passes [n]
    filtered nodes. *)
Definition joined (a b : string) (n : nat) : Prop :=
  exists x, walk a x n /\ In b (adj_get radj x).

(** What holds of an entry of [indirect_edges] whose ends are in [nodes]. *)
Definition sound_edge (nodes : list string) (e : indirect_edge) : Prop :=
  let '(src, dst, pruned_count) := e in
  In src nodes /\ In dst nodes /\ src <> dst
  /\ (joined src dst pruned_count \/ joined dst src pruned_count).

Lemma sound_edge_incl nodes nodes' e :
  incl nodes nodes' -> sound_edge nodes e -> sound_edge nodes' e.
Proof.
  destruct e as [[s d] n]. unfold sound_edge. intros Hi (A & B & C & D).
  auto.
Qed.

Section ComponentFacts.

Variable kept_set : list string.

Local Abbreviation scan := (inner_scan filtered mediators all_edges kept_set).

(** What a run of the inner search may change outside its own queue. *)
Record extends (a b : tree_state) : Prop := {
  ext_visited : incl (inner_visited a) (inner_visited b);
  ext_measure :
    List.length (tree_queue b) + unvisited universe (tree_visited b)
    <= List.length (tree_queue a) + unvisited universe (tree_visited a);
  ext_queue : forall x, In x (tree_queue b) ->
                In x (tree_queue a) \/ In x kept_set;
  ext_edges : forall e, In e (indirect_edges b) ->
                In e (indirect_edges a) \/ sound_edge kept_set e
}.

Lemma extends_refl a : extends a a.
Proof. split; auto; intros x H; auto. Qed.

Lemma extends_trans a b c : extends a b -> extends b c -> extends a c.
Proof.
  intros [A1 A2 A3 A4] [B1 B2 B3 B4]. split.
  - intros x H. auto.
  - lia.
  - intros x H. destruct (B3 x H); auto.
  - intros e H. destruct (B4 e H); auto.
Qed.

(** The entries of the inner queue end walks from the node the search
    started at. *)
Definition queue_walks (f : string) (q : list (string * nat * nat * nat))
  : Prop :=
  forall x n fw bw, In (x, n, fw, bw) q -> walk f x n.

Local Ltac fields :=
  cbn [inner_visited inner_queue tree_visited tree_queue indirect_edges].

Lemma inner_scan_spec f curr pc fwd bwd nbs : forall st,
  (forall nb, In nb nbs -> In nb (adj_get radj curr)) ->
  walk f curr pc -> In f kept_set -> In f (inner_visited st) ->
  queue_walks f (inner_queue st) ->
  extends st (scan f curr pc fwd bwd nbs st)
  /\ queue_walks f (inner_queue (scan f curr pc fwd bwd nbs st))
  /\ List.length (inner_queue (scan f curr pc fwd bwd nbs st))
     + unvisited universe (inner_visited (scan f curr pc fwd bwd nbs st))
     <= List.length (inner_queue st) + unvisited universe (inner_visited st).
Proof.
  induction nbs as [|nb rest IH]; intros st Hn Hw Hk Hf Hq;
    cbn [inner_scan].
  - split; [apply extends_refl | split; [exact Hq | lia]].
  - assert (Hr : forall x, In x rest -> In x (adj_get radj curr))
      by (intros x Hx; apply Hn; now right).
    assert (Hnb : In nb (adj_get radj curr)) by (apply Hn; now left).
    assert (Hu : In nb universe) by (eapply adj_get_universe; exact Hnb).
    destruct (mem nb (inner_visited st)) eqn:Mv; [now apply IH|].
    apply mem_not_In in Mv.
    assert (Hne : nb <> f) by (intros ->; contradiction).
    pose proof (unvisited_lt universe (inner_visited st) nb Hu Mv) as Lv.
    match goal with
    | |- context [scan f curr pc fwd bwd rest ?s] => set (st1 := s)
    end.
    assert (Step :
      extends st st1 /\ queue_walks f (inner_queue st1)
      /\ List.length (inner_queue st1)
         + unvisited universe (inner_visited st1)
         <= List.length (inner_queue st)
            + unvisited universe (inner_visited st)
      /\ In f (inner_visited st1)).
    { subst st1.
      assert (Grow : incl (inner_visited st) (inner_visited st ++ [nb]))
        by (intros x Hx; apply in_or_app; now left).
      destruct (mem nb kept_set) eqn:Mk.
      - apply mem_In in Mk.
        destruct (mem nb (tree_visited st)) eqn:Mt; cbn [negb].
        + split; [split | split; [|split]]; fields; auto.
          lia.
        + apply mem_not_In in Mt.
          pose proof (unvisited_lt universe (tree_visited st) nb Hu Mt).
          split; [split | split; [|split]]; fields; auto.
          * rewrite length_app. cbn [List.length]. lia.
          * intros x Hx. apply in_app_or in Hx as [Hx | [<- | []]]; auto.
          * intros e He. apply in_app_or in He as [He | [<- | []]];
              [now left | right].
            assert (J : joined f nb pc) by (exists curr; auto).
            destruct (_ <=? _)%nat; cbn; auto 6.
          * lia.
      - destruct (mem nb mediators) eqn:Mm.
        + apply mem_In in Mm.
          split; [split | split; [|split]]; fields; auto.
          * intros x n fw bw Hx.
            apply in_app_or in Hx as [Hx | [[= <- <- <- <-] | []]].
            -- eapply Hq; exact Hx.
            -- eapply walk_mediator; eauto.
          * rewrite length_app. cbn [List.length]. lia.
        + apply mem_not_In in Mm.
          destruct (mem nb filtered) eqn:Mf.
          * apply mem_In in Mf.
            split; [split | split; [|split]]; fields; auto.
            -- intros x n fw bw Hx.
               apply in_app_or in Hx as [Hx | [[= <- <- <- <-] | []]].
               ++ eapply Hq; exact Hx.
               ++ eapply walk_filtered; eauto.
            -- rewrite length_app. cbn [List.length]. lia.
          * split; [split | split; [|split]]; fields; auto.
            lia. }
    destruct Step as (E1 & Q1 & M1 & F1).
    destruct (IH st1 Hr Hw Hk F1 Q1) as (E2 & Q2 & M2).
    split; [eapply extends_trans; eassumption | split; [exact Q2 | lia]].
Qed.

Lemma inner_search_spec f fuel : forall st,
  In f kept_set -> In f (inner_visited st) ->
  queue_walks f (inner_queue st) ->
  List.length (inner_queue st) + unvisited universe (inner_visited st)
  <= fuel ->
  exists st',
    inner_loop filtered mediators all_edges kept_set fuel f st = Return st'
    /\ extends st st'.
Proof.
  induction fuel as [|fuel IH]; intros st Hk Hf Hq Hm.
  - destruct st as [iv iq tv tq ie]. cbn in *.
    destruct iq; [|cbn in Hm; lia].
    eexists. split; [reflexivity | apply extends_refl].
  - destruct st as [iv iq tv tq ie]. cbn [inner_loop inner_queue] in *.
    destruct iq as [|[[[curr pc] fwd] bwd] queue].
    + eexists. split; [reflexivity | apply extends_refl].
    + cbn [inner_visited tree_visited tree_queue indirect_edges] in *.
      set (st0 := {| inner_visited := iv; inner_queue := queue;
                     tree_visited := tv; tree_queue := tq;
                     indirect_edges := ie |}).
      assert (Hw : walk f curr pc) by (eapply Hq; now left).
      assert (Hq0 : queue_walks f (inner_queue st0))
        by (intros x n fw bw Hx; eapply Hq; right; exact Hx).
      destruct (inner_scan_spec f curr pc fwd bwd (adj_get radj curr) st0
                  (fun _ H => H) Hw Hk Hf Hq0) as (E & Q & M).
      destruct (IH (scan f curr pc fwd bwd (adj_get radj curr) st0))
        as (st' & R & E').
      * exact Hk.
      * apply (ext_visited _ _ E). exact Hf.
      * exact Q.
      * cbn in M, Hm. lia.
      * exists st'. split; [exact R|].
        eapply extends_trans; [|exact E'].
        destruct E as [E1 E2 E3 E4]. split; auto.
Qed.

Lemma tree_loop_spec inner_fuel fuel :
  S (List.length universe) <= inner_fuel ->
  forall st,
  (forall x, In x (tree_queue st) -> In x kept_set) ->
  List.length (tree_queue st) + unvisited universe (tree_visited st) <= fuel ->
  exists st',
    tree_loop filtered mediators all_edges kept_set fuel inner_fuel st
    = Return st'
    /\ forall e, In e (indirect_edges st') ->
         In e (indirect_edges st) \/ sound_edge kept_set e.
Proof.
  intros Hi. induction fuel as [|fuel IH]; intros st Hk Hm.
  - destruct st as [iv iq tv tq ie]. cbn in Hm |- *.
    destruct tq; [|cbn in Hm; lia].
    eexists. split; [reflexivity | auto].
  - destruct st as [iv iq tv tq ie]. cbn [tree_loop tree_queue] in *.
    destruct tq as [|f queue].
    + eexists. split; [reflexivity | auto].
    + cbn [tree_visited indirect_edges] in *.
      set (st0 := {| inner_visited := [f]; inner_queue := [(f, 0, 0, 0)];
                     tree_visited := tv; tree_queue := queue;
                     indirect_edges := ie |}).
      destruct (inner_search_spec f inner_fuel st0) as (st1 & R & E).
      * apply Hk. now left.
      * now left.
      * intros x n fw bw Hx. unfold st0 in Hx. cbn in Hx.
        destruct Hx as [[= <- <- <- <-] | []]. constructor.
      * pose proof (unvisited_bound universe [f]). cbn. lia.
      * rewrite R. cbn [bind].
        destruct E as [E1 E2 E3 E4]. cbn in E2, E3, E4.
        destruct (IH st1) as (st' & R' & E').
        -- intros x Hx. destruct (E3 x Hx); auto. apply Hk. now right.
        -- cbn in Hm. lia.
        -- exists st'. split; [exact R'|].
           intros e He. destruct (E' e He) as [H | H]; auto.
Qed.

End ComponentFacts.

Lemma component_edges_spec fuel found kept_set :
  S (List.length universe) <= fuel ->
  2 <= List.length kept_set ->
  exists r,
    component_edges filtered mediators all_edges fuel found kept_set = Return r
    /\ forall e, In e r -> In e found \/ sound_edge kept_set e.
Proof.
  intros Hf Hk. unfold component_edges.
  destruct kept_set as [|root rest]; [cbn in Hk; lia|].
  destruct (tree_loop_spec (root :: rest) fuel fuel Hf
              {| inner_visited := []; inner_queue := [];
                 tree_visited := [root]; tree_queue := [root];
                 indirect_edges := found |}) as (st' & R & E).
  - cbn. intros x [<- | []]. now left.
  - pose proof (unvisited_bound universe [root]). cbn [tree_queue tree_visited List.length].
    lia.
  - rewrite R. cbn [bind]. eexists. split; [reflexivity | exact E].
Qed.

Lemma indirect_edges_spec fuel :
  S (List.length universe) <= fuel ->
  exists r,
    indirect_edges_of filtered mediators keep all_edges fuel = Return r
    /\ forall e, In e r -> sound_edge keep e.
Proof.
  intros Hf. unfold indirect_edges_of.
  destruct (2 <=? List.length keep)%nat;
    [|eexists; split; [reflexivity | intros e []]].
  destruct (components_kept_returns fuel Hf) as (comps & R & Hc).
  rewrite R. cbn [bind]. clear R.
  assert (G : forall cs found,
             (forall k, In k cs -> incl k keep /\ 2 <= List.length k) ->
             (forall e, In e found -> sound_edge keep e) ->
             exists r,
               for_each (component_edges filtered mediators all_edges fuel)
                 cs found = Return r
               /\ forall e, In e r -> sound_edge keep e).
  { induction cs as [|k cs IH]; intros found Hk Hs; cbn [for_each].
    - eauto.
    - destruct (Hk k (or_introl eq_refl)) as [Ki Kl].
      destruct (component_edges_spec fuel found k Hf Kl) as (r & R & E).
      rewrite R. cbn [bind]. apply IH.
      + intros k' H'. apply Hk. now right.
      + intros e He. destruct (E e He) as [H | H]; [now apply Hs|].
        eapply sound_edge_incl; eassumption. }
  apply G; [exact Hc | intros e []].
Qed.

(** The restricted graph holds the edges between filtered and mediator
    nodes, in both directions. *)
Lemma r_adj_spec x y :
  In y (adj_get radj x)
  <-> In x (restricted filtered mediators)
      /\ In y (restricted filtered mediators)
      /\ exists i, In (x, y, i) all_edges \/ In (y, x, i) all_edges.
Proof.
  unfold r_adj, restricted_graph.
  assert (G : forall es st,
    In y (adj_get (fst
      (fold_left
         (fun (st : adjacency_map * list (string * string)) (e : edge) =>
            let '(src, tgt, _) := e in
            if mem src (restricted filtered mediators)
               && mem tgt (restricted filtered mediators)
            then
              (adj_add tgt src (adj_add src tgt (fst st)),
               if mem_pair (src, tgt) (snd st) then snd st
               else snd st ++ [(src, tgt)])
            else st)
         es st)) x)
    <-> In y (adj_get (fst st) x)
        \/ (In x (restricted filtered mediators)
            /\ In y (restricted filtered mediators)
            /\ exists i, In (x, y, i) es \/ In (y, x, i) es)).
  { induction es as [|[[a b] i] es IH]; intros st; cbn [fold_left].
    - cbn. split; [auto | intros [H | (_ & _ & j & [[] | []])]; exact H].
    - rewrite IH. clear IH.
      destruct (mem a _ && mem b _) eqn:M; cbn [fst].
      + apply andb_prop in M as [Ma Mb]. apply mem_In in Ma, Mb.
        rewrite !adj_get_add. split.
        * intros [[[H | [-> ->]] | [-> ->]] | (X & Y & j & H)]; auto.
          -- right. repeat split; auto. exists i. left. now left.
          -- right. repeat split; auto. exists i. right. now left.
          -- right. repeat split; auto. exists j.
             destruct H; [left | right]; now right.
        * intros [H | (X & Y & j & [[[= -> -> ->] | H] | [[= -> -> ->] | H]])];
            auto.
          -- right. repeat split; auto. exists j. now left.
          -- right. repeat split; auto. exists j. now right.
      + split.
        * intros [H | (X & Y & j & H)]; auto.
          right. repeat split; auto. exists j.
          destruct H; [left | right]; now right.
        * intros [H | (X & Y & j & [[[= -> -> ->] | H] | [[= -> -> ->] | H]])];
            auto.
          -- apply mem_In in X, Y. rewrite X, Y in M. discriminate.
          -- right. repeat split; auto. exists j. now left.
          -- apply mem_In in X, Y. rewrite X, Y in M. discriminate.
          -- right. repeat split; auto. exists j. now right. }
  rewrite (G all_edges ([], [])). cbn.
  split; [intros [[] | H]; exact H | auto].
Qed.

End Phase2Facts.

Section Phase1cFacts.

Variables mediators real_nodes : list string.
Variable surviving : list edge.

Lemma post_adj_spec removed x y :
  In y (adj_get (post_adj_of surviving removed) x)
  <-> ~ In x removed /\ ~ In y removed
      /\ exists i, In (x, y, i) surviving \/ In (y, x, i) surviving.
Proof.
  unfold post_adj_of.
  assert (G : forall es adj,
    In y (adj_get
      (fold_left
         (fun adj (e : edge) =>
            let '(src, tgt, _) := e in
            if mem src removed || mem tgt removed then adj
            else adj_add tgt src (adj_add src tgt adj))
         es adj) x)
    <-> In y (adj_get adj x)
        \/ (~ In x removed /\ ~ In y removed
            /\ exists i, In (x, y, i) es \/ In (y, x, i) es)).
  { induction es as [|[[a b] i] es IH]; intros adj; cbn [fold_left].
    - cbn. split; [auto | intros [H | (_ & _ & j & [[] | []])]; exact H].
    - rewrite IH. clear IH.
      destruct (mem a removed || mem b removed) eqn:M.
      + split.
        * intros [H | (X & Y & j & H)]; auto.
          right. repeat split; auto. exists j.
          destruct H; [left | right]; now right.
        * intros [H | (X & Y & j & [[[= -> -> ->] | H] | [[= -> -> ->] | H]])];
            auto.
          -- apply mem_not_In in X, Y. rewrite X, Y in M. discriminate.
          -- right. repeat split; auto. exists j. now left.
          -- apply mem_not_In in X, Y. rewrite X, Y in M. discriminate.
          -- right. repeat split; auto. exists j. now right.
      + apply orb_false_elim in M as [Ma Mb]. apply mem_not_In in Ma, Mb.
        rewrite !adj_get_add. split.
        * intros [[[H | [-> ->]] | [-> ->]] | (X & Y & j & H)]; auto.
          -- right. repeat split; auto. exists i. left. now left.
          -- right. repeat split; auto. exists i. right. now left.
          -- right. repeat split; auto. exists j.
             destruct H; [left | right]; now right.
        * intros [H | (X & Y & j & [[[= -> -> ->] | H] | [[= -> -> ->] | H]])];
            auto.
          -- right. repeat split; auto. exists j. now left.
          -- right. repeat split; auto. exists j. now right. }
  rewrite (G surviving []). cbn.
  split; [intros [[] | H]; exact H | auto].
Qed.

Lemma post_adj_universe removed :
  List.length (neighbours_of (post_adj_of surviving removed))
  <= 2 * List.length surviving.
Proof.
  unfold post_adj_of.
  assert (G : forall es adj,
    List.length (neighbours_of
      (fold_left
         (fun adj (e : edge) =>
            let '(src, tgt, _) := e in
            if mem src removed || mem tgt removed then adj
            else adj_add tgt src (adj_add src tgt adj))
         es adj))
    <= List.length (neighbours_of adj) + 2 * List.length es).
  { induction es as [|[[a b] i] es IH]; intros adj;
      cbn [fold_left List.length]; [lia|].
    etransitivity; [apply IH|].
    destruct (mem a removed || mem b removed); [lia|].
    pose proof (adj_add_universe b a (adj_add a b adj)).
    pose proof (adj_add_universe a b adj). lia. }
  specialize (G surviving []). cbn in G. exact G.
Qed.

Section SweepFacts.

Variable post_adj : adjacency_map.

Local Abbreviation reachable := (neighbours_of post_adj).

Lemma chain_scan_measure removed nbs : forall cv cq found cv' cq' found',
  incl nbs reachable ->
  chain_scan mediators real_nodes removed nbs cv cq found = (cv', cq', found') ->
  List.length cq' + unvisited reachable cv'
  <= List.length cq + unvisited reachable cv.
Proof.
  induction nbs as [|nb rest IH]; intros cv cq found cv' cq' found' Hu;
    cbn [chain_scan].
  - intros [= <- <- <-]. lia.
  - assert (Hr : incl rest reachable) by (intros x Hx; apply Hu; now right).
    destruct (mem nb cv) eqn:M; cbn [orb].
    + now apply IH.
    + destruct (mem nb removed); [now apply IH|].
      apply mem_not_In in M.
      pose proof (unvisited_lt reachable cv nb (Hu nb (or_introl eq_refl)) M).
      destruct (mem nb real_nodes); [|destruct (mem nb mediators)];
        intros E; apply IH in E; try exact Hr;
        rewrite ?length_app in E; cbn [List.length] in E; lia.
Qed.

Lemma chain_loop_returns removed fuel : forall cv cq found,
  List.length cq + unvisited reachable cv <= fuel ->
  exists r,
    chain_loop mediators real_nodes post_adj fuel removed cv cq found
    = Return r.
Proof.
  induction fuel as [|fuel IH]; intros cv cq found Hf.
  - destruct cq; [cbn; eauto | cbn in Hf; lia].
  - destruct cq as [|cn cq]; cbn [chain_loop]; [eauto|].
    destruct (chain_scan mediators real_nodes removed (adj_get post_adj cn)
                cv cq found) as [[cv' cq'] found'] eqn:S.
    apply chain_scan_measure in S;
      [|intros x Hx; eapply adj_get_universe; exact Hx].
    apply IH. cbn in Hf. lia.
Qed.

(** One mediator examined: it stays, or it joins the removed ones. *)
Lemma examine_mediator_spec fuel removed changed med :
  S (List.length reachable) <= fuel ->
  exists st',
    examine_mediator mediators real_nodes post_adj fuel (removed, changed) med
    = Return st'
    /\ (st' = (removed, changed) \/ st' = (set_add med removed, true))
    /\ (2 <= List.length (inter (adj_get post_adj med) real_nodes) ->
        st' = (removed, changed))
    /\ (inter (adj_get post_adj med) real_nodes = [] ->
        st' = (set_add med removed, true)).
Proof.
  intros Hf. unfold examine_mediator.
  destruct (Nat.leb_spec 2 (List.length (inter (adj_get post_adj med) real_nodes)))
    as [L | L].
  - eexists. split; [reflexivity|]. split; [now left|]. split; [auto|].
    intros E. rewrite E in L. cbn in L. lia.
  - destruct ((List.length (inter (adj_get post_adj med) real_nodes) =? 1)%nat
              && negb _) eqn:C.
    + destruct (chain_loop_returns removed fuel [med] [med] []) as [found R].
      { pose proof (unvisited_bound reachable [med]). cbn [List.length]. lia. }
      rewrite R. cbn [bind].
      apply andb_prop in C as [C _]. apply Nat.eqb_eq in C.
      destruct (2 <=? List.length found)%nat.
      * eexists. split; [reflexivity|]. split; [now left|].
        split; [intros; lia | intros E; rewrite E in C; discriminate].
      * eexists. split; [reflexivity|]. split; [now right|].
        split; [intros; lia | reflexivity].
    + cbn [bind]. eexists. split; [reflexivity|]. split; [now right|].
      split; [intros; lia | reflexivity].
Qed.

(** One sweep over the mediators that are left. *)
Lemma sweep_spec fuel meds : forall removed changed,
  S (List.length reachable) <= fuel ->
  exists removed' changed',
    for_each (examine_mediator mediators real_nodes post_adj fuel) meds
      (removed, changed) = Return (removed', changed')
    /\ incl removed removed'
    /\ (forall x, In x removed' -> In x removed \/ In x meds)
    /\ (changed' = true ->
        changed = true \/ exists x, In x meds /\ In x removed')
    /\ (forall m,
          2 <= List.length (inter (adj_get post_adj m) real_nodes) ->
          ~ In m removed -> ~ In m removed')
    /\ (forall m, In m meds ->
          inter (adj_get post_adj m) real_nodes = [] -> In m removed').
Proof.
  induction meds as [|med meds IH]; intros removed changed Hf;
    cbn [for_each].
  - exists removed, changed. split; [reflexivity|].
    split; [intros x H; exact H|]. split; [auto|]. split; [auto|].
    split; [auto | intros m []].
  - destruct (examine_mediator_spec fuel removed changed med Hf)
      as (st1 & R & Alt & Two & Zero).
    rewrite R. cbn [bind]. destruct st1 as [removed1 changed1].
    destruct (IH removed1 changed1 Hf)
      as (removed' & changed' & R' & I & O & Ch & A & B).
    exists removed', changed'. split; [exact R'|].
    assert (I1 : incl removed removed1).
    { destruct Alt as [[= -> ->] | [= -> ->]]; intros x Hx; auto.
      apply set_add_In. now right. }
    assert (O1 : forall x, In x removed1 -> In x removed \/ x = med).
    { destruct Alt as [[= -> ->] | [= -> ->]]; intros x Hx; auto.
      apply set_add_In in Hx. tauto. }
    split; [intros x Hx; auto|].
    split.
    { intros x Hx. destruct (O x Hx) as [H | H].
      - destruct (O1 x H) as [H1 | ->]; [now left | right; now left].
      - right. now right. }
    split.
    { intros Hc. destruct (Ch Hc) as [H | (x & Hx & Hr)].
      - destruct Alt as [[= -> ->] | [= -> ->]]; [now left|].
        right. exists med. split; [now left|].
        apply I. apply set_add_In. now left.
      - right. exists x. split; [now right | exact Hr]. }
    split.
    { intros m Hm Hn. apply A; [exact Hm|].
      intros H1. destruct (O1 m H1) as [H | ->]; [contradiction|].
      specialize (Two Hm). injection Two as -> ->. contradiction. }
    intros m [<- | Hm] Hz.
    + specialize (Zero Hz). injection Zero as -> ->.
      apply I. apply set_add_In. now left.
    + now apply B.
Qed.

End SweepFacts.

(** The sweeps end, and what they remove. *)
Lemma sweep_loop_spec chain_fuel fuel :
  S (2 * List.length surviving) <= chain_fuel ->
  forall removed,
  unvisited mediators removed < fuel ->
  exists final,
    sweep_loop mediators real_nodes surviving fuel chain_fuel removed
    = Return final
    /\ incl removed final
    /\ (forall x, In x final -> In x removed \/ In x mediators)
    /\ (forall m r1 r2,
          r1 <> r2 -> In r1 real_nodes -> In r2 real_nodes ->
          ~ In r1 mediators -> ~ In r2 mediators ->
          (exists i, In (m, r1, i) surviving \/ In (r1, m, i) surviving) ->
          (exists i, In (m, r2, i) surviving \/ In (r2, m, i) surviving) ->
          incl removed mediators ->
          ~ In m removed -> ~ In m final)
    /\ (forall m, In m mediators -> ~ In m removed ->
          inter (adj_get (post_adj_of surviving removed) m) real_nodes = [] ->
          In m final).
Proof.
  intros Hc. induction fuel as [|fuel IH]; intros removed Hf; [lia|].
  cbn [sweep_loop].
  destruct (sweep_spec (post_adj_of surviving removed) chain_fuel
              (diff mediators removed) removed false)
    as (removed' & changed' & R & I & O & Ch & A & B).
  { pose proof (post_adj_universe removed). lia. }
  rewrite R. cbn [bind fst snd].
  assert (Keep : forall m r1 r2,
            r1 <> r2 -> In r1 real_nodes -> In r2 real_nodes ->
            ~ In r1 mediators -> ~ In r2 mediators ->
            (exists i, In (m, r1, i) surviving \/ In (r1, m, i) surviving) ->
            (exists i, In (m, r2, i) surviving \/ In (r2, m, i) surviving) ->
            incl removed mediators ->
            ~ In m removed -> ~ In m removed').
  { intros m r1 r2 Hne H1 H2 N1 N2 E1 E2 Sub Hm. apply A; [|exact Hm].
    assert (X1 : In r1 (inter (adj_get (post_adj_of surviving removed) m)
                          real_nodes)).
    { apply inter_In. split; [|exact H1]. apply post_adj_spec.
      repeat split; auto. }
    assert (X2 : In r2 (inter (adj_get (post_adj_of surviving removed) m)
                          real_nodes)).
    { apply inter_In. split; [|exact H2]. apply post_adj_spec.
      repeat split; auto. }
    destruct (inter (adj_get (post_adj_of surviving removed) m) real_nodes)
      as [|a [|b l]]; cbn [List.length]; try lia.
    - destruct X1.
    - destruct X1 as [<- | []]. destruct X2 as [<- | []]. congruence. }
  assert (Sub' : incl removed mediators -> incl removed' mediators).
  { intros Sub x Hx. destruct (O x Hx) as [H | H]; [now apply Sub|].
    now apply diff_In in H. }
  assert (Zero : forall m, In m mediators -> ~ In m removed ->
            inter (adj_get (post_adj_of surviving removed) m) real_nodes = [] ->
            In m removed').
  { intros m Hm Hn Hz. apply B; [|exact Hz]. now apply diff_In. }
  destruct changed'.
  - destruct (Ch eq_refl) as [[=] | (x & Hx & Hr)].
    apply diff_In in Hx as [Hx Hn].
    pose proof (unvisited_strict mediators removed removed' x I Hx Hn Hr)
      as Less.
    destruct (IH removed') as (final & R' & I' & O' & A' & B'); [lia|].
    exists final. split; [exact R'|].
    split; [intros y Hy; auto|].
    split.
    { intros y Hy. destruct (O' y Hy) as [H | H]; [|now right].
      destruct (O y H) as [H1 | H1]; [now left | right].
      now apply diff_In in H1. }
    split.
    { intros m r1 r2 Hne H1 H2 N1 N2 E1 E2 Sub Hm.
      eapply A'; eauto. }
    intros m Hm Hn' Hz. apply I'. now apply Zero.
  - exists removed'. split; [reflexivity|].
    split; [exact I|].
    split.
    { intros y Hy. destruct (O y Hy) as [H | H]; [now left | right].
      now apply diff_In in H. }
    split; [exact Keep | exact Zero].
Qed.

End Phase1cFacts.

(** *** The whole pass *)

Lemma mem_nat_In n ns : mem_nat n ns = true <-> In n ns.
Proof.
  unfold mem_nat. rewrite existsb_exists. split.
  - intros (x & Hx & E). apply Nat.eqb_eq in E. now subst.
  - intros H. exists n. split; [exact H | apply Nat.eqb_refl].
Qed.

Lemma edge_indices_touching_In nodes es j :
  In j (edge_indices_touching nodes es)
  <-> exists a b, In (a, b, j) es /\ (In a nodes \/ In b nodes).
Proof.
  unfold edge_indices_touching. rewrite in_map_iff. split.
  - intros ([[a b] i] & E & H). cbn in E. subst i.
    apply filter_In in H as [H T]. cbn in T.
    apply orb_prop in T. rewrite !mem_In in T. eauto.
  - intros (a & b & H & T). exists (a, b, j). split; [reflexivity|].
    apply filter_In. split; [exact H|]. cbn.
    apply orb_true_intro. now rewrite !mem_In.
Qed.

Lemma rewrite_lines_In purge removed lines line :
  In line (rewrite_lines purge removed lines)
  <-> exists j, nth_error lines j = Some line /\ ~ In j removed
                /\ forall id, defines_node line = Some id -> ~ In id purge.
Proof.
  unfold rewrite_lines. rewrite in_map_iff. split.
  - intros ([j l] & E & H). cbn in E. subst l.
    apply filter_In in H as [H T]. cbn [fst snd] in T.
    apply in_enumerate in H. apply andb_prop in T as [T1 T2].
    exists j. split; [exact H|]. split.
    + intros C. apply mem_nat_In in C. rewrite C in T1. discriminate.
    + intros id E C. rewrite E in T2. apply mem_In in C. rewrite C in T2.
      discriminate.
  - intros (j & H & N & D). exists (j, line). split; [reflexivity|].
    apply filter_In. split; [now apply in_enumerate|]. cbn [fst snd].
    apply andb_true_intro. split.
    + destruct (mem_nat j removed) eqn:M; [|reflexivity].
      apply mem_nat_In in M. contradiction.
    + destruct (defines_node line) as [id|]; [|reflexivity].
      destruct (mem id purge) eqn:M; [|reflexivity].
      apply mem_In in M. now destruct (D id eq_refl).
Qed.


Lemma insert_before_closing_keeps extra lines line :
  In line lines -> In line (insert_before_closing extra lines).
Proof.
  unfold insert_before_closing. destruct (closing_index lines) as [i|]; auto.
  intros H. rewrite <- (firstn_skipn i lines) in H.
  apply in_app_or in H as [H | H]; apply in_or_app; auto.
  right. apply in_or_app. now right.
Qed.

(** A line gives one edge at most. *)
Lemma edge_index_unique lines a b a' b' i :
  In (a, b, i) (edges (_parse_dot_graph lines)) ->
  In (a', b', i) (edges (_parse_dot_graph lines)) ->
  a = a' /\ b = b'.
Proof.
  intros H1 H2. apply parsed_edge in H1 as (l1 & N1 & C1).
  apply parsed_edge in H2 as (l2 & N2 & C2).
  rewrite N1 in N2. injection N2 as <-. rewrite C1 in C2.
  injection C2 as -> ->. auto.
Qed.

Lemma filter_length_le {A : Type} (f : A -> bool) (l : list A) :
  List.length (filter f l) <= List.length l.
Proof. induction l as [|x l IH]; cbn; [lia | destruct (f x); cbn; lia]. Qed.

Lemma parsed_sizes lines :
  List.length (edges (_parse_dot_graph lines)) <= List.length lines
  /\ List.length (defined_nodes (_parse_dot_graph lines)) <= List.length lines.
Proof.
  rewrite parse_is_parse_from.
  destruct (parse_sizes lines 0
              {| defined_nodes := []; edges := []; adjacency := [] |})
    as (A & B & _).
  cbn in A, B. split; lia.
Qed.

(** Two nodes that an edge line joins, in either direction. *)
Definition linked (g : graph) (x y : string) : Prop :=
  exists i, In (x, y, i) (edges g) \/ In (y, x, i) (edges g).

Lemma linked_adjacent lines x y :
  linked (_parse_dot_graph lines) x y
  <-> In y (adj_get (adjacency (_parse_dot_graph lines)) x).
Proof.
  rewrite parsed_adjacent. unfold linked. split.
  - intros (i & [H | H]); apply parsed_edge in H as (line & N & C);
      exists line; (split; [eapply nth_error_In; exact N | auto]).
  - intros (line & H & C). apply In_nth_error in H as [i N].
    exists i. rewrite !parsed_edge. destruct C; [left | right]; eauto.
Qed.

(** The fuel that is enough for every loop of the pass. *)
Definition enough_fuel (lines : list string) : nat :=
  S (S (2 * List.length lines)).

(** What the pass has computed when it returns [p] on [lines]. *)
Record analysed (lines : list string) (p : pruning) : Prop := {
  an_filtered :
    filtered_nodes p
    = filter (endswith "_filtered") (defined_nodes (_parse_dot_graph lines));
  an_mediators :
    mediator_nodes p
    = filter is_mediator_node (defined_nodes (_parse_dot_graph lines));
  an_unfiltered :
    unfiltered_nodes p
    = diff (diff (defined_nodes (_parse_dot_graph lines)) (filtered_nodes p))
        (mediator_nodes p);
  an_keep : forall f,
    In f (keep_filtered p)
    <-> In f (filtered_nodes p)
        /\ connects (adjacency (_parse_dot_graph lines)) (unfiltered_nodes p)
             (mediator_nodes p) f;
  an_to_remove : to_remove p = diff (filtered_nodes p) (keep_filtered p);
  an_new_edges : forall e,
    In e (new_edges p) ->
    sound_edge (filtered_nodes p) (mediator_nodes p)
      (edges (_parse_dot_graph lines)) (keep_filtered p) e;
  an_removed_mediators :
    incl (removed_mediator_set p) (mediator_nodes p);
  an_bridge : forall m r1 r2,
    ~ In m (to_remove p) -> r1 <> r2 ->
    In r1 (union (unfiltered_nodes p) (keep_filtered p)) ->
    In r2 (union (unfiltered_nodes p) (keep_filtered p)) ->
    ~ In r1 (mediator_nodes p) -> ~ In r2 (mediator_nodes p) ->
    linked (_parse_dot_graph lines) m r1 ->
    linked (_parse_dot_graph lines) m r2 ->
    ~ In m (removed_mediator_set p);
  an_dangling : forall m,
    In m (mediator_nodes p) ->
    (forall r, linked (_parse_dot_graph lines) m r ->
       ~ In r (union (unfiltered_nodes p) (keep_filtered p))) ->
    In m (removed_mediator_set p);
  an_pruned :
    pruned_lines p
    = rewrite_lines (union (to_remove p) (removed_mediator_set p))
        (edge_indices_touching
           (union (to_remove p) (removed_mediator_set p))
           (edges (_parse_dot_graph lines)))
        lines;
  an_written :
    written_lines p
    = match new_edges p with
      | [] => pruned_lines p
      | _ :: _ =>
          insert_before_closing
            (String nl EmptyString :: map indirect_edge_line (new_edges p))
            (pruned_lines p)
      end
}.

Lemma analyse_spec lines fuel :
  enough_fuel lines <= fuel ->
  exists p, analyse fuel lines = Return p /\ analysed lines p.
Proof.
  unfold enough_fuel. intros Hf. unfold analyse.
  destruct (parsed_sizes lines) as [Se Sd].
  set (g := _parse_dot_graph lines) in *.
  set (filtered := filter (endswith "_filtered") (defined_nodes g)).
  set (mediators := filter is_mediator_node (defined_nodes g)).
  set (unfiltered := diff (diff (defined_nodes g) filtered) mediators).
  assert (Sm : List.length mediators <= List.length lines).
  { unfold mediators. etransitivity; [apply filter_length_le | exact Sd]. }
  destruct (keep_filtered_correct (adjacency g) unfiltered mediators fuel
              filtered) as (keep & Rk & Hk).
  { intros f Hx Hu. unfold unfiltered in Hu.
    apply diff_In in Hu as [Hu _]. apply diff_In in Hu as [_ Hu].
    contradiction. }
  { lia. }
  rewrite Rk. cbn [bind].
  destruct (indirect_edges_spec filtered mediators keep (edges g) fuel)
    as (indirect & Ri & Hi).
  { pose proof (restricted_universe filtered mediators (edges g)). lia. }
  rewrite Ri. cbn [bind].
  set (removing := diff filtered keep).
  set (surviving :=
         filter
           (fun e : edge =>
              negb (mem_nat (snd e) (edge_indices_touching removing (edges g))))
           (edges g)).
  set (real := union unfiltered keep).
  assert (Ss : List.length surviving <= List.length lines).
  { unfold surviving. etransitivity; [apply filter_length_le | exact Se]. }
  destruct (sweep_loop_spec mediators real surviving fuel fuel) with (removed := @nil string)
    as (final & Rs & _ & Os & As & Bs).
  { lia. }
  { pose proof (unvisited_bound mediators []). lia. }
  rewrite Rs. cbn [bind].
  eexists. split; [reflexivity|].
  assert (Sv : forall x y, ~ In x removing -> ~ In y removing ->
                 linked g x y ->
                 exists i, In (x, y, i) surviving \/ In (y, x, i) surviving).
  { intros x y Nx Ny (i & H). exists i.
    assert (T : ~ In i (edge_indices_touching removing (edges g))).
    { intros T. apply edge_indices_touching_In in T as (a & b & Hab & Tab).
      destruct H as [H | H];
        destruct (edge_index_unique lines _ _ _ _ _ H Hab) as [<- <-];
        tauto. }
    unfold surviving. rewrite !filter_In. cbn [snd].
    destruct (mem_nat i (edge_indices_touching removing (edges g))) eqn:M;
      [apply mem_nat_In in M; contradiction|].
    cbn [negb]. destruct H; [left | right]; auto. }
  assert (Real : forall r, In r real -> ~ In r removing).
  { intros r Hr C. unfold removing in C. apply diff_In in C as [Cf Ck].
    apply union_In in Hr as [Hr | Hr]; [|contradiction].
    unfold unfiltered in Hr. apply diff_In in Hr as [Hr _].
    apply diff_In in Hr as [_ Hr]. contradiction. }
  split; cbn [filtered_nodes mediator_nodes unfiltered_nodes keep_filtered
                to_remove new_edges removed_mediator_set pruned_lines
                written_lines]; try reflexivity.
  - exact Hk.
  - exact Hi.
  - intros x Hx. destruct (Os x Hx) as [[] | H]. exact H.
  - intros m r1 r2 Nm Ne H1 H2 N1 N2 L1 L2.
    eapply (As m r1 r2); eauto.
    intros x [].
  - intros m Hm Hz. apply Bs; auto.
    destruct (inter (adj_get (post_adj_of surviving []) m) real) as [|r l] eqn:E;
      [reflexivity|].
    assert (Hr : In r (inter (adj_get (post_adj_of surviving []) m) real))
      by (rewrite E; now left).
    apply inter_In in Hr as [Hr1 Hr2].
    apply post_adj_spec in Hr1 as (_ & _ & i & Hr1).
    exfalso. apply (Hz r); [|exact Hr2].
    exists i. unfold surviving in Hr1. rewrite !filter_In in Hr1. tauto.
Qed.

(** *** Sample graphs *)

Definition node_line (id : string) : string :=
  quoted id ++ " [label=" ++ quoted id ++ "];" ++ String nl EmptyString.

Definition edge_line (a b : string) : string :=
  quoted a ++ " -> " ++ quoted b ++ ";" ++ String nl EmptyString.

Definition opening_line : string := "digraph G {" ++ String nl EmptyString.
Definition closing_line : string := "}" ++ String nl EmptyString.



(** [R1 - K1_filtered - A_func - F_filtered - B_func - K2_filtered - R2]:
    two kept placeholders with a discarded one between them. *)
Definition kept_pair_apart : list string :=
  [opening_line;
   node_line "R1"; node_line "R2"; node_line "K1_filtered";
   node_line "K2_filtered"; node_line "F_filtered"; node_line "A_func";
   node_line "B_func";
   edge_line "K1_filtered" "R1"; edge_line "K2_filtered" "R2";
   edge_line "K1_filtered" "A_func"; edge_line "A_func" "F_filtered";
   edge_line "F_filtered" "B_func"; edge_line "B_func" "K2_filtered";
   closing_line].


(** The same with two mediators. *)
Definition chain_of_two : list string :=
  [opening_line;
   node_line "R1"; node_line "R2"; node_line "a_to_b_1";
   node_line "c_to_d_1"; node_line "X_filtered";
   edge_line "R1" "a_to_b_1"; edge_line "a_to_b_1" "c_to_d_1";
   edge_line "c_to_d_1" "R2"; edge_line "X_filtered" "R1";
   closing_line].

Example chain_of_two_is_kept :
  exists p,
    analyse (enough_fuel chain_of_two) chain_of_two = Return p
    /\ removed_mediator_set p = []
    /\ written_lines p = chain_of_two.
Proof. eexists. split; [vm_compute; reflexivity|]. split; reflexivity. Qed.

Example kept_pair_apart_is_joined :
  exists p,
    analyse (enough_fuel kept_pair_apart) kept_pair_apart = Return p
    /\ keep_filtered p = ["K1_filtered"; "K2_filtered"]
    /\ to_remove p = ["F_filtered"]
    /\ new_edges p = [("K1_filtered", "K2_filtered", 1)]
    /\ In (indirect_edge_line ("K1_filtered", "K2_filtered", 1))
         (written_lines p).
Proof.
  eexists. split; [vm_compute; reflexivity|].
  repeat split. vm_compute.
  repeat (first [left; reflexivity | right]).
Qed.

(** *** Kept and discarded placeholders *)





Lemma analysed_keeps lines p line :
  analysed lines p -> In line (pruned_lines p) -> In line (written_lines p).
Proof.
  intros A H. rewrite (an_written _ _ A).
  destruct (new_edges p); [exact H|].
  now apply insert_before_closing_keeps.
Qed.



(** *** Dashed edges between kept placeholders *)






(** *** Dangling mediators *)





End PruningFacts.

(** ** The direction corrector *)

Module ArrowFacts.
Import PyStr DotSyntax ArrowFixup StrFacts LineFacts.
Import PseudoNodes(all_chars).

Local Open Scope string_scope.

(** *** Texts *)

Lemma has_char_app c a b :
  has_char c (a ++ b) = has_char c a || has_char c b.
Proof.
  induction a as [|x a IH]; cbn [append has_char]; [reflexivity|].
  rewrite IH. apply orb_assoc.
Qed.

Lemma all_chars_app p a b :
  all_chars p (a ++ b) = all_chars p a && all_chars p b.
Proof.
  induction a as [|x a IH]; cbn [append all_chars]; [reflexivity|].
  rewrite IH. apply andb_assoc.
Qed.

Lemma all_chars_has_char p c s :
  all_chars p s = true -> p c = false -> has_char c s = false.
Proof.
  intros H Hc. induction s as [|x s IH]; cbn [has_char]; [reflexivity|].
  cbn [all_chars] in H. apply andb_prop in H as [Hx Hs].
  rewrite (IH Hs), orb_false_r.
  destruct (Ascii.eqb_spec x c) as [-> | _]; [congruence | reflexivity].
Qed.

Lemma take_app a b :
  take (String.length (a ++ b) - String.length b) (a ++ b) = a.
Proof.
  rewrite append_length.
  replace (String.length a + String.length b - String.length b)
    with (String.length a) by lia.
  induction a as [|x a IH]; cbn [append String.length take].
  - destruct b; reflexivity.
  - now rewrite IH.
Qed.

Lemma startswith_refl_app a b : startswith a (a ++ b) = true.
Proof. apply startswith_iff. now exists b. Qed.

Lemma startswith_first c old y :
  startswith old (String c y) = true ->
  old = EmptyString \/ exists o, old = String c o.
Proof.
  destruct old as [|d o]; [now left|]. cbn [startswith].
  intros H. apply andb_prop in H as [H _]. apply Ascii.eqb_eq in H.
  subst. right. now exists o.
Qed.

Lemma until_quote_app_some a b x r :
  until_quote a = Some (x, r) -> until_quote (a ++ b) = Some (x, r ++ b).
Proof.
  revert x r. induction a as [|c a IH]; intros x r; cbn [until_quote append];
    [discriminate|].
  destruct (Ascii.eqb c dq); [now intros [= <- <-]|].
  destruct (until_quote a) as [[x' r']|]; [|discriminate].
  intros [= <- <-]. now rewrite (IH x' r' eq_refl).
Qed.

Lemma until_quote_app_none a b :
  until_quote a = None ->
  until_quote (a ++ b)
  = match until_quote b with
    | Some (x, r) => Some (a ++ x, r)
    | None => None
    end.
Proof.
  induction a as [|c a IH]; cbn [until_quote append].
  - intros _. now destruct (until_quote b) as [[x r]|].
  - destruct (Ascii.eqb c dq); [discriminate|].
    destruct (until_quote a) as [[x' r']|]; [discriminate|].
    intros _. rewrite (IH eq_refl).
    now destruct (until_quote b) as [[x r]|].
Qed.

Lemma until_quote_free s x :
  has_char dq s = false -> until_quote (s ++ String dq x) = Some (s, x).
Proof.
  induction s as [|c s IH]; cbn [has_char append until_quote].
  - intros _. now rewrite Ascii.eqb_refl.
  - intros H. apply orb_false_elim in H as [Hc Hs].
    rewrite Hc, (IH Hs). reflexivity.
Qed.

Lemma until_quote_None s : has_char dq s = false -> until_quote s = None.
Proof.
  induction s as [|c s IH]; cbn [has_char until_quote]; [reflexivity|].
  intros H. apply orb_false_elim in H as [Hc Hs]. now rewrite Hc, (IH Hs).
Qed.

Lemma until_quote_spec s x r :
  until_quote s = Some (x, r) ->
  s = x ++ String dq r /\ has_char dq x = false.
Proof.
  revert x r. induction s as [|c s IH]; intros x r; cbn [until_quote];
    [discriminate|].
  destruct (Ascii.eqb_spec c dq) as [-> | Hc].
  - intros [= <- <-]. split; reflexivity.
  - destruct (until_quote s) as [[x' r']|]; [|discriminate].
    intros [= <- <-]. destruct (IH x' r' eq_refl) as [-> H].
    split; [reflexivity|]. cbn [has_char]. rewrite H, orb_false_r.
    now apply Ascii.eqb_neq.
Qed.

Lemma until_close_free a rest :
  has_char "]" a = false ->
  until_close (a ++ String "]" (String ";" rest)) = Some (a, rest).
Proof.
  induction a as [|c a IH]; cbn [has_char append until_close].
  - intros _. cbn. reflexivity.
  - intros H. apply orb_false_elim in H as [Hc Hs].
    rewrite Hc, (IH Hs). reflexivity.
Qed.

(** *** Documents in the form the writer gives them *)

(** An edge statement: [Qsrc Q -> Qtgt Q;] or [Qsrc Q -> Qtgt Q [attrs];],
    with [Q] the double quote. *)
Record stmt : Type := {
  s_src : string;
  s_tgt : string;
  s_attrs : option string
}.

(** The text of a statement from the closing quote of the target on,
    followed by [rest]. *)
Definition post_then (attrs : option string) (rest : string) : string :=
  match attrs with
  | None => String ";" rest
  | Some a => " [" ++ a ++ String "]" (String ";" rest)
  end.

(** The text of a statement followed by [rest]. *)
Definition stmt_then (st : stmt) (rest : string) : string :=
  String dq (s_src st ++ String dq
    (" -> " ++ String dq (s_tgt st ++ String dq
       (post_then (s_attrs st) rest)))).

Definition stmt_text (st : stmt) : string := stmt_then st EmptyString.

(** A document: edge statements, each after a stretch of other text, and
    the text after the last of them. *)
Definition document : Type := (list (string * stmt) * string)%type.

Fixpoint render_items (items : list (string * stmt)) (last : string) : string :=
  match items with
  | []%list => last
  | ((u, st) :: rest)%list => u ++ stmt_then st (render_items rest last)
  end.

Definition render (d : document) : string := render_items (fst d) (snd d).

(** The characters of a node id: no quote, space, semicolon or bracket. *)
Definition id_char (c : ascii) : bool :=
  negb (Ascii.eqb c dq || is_space c || Ascii.eqb c ";" || Ascii.eqb c "["
        || Ascii.eqb c "]").

Definition id_ok (s : string) : bool :=
  negb (is_empty s) && all_chars id_char s.

(** The characters of an attribute list: no closing bracket, no [>] and no
    carriage return. *)
Definition attr_char (c : ascii) : bool :=
  negb (Ascii.eqb c "]" || Ascii.eqb c ">" || Ascii.eqb c cr).

Definition attrs_ok (attrs : option string) : bool :=
  match attrs with
  | None => true
  | Some a => all_chars attr_char a
  end.

Definition stmt_ok (st : stmt) : bool :=
  id_ok (s_src st) && id_ok (s_tgt st) && attrs_ok (s_attrs st).

(** The start [Q[^Q]+Q\s+->] of the edge pattern at the start of [s]. *)
Definition head_at (s : string) : bool :=
  match quoted_id s with
  | Some (_, r) =>
      match spaces1 r with
      | Some r2 => startswith "->" r2
      | None => false
      end
  | None => false
  end.

(** No place of [u] starts like an edge. *)
Fixpoint no_head (u : string) : bool :=
  match u with
  | EmptyString => true
  | String _ u' => negb (head_at u) && no_head u'
  end.

(** The other text: node definitions, braces, blank lines. *)
Definition text_ok (u : string) : bool :=
  no_head u && all_chars (fun c => negb (Ascii.eqb c cr)) u.

Definition well_formed (d : document) : bool :=
  forallb (fun it : string * stmt => text_ok (fst it) && stmt_ok (snd it))
    (fst d)
  && text_ok (snd d).

Lemma stmt_then_app st rest : stmt_then st rest = stmt_text st ++ rest.
Proof.
  unfold stmt_text, stmt_then. cbn [append]. f_equal.
  rewrite append_assoc. f_equal. cbn [append]. do 6 f_equal.
  rewrite append_assoc. f_equal. cbn [append]. f_equal.
  destruct (s_attrs st) as [a|]; cbn [post_then append]; [|reflexivity].
  do 2 f_equal. rewrite append_assoc. reflexivity.
Qed.

Lemma id_ok_spec s :
  id_ok s = true ->
  is_empty s = false /\ all_chars id_char s = true
  /\ has_char dq s = false /\ has_char ";" s = false
  /\ has_char "[" s = false.
Proof.
  unfold id_ok. intros H. apply andb_prop in H as [E A].
  apply negb_true_iff in E. repeat split; auto;
    apply (all_chars_has_char id_char); auto.
Qed.

Lemma id_ok_first s :
  id_ok s = true -> exists c r, s = String c r /\ id_char c = true.
Proof.
  unfold id_ok. destruct s as [|c r]; [discriminate|]. cbn.
  intros H. apply andb_prop in H as [H _]. eauto.
Qed.

Lemma quoted_id_here s x :
  id_ok s = true -> quoted_id (String dq (s ++ String dq x)) = Some (s, x).
Proof.
  intros H. apply id_ok_spec in H as (E & _ & Q & _).
  cbn [quoted_id]. rewrite Ascii.eqb_refl, (until_quote_free s x Q), E.
  reflexivity.
Qed.

(** *** The pattern on a statement *)

Lemma edge_pattern_match_stmt st rest :
  stmt_ok st = true ->
  edge_pattern_match (stmt_then st rest)
  = Some (s_src st, s_tgt st, s_attrs st, rest).
Proof.
  unfold stmt_ok. intros H. apply andb_prop in H as [H Ha].
  apply andb_prop in H as [Hs Ht].
  unfold edge_pattern_match, stmt_then.
  rewrite (quoted_id_here _ _ Hs). cbn [append].
  change (spaces1 (String " " (String "-" (String ">" (String " "
            (String dq (s_tgt st ++ String dq
               (post_then (s_attrs st) rest))))))))
    with (Some (String "-" (String ">" (String " "
            (String dq (s_tgt st ++ String dq
               (post_then (s_attrs st) rest))))))).
  cbn [startswith Ascii.eqb Bool.eqb andb drop2].
  change (spaces1 (String " " (String dq (s_tgt st ++ String dq
            (post_then (s_attrs st) rest)))))
    with (Some (String dq (s_tgt st ++ String dq
            (post_then (s_attrs st) rest)))).
  cbv beta iota. rewrite (quoted_id_here _ _ Ht).
  destruct (s_attrs st) as [a|]; cbn [post_then append].
  - change (spaces1 (String " " (String "[" (a ++ String "]" (String ";" rest)))))
      with (Some (String "[" (a ++ String "]" (String ";" rest)))).
    cbv beta iota. change (Ascii.eqb "[" "[") with true. cbv beta iota.
    rewrite until_close_free; [reflexivity|].
    apply (all_chars_has_char attr_char); [exact Ha | reflexivity].
  - reflexivity.
Qed.

Lemma head_at_stmt st rest :
  stmt_ok st = true -> head_at (stmt_then st rest) = true.
Proof.
  unfold stmt_ok. intros H. apply andb_prop in H as [H _].
  apply andb_prop in H as [Hs _].
  unfold head_at, stmt_then. rewrite (quoted_id_here _ _ Hs). reflexivity.
Qed.

Lemma edge_pattern_match_head s m :
  edge_pattern_match s = Some m -> head_at s = true.
Proof.
  unfold edge_pattern_match, head_at.
  destruct (quoted_id s) as [[src r1]|]; [|discriminate].
  destruct (spaces1 r1) as [r2|]; [|discriminate].
  destruct (startswith "->" r2); [reflexivity | discriminate].
Qed.

(** What may follow a stretch of other text: nothing, or a statement. *)
Definition opens (rest : string) : Prop :=
  rest = EmptyString
  \/ exists c r, rest = String dq (String c r) /\ is_space c = false.

Lemma stmt_opens st rest : stmt_ok st = true -> opens (stmt_then st rest).
Proof.
  unfold stmt_ok. intros H. apply andb_prop in H as [H _].
  apply andb_prop in H as [Hs _].
  destruct (id_ok_first _ Hs) as (c & r & E & Hc).
  right. unfold stmt_then. rewrite E. cbn [append].
  exists c. eexists. split; [reflexivity|].
  unfold id_char in Hc. apply negb_true_iff in Hc.
  repeat (apply orb_false_elim in Hc as [Hc ?]). assumption.
Qed.

Lemma arrow_after_spaces r rest :
  opens rest ->
  startswith "->" (lstrip r) = false ->
  startswith "->" (lstrip (r ++ rest)) = false.
Proof.
  intros Ho. induction r as [|a r IH]; cbn [append lstrip].
  - intros _. destruct Ho as [-> | (c & r0 & -> & Hc)]; reflexivity.
  - destruct (is_space a); [exact IH|].
    cbn [startswith]. destruct (Ascii.eqb "-" a); [|reflexivity].
    cbn [andb]. destruct r as [|b r]; [|now cbn].
    intros _. cbn [append].
    destruct Ho as [-> | (c & r0 & -> & Hc)]; reflexivity.
Qed.

Lemma head_at_app t rest :
  opens rest -> t <> EmptyString -> head_at t = false ->
  head_at (t ++ rest) = false.
Proof.
  intros Ho Ht. destruct t as [|c t]; [congruence|]. clear Ht.
  unfold head_at. cbn [append quoted_id].
  destruct (Ascii.eqb c dq); [|reflexivity].
  destruct (until_quote t) as [[x r]|] eqn:U.
  - rewrite (until_quote_app_some t rest x r U).
    destruct (is_empty x); [reflexivity|].
    destruct r as [|a r]; cbn [append spaces1].
    + intros _. destruct Ho as [-> | (c0 & r0 & -> & Hc)]; reflexivity.
    + destruct (is_space a) eqn:Sa; [|reflexivity].
      intros H.
      apply (arrow_after_spaces (String a r) rest Ho) in H. exact H.
  - rewrite (until_quote_app_none t rest U). intros _.
    destruct Ho as [-> | (c0 & r0 & -> & Hc)]; [reflexivity|].
    cbn [until_quote]. rewrite Ascii.eqb_refl.
    destruct (is_empty (t ++ "")); [reflexivity|].
    cbn [spaces1]. now rewrite Hc.
Qed.

(** *** The scan for edges *)

(** The dictionary [parse_edges] makes of a statement, if it makes one. *)
Definition attrs_text (st : stmt) : string :=
  match s_attrs st with Some a => a | None => EmptyString end.

Definition record_of (st : stmt) : option edge_info :=
  if contains style_invis (attrs_text st) then None
  else if search_dir "both" (attrs_text st) then None
  else
    Some {| source := s_src st;
            target := s_tgt st;
            full_match := stmt_text st;
            attributes := attrs_text st;
            is_undirected := search_dir "none" (attrs_text st);
            already_reversed := search_dir "back" (attrs_text st) |}.

Definition record_list (st : stmt) : list edge_info :=
  match record_of st with Some e => [e]%list | None => []%list end.

Definition records (items : list (string * stmt)) : list edge_info :=
  flat_map (fun it : string * stmt => record_list (snd it)) items.

Lemma scan_edges_skip a rest :
  scan_edges (String.length a) (a ++ rest) = scan_edges 0 rest.
Proof.
  induction a as [|c a IH]; cbn [String.length append]; [reflexivity|].
  cbn [scan_edges]. exact IH.
Qed.

Lemma scan_edges_text u rest :
  opens rest -> no_head u = true ->
  scan_edges 0 (u ++ rest) = scan_edges 0 rest.
Proof.
  intros Ho. induction u as [|c u IH]; [reflexivity|].
  intros H. cbn [no_head] in H. apply andb_prop in H as [H1 H2].
  apply negb_true_iff in H1.
  pose proof (head_at_app (String c u) rest Ho ltac:(discriminate) H1) as Hh.
  cbn [append] in Hh |- *. cbn [scan_edges].
  destruct (edge_pattern_match (String c (u ++ rest))) as [m|] eqn:M.
  - apply edge_pattern_match_head in M. congruence.
  - now apply IH.
Qed.

Lemma scan_edges_stmt st rest :
  stmt_ok st = true ->
  scan_edges 0 (stmt_then st rest)
  = (record_list st ++ scan_edges 0 rest)%list.
Proof.
  intros Hok.
  pose proof (edge_pattern_match_stmt st rest Hok) as M.
  assert (E : edge_of_match (stmt_then st rest)
                (s_src st, s_tgt st, s_attrs st, rest) = record_of st).
  { unfold edge_of_match, record_of, attrs_text.
    rewrite stmt_then_app, take_app. reflexivity. }
  rewrite stmt_then_app in M, E |- *.
  destruct (stmt_text st) as [|c body] eqn:T;
    [unfold stmt_text, stmt_then in T; discriminate|].
  cbn [append] in M, E |- *. cbn [scan_edges]. rewrite M, E.
  unfold record_list. f_equal.
  replace (String.length (String c (body ++ rest)) - String.length rest - 1)
    with (String.length body)
    by (cbn [String.length]; rewrite append_length; lia).
  apply scan_edges_skip.
Qed.

Lemma parse_edges_render items last :
  forallb (fun it : string * stmt => text_ok (fst it) && stmt_ok (snd it))
    items = true ->
  text_ok last = true ->
  parse_edges (render_items items last) = records items.
Proof.
  unfold parse_edges. intros Hi Hl.
  induction items as [|[u st] items IH]; cbn [render_items records flat_map].
  - unfold text_ok in Hl. apply andb_prop in Hl as [Hl _].
    rewrite <- (append_empty_r last).
    rewrite (scan_edges_text last "" (or_introl eq_refl) Hl). reflexivity.
  - cbn [forallb fst snd] in Hi. apply andb_prop in Hi as [Hu Hi].
    apply andb_prop in Hu as [Hu Hs]. unfold text_ok in Hu.
    apply andb_prop in Hu as [Hu _].
    rewrite (scan_edges_text u _ (stmt_opens st _ Hs) Hu).
    rewrite (scan_edges_stmt st _ Hs). cbn [snd]. f_equal.
    exact (IH Hi).
Qed.

(** *** Replacement *)

Lemma replace_from_skip old new a y :
  replace_from old new (String.length a) (a ++ y) = replace_from old new 0 y.
Proof.
  induction a as [|c a IH]; cbn [String.length append]; [reflexivity|].
  cbn [replace_from]. exact IH.
Qed.

Lemma replace_from_hit old new y :
  old <> EmptyString ->
  replace_from old new 0 (old ++ y) = new ++ replace_from old new 0 y.
Proof.
  destruct old as [|c o]; [congruence|]. intros _.
  cbn [append replace_from].
  change (String c (o ++ y)) with (String c o ++ y).
  rewrite startswith_refl_app. f_equal.
  replace (String.length (String c o) - 1) with (String.length o)
    by (cbn [String.length]; lia).
  apply replace_from_skip.
Qed.

(** No place of [x], with [rest] after it, starts with [old]. *)
Fixpoint clear (old x rest : string) : bool :=
  match x with
  | EmptyString => true
  | String _ x' => negb (startswith old (x ++ rest)) && clear old x' rest
  end.

Lemma replace_from_clear old new x rest :
  clear old x rest = true ->
  replace_from old new 0 (x ++ rest) = x ++ replace_from old new 0 rest.
Proof.
  induction x as [|c x IH]; [reflexivity|].
  cbn [clear]. intros H. apply andb_prop in H as [H1 H2].
  apply negb_true_iff in H1. cbn [append] in H1 |- *.
  cbn [replace_from]. rewrite H1. f_equal. exact (IH H2).
Qed.

Lemma clear_app old a b rest :
  clear old (a ++ b) rest = clear old a (b ++ rest) && clear old b rest.
Proof.
  induction a as [|c a IH]; cbn [append clear]; [reflexivity|].
  rewrite IH, andb_assoc. do 3 f_equal.
  change (String c (a ++ b)) with (String c a ++ b).
  now rewrite append_assoc.
Qed.

(** A text that lacks the first character of [old] is clear of it. *)
Lemma clear_lacking old d o x rest :
  old = String d o -> has_char d x = false -> clear old x rest = true.
Proof.
  intros ->. induction x as [|c x IH]; [reflexivity|].
  cbn [has_char clear append startswith]. intros H.
  apply orb_false_elim in H as [Hc Hx].
  rewrite Ascii.eqb_sym, Hc. cbn [andb negb]. exact (IH Hx).
Qed.

Lemma split_at_char c a b x y :
  has_char c a = false -> has_char c b = false ->
  a ++ String c x = b ++ String c y -> a = b /\ x = y.
Proof.
  revert b. induction a as [|p a IH]; intros [|q b]; cbn [has_char append].
  - intros _ _ [= ->]. auto.
  - intros _ H [= <- _]. rewrite Ascii.eqb_refl in H. discriminate.
  - intros H _ [= -> _]. rewrite Ascii.eqb_refl in H. discriminate.
  - intros Ha Hb [= -> E].
    apply orb_false_elim in Ha as [_ Ha]. apply orb_false_elim in Hb as [_ Hb].
    destruct (IH b Ha Hb E) as [-> ->]. auto.
Qed.

(** *** Statements against one another *)

Lemma stmt_then_inj st st0 rest post :
  stmt_ok st = true -> stmt_ok st0 = true ->
  stmt_then st rest = stmt_then st0 post -> st = st0 /\ rest = post.
Proof.
  unfold stmt_ok. intros H H0.
  apply andb_prop in H as [H Ha]. apply andb_prop in H as [Hs Ht].
  apply andb_prop in H0 as [H0 Ha0]. apply andb_prop in H0 as [Hs0 Ht0].
  apply id_ok_spec in Hs as (_ & _ & Qs & _).
  apply id_ok_spec in Ht as (_ & _ & Qt & _).
  apply id_ok_spec in Hs0 as (_ & _ & Qs0 & _).
  apply id_ok_spec in Ht0 as (_ & _ & Qt0 & _).
  destruct st as [s t a], st0 as [s0 t0 a0].
  unfold stmt_then. cbn [s_src s_tgt s_attrs] in *.
  intros [= E]. apply split_at_char in E as [-> E]; [|assumption..].
  cbn [append] in E. injection E as E.
  apply split_at_char in E as [-> E]; [|assumption..].
  destruct a as [a|], a0 as [a0|]; cbn [post_then append] in E;
    try discriminate.
  - injection E as E. cbn [attrs_ok] in Ha, Ha0.
    apply split_at_char in E as [-> E].
    + injection E as ->. auto.
    + apply (all_chars_has_char attr_char); [exact Ha | reflexivity].
    + apply (all_chars_has_char attr_char); [exact Ha0 | reflexivity].
  - injection E as ->. auto.
Qed.

Lemma stmt_text_inj st st0 :
  stmt_ok st = true -> stmt_ok st0 = true ->
  stmt_text st = stmt_text st0 -> st = st0.
Proof.
  intros H H0 E. now destruct (stmt_then_inj st st0 "" "" H H0 E).
Qed.

Lemma stmt_text_nonempty st : stmt_text st <> EmptyString.
Proof. unfold stmt_text, stmt_then. discriminate. Qed.

(** Where the text of a statement occurs, a statement's start is read. *)
Lemma occurrence_at_stmt st0 st rest :
  stmt_ok st = true -> stmt_ok st0 = true ->
  startswith (stmt_text st0) (stmt_then st rest) = true -> st = st0.
Proof.
  intros H H0 S. apply startswith_iff in S as [post E].
  rewrite <- stmt_then_app in E.
  now destruct (stmt_then_inj st st0 rest post H H0 E).
Qed.

Lemma occurrence_head st0 x :
  stmt_ok st0 = true -> startswith (stmt_text st0) x = true ->
  head_at x = true.
Proof.
  intros H0 S. apply startswith_iff in S as [post ->].
  rewrite <- stmt_then_app. now apply head_at_stmt.
Qed.

Lemma clear_text st0 u rest :
  stmt_ok st0 = true -> opens rest -> no_head u = true ->
  clear (stmt_text st0) u rest = true.
Proof.
  intros H0 Ho. induction u as [|c u IH]; [reflexivity|].
  cbn [no_head clear]. intros H. apply andb_prop in H as [H1 H2].
  apply negb_true_iff in H1. rewrite (IH H2), andb_true_r.
  apply negb_true_iff.
  destruct (startswith (stmt_text st0) (String c u ++ rest)) eqn:S;
    [|reflexivity].
  apply (occurrence_head st0 _ H0) in S.
  rewrite (head_at_app (String c u) rest Ho ltac:(discriminate) H1) in S.
  discriminate.
Qed.

(** The text of a statement starts with a quote, an id character after
    it. *)
Lemma occurrence_first st0 c y :
  startswith (stmt_text st0) (String c y) = true -> c = dq.
Proof.
  unfold stmt_text, stmt_then. cbn [startswith]. intros H.
  apply andb_prop in H as [H _]. apply Ascii.eqb_eq in H. now subst.
Qed.

Lemma occurrence_second st0 c y :
  stmt_ok st0 = true ->
  startswith (stmt_text st0) (String dq (String c y)) = true ->
  id_char c = true.
Proof.
  unfold stmt_ok. intros H. apply andb_prop in H as [H _].
  apply andb_prop in H as [Hs _].
  destruct (id_ok_first _ Hs) as (d & r & E & Hd).
  unfold stmt_text, stmt_then. rewrite E. cbn [append startswith].
  intros S. apply andb_prop in S as [_ S]. apply andb_prop in S as [S _].
  apply Ascii.eqb_eq in S. now subst.
Qed.

Lemma occurrence_after_id st0 t y :
  stmt_ok st0 = true -> has_char dq t = false ->
  startswith (stmt_text st0) (String dq (t ++ String dq y)) = true ->
  startswith " -> " y = true.
Proof.
  intros H0 Qt S. apply startswith_iff in S as [post E].
  rewrite <- stmt_then_app in E. unfold stmt_then in E.
  unfold stmt_ok in H0. apply andb_prop in H0 as [H0 _].
  apply andb_prop in H0 as [Hs0 _].
  apply id_ok_spec in Hs0 as (_ & _ & Qs0 & _).
  injection E as E. apply split_at_char in E as [_ ->]; [|assumption..].
  reflexivity.
Qed.

Lemma arrow_not_in_attrs a y z :
  all_chars attr_char a = true ->
  startswith (" -> " ++ z) (a ++ String "]" y) = false.
Proof.
  intros H.
  destruct a as [|c1 [|c2 [|c3 a]]]; cbn [append startswith];
    try (now rewrite ?andb_false_r).
  cbn [all_chars] in H. apply andb_prop in H as [_ H].
  apply andb_prop in H as [_ H]. apply andb_prop in H as [H _].
  unfold attr_char in H. apply negb_true_iff in H.
  apply orb_false_elim in H as [H _]. apply orb_false_elim in H as [_ H].
  rewrite (Ascii.eqb_sym ">" c3), H. now rewrite ?andb_false_r.
Qed.

(** An id, a quote and an arrow do not fit in the rest of an attribute
    list. *)
Lemma id_not_in_attrs z a : forall s y,
  all_chars attr_char a = true -> all_chars id_char s = true ->
  startswith (s ++ String dq (" -> " ++ z)) (a ++ String "]" (String ";" y))
  = false.
Proof.
  pose proof (fun a y => arrow_not_in_attrs a y z) as Arrow.
  remember (" -> " ++ z) as w eqn:W. clear W.
  induction a as [|c a IH]; intros s y Ha Hs.
  - destruct s as [|d s]; cbn [append startswith]; [reflexivity|].
    cbn [all_chars] in Hs. apply andb_prop in Hs as [Hd Hs].
    destruct (Ascii.eqb_spec d "]") as [-> | _]; [discriminate | reflexivity].
  - cbn [all_chars] in Ha. apply andb_prop in Ha as [Hc Ha].
    destruct s as [|d s]; cbn [append startswith].
    + destruct (Ascii.eqb dq c); [|reflexivity]. cbn [andb].
      exact (Arrow a (String ";" y) Ha).
    + cbn [all_chars] in Hs. apply andb_prop in Hs as [_ Hs].
      rewrite (IH s y Ha Hs). apply andb_false_r.
Qed.

Lemma clear_attrs st0 a y :
  stmt_ok st0 = true -> all_chars attr_char a = true ->
  clear (stmt_text st0) a (String "]" (String ";" y)) = true.
Proof.
  intros H0. induction a as [|c a IH]; [reflexivity|].
  intros Ha. pose proof Ha as Ha'. cbn [all_chars] in Ha'.
  apply andb_prop in Ha' as [_ Ha'].
  cbn [clear]. rewrite (IH Ha'), andb_true_r. apply negb_true_iff.
  cbn [append].
  unfold stmt_text, stmt_then. cbn [startswith].
  destruct (Ascii.eqb dq c); [|reflexivity]. cbn [andb].
  unfold stmt_ok in H0. apply andb_prop in H0 as [H0 _].
  apply andb_prop in H0 as [Hs0 _].
  apply id_ok_spec in Hs0 as (_ & As0 & _).
  exact (id_not_in_attrs _ a (s_src st0) y Ha' As0).
Qed.

Lemma post_then_app attrs rest :
  post_then attrs EmptyString ++ rest = post_then attrs rest.
Proof.
  destruct attrs as [a|]; cbn [post_then append]; [|reflexivity].
  do 2 f_equal. rewrite append_assoc. reflexivity.
Qed.

(** The text of another statement holds no occurrence of [st0]'s. *)
Local Ltac not_quote H :=
  rewrite ?(H " "%char), ?(H "-"%char), ?(H ">"%char), ?(H ";"%char),
    ?(H "["%char), ?(H "]"%char) by reflexivity.

Lemma clear_stmt st0 st rest :
  stmt_ok st0 = true -> stmt_ok st = true -> st <> st0 ->
  clear (stmt_text st0) (stmt_text st) rest = true.
Proof.
  intros H0 H Hne.
  assert (Start : startswith (stmt_text st0) (stmt_text st ++ rest) = false).
  { destruct (startswith (stmt_text st0) (stmt_text st ++ rest)) eqn:S;
      [|reflexivity].
    rewrite <- stmt_then_app in S.
    now apply occurrence_at_stmt in S. }
  pose proof H as Hok. unfold stmt_ok in H.
  apply andb_prop in H as [H Ha]. apply andb_prop in H as [Hs Ht].
  apply id_ok_spec in Hs as (_ & _ & Qs & _).
  pose proof Ht as Ht'. apply id_ok_spec in Ht as (_ & _ & Qt & _).
  assert (NotQuote : forall c y,
            Ascii.eqb c dq = false ->
            startswith (stmt_text st0) (String c y) = false).
  { intros c y Hc.
    destruct (startswith (stmt_text st0) (String c y)) eqn:S; [|reflexivity].
    apply occurrence_first in S. subst. discriminate. }
  assert (NotId : forall c y,
            id_char c = false ->
            startswith (stmt_text st0) (String dq (String c y)) = false).
  { intros c y Hc.
    destruct (startswith (stmt_text st0) (String dq (String c y))) eqn:S;
      [|reflexivity].
    apply (occurrence_second st0 c y H0) in S. congruence. }
  assert (Lack : forall x y, has_char dq x = false ->
                   clear (stmt_text st0) x y = true).
  { intros x y. apply (clear_lacking _ dq _ x y eq_refl). }
  assert (T : forall y,
            startswith (stmt_text st0)
              (String dq (s_tgt st ++ String dq (post_then (s_attrs st) y)))
            = false).
  { intros y.
    match goal with
    | |- ?lhs = false => destruct lhs eqn:S; [|reflexivity]
    end.
    apply (occurrence_after_id st0 _ _ H0 Qt) in S.
    destruct (s_attrs st); cbn in S; discriminate. }
  rewrite <- stmt_then_app in Start.
  set (old := stmt_text st0) in *.
  unfold stmt_text, stmt_then. unfold stmt_then in Start.
  cbn [append] in Start. cbn [clear].
  repeat (rewrite append_assoc || (progress cbn [append])).
  rewrite post_then_app, Start. cbn [negb andb].
  rewrite clear_app, (Lack _ _ Qs). cbn [andb].
  cbn [clear].
  repeat (rewrite append_assoc || (progress cbn [append])).
  rewrite post_then_app.
  not_quote NotQuote.
  rewrite (NotId " "%char) by reflexivity. rewrite T. cbn [negb andb].
  rewrite clear_app, (Lack _ _ Qt). cbn [andb].
  destruct (s_attrs st) as [a|]; cbn [post_then clear append].
  - rewrite (NotId " "%char) by reflexivity.
    not_quote NotQuote. cbn [negb andb].
    rewrite clear_app. cbn [attrs_ok] in Ha.
    cbn [append]. pose proof (clear_attrs st0 a rest H0 Ha) as CA.
    fold old in CA. rewrite CA.
    cbn [clear append andb]. not_quote NotQuote. reflexivity.
  - rewrite (NotId ";"%char) by reflexivity.
    not_quote NotQuote. reflexivity.
Qed.

(** *** Replacement in a document *)

Definition items_ok (items : list (string * stmt)) : bool :=
  forallb (fun it : string * stmt => text_ok (fst it) && stmt_ok (snd it))
    items.

(** [st1] put for every statement that is [st0]. *)
Definition swap (st0 st1 : stmt) (it : string * stmt) : string * stmt :=
  (fst it,
   if String.eqb (stmt_text (snd it)) (stmt_text st0) then st1 else snd it).

Lemma replace_render st0 st1 items last :
  stmt_ok st0 = true -> items_ok items = true -> text_ok last = true ->
  replace (stmt_text st0) (stmt_text st1) (render_items items last)
  = render_items (map (swap st0 st1) items) last.
Proof.
  intros H0 Hi Hl. unfold replace.
  destruct (is_empty (stmt_text st0)) eqn:E;
    [unfold stmt_text, stmt_then in E; discriminate|]. clear E.
  induction items as [|[u st] items IH]; cbn [render_items map].
  - unfold text_ok in Hl. apply andb_prop in Hl as [Hl _].
    rewrite <- (append_empty_r last) at 1.
    rewrite (replace_from_clear _ _ last "");
      [apply append_empty_r|].
    apply clear_text; [exact H0 | now left | exact Hl].
  - cbn [items_ok forallb fst snd] in Hi. apply andb_prop in Hi as [Hu Hi].
    apply andb_prop in Hu as [Hu Hs]. unfold text_ok in Hu.
    apply andb_prop in Hu as [Hu _].
    rewrite (replace_from_clear _ _ u _
               (clear_text st0 u _ H0 (stmt_opens st _ Hs) Hu)).
    unfold swap at 1. cbn [fst snd]. f_equal.
    rewrite !stmt_then_app.
    destruct (String.eqb_spec (stmt_text st) (stmt_text st0)) as [Eq | Ne].
    + rewrite Eq, (replace_from_hit _ _ _ (stmt_text_nonempty st0)).
      f_equal. exact (IH Hi).
    + rewrite (replace_from_clear _ _ (stmt_text st) _).
      * f_equal. exact (IH Hi).
      * apply clear_stmt; [exact H0 | exact Hs | congruence].
Qed.

(** *** The reversal of one statement *)

(** [new_attrs], also for an edge without attributes. *)
Definition new_attrs (attrs : option string) : string :=
  match attrs with
  | None => dir_back
  | Some a =>
      if is_empty a then dir_back
      else if endswith "," (strip a) then a ++ " " ++ dir_back
           else a ++ ", " ++ dir_back
  end.

(** The statement with [dir=Qback Q] at the end of its attributes. *)
Definition back (st : stmt) : stmt :=
  {| s_src := s_src st;
     s_tgt := s_tgt st;
     s_attrs := Some (new_attrs (s_attrs st)) |}.

Lemma replace_from_lacking old d o new x y :
  old = String d o -> has_char d x = false ->
  replace_from old new 0 (x ++ y) = x ++ replace_from old new 0 y.
Proof.
  intros E H. apply replace_from_clear. exact (clear_lacking old d o x y E H).
Qed.

Lemma replace_from_once old d o new x :
  old = String d o -> has_char d x = false ->
  replace_from old new 0 (x ++ old) = x ++ new.
Proof.
  intros E H. rewrite (replace_from_lacking old d o new x old E H).
  f_equal. rewrite <- (append_empty_r old) at 2.
  rewrite replace_from_hit by (subst; discriminate).
  apply append_empty_r.
Qed.

Lemma back_ok st : stmt_ok st = true -> stmt_ok (back st) = true.
Proof.
  unfold stmt_ok, back. cbn [s_src s_tgt s_attrs]. intros H.
  apply andb_prop in H as [H Ha]. rewrite H. cbn [andb attrs_ok].
  unfold new_attrs. destruct (s_attrs st) as [a|]; [|reflexivity].
  cbn [attrs_ok] in Ha.
  destruct (is_empty a); [reflexivity|].
  destruct (endswith "," (strip a)); rewrite !all_chars_app, Ha; reflexivity.
Qed.

Lemma modified_edge_stmt st e :
  stmt_ok st = true -> record_of st = Some e ->
  full_match e = stmt_text st /\ modified_edge e = stmt_text (back st).
Proof.
  intros Hok R. unfold record_of in R.
  destruct (contains style_invis (attrs_text st)); [discriminate|].
  destruct (search_dir "both" (attrs_text st)); [discriminate|].
  injection R as <-. split; [reflexivity|].
  unfold modified_edge. cbn [full_match attributes].
  unfold stmt_ok in Hok. apply andb_prop in Hok as [Hok _].
  apply andb_prop in Hok as [Hs Ht].
  apply id_ok_spec in Hs as (_ & _ & _ & Ss & Bs).
  apply id_ok_spec in Ht as (_ & _ & _ & St & Bt).
  destruct st as [s t attrs]. cbn [s_src s_tgt] in *.
  unfold attrs_text, back, stmt_text, stmt_then, new_attrs.
  cbn [s_src s_tgt s_attrs].
  set (front := String dq (s ++ String dq (" -> " ++ String dq t))).
  assert (Fs : has_char ";" front = false).
  { unfold front.
    repeat (rewrite has_char_app || (progress cbn [has_char append])).
    now rewrite Ss, St. }
  assert (Fb : has_char "[" front = false).
  { unfold front.
    repeat (rewrite has_char_app || (progress cbn [has_char append])).
    now rewrite Bs, Bt. }
  assert (Shape : forall z,
            String dq (s ++ String dq (" -> " ++ String dq (t ++ String dq z)))
            = front ++ String dq z).
  { intros z. unfold front.
    repeat (rewrite append_assoc || (progress cbn [append])).
    reflexivity. }
  rewrite !Shape. destruct attrs as [a|]; cbn [post_then].
  - (* with brackets *)
    assert (Has : has_char "[" (front ++ String dq (" [" ++ a ++ "];")) = true).
    { rewrite has_char_app. cbn [has_char append].
      now rewrite !orb_true_r. }
    rewrite Has.
    assert (Swap : forall inside new,
              replace (String "[" (inside ++ "]")) new
                (front ++ String dq (" [" ++ inside ++ "];"))
              = front ++ String dq (String " " (new ++ ";"))).
    { intros inside new. unfold replace. cbn [is_empty].
      change (front ++ String dq (" [" ++ inside ++ "];"))
        with (front ++ String dq (String " " (String "[" (inside ++ "];")))).
      change (front ++ String dq (String " " (String "[" (inside ++ "];"))))
        with (front ++ (String dq (String " " EmptyString)
                        ++ String "[" (inside ++ "];"))).
      rewrite <- append_assoc.
      rewrite (replace_from_lacking _ "["%char (inside ++ "]") _
                 (front ++ String dq (String " " EmptyString)));
        [|reflexivity|rewrite has_char_app, Fb; reflexivity].
      replace (String "[" (inside ++ "];"))
        with (String "[" (inside ++ "]") ++ ";")
        by (cbn [append]; now rewrite append_assoc).
      rewrite replace_from_hit by discriminate.
      cbn [replace_from startswith Ascii.eqb Bool.eqb andb].
      rewrite append_assoc. reflexivity. }
    destruct (is_empty a) eqn:Ea.
    + destruct a; [|discriminate]. cbn [negb].
      etransitivity; [exact (Swap "" ("[" ++ dir_back ++ "]"))|].
      repeat (rewrite append_assoc || (progress cbn [append])).
      reflexivity.
    + cbn [negb].
      destruct (endswith "," (strip a));
        (etransitivity; [exact (Swap a _)|]);
        repeat (rewrite append_assoc || (progress cbn [append]));
        reflexivity.
  - (* without *)
    assert (Has : has_char "[" (front ++ String dq ";") = false).
    { rewrite has_char_app, Fb. reflexivity. }
    rewrite Has. unfold replace. cbn [is_empty].
    change (front ++ String dq ";")
      with (front ++ (String dq EmptyString ++ ";")).
    rewrite <- (append_assoc front (String dq EmptyString) ";").
    rewrite (replace_from_once ";" ";"%char "" _
               (front ++ String dq EmptyString));
      [|reflexivity|rewrite has_char_app, Fs; reflexivity].
    rewrite append_assoc. reflexivity.
Qed.

(** *** The whole corrector on a document *)

(** Whether [identify_edges_to_reverse] takes the statement. *)
Definition wanted (pos : positions) (st : stmt) : bool :=
  match record_of st with
  | Some e => needs_reversal pos e
  | None => false
  end.

Definition reverse_if (pos : positions) (st : stmt) : stmt :=
  if wanted pos st then back st else st.

(** The document with the wanted statements reversed. *)
Definition corrected (pos : positions) (d : document) : document :=
  (map (fun it : string * stmt => (fst it, reverse_if pos (snd it))) (fst d),
   snd d).

(** The statements whose text is in [done] reversed. *)
Definition mark (done : list string) (it : string * stmt) : string * stmt :=
  (fst it,
   if mem (stmt_text (snd it)) done then back (snd it) else snd it).

Lemma mem_app x a b : mem x (a ++ b)%list = mem x a || mem x b.
Proof. unfold mem. apply existsb_app. Qed.

Lemma mark_ok done items :
  items_ok items = true -> items_ok (map (mark done) items) = true.
Proof.
  unfold items_ok. rewrite !forallb_forall. intros H it Hit.
  apply in_map_iff in Hit as (it0 & <- & Hit0). specialize (H it0 Hit0).
  apply andb_prop in H as [Hu Hs]. unfold mark. cbn [fst snd]. rewrite Hu.
  destruct (mem _ done); [now rewrite back_ok | now rewrite Hs].
Qed.

Lemma search_dir_app word x y :
  search_dir word y = true -> search_dir word (x ++ y) = true.
Proof.
  intros H. induction x as [|c x IH]; [exact H|].
  cbn [append search_dir]. rewrite IH. apply orb_true_r.
Qed.

Lemma back_reversed st : search_dir "back" (attrs_text (back st)) = true.
Proof.
  unfold back, attrs_text, new_attrs. cbn [s_attrs].
  assert (D : search_dir "back" dir_back = true) by reflexivity.
  destruct (s_attrs st) as [a|]; [|exact D].
  destruct (is_empty a); [exact D|].
  destruct (endswith "," (strip a)); apply search_dir_app;
    apply search_dir_app; exact D.
Qed.

Lemma wanted_live pos st :
  wanted pos st = true ->
  exists e, record_of st = Some e /\ needs_reversal pos e = true
            /\ is_undirected e = false /\ already_reversed e = false
            /\ already_reversed e = search_dir "back" (attrs_text st).
Proof.
  unfold wanted. destruct (record_of st) as [e|] eqn:R; [|discriminate].
  intros N. exists e. split; [reflexivity|]. split; [exact N|].
  unfold needs_reversal in N.
  destruct (is_undirected e); [discriminate|].
  destruct (already_reversed e) eqn:A; [discriminate|].
  split; [reflexivity|]. split; [reflexivity|].
  unfold record_of in R.
  destruct (contains style_invis (attrs_text st)); [discriminate|].
  destruct (search_dir "both" (attrs_text st)); [discriminate|].
  injection R as <-. cbn [already_reversed] in A |- *. now rewrite A.
Qed.

Lemma back_not_wanted pos st : wanted pos (back st) = false.
Proof.
  destruct (wanted pos (back st)) eqn:W; [|reflexivity].
  apply wanted_live in W as (e & _ & _ & _ & A & E).
  rewrite back_reversed in E. congruence.
Qed.

Lemma modify_step pos st items last done :
  stmt_ok st = true -> wanted pos st = true ->
  items_ok items = true -> text_ok last = true ->
  modify_arrow_directions
    (render_items (map (mark done) items) last) (record_list st)
  = render_items (map (mark (done ++ [stmt_text st])%list) items) last.
Proof.
  intros Hok W Hi Hl. pose proof W as W'.
  apply wanted_live in W' as (e & R & _ & U & A & _).
  unfold record_list. rewrite R. unfold modify_arrow_directions.
  cbn [fold_left]. rewrite U, A.
  destruct (modified_edge_stmt st e Hok R) as [-> ->].
  rewrite (replace_render st (back st) _ last Hok (mark_ok done items Hi) Hl).
  f_equal. rewrite map_map. apply map_ext_in. intros [u x] Hx.
  assert (Hxok : stmt_ok x = true).
  { unfold items_ok in Hi. rewrite forallb_forall in Hi.
    specialize (Hi _ Hx). now apply andb_prop in Hi as [_ Hi]. }
  unfold swap, mark. cbn [fst snd]. f_equal.
  rewrite mem_app. cbn [mem existsb]. rewrite orb_false_r.
  destruct (mem (stmt_text x) done) eqn:M; cbn [orb].
  - destruct (String.eqb_spec (stmt_text (back x)) (stmt_text st))
      as [E | _]; [|reflexivity].
    apply stmt_text_inj in E; [|now apply back_ok | exact Hok].
    subst st. now rewrite back_not_wanted in W.
  - destruct (String.eqb_spec (stmt_text x) (stmt_text st)) as [E | _];
      [|reflexivity].
    apply stmt_text_inj in E; [|exact Hxok | exact Hok]. now subst.
Qed.

Lemma modify_app content es es' :
  modify_arrow_directions content (es ++ es')%list
  = modify_arrow_directions (modify_arrow_directions content es) es'.
Proof. unfold modify_arrow_directions. apply fold_left_app. Qed.

Lemma modify_fold pos items last todo : forall done,
  (forall st, In st todo -> stmt_ok st = true /\ wanted pos st = true) ->
  items_ok items = true -> text_ok last = true ->
  modify_arrow_directions
    (render_items (map (mark done) items) last) (flat_map record_list todo)
  = render_items (map (mark (done ++ map stmt_text todo)%list) items) last.
Proof.
  induction todo as [|st todo IH]; intros done Ht Hi Hl;
    cbn [flat_map map].
  - now rewrite app_nil_r.
  - destruct (Ht st (or_introl eq_refl)) as [Hok W].
    rewrite modify_app, (modify_step pos st items last done Hok W Hi Hl).
    rewrite IH; [|intros x Hx; apply Ht; now right|exact Hi|exact Hl].
    rewrite <- app_assoc. reflexivity.
Qed.

Lemma identify_records pos sts :
  filter (needs_reversal pos) (flat_map record_list sts)
  = flat_map record_list (filter (wanted pos) sts).
Proof.
  induction sts as [|st sts IH]; cbn [flat_map filter]; [reflexivity|].
  rewrite filter_app, IH. unfold wanted at 2, record_list at 1 3.
  destruct (record_of st) as [e|] eqn:R; cbn [filter].
  - destruct (needs_reversal pos e); cbn [flat_map app];
      [|reflexivity].
    unfold record_list at 1. now rewrite R.
  - reflexivity.
Qed.

Lemma records_stmts items :
  records items = flat_map record_list (map snd items).
Proof.
  unfold records. induction items as [|it items IH]; cbn [flat_map map];
    [reflexivity|]. now rewrite IH.
Qed.

Lemma all_chars_no_cr p s :
  (forall c, p c = true -> Ascii.eqb c cr = false) ->
  all_chars p s = true -> no_cr s.
Proof.
  intros Hp. induction s as [|c s IH]; cbn [all_chars no_cr]; [auto|].
  intros H. apply andb_prop in H as [Hc Hs]. auto.
Qed.

Lemma id_char_no_cr c : id_char c = true -> Ascii.eqb c cr = false.
Proof.
  unfold id_char. intros H. apply negb_true_iff in H.
  repeat (apply orb_false_elim in H as [H ?]).
  destruct (Ascii.eqb_spec c cr) as [-> | _]; [discriminate | reflexivity].
Qed.

Lemma attr_char_no_cr c : attr_char c = true -> Ascii.eqb c cr = false.
Proof.
  unfold attr_char. intros H. apply negb_true_iff in H.
  now apply orb_false_elim in H as [_ H].
Qed.

Lemma text_ok_no_cr u : text_ok u = true -> no_cr u.
Proof.
  unfold text_ok. intros H. apply andb_prop in H as [_ H].
  revert H. apply all_chars_no_cr. intros c Hc.
  now apply negb_true_iff in Hc.
Qed.

Lemma stmt_no_cr st rest :
  stmt_ok st = true -> no_cr rest -> no_cr (stmt_then st rest).
Proof.
  unfold stmt_ok. intros H Hr. apply andb_prop in H as [H Ha].
  apply andb_prop in H as [Hs Ht].
  apply id_ok_spec in Hs as (_ & Hs & _).
  apply id_ok_spec in Ht as (_ & Ht & _).
  apply (all_chars_no_cr _ _ id_char_no_cr) in Hs, Ht.
  unfold stmt_then. split; [reflexivity|].
  apply no_cr_app; [exact Hs|]. split; [reflexivity|].
  cbn [append]. repeat (split; [reflexivity|]).
  apply no_cr_app; [exact Ht|]. split; [reflexivity|].
  destruct (s_attrs st) as [a|]; cbn [post_then append].
  - cbn [attrs_ok] in Ha.
    apply (all_chars_no_cr _ _ attr_char_no_cr) in Ha.
    repeat (split; [reflexivity|]).
    apply no_cr_app; [exact Ha|]. repeat (split; [reflexivity|]). exact Hr.
  - split; [reflexivity | exact Hr].
Qed.

Lemma render_no_cr items last :
  items_ok items = true -> text_ok last = true ->
  no_cr (render_items items last).
Proof.
  intros Hi Hl. induction items as [|[u st] items IH]; cbn [render_items].
  - now apply text_ok_no_cr.
  - cbn [items_ok forallb fst snd] in Hi. apply andb_prop in Hi as [Hu Hi].
    apply andb_prop in Hu as [Hu Hs].
    apply no_cr_app; [now apply text_ok_no_cr|].
    apply stmt_no_cr; [exact Hs | exact (IH Hi)].
Qed.

(** [fix_arrow_directions] on a rendered document. *)
Lemma fix_render pos items last :
  items_ok items = true -> text_ok last = true ->
  fix_arrow_directions (render_items items last) pos
  = render_items
      (map (fun it : string * stmt => (fst it, reverse_if pos (snd it))) items)
      last.
Proof.
  intros Hi Hl.
  assert (Ok : forall it, In it items -> stmt_ok (snd it) = true).
  { intros it Hit. unfold items_ok in Hi. rewrite forallb_forall in Hi.
    specialize (Hi _ Hit). now apply andb_prop in Hi as [_ Hi]. }
  set (todo := filter (wanted pos) (map snd items)).
  assert (Todo : forall st, In st todo ->
                   stmt_ok st = true /\ wanted pos st = true).
  { intros st Hst. unfold todo in Hst. apply filter_In in Hst as [Hst W].
    apply in_map_iff in Hst as (it & <- & Hit). auto. }
  assert (Marked :
            map (mark (map stmt_text todo)) items
            = map (fun it : string * stmt =>
                     (fst it, reverse_if pos (snd it))) items).
  { apply map_ext_in. intros it Hit. unfold mark, reverse_if. f_equal.
    destruct (wanted pos (snd it)) eqn:W.
    - assert (M : mem (stmt_text (snd it)) (map stmt_text todo) = true).
      { apply SearchFacts.mem_In, in_map. unfold todo. apply filter_In.
        split; [now apply in_map | exact W]. }
      now rewrite M.
    - destruct (mem (stmt_text (snd it)) (map stmt_text todo)) eqn:M;
        [|reflexivity].
      apply SearchFacts.mem_In, in_map_iff in M as (st & E & Hst).
      destruct (Todo st Hst) as [Hok Wst].
      apply stmt_text_inj in E; [|exact Hok | now apply Ok].
      subst st. congruence. }
  assert (Plain : map (mark []) items = items).
  { rewrite <- (map_id items) at 2. apply map_ext. now intros [u st]. }
  assert (Empty : todo = []%list ->
            render_items items last
            = render_items
                (map (fun it : string * stmt =>
                        (fst it, reverse_if pos (snd it))) items) last).
  { intros E. rewrite <- Marked, E. cbn [map]. now rewrite Plain. }
  unfold fix_arrow_directions.
  rewrite (universal_newlines_id _ (render_no_cr items last Hi Hl)).
  rewrite (parse_edges_render items last Hi Hl).
  unfold identify_edges_to_reverse.
  rewrite records_stmts, identify_records. fold todo.
  destruct pos as [|p pos'].
  - apply Empty. unfold todo.
    destruct (filter (wanted []) (map snd items)) as [|st l] eqn:F;
      [reflexivity|].
    assert (Hst : In st (filter (wanted []) (map snd items)))
      by (rewrite F; now left).
    apply filter_In in Hst as [_ W]. apply wanted_live in W as (e & _ & N & U & A & _).
    unfold needs_reversal in N. rewrite U, A in N. discriminate.
  - destruct (flat_map record_list todo) as [|e es] eqn:F.
    + apply Empty. destruct todo as [|st l]; [reflexivity|].
      destruct (Todo st (or_introl eq_refl)) as [_ W].
      apply wanted_live in W as (e & R & _).
      cbn [flat_map] in F. unfold record_list in F. rewrite R in F.
      discriminate.
    + rewrite <- F, <- Marked. rewrite <- Plain at 1.
      exact (modify_fold (p :: pos') items last todo [] Todo Hi Hl).
Qed.

(** *** What the corrector guarantees *)

Lemma edge_of_match_spec text m e :
  edge_of_match text m = Some e ->
  contains style_invis (attributes e) = false
  /\ search_dir "both" (attributes e) = false
  /\ is_undirected e = search_dir "none" (attributes e)
  /\ already_reversed e = search_dir "back" (attributes e).
Proof.
  destruct m as [[[s t] g] rest]. unfold edge_of_match.
  destruct (contains style_invis _) eqn:I; [discriminate|].
  destruct (search_dir "both" _) eqn:B; [discriminate|].
  intros [= <-]. cbn. auto.
Qed.

Lemma scan_edges_spec s : forall skip e,
  In e (scan_edges skip s) ->
  exists text m, edge_of_match text m = Some e.
Proof.
  induction s as [|c s IH]; intros skip e; cbn [scan_edges]; [intros []|].
  destruct skip as [|k]; [|apply IH].
  destruct (edge_pattern_match (String c s)) as [[[[a b] g] rest]|] eqn:M;
    [|apply IH].
  intros H. apply in_app_or in H as [H | H]; [|now apply IH in H].
  destruct (edge_of_match (String c s) (a, b, g, rest)) as [e'|] eqn:E;
    [|destruct H].
  destruct H as [<- | []]. eauto.
Qed.

(** X1: whatever the text and whatever the layout, an edge that
    [identify_edges_to_reverse] selects among the edges of [parse_edges]
    is not invisible, not bidirectional, not undirected and not already
    reversed, and the layout places its source at a smaller [y] than its
    target. *)
Theorem selected_edges_are_reversible (dot_content : string)
  (node_positions : positions) (e : edge_info) :
  In e (identify_edges_to_reverse (parse_edges dot_content) node_positions) ->
  contains style_invis (attributes e) = false
  /\ search_dir "both" (attributes e) = false
  /\ search_dir "none" (attributes e) = false
  /\ search_dir "back" (attributes e) = false
  /\ exists source_y target_y,
       position_y node_positions (source e) = Some source_y
       /\ position_y node_positions (target e) = Some target_y
       /\ y_lt source_y target_y = true.
Proof.
  unfold identify_edges_to_reverse, parse_edges. intros H.
  apply filter_In in H as [H N].
  apply scan_edges_spec in H as (text & m & E).
  apply edge_of_match_spec in E as (I & B & U & A).
  unfold needs_reversal in N. rewrite U, A in N.
  destruct (search_dir "none" (attributes e)); [discriminate|].
  destruct (search_dir "back" (attributes e)); [discriminate|].
  destruct (position_y node_positions (source e)) as [sy|]; [|discriminate].
  destruct (position_y node_positions (target e)) as [ty|]; [|discriminate].
  repeat split; auto. exists sy, ty. auto.
Qed.

Definition sample_node_text : string :=
  quoted "a" ++ " [label=" ++ quoted "A" ++ "];" ++ String nl EmptyString.

Definition sample_head : string :=
  "digraph G {" ++ String nl sample_node_text.

Definition sample_invisible : string := "dir=none, " ++ style_invis.

Definition sample_tail : string := String nl ("}" ++ String nl EmptyString).

(** A graph with a coloured edge, an invisible edge and a bare edge. *)
Definition sample_graph : document :=
  ([(sample_head,
     {| s_src := "a"; s_tgt := "b"; s_attrs := Some "color=red" |});
    (String nl EmptyString,
     {| s_src := "a"; s_tgt := "c"; s_attrs := Some sample_invisible |});
    (String nl EmptyString,
     {| s_src := "b"; s_tgt := "c"; s_attrs := None |})]%list,
   sample_tail).

Definition sample_layout : positions :=
  [("a", QArith_base.Qmake 1 1); ("b", QArith_base.Qmake 2 1);
   ("c", QArith_base.Qmake 3 1)]%list.

Definition sample_edge : edge_info :=
  {| source := "a";
     target := "b";
     full_match := quoted "a" ++ " -> " ++ quoted "b" ++ " [color=red];";
     attributes := "color=red";
     is_undirected := false;
     already_reversed := false |}.

Lemma selected_edges_are_reversible_witness :
  In sample_edge
    (identify_edges_to_reverse (parse_edges (render sample_graph))
       sample_layout)
  /\ contains style_invis (attributes sample_edge) = false
  /\ search_dir "both" (attributes sample_edge) = false
  /\ search_dir "none" (attributes sample_edge) = false
  /\ search_dir "back" (attributes sample_edge) = false
  /\ exists source_y target_y,
       position_y sample_layout (source sample_edge) = Some source_y
       /\ position_y sample_layout (target sample_edge) = Some target_y
       /\ y_lt source_y target_y = true.
Proof.
  assert (H : In sample_edge
                (identify_edges_to_reverse (parse_edges (render sample_graph))
                   sample_layout))
    by (vm_compute; left; reflexivity).
  split; [exact H|].
  exact (selected_edges_are_reversible (render sample_graph) sample_layout
           sample_edge H).
Defined.

(** X2: on a document in the form the writer gives it (quoted ids free of
    spaces, semicolons and brackets, attribute lists free of closing
    brackets, other text in which no place starts like an edge),
    [parse_edges] finds the edge statements in their order, each with its
    own text as [full_match], and leaves out exactly the invisible and the
    bidirectional ones. *)
Theorem parse_edges_of_document (d : document) :
  well_formed d = true ->
  parse_edges (render d) = records (fst d).
Proof.
  unfold well_formed, render. intros H. apply andb_prop in H as [Hi Hl].
  now apply parse_edges_render.
Qed.

Lemma parse_edges_of_document_witness :
  well_formed sample_graph = true
  /\ parse_edges (render sample_graph) = records (fst sample_graph).
Proof.
  split; [reflexivity|].
  apply (parse_edges_of_document sample_graph). reflexivity.
Defined.

(** X3: on such a document, with any layout, [fix_arrow_directions]
    leaves a file that is the same document with each wanted statement
    (visible, not bidirectional, undirected or reversed, both ends placed,
    source above target) given [dir=Qback Q] at the end of its attribute
    list: the other text and the other statements are as they were, and a
    changed statement keeps its source, its target and all its attributes
    before the new one. *)
Theorem fix_arrow_directions_on_document (d : document)
  (node_positions : positions) :
  well_formed d = true ->
  fix_arrow_directions (render d) node_positions
  = render (corrected node_positions d)
  /\ map fst (fst (corrected node_positions d)) = map fst (fst d)
  /\ snd (corrected node_positions d) = snd d
  /\ forall st, In st (map snd (fst d)) ->
       (wanted node_positions st = false ->
        reverse_if node_positions st = st)
       /\ s_src (reverse_if node_positions st) = s_src st
       /\ s_tgt (reverse_if node_positions st) = s_tgt st
       /\ (wanted node_positions st = true ->
           exists added,
             s_attrs (reverse_if node_positions st)
             = Some (attrs_text st ++ added ++ dir_back)
             /\ (added = EmptyString \/ added = " " \/ added = ", ")).
Proof.
  unfold well_formed. intros H. apply andb_prop in H as [Hi Hl].
  split; [exact (fix_render node_positions (fst d) (snd d) Hi Hl)|].
  split.
  { unfold corrected. cbn [fst]. rewrite map_map. reflexivity. }
  split; [reflexivity|].
  intros st _. unfold reverse_if.
  destruct (wanted node_positions st) eqn:W.
  - split; [discriminate|]. split; [reflexivity|]. split; [reflexivity|].
    intros _. unfold back, attrs_text, new_attrs. cbn [s_attrs].
    destruct (s_attrs st) as [a|].
    + destruct (is_empty a) eqn:E.
      * destruct a; [|discriminate]. exists "". auto.
      * destruct (endswith "," (strip a)); [exists " " | exists ", "]; auto.
    + exists "". auto.
  - split; [reflexivity|]. split; [reflexivity|]. split; [reflexivity|].
    discriminate.
Qed.

Lemma fix_arrow_directions_on_document_witness :
  well_formed sample_graph = true
  /\ fix_arrow_directions (render sample_graph) sample_layout
     = render (corrected sample_layout sample_graph).
Proof.
  split; [reflexivity|].
  apply (fix_arrow_directions_on_document sample_graph sample_layout).
  reflexivity.
Defined.

Example sample_graph_corrected :
  fix_arrow_directions (render sample_graph) sample_layout
  = "digraph G {" ++ String nl
      (sample_node_text
       ++ quoted "a" ++ " -> " ++ quoted "b" ++ " [color=red, " ++ dir_back
       ++ "];" ++ String nl
      (quoted "a" ++ " -> " ++ quoted "c" ++ " [dir=none, " ++ style_invis
       ++ "];" ++ String nl
      (quoted "b" ++ " -> " ++ quoted "c" ++ " [" ++ dir_back ++ "];"
       ++ String nl ("}" ++ String nl EmptyString)))).
Proof. vm_compute. reflexivity. Qed.

Lemma corrected_ok pos items :
  items_ok items = true ->
  items_ok
    (map (fun it : string * stmt => (fst it, reverse_if pos (snd it))) items)
  = true.
Proof.
  unfold items_ok. rewrite !forallb_forall. intros H it Hit.
  apply in_map_iff in Hit as (it0 & <- & Hit0). specialize (H it0 Hit0).
  apply andb_prop in H as [Hu Hs]. cbn [fst snd]. rewrite Hu.
  unfold reverse_if. destruct (wanted pos (snd it0));
    [now rewrite back_ok | now rewrite Hs].
Qed.

(** X4: on such a document the corrector is idempotent: a second run
    with the same layout leaves the file as the first run wrote it, since
    every edge it reversed is now marked as reversed. *)
Theorem fix_arrow_directions_idempotent (d : document)
  (node_positions : positions) :
  well_formed d = true ->
  fix_arrow_directions (fix_arrow_directions (render d) node_positions)
    node_positions
  = fix_arrow_directions (render d) node_positions.
Proof.
  unfold well_formed, render. intros H. apply andb_prop in H as [Hi Hl].
  rewrite (fix_render node_positions (fst d) (snd d) Hi Hl).
  rewrite (fix_render node_positions _ (snd d)
             (corrected_ok node_positions (fst d) Hi) Hl).
  f_equal. rewrite map_map. apply map_ext. intros [u st]. cbn [fst snd].
  f_equal. unfold reverse_if at 2.
  destruct (wanted node_positions st) eqn:W; unfold reverse_if.
  - rewrite back_not_wanted, W. reflexivity.
  - rewrite W. reflexivity.
Qed.

Lemma fix_arrow_directions_idempotent_witness :
  well_formed sample_graph = true
  /\ fix_arrow_directions
       (fix_arrow_directions (render sample_graph) sample_layout)
       sample_layout
     = fix_arrow_directions (render sample_graph) sample_layout.
Proof.
  split; [reflexivity|].
  apply (fix_arrow_directions_idempotent sample_graph sample_layout).
  reflexivity.
Defined.

End ArrowFacts.

(** ** Blank lines *)

Module NormalizationFacts.
Import PyStr Normalization StrFacts LineFacts.

Lemma collapse_newlines_no_cr s : forall run,
  no_cr s -> no_cr (collapse_newlines run s).
Proof.
  induction s as [|c s IH]; intros run; cbn [collapse_newlines no_cr];
    [auto|].
  intros [Hc Hs]. destruct (Ascii.eqb c nl) eqn:E.
  - destruct (run <? 2)%nat; [|now apply IH].
    split; [reflexivity | now apply IH].
  - split; [exact Hc | now apply IH].
Qed.

(** A text that was collapsed is collapsed: the count of the newlines
    written before it is the smaller of [run] and two. *)
Lemma collapse_newlines_fixed s : forall run,
  collapse_newlines (Nat.min run 2) (collapse_newlines run s)
  = collapse_newlines run s.
Proof.
  induction s as [|c s IH]; intros run; cbn [collapse_newlines];
    [reflexivity|].
  destruct (Ascii.eqb c nl) eqn:E.
  - destruct (Nat.ltb_spec run 2) as [L | L].
    + cbn [collapse_newlines]. change (Ascii.eqb nl nl) with true.
      cbv beta iota.
      replace (Nat.min run 2) with run by lia.
      destruct (Nat.ltb_spec run 2) as [_ | L']; [|lia].
      f_equal. specialize (IH (S run)).
      replace (Nat.min (S run) 2) with (S run) in IH by lia. exact IH.
    + specialize (IH (S run)).
      replace (Nat.min (S run) 2) with 2 in IH by lia.
      replace (Nat.min run 2) with 2 by lia. exact IH.
  - cbn [collapse_newlines]. rewrite E. f_equal. exact (IH 0).
Qed.

(** X5: [collapse_excess_blank_lines] is idempotent on the content of the
    file. *)
Theorem collapse_excess_blank_lines_idempotent (file : string) :
  collapse_excess_blank_lines (collapse_excess_blank_lines file)
  = collapse_excess_blank_lines file.
Proof.
  unfold collapse_excess_blank_lines at 2.
  destruct (String.eqb_spec
              (collapse_newlines 0 (universal_newlines file))
              (universal_newlines file)) as [E | N]; [reflexivity|].
  unfold collapse_excess_blank_lines.
  rewrite (universal_newlines_id (collapse_newlines 0 (universal_newlines file)))
    by apply collapse_newlines_no_cr, universal_newlines_no_cr.
  pose proof (collapse_newlines_fixed (universal_newlines file) 0) as F.
  cbn [Nat.min] in F. rewrite F, String.eqb_refl.
  apply String.eqb_neq in N. now rewrite N.
Qed.

(** No newline comes after [run] newlines and two more. *)
Fixpoint short_runs (run : nat) (s : string) : bool :=
  match s with
  | EmptyString => true
  | String c s' =>
      if Ascii.eqb c nl then (run <? 2)%nat && short_runs (S run) s'
      else short_runs 0 s'
  end.

Lemma short_runs_collapse s : forall run,
  short_runs (Nat.min run 2) (collapse_newlines run s) = true.
Proof.
  induction s as [|c s IH]; intros run; cbn [collapse_newlines];
    [reflexivity|].
  destruct (Ascii.eqb c nl) eqn:E.
  - destruct (Nat.ltb_spec run 2) as [L | L].
    + cbn [short_runs]. change (Ascii.eqb nl nl) with true. cbv beta iota.
      replace (Nat.min run 2) with run by lia.
      destruct (Nat.ltb_spec run 2) as [_ | L']; [|lia]. cbn [andb].
      specialize (IH (S run)).
      replace (Nat.min (S run) 2) with (S run) in IH by lia. exact IH.
    + specialize (IH (S run)).
      replace (Nat.min (S run) 2) with 2 in IH by lia.
      replace (Nat.min run 2) with 2 by lia. exact IH.
  - cbn [short_runs]. rewrite E. exact (IH 0).
Qed.

Definition three_newlines : string :=
  String nl (String nl (String nl EmptyString)).

Lemma short_runs_no_triple s : forall run,
  short_runs run s = true -> contains three_newlines s = false.
Proof.
  induction s as [|c s IH]; intros run; cbn [short_runs contains];
    [intros _; reflexivity|].
  destruct (Ascii.eqb c nl) eqn:E.
  - intros H. apply andb_prop in H as [L H]. rewrite (IH _ H), orb_false_r.
    unfold three_newlines. cbn [startswith].
    destruct s as [|c1 s]; [now rewrite andb_false_r|].
    cbn [short_runs] in H. destruct (Ascii.eqb c1 nl) eqn:E1.
    + apply andb_prop in H as [L1 H].
      destruct s as [|c2 s]; [now rewrite !andb_false_r|].
      cbn [short_runs] in H. destruct (Ascii.eqb c2 nl) eqn:E2.
      * apply andb_prop in H as [L2 _]. apply Nat.ltb_lt in L2. lia.
      * rewrite (Ascii.eqb_sym nl c2), E2. now rewrite !andb_false_r.
    + rewrite (Ascii.eqb_sym nl c1), E1. now rewrite !andb_false_r.
  - intros H. rewrite (IH _ H), orb_false_r.
    unfold three_newlines. cbn [startswith].
    now rewrite (Ascii.eqb_sym nl c), E.
Qed.

(** X6: after [collapse_excess_blank_lines] the text read from the file
    has no three newlines in a row, that is, no two blank lines in a
    row. *)
Theorem collapse_excess_blank_lines_short_runs (file : string) :
  contains three_newlines
    (universal_newlines (collapse_excess_blank_lines file)) = false.
Proof.
  unfold collapse_excess_blank_lines.
  destruct (String.eqb_spec
              (collapse_newlines 0 (universal_newlines file))
              (universal_newlines file)) as [E | N].
  - rewrite <- E. apply (short_runs_no_triple _ 0).
    exact (short_runs_collapse (universal_newlines file) 0).
  - rewrite universal_newlines_id
      by apply collapse_newlines_no_cr, universal_newlines_no_cr.
    apply (short_runs_no_triple _ 0).
    exact (short_runs_collapse (universal_newlines file) 0).
Qed.

(** [after] is [before] with some blank lines left out. *)
Inductive blank_lines_dropped : list string -> list string -> Prop :=
| bld_nil : blank_lines_dropped [] []
| bld_keep l after before :
    blank_lines_dropped after before ->
    blank_lines_dropped (l :: after) (l :: before)
| bld_drop after before :
    blank_lines_dropped after before ->
    blank_lines_dropped after (String nl EmptyString :: before).

(** The same, the first line kept. *)
Definition first_line_kept (after before : list string) : Prop :=
  (after = [] /\ before = [])
  \/ exists l after' before',
       after = l :: after' /\ before = l :: before'
       /\ blank_lines_dropped after' before'.

Lemma first_line_kept_dropped after before :
  first_line_kept after before -> blank_lines_dropped after before.
Proof.
  intros [[-> ->] | (l & a & b & -> & -> & H)]; now constructor.
Qed.

Lemma blank_lines_dropped_refl ls : blank_lines_dropped ls ls.
Proof. induction ls; now constructor. Qed.

Lemma split_collapse s : forall run,
  (run < 2 ->
   first_line_kept (split_keepends (collapse_newlines run s))
     (split_keepends s))
  /\ blank_lines_dropped (split_keepends (collapse_newlines run s))
       (split_keepends s).
Proof.
  induction s as [|c s IH]; intros run.
  - cbn. split; [intros _; now left | constructor].
  - assert (G : (run < 2 ->
                 first_line_kept
                   (split_keepends (collapse_newlines run (String c s)))
                   (split_keepends (String c s)))
                /\ (2 <= run ->
                    blank_lines_dropped
                      (split_keepends (collapse_newlines run (String c s)))
                      (split_keepends (String c s)))).
    { cbn [collapse_newlines split_keepends].
      destruct (Ascii.eqb c nl) eqn:E.
      - destruct (Nat.ltb_spec run 2) as [L | L].
        + split; [intros _ | lia]. cbn [split_keepends].
          change (Ascii.eqb nl nl) with true. cbv beta iota.
          right. do 3 eexists. split; [reflexivity|].
          split; [reflexivity | apply IH].
        + split; [lia | intros _]. apply bld_drop, IH.
      - assert (F : first_line_kept
                      (split_keepends (String c (collapse_newlines 0 s)))
                      (match split_keepends s with
                       | [] => [String c EmptyString]
                       | l :: ls => String c l :: ls
                       end)).
        { cbn [split_keepends]. rewrite E.
          destruct (proj1 (IH 0) ltac:(lia))
            as [[-> ->] | (l & a & b & -> & -> & H)].
          - right. do 3 eexists. split; [reflexivity|].
            split; [reflexivity | constructor].
          - right. do 3 eexists. split; [reflexivity|].
            split; [reflexivity | exact H]. }
        split; intros _; [exact F | now apply first_line_kept_dropped]. }
    destruct G as [G1 G2]. split; [exact G1|].
    destruct (Nat.lt_ge_cases run 2) as [L | L];
      [now apply first_line_kept_dropped, G1 | now apply G2].
Qed.

(** X7: [collapse_excess_blank_lines] changes no line and moves none: the
    lines read from the file afterwards are the lines read before with
    some blank lines left out. *)
Theorem collapse_excess_blank_lines_drops_blank_lines (file : string) :
  blank_lines_dropped (readlines (collapse_excess_blank_lines file))
    (readlines file).
Proof.
  unfold collapse_excess_blank_lines.
  destruct (String.eqb_spec
              (collapse_newlines 0 (universal_newlines file))
              (universal_newlines file)) as [E | N].
  - apply blank_lines_dropped_refl.
  - unfold readlines.
    rewrite (universal_newlines_id
               (collapse_newlines 0 (universal_newlines file)))
      by apply collapse_newlines_no_cr, universal_newlines_no_cr.
    apply split_collapse.
Qed.

End NormalizationFacts.

(** ** What deduplication keeps *)

Module DeduplicationMore.
Import PyStr Deduplication LineFacts DeduplicationFacts.

(** The test of the loop: the stripped line starts with a double
    quote. *)
Definition is_definition (line : string) : bool :=
  startswith (String dq EmptyString) (strip line).

Lemma readlines_after content :
  readlines (remove_duplicate_definitions content)
  = dedup_loop [] (readlines content).
Proof.
  unfold remove_duplicate_definitions. apply readlines_writelines.
  - apply dedup_loop_file_lines, readlines_file_lines.
  - apply dedup_loop_Forall, readlines_no_cr.
Qed.

Lemma dedup_loop_others lines : forall seen,
  filter (fun l => negb (is_definition l)) (dedup_loop seen lines)
  = filter (fun l => negb (is_definition l)) lines.
Proof.
  unfold is_definition.
  induction lines as [|line rest IH]; intros seen; cbn [dedup_loop filter];
    [reflexivity|].
  destruct (startswith (String dq EmptyString) (strip line)) eqn:Q.
  - cbn [negb]. destruct (mem (strip line) seen); [apply IH|].
    cbn [filter]. rewrite Q. cbn [negb]. apply IH.
  - cbn [filter negb]. rewrite Q. cbn [negb]. f_equal. apply IH.
Qed.

Lemma dedup_loop_incl lines : forall seen,
  incl (dedup_loop seen lines) lines.
Proof.
  induction lines as [|line rest IH]; intros seen; cbn [dedup_loop];
    [intros x []|].
  destruct (startswith _ _); [destruct (mem _ _)|].
  - intros x Hx. right. exact (IH _ x Hx).
  - intros x [<- | Hx]; [now left | right; exact (IH _ x Hx)].
  - intros x [<- | Hx]; [now left | right; exact (IH _ x Hx)].
Qed.

Lemma dedup_loop_keys_iff lines : forall seen k,
  In k (keys (dedup_loop seen lines)) <-> In k (keys lines) /\ ~ In k seen.
Proof.
  induction lines as [|line rest IH]; intros seen k; cbn [dedup_loop keys].
  - tauto.
  - destruct (startswith (String dq EmptyString) (strip line)) eqn:Q.
    + destruct (mem (strip line) seen) eqn:M.
      * apply mem_true_iff in M. rewrite IH. cbn [In]. split.
        -- intros [H N]. auto.
        -- intros [[<- | H] N]; [contradiction | auto].
      * apply mem_false_iff in M. cbn [keys]. rewrite Q. cbn [In].
        rewrite IH. cbn [In]. split.
        -- intros [<- | [H N]]; [auto | tauto].
        -- intros [[<- | H] N]; [now left|].
           destruct (String.eqb_spec (strip line) k) as [E | E];
             [now left | right]. tauto.
    + cbn [keys]. rewrite Q. apply IH.
Qed.

(** X8: [remove_duplicate_definitions] never drops a line that does not
    start with a double quote: these lines are the same, in the same
    order, before and after; and every line it leaves was a line of the
    file. *)
Theorem remove_duplicate_definitions_keeps_other_lines (content : string) :
  filter (fun l => negb (is_definition l))
    (readlines (remove_duplicate_definitions content))
  = filter (fun l => negb (is_definition l)) (readlines content)
  /\ incl (readlines (remove_duplicate_definitions content))
       (readlines content).
Proof.
  rewrite readlines_after. split.
  - apply dedup_loop_others.
  - apply dedup_loop_incl.
Qed.

(** X9: after [remove_duplicate_definitions] the stripped texts of the
    lines that start with a double quote are pairwise distinct, and they
    are the same texts as before: no definition is lost and none is
    left twice. *)
Theorem remove_duplicate_definitions_keeps_each_once (content : string) :
  NoDup (keys (readlines (remove_duplicate_definitions content)))
  /\ forall k,
       In k (keys (readlines (remove_duplicate_definitions content)))
       <-> In k (keys (readlines content)).
Proof.
  rewrite readlines_after. split.
  - apply dedup_loop_keys.
  - intros k. rewrite dedup_loop_keys_iff. cbn [In]. tauto.
Qed.

End DeduplicationMore.

(** ** What the parse and the pruning pass leave alone *)

Module PruningMore.
Import PyStr DotSyntax FilteredPruning StrFacts SearchFacts ParseFacts
  PruningFacts.

Lemma contains_startswith p s : startswith p s = true -> contains p s = true.
Proof. intros H. destruct s; cbn [contains]; now rewrite H. Qed.

Lemma contains_after p a b : contains p b = true -> contains p (a ++ b) = true.
Proof.
  intros H. induction a as [|c a IH]; [exact H|].
  cbn [append contains]. rewrite IH. apply orb_true_r.
Qed.

Lemma contains_lstrip p s : contains p (lstrip s) = true -> contains p s = true.
Proof.
  induction s as [|c s IH]; [auto|]. cbn [lstrip].
  destruct (is_space c); [|auto].
  intros H. cbn [contains]. rewrite (IH H). apply orb_true_r.
Qed.

Lemma contains_quoted_id p x id rest :
  quoted_id x = Some (id, rest) -> contains p rest = true ->
  contains p x = true.
Proof.
  unfold quoted_id. destruct x as [|c y]; [discriminate|].
  destruct (Ascii.eqb c dq); [|discriminate].
  destruct (until_quote y) as [[id' rest']|] eqn:U; [|discriminate].
  destruct (is_empty id'); [discriminate|]. intros [= -> ->] H.
  apply ArrowFacts.until_quote_spec in U as [-> _].
  replace (String c (id ++ String dq rest))
    with ((String c id ++ String dq EmptyString) ++ rest)%string.
  - now apply contains_after.
  - cbn [append]. now rewrite append_assoc.
Qed.

Lemma edge_def_match_arrow s a b :
  edge_def_match s = Some (a, b) -> contains "->" s = true.
Proof.
  unfold edge_def_match.
  destruct (quoted_id (lstrip s)) as [[src rest]|] eqn:Q; [|discriminate].
  destruct (startswith "->" (lstrip rest)) eqn:A; [|discriminate].
  intros _. apply contains_lstrip.
  apply (contains_quoted_id _ _ _ _ Q).
  apply contains_lstrip. now apply contains_startswith.
Qed.

(** An edge line is no node definition for the rewriting loop. *)
Lemma edge_line_defines_nothing line a b :
  classify line = EdgeLine a b -> defines_node line = None.
Proof.
  unfold classify, defines_node.
  destruct (skipped (strip line)); [discriminate|].
  destruct (edge_def_match (strip line)) as [[src tgt]|] eqn:E.
  - intros _. apply edge_def_match_arrow in E. rewrite E.
    now destruct (node_def_match (strip line)).
  - destruct (node_def_match (strip line)) as [id|]; [|discriminate].
    destruct (contains "->" (strip line)); discriminate.
Qed.

(** X10: the parse of [_parse_dot_graph] is faithful to the lines: an
    entry [(a, b, i)] of [edges] is the edge that line [i] holds, no two
    entries share a line, and [adjacency] is the symmetric closure of
    [edges]. *)
Theorem parsed_graph_is_faithful (lines : list string) :
  (forall a b i,
     In (a, b, i) (edges (_parse_dot_graph lines))
     <-> exists line, nth_error lines i = Some line
                      /\ classify line = EdgeLine a b)
  /\ (forall a b a' b' i,
        In (a, b, i) (edges (_parse_dot_graph lines)) ->
        In (a', b', i) (edges (_parse_dot_graph lines)) ->
        a = a' /\ b = b')
  /\ (forall x y,
        In y (adj_get (adjacency (_parse_dot_graph lines)) x)
        <-> exists i, In (x, y, i) (edges (_parse_dot_graph lines))
                      \/ In (y, x, i) (edges (_parse_dot_graph lines)))
  /\ (forall x y,
        In y (adj_get (adjacency (_parse_dot_graph lines)) x)
        <-> In x (adj_get (adjacency (_parse_dot_graph lines)) y)).
Proof.
  split; [intros a b i; apply parsed_edge|].
  split; [intros a b a' b' i; apply edge_index_unique|].
  split.
  - intros x y. symmetry. apply linked_adjacent.
  - intros x y. rewrite <- !linked_adjacent. unfold linked.
    split; intros (i & H); exists i; tauto.
Qed.

(** What the pruning pass does not touch. *)
Record leaves_alone (lines : list string) (p : pruning) : Prop := {
  la_only_removes : incl (pruned_lines p) lines;
  la_other : forall line,
    In line lines -> defines_node line = None ->
    (forall a b, classify line <> EdgeLine a b) ->
    In line (written_lines p);
  la_real_node : forall line r,
    In line lines -> classify line = NodeLine r ->
    In r (unfiltered_nodes p) ->
    In line (written_lines p);
  la_real_edge : forall line a b,
    In line lines -> classify line = EdgeLine a b ->
    In a (unfiltered_nodes p) -> In b (unfiltered_nodes p) ->
    In line (written_lines p)
}.

(** X11: with fuel for its loops the pruning pass returns, and it only
    ever removes definitions of filtered or mediator nodes and edges at
    them: every line that is neither a node definition nor an edge, every
    definition of a real node and every edge between two real nodes is
    among the lines written, and every line that survives the removal was
    a line of the input. *)
Theorem pruning_leaves_real_graph_alone (lines : list string) (fuel : nat) :
  enough_fuel lines <= fuel ->
  exists p, analyse fuel lines = Return p /\ leaves_alone lines p.
Proof.
  intros Fuel. destruct (analyse_spec lines fuel Fuel) as (p & R & A).
  exists p. split; [exact R|].
  assert (Real : forall r, In r (unfiltered_nodes p) ->
            ~ In r (union (to_remove p) (removed_mediator_set p))).
  { intros r Hr P. rewrite (an_unfiltered _ _ A) in Hr.
    apply diff_In in Hr as [Hr Nm]. apply diff_In in Hr as [_ Nf].
    apply union_In in P as [P | P].
    - rewrite (an_to_remove _ _ A) in P. apply diff_In in P. tauto.
    - apply Nm. now apply (an_removed_mediators _ _ A). }
  assert (Stay : forall line,
            In line lines ->
            (forall a b, classify line = EdgeLine a b ->
               ~ In a (union (to_remove p) (removed_mediator_set p))
               /\ ~ In b (union (to_remove p) (removed_mediator_set p))) ->
            (forall id, defines_node line = Some id ->
               ~ In id (union (to_remove p) (removed_mediator_set p))) ->
            In line (written_lines p)).
  { intros line Hl He Hd. apply (analysed_keeps lines p line A).
    rewrite (an_pruned _ _ A). apply rewrite_lines_In.
    apply In_nth_error in Hl as [j N]. exists j.
    split; [exact N|]. split; [|exact Hd].
    intros T. apply edge_indices_touching_In in T as (a & b & E & T).
    apply parsed_edge in E as (l' & N' & C).
    rewrite N in N'. injection N' as <-.
    destruct (He a b C). tauto. }
  split.
  - intros line H. rewrite (an_pruned _ _ A) in H.
    apply rewrite_lines_In in H as (j & N & _).
    eapply nth_error_In. exact N.
  - intros line Hl Hd He. apply Stay; [exact Hl | |].
    + intros a b C. now destruct (He a b).
    + intros id E. congruence.
  - intros line r Hl C Hr. apply Stay; [exact Hl | |].
    + intros a b E. congruence.
    + intros id E. apply classify_defines in C. rewrite C in E.
      injection E as <-. now apply Real.
  - intros line a b Hl C Ha Hb. apply Stay; [exact Hl | |].
    + intros a' b' E. rewrite C in E. injection E as <- <-.
      split; now apply Real.
    + intros id E. rewrite (edge_line_defines_nothing line a b C) in E.
      discriminate.
Qed.

Lemma pruning_leaves_real_graph_alone_witness :
  enough_fuel kept_pair_apart <= 40
  /\ exists p, analyse 40 kept_pair_apart = Return p
               /\ leaves_alone kept_pair_apart p.
Proof.
  assert (H : enough_fuel kept_pair_apart <= 40) by (vm_compute; lia).
  split; [exact H|].
  exact (pruning_leaves_real_graph_alone kept_pair_apart 40 H).
Defined.

End PruningMore.

(** ** Which id an allocation returns *)

Module PseudoNodesMore.
Import PyStr PseudoNodes PseudoNodesFacts.

Local Open Scope string_scope.

(** The text before the suffix in the id of a request. *)
Definition request_prefix (r : request) : string :=
  match r with
  | Targets a b => a ++ "_to_" ++ b ++ "_"
  | Entailments a b => a ++ "_to_" ++ b ++ "_"
  | Etiologies a b => a ++ "_in_etiology_in_" ++ b ++ "_"
  | Analogies a b => a ++ "_analogy_to_" ++ b ++ "_"
  | References a b => b ++ "_referenced-in_" ++ a ++ "_"
  | MatchingPropositions a b => a ++ "_to_" ++ b ++ "_"
  | MatchingSequences a b => a ++ "_to_" ++ b ++ "_"
  | MatchingPhases a b => a ++ "_to_" ++ b ++ "_"
  end.








Lemma allocate_string fuel lines r s :
  isdigit s = false ->
  match r with Etiologies _ _ => False | _ => True end ->
  allocate fuel lines r (SStr s)
  = string_loop (pseudo_node_exists lines) (request_prefix r) fuel s 1%Z
      (request_prefix r ++ s).
Proof.
  intros D. destruct r; intros E; try destruct E;
    cbn [allocate]; unfold generate_unique_pseudo_node_id_targets,
      generate_unique_pseudo_node_id_entailments,
      generate_unique_pseudo_node_id_analogies,
      generate_unique_pseudo_node_id_references,
      generate_unique_pseudo_node_id_matching_propositions,
      generate_unique_pseudo_node_id_matching_sequences,
      generate_unique_pseudo_node_id_matching_phases, generate;
    rewrite D; reflexivity.
Qed.

Lemma string_loop_first collides prefix s fuel : forall i u id,
  string_loop collides prefix fuel s (Z.of_nat (S i))
    (string_candidate prefix s u i) = Return id ->
  exists k,
    i <= k /\ id = string_candidate prefix s u k
    /\ collides id = false
    /\ forall j, i <= j < k ->
         collides (string_candidate prefix s u j) = true.
Proof.
  induction fuel as [|fuel IH]; intros i u id; cbn [string_loop].
  - destruct (collides (string_candidate prefix s u i)) eqn:C;
      [discriminate|]. intros [= <-].
    exists i. split; [lia|]. split; [reflexivity|]. split; [exact C|].
    intros j Hj. lia.
  - destruct (collides (string_candidate prefix s u i)) eqn:C.
    + replace (Z.of_nat (S i) + 1)%Z with (Z.of_nat (S (S i))) by lia.
      change (prefix ++ s ++ "_" ++ dec (Z.of_nat (S i)))
        with (string_candidate prefix s u (S i)).
      intros H. apply IH in H as (k & Hk & -> & Free & Before).
      exists k. split; [lia|]. split; [reflexivity|]. split; [exact Free|].
      intros j Hj. destruct (Nat.eq_dec j i) as [-> | Ne]; [exact C|].
      apply Before. lia.
    + intros [= <-]. exists i. split; [lia|]. split; [reflexivity|].
      split; [exact C|]. intros j Hj. lia.
Qed.

(** X13: with a seed that is a string but no number (such as
    [unspecified]), the id that a generator other than the one for
    etiologies returns is the seed id itself when it is free, and otherwise
    the seed id followed by an underscore and the first counter from one
    upward that is free. *)
Theorem allocate_returns_first_free_counter (fuel : nat)
  (written_lines : list string) (r : request) (s id : string) :
  isdigit s = false ->
  match r with Etiologies _ _ => False | _ => True end ->
  allocate fuel written_lines r (SStr s) = Return id ->
  pseudo_node_exists written_lines id = false
  /\ ((id = request_prefix r ++ s)
      \/ exists k,
           0 < k
           /\ id = request_prefix r ++ s ++ "_" ++ dec (Z.of_nat k)
           /\ pseudo_node_exists written_lines (request_prefix r ++ s) = true
           /\ forall j, 0 < j < k ->
                pseudo_node_exists written_lines
                  (request_prefix r ++ s ++ "_" ++ dec (Z.of_nat j)) = true).
Proof.
  intros D E. rewrite (allocate_string fuel written_lines r s D E).
  intros H.
  change (request_prefix r ++ s)
    with (string_candidate (request_prefix r) s (request_prefix r ++ s) 0)
    in H.
  apply (string_loop_first _ _ _ _ 0) in H as (k & _ & -> & Free & Before).
  split; [exact Free|].
  destruct k as [|k]; [now left|]. right. exists (S k).
  split; [lia|]. split; [reflexivity|]. split.
  - apply (Before 0). lia.
  - intros [|j] Hj; [lia|]. apply (Before (S j)). lia.
Qed.

Lemma allocate_returns_first_free_counter_witness :
  isdigit "unspecified" = false
  /\ allocate 3 sample_written_lines (Targets "S1" "omitted_ELEMENTS")
       (SStr "unspecified")
     = Return "S1_to_omitted_ELEMENTS_unspecified_1"
  /\ pseudo_node_exists sample_written_lines
       "S1_to_omitted_ELEMENTS_unspecified_1" = false.
Proof.
  assert (D : isdigit "unspecified" = false) by reflexivity.
  assert (H : allocate 3 sample_written_lines
                (Targets "S1" "omitted_ELEMENTS") (SStr "unspecified")
              = Return "S1_to_omitted_ELEMENTS_unspecified_1")
    by reflexivity.
  split; [exact D|]. split; [exact H|].
  exact (proj1 (allocate_returns_first_free_counter 3 sample_written_lines
                  (Targets "S1" "omitted_ELEMENTS") "unspecified" _ D I H)).
Defined.

End PseudoNodesMore.

(** ** The removal of excluded definitions *)

Module ExcludedFilterFacts.
Import PyStr DotSyntax ExcludedFilter LineFacts.

(** The line does not define a node of [exclude_set]. *)
Definition not_excluded (exclude_set : list string) (line : string) : bool :=
  match defines_node line with
  | Some id => negb (mem id exclude_set)
  | None => true
  end.

Lemma node_def_match_other_start p c p' s :
  p = String c p' -> is_space c = false -> Ascii.eqb c dq = false ->
  startswith p s = true -> node_def_match s = None.
Proof.
  intros -> Hs Hq. destruct s as [|d s]; [discriminate|].
  cbn [startswith]. intros H. apply andb_prop in H as [H _].
  apply Ascii.eqb_eq in H. subst d.
  unfold node_def_match. cbn [lstrip]. rewrite Hs.
  cbn [quoted_id]. now rewrite Hq.
Qed.

(** The tests that let a line through early never decide otherwise than
    the test on the definition. *)
Lemma keeps_line_spec exclude_set line :
  keeps_line exclude_set line = not_excluded exclude_set line.
Proof.
  unfold keeps_line, not_excluded, defines_node.
  set (s := strip line).
  assert (P : forall p c p',
            p = String c p' -> is_space c = false ->
            Ascii.eqb c dq = false -> startswith p s = true ->
            match node_def_match s with
            | Some id => if contains "->" s then None else Some id
            | None => None
            end = @None string).
  { intros p c p' E Hs Hq H.
    now rewrite (node_def_match_other_start p c p' s E Hs Hq H). }
  destruct (is_empty s) eqn:E0.
  { destruct s; [reflexivity | discriminate]. }
  cbn [orb].
  destruct (startswith "//" s) eqn:E1.
  { now rewrite (P "//" "/"%char "/" eq_refl eq_refl eq_refl E1). }
  destruct (startswith "#" s) eqn:E2.
  { now rewrite (P "#" "#"%char "" eq_refl eq_refl eq_refl E2). }
  cbn [orb].
  destruct (startswith "digraph" s) eqn:E3.
  { now rewrite (P "digraph" "d"%char "igraph" eq_refl eq_refl eq_refl E3). }
  destruct (startswith "graph" s) eqn:E4.
  { now rewrite (P "graph" "g"%char "raph" eq_refl eq_refl eq_refl E4). }
  destruct (startswith "subgraph" s) eqn:E5.
  { now rewrite (P "subgraph" "s"%char "ubgraph" eq_refl eq_refl eq_refl E5). }
  destruct (startswith "{" s) eqn:E6.
  { now rewrite (P "{" "{"%char "" eq_refl eq_refl eq_refl E6). }
  destruct (startswith "}" s) eqn:E7.
  { now rewrite (P "}" "}"%char "" eq_refl eq_refl eq_refl E7). }
  cbn [orb].
  destruct (contains "->" s) eqn:A.
  { now destruct (node_def_match s). }
  destruct (node_def_match s) as [id|]; [|reflexivity].
  cbn [negb andb]. now destruct (mem id exclude_set).
Qed.

Lemma file_lines_filter (f : string -> bool) ls :
  file_lines ls -> file_lines (filter f ls).
Proof.
  induction 1 as [| l H | l ls H Hls IH]; cbn [filter].
  - constructor.
  - destruct (f l); [now apply fl_last | constructor].
  - destruct (f l); [now apply fl_cons | exact IH].
Qed.

Lemma Forall_filter_keeps (P : string -> Prop) (f : string -> bool) ls :
  Forall P ls -> Forall P (filter f ls).
Proof.
  rewrite !Forall_forall. intros H x Hx. apply filter_In in Hx as [Hx _].
  now apply H.
Qed.

Lemma filter_all_kept (f : string -> bool) ls :
  List.length (filter (fun l => negb (f l)) ls) = 0 -> filter f ls = ls.
Proof.
  induction ls as [|l ls IH]; cbn [filter]; [reflexivity|].
  destruct (f l); cbn [negb]; [|discriminate].
  intros H. f_equal. exact (IH H).
Qed.

Lemma filter_idem (f : string -> bool) ls :
  filter f (filter f ls) = filter f ls.
Proof.
  induction ls as [|l ls IH]; cbn [filter]; [reflexivity|].
  destruct (f l) eqn:E; [|exact IH]. cbn [filter]. rewrite E.
  now rewrite IH.
Qed.

Lemma filter_none_left (f : string -> bool) ls :
  filter (fun l => negb (f l)) (filter f ls) = [].
Proof.
  induction ls as [|l ls IH]; cbn [filter]; [reflexivity|].
  destruct (f l) eqn:E; [|exact IH]. cbn [filter]. now rewrite E.
Qed.

(** The lines read after the pass, for a set of ids that is not empty. *)
Lemma readlines_after_removal file x xs rest :
  exclude_set_of (x :: rest) <> [] ->
  xs = exclude_set_of (x :: rest) ->
  readlines (remove_excluded_node_definitions file (x :: rest))
  = filter (keeps_line xs) (readlines file).
Proof.
  intros Hne ->. unfold remove_excluded_node_definitions.
  destruct (exclude_set_of (x :: rest)) as [|e es] eqn:E; [congruence|].
  destruct (Nat.ltb_spec 0
              (List.length
                 (filter (fun line => negb (keeps_line (e :: es) line))
                    (readlines file)))) as [L | L].
  - apply readlines_writelines.
    + apply file_lines_filter, readlines_file_lines.
    + apply Forall_filter_keeps, readlines_no_cr.
  - symmetry. apply filter_all_kept. lia.
Qed.

(** X14: [remove_excluded_node_definitions] removes exactly the lines
    that define a node whose id is in the exclusion set (the ids given,
    stripped, the empty ones left out): the lines read from the file
    afterwards are the other lines, in their order. Edge lines, comments and
    graph structure are never removed. *)
Theorem remove_excluded_node_definitions_spec (file : string)
  (elements_to_exclude : list string) :
  readlines (remove_excluded_node_definitions file elements_to_exclude)
  = filter (not_excluded (exclude_set_of elements_to_exclude))
      (readlines file).
Proof.
  assert (All : forall ls, filter (not_excluded []) ls = ls).
  { intros ls. induction ls as [|l ls IH]; cbn [filter]; [reflexivity|].
    unfold not_excluded at 1. destruct (defines_node l); cbn; now rewrite IH. }
  destruct elements_to_exclude as [|x rest].
  - cbn. now rewrite All.
  - destruct (exclude_set_of (x :: rest)) as [|e es] eqn:E.
    + unfold remove_excluded_node_definitions. rewrite E. now rewrite All.
    + rewrite (readlines_after_removal file x (e :: es) rest);
        [|congruence|now rewrite E].
      apply filter_ext. intros line. apply keeps_line_spec.
Qed.

(** X15: [remove_excluded_node_definitions] is idempotent on the content
    of the file: a second call with the same ids finds nothing to remove
    and leaves the file as it is. *)
Theorem remove_excluded_node_definitions_idempotent (file : string)
  (elements_to_exclude : list string) :
  remove_excluded_node_definitions
    (remove_excluded_node_definitions file elements_to_exclude)
    elements_to_exclude
  = remove_excluded_node_definitions file elements_to_exclude.
Proof.
  destruct elements_to_exclude as [|x rest]; [reflexivity|].
  destruct (exclude_set_of (x :: rest)) as [|e es] eqn:E.
  - unfold remove_excluded_node_definitions. now rewrite E.
  - pose proof (readlines_after_removal file x (e :: es) rest
                  ltac:(congruence) (eq_sym E)) as R.
    set (once := remove_excluded_node_definitions file (x :: rest)) in *.
    unfold remove_excluded_node_definitions at 1. rewrite E.
    cbv zeta. rewrite R, filter_none_left. reflexivity.
Qed.

End ExcludedFilterFacts.

(** ** What a removal leaves in the document *)

Module XmlMore.
Import Xml XmlFacts.

(** An element on which [here] holds (a test on its identity, its tag and
    its attributes) is reached from [e] by going down through children
    whose identities all pass [ok], its own included. *)
Fixpoint reaches (ok : nat -> bool)
  (here : nat -> string -> list (string * string) -> bool) (e : element)
  : bool :=
  match e with
  | Element _ _ _ cs =>
      (fix among (cs : list element) : bool :=
         match cs with
         | [] => false
         | c :: cs' =>
             (ok (uid c)
              && (here (uid c) (tag c) (attrib c) || reaches ok here c))
             || among cs'
         end) cs
  end.

(** Every element of [r] has a counterpart of the same identity and tag
    in [root]. *)
Definition within (r root : element) : Prop :=
  forall d, In d (descendants r) ->
    exists d0, In d0 (descendants root) /\ uid d0 = uid d /\ tag d0 = tag d.

Lemma reaches_children ok here i t a cs :
  reaches ok here (Element i t a cs)
  = existsb (fun c => ok (uid c)
                      && (here (uid c) (tag c) (attrib c)
                          || reaches ok here c)) cs.
Proof.
  cbn [reaches].
  induction cs as [|c cs IH]; cbn [existsb]; [reflexivity|]. now rewrite IH.
Qed.

Lemma reaches_present ok here e :
  reaches ok here e = true ->
  exists d, In d (descendants e) /\ here (uid d) (tag d) (attrib d) = true.
Proof.
  induction e as [i t a cs IH] using element_ind'.
  rewrite reaches_children, existsb_exists. intros [c [Hc H]].
  apply andb_prop in H as [_ H]. apply orb_prop in H as [H | H].
  - exists c. split; [|exact H]. apply in_descendants. exists c. auto.
  - rewrite Forall_forall in IH. destruct (IH c Hc H) as [d [Hd Hh]].
    exists d. split; [|exact Hh]. apply in_descendants. exists c. auto.
Qed.

Lemma detach_attrib u e : attrib (detach u e) = attrib e.
Proof. now destruct e. Qed.

Lemma reaches_detach ok here u e :
  ok u = false ->
  reaches ok here e = true -> reaches ok here (detach u e) = true.
Proof.
  intros Hu. induction e as [i t a cs IH] using element_ind'.
  rewrite detach_children, !reaches_children, !existsb_exists.
  intros [c [Hc H]]. exists (detach u c).
  apply andb_prop in H as [Hok H]. split.
  - apply in_map, filter_In. split; [exact Hc|].
    apply negb_true_iff, Nat.eqb_neq. intros E. congruence.
  - rewrite detach_uid, detach_tag, detach_attrib, Hok. cbn [andb].
    apply orb_prop in H as [H | H]; [now rewrite H|].
    rewrite Forall_forall in IH. rewrite (IH c Hc H). apply orb_true_r.
Qed.

Lemma remove_child_uid p c e : uid (remove_child p c e) = uid e.
Proof. destruct e as [i t a cs]. cbn. now destruct (Nat.eqb i p). Qed.

Lemma remove_child_tag p c e : tag (remove_child p c e) = tag e.
Proof. destruct e as [i t a cs]. cbn. now destruct (Nat.eqb i p). Qed.

Lemma remove_child_attrib p c e : attrib (remove_child p c e) = attrib e.
Proof. destruct e as [i t a cs]. cbn. now destruct (Nat.eqb i p). Qed.

Lemma remove_first_keeps u c cs :
  In c cs -> uid c <> u -> In c (remove_first u cs).
Proof.
  intros Hc Hne. induction cs as [|x cs IH]; [destruct Hc|].
  cbn [remove_first]. destruct (Nat.eqb_spec (uid x) u) as [E | E].
  - destruct Hc as [-> | Hc]; [congruence | exact Hc].
  - destruct Hc as [-> | Hc]; [now left | right; now apply IH].
Qed.

Lemma remove_first_incl u c cs : In c (remove_first u cs) -> In c cs.
Proof.
  induction cs as [|x cs IH]; cbn [remove_first]; [auto|].
  destruct (Nat.eqb (uid x) u); [now right|].
  intros [-> | H]; [now left | right; now apply IH].
Qed.

Lemma reaches_remove_child ok here p u e :
  ok u = false ->
  reaches ok here e = true -> reaches ok here (remove_child p u e) = true.
Proof.
  intros Hu. induction e as [i t a cs IH] using element_ind'.
  cbn [remove_child]. destruct (Nat.eqb i p);
    rewrite !reaches_children, !existsb_exists; intros [c [Hc H]].
  - exists c. split; [|exact H]. apply remove_first_keeps; [exact Hc|].
    apply andb_prop in H as [Hok _]. intros E. congruence.
  - exists (remove_child p u c). split; [now apply in_map|].
    apply andb_prop in H as [Hok H].
    rewrite remove_child_uid, remove_child_tag, remove_child_attrib, Hok.
    cbn [andb]. apply orb_prop in H as [H | H]; [now rewrite H|].
    rewrite Forall_forall in IH. rewrite (IH c Hc H). apply orb_true_r.
Qed.

Lemma remove_child_descendants p u e : forall d,
  In d (descendants (remove_child p u e)) ->
  exists d0, In d0 (descendants e) /\ uid d0 = uid d /\ tag d0 = tag d.
Proof.
  induction e as [i t a cs IH] using element_ind'. intros d.
  cbn [remove_child]. destruct (Nat.eqb i p); rewrite in_descendants.
  - intros [c [Hc Hd]]. apply remove_first_incl in Hc.
    exists d. split; [|auto]. apply in_descendants. exists c. auto.
  - intros [c' [Hc' Hd]]. apply in_map_iff in Hc' as [c [<- Hc]].
    rewrite Forall_forall in IH. destruct Hd as [-> | Hd].
    + exists c. rewrite remove_child_uid, remove_child_tag.
      split; [|auto]. apply in_descendants. exists c. auto.
    + destruct (IH c Hc d Hd) as [d0 [Hd0 E]].
      exists d0. split; [|exact E]. apply in_descendants. exists c. auto.
Qed.

Lemma within_refl e : within e e.
Proof. intros d Hd. exists d. auto. Qed.

Lemma within_step r r' root :
  within r root ->
  (forall d, In d (descendants r') ->
     exists d0, In d0 (descendants r) /\ uid d0 = uid d /\ tag d0 = tag d) ->
  within r' root.
Proof.
  intros W S d Hd. destruct (S d Hd) as [d1 [Hd1 [Eu Et]]].
  destruct (W d1 Hd1) as [d0 [Hd0 [Eu0 Et0]]].
  exists d0. split; [exact Hd0 | split; congruence].
Qed.

Lemma within_detach u r root : within r root -> within (detach u r) root.
Proof.
  intros W. apply within_step with (r := r); [exact W|]. intros d Hd.
  now apply detach_descendants in Hd as [_ H].
Qed.

Lemma within_remove_child p u r root :
  within r root -> within (remove_child p u r) root.
Proof.
  intros W. apply within_step with (r := r); [exact W|].
  apply remove_child_descendants.
Qed.

Lemma children_descendants c e : In c (children e) -> In c (descendants e).
Proof.
  destruct e as [i t a cs]. cbn [children]. intros H.
  apply in_descendants. exists c. auto.
Qed.

Lemma descendants_trans e : forall c d,
  In c (descendants e) -> In d (descendants c) -> In d (descendants e).
Proof.
  induction e as [i t a cs IH] using element_ind'. intros c d Hc Hd.
  apply in_descendants in Hc as [x [Hx Hc]]. apply in_descendants.
  exists x. split; [exact Hx|]. right. destruct Hc as [-> | Hc]; [exact Hd|].
  rewrite Forall_forall in IH. exact (IH x Hx c d Hc Hd).
Qed.

(** A loop of removals keeps what each of its turns keeps. *)
Lemma fold_keeps (A : Type) (f : element -> A -> element)
  (P : element -> Prop) (l : list A) :
  (forall r x, In x l -> P r -> P (f r x)) ->
  forall r, P r -> P (fold_left f l r).
Proof.
  induction l as [|x l IH]; intros F r H; cbn [fold_left]; [exact H|].
  apply IH.
  - intros r' y Hy. apply F. now right.
  - apply F; [now left | exact H].
Qed.

End XmlMore.

(** ** What the global toggles leave in place *)

Module OrchestratorMore.
Import PyStr Xml Orchestrator XmlFacts OrchestratorFacts XmlMore.

(** The tags that the toggles set remove. *)
Definition removed_tags (filter_propositions
  filter_matching_proposition_sequences filter_all_sequences : bool)
  : list string :=
  (if filter_propositions then ["matchingProposition"]
   else if filter_matching_proposition_sequences
        then ["matchingPropositionSequence"; "matchingPropositionPhases"]
        else [])
  ++ (if filter_all_sequences then ["sequence"] else []).

(** No element of [root] of identity [u] has one of the [tags]. *)
Definition spared (tags : list string) (root : element) (u : nat) : bool :=
  negb (existsb (fun x => Nat.eqb (uid x) u && mem (tag x) tags)
          (descendants root)).

Lemma spared_false tags root x :
  In x (descendants root) -> mem (tag x) tags = true ->
  spared tags root (uid x) = false.
Proof.
  intros Hx Ht. unfold spared. apply negb_false_iff, existsb_exists.
  exists x. split; [exact Hx|]. now rewrite Nat.eqb_refl, Ht.
Qed.

Lemma xpath_descendants_In t e x :
  In x (xpath_descendants t e) -> In x (descendants e) /\ tag x = t.
Proof.
  unfold xpath_descendants, has_tag. intros H.
  apply filter_In in H as [H E]. now apply String.eqb_eq in E.
Qed.

Lemma remove_each_reaches ok here found r :
  (forall x, In x found -> ok (uid x) = false) ->
  reaches ok here r = true -> reaches ok here (remove_each found r) = true.
Proof.
  intros F. unfold remove_each.
  apply fold_keeps with (P := fun r => reaches ok here r = true).
  intros r' x Hx. apply reaches_detach. now apply F.
Qed.

Lemma remove_each_within found r root :
  within r root -> within (remove_each found r) root.
Proof.
  unfold remove_each. apply fold_keeps with (P := fun r => within r root).
  intros r' x _. apply within_detach.
Qed.

Lemma found_not_spared tags root r t :
  within r root -> mem t tags = true ->
  forall x, In x (xpath_descendants t r) -> spared tags root (uid x) = false.
Proof.
  intros W M x Hx. apply xpath_descendants_In in Hx as [Hx Ht].
  destruct (W x Hx) as [x0 [Hx0 [Eu Et]]]. rewrite <- Eu.
  apply spared_false; [exact Hx0|]. now rewrite Et, Ht.
Qed.

(** A removal loop that takes every element of a tag leaves none. *)
Lemma remove_each_none t found r :
  (forall x, In x (xpath_descendants t r) -> In (uid x) (map uid found)) ->
  xpath_descendants t (remove_each found r) = [].
Proof.
  intros F.
  destruct (xpath_descendants t (remove_each found r)) as [|d l] eqn:E;
    [reflexivity | exfalso].
  assert (Hd : In d (xpath_descendants t (remove_each found r)))
    by (rewrite E; now left).
  apply xpath_descendants_In in Hd as [Hd Ht].
  rewrite remove_each_fold in Hd.
  apply fold_detach_descendants in Hd as [Hn [d0 [Hd0 [Eu Et]]]].
  apply Hn. rewrite <- Eu. apply F.
  unfold xpath_descendants. apply filter_In. split; [exact Hd0|].
  unfold has_tag. apply String.eqb_eq. congruence.
Qed.

Lemma remove_each_still_none t found r :
  xpath_descendants t r = [] ->
  xpath_descendants t (remove_each found r) = [].
Proof.
  intros E. apply remove_each_none. rewrite E. intros x [].
Qed.

Lemma strip_proposition_sequences_none props :
  Forall (fun kv : string * element =>
            xpath_descendants "sequence" (snd kv) = [])
    (strip_proposition_sequences props).
Proof.
  unfold strip_proposition_sequences. apply Forall_forall. intros kv H.
  apply in_map_iff in H as [kv0 [<- _]]. cbn [snd].
  apply remove_each_none. intros x. apply in_map.
Qed.

Lemma strip_proposition_sequences_keys props :
  map fst (strip_proposition_sequences props) = map fst props.
Proof.
  unfold strip_proposition_sequences. rewrite map_map. reflexivity.
Qed.

(** X16: whichever toggles are set together, the document that the three
    toggles leave holds no element of a tag that a set toggle removes: a
    later toggle never brings back what an earlier one took out. With the
    propositions toggle the dictionary of propositions is empty; without
    it, and with one of the two sequence toggles, the dictionary keeps its
    keys and no proposition holds a [sequence] element. *)
Theorem toggles_leave_none_of_their_tags (filter_propositions
  filter_matching_proposition_sequences filter_all_sequences : bool)
  (d : document) :
  let after :=
    apply_global_toggles filter_propositions
      filter_matching_proposition_sequences filter_all_sequences d in
  (forall t,
     mem t (removed_tags filter_propositions
              filter_matching_proposition_sequences filter_all_sequences)
     = true ->
     xpath_descendants t (xml_root after) = [])
  /\ (filter_propositions = true -> all_propositions after = [])
  /\ (filter_propositions = false ->
      filter_matching_proposition_sequences || filter_all_sequences = true ->
      map fst (all_propositions after) = map fst (all_propositions d)
      /\ Forall (fun kv : string * element =>
                   xpath_descendants "sequence" (snd kv) = [])
           (all_propositions after)).
Proof.
  intros after. subst after.
  unfold apply_global_toggles, toggle_c, toggles_a_b, removed_tags.
  split; [|split].
  - intros t M.
    assert (T : forall s, mem t [s] = true -> t = s).
    { intros s H. cbn in H. rewrite orb_false_r in H.
      apply String.eqb_eq in H. congruence. }
    destruct filter_propositions.
    + destruct filter_all_sequences; cbn [xml_root app] in *.
      * cbn in M. apply orb_prop in M as [M | M].
        -- apply String.eqb_eq in M. subst t.
           apply remove_each_still_none, remove_each_tag_gone.
        -- apply T in M. subst t. apply remove_each_tag_gone.
      * apply T in M. subst t. apply remove_each_tag_gone.
    + destruct filter_matching_proposition_sequences.
      * assert (Both : mem t ["matchingPropositionSequence";
                              "matchingPropositionPhases"] = true ->
                       forall x, In x (xpath_descendants t (xml_root d)) ->
                         In (uid x)
                           (map uid
                              (xpath_descendants "matchingPropositionSequence"
                                 (xml_root d)
                               ++ xpath_descendants "matchingPropositionPhases"
                                    (xml_root d)))).
        { intros H x Hx. apply in_map, in_or_app. cbn in H.
          apply orb_prop in H as [H | H].
          - apply String.eqb_eq in H. subst t. now left.
          - rewrite orb_false_r in H. apply String.eqb_eq in H. subst t.
            now right. }
        destruct filter_all_sequences; cbn [xml_root] in *.
        -- unfold mem in M. rewrite existsb_app in M.
           apply orb_prop in M as [M | M].
           ++ apply remove_each_still_none, remove_each_none, (Both M).
           ++ apply T in M. subst t. apply remove_each_tag_gone.
        -- rewrite app_nil_r in M. apply remove_each_none, (Both M).
      * destruct filter_all_sequences; cbn [xml_root app] in *.
        -- apply T in M. subst t. apply remove_each_tag_gone.
        -- discriminate.
  - intros ->. now destruct filter_all_sequences.
  - intros -> H. cbn [negb].
    destruct filter_matching_proposition_sequences;
      destruct filter_all_sequences; try discriminate;
      cbn [all_propositions];
      rewrite ?strip_proposition_sequences_keys;
      (split; [reflexivity | apply strip_proposition_sequences_none]).
Qed.

Lemma toggles_leave_none_of_their_tags_witness :
  xpath_descendants "sequence"
    (xml_root (apply_global_toggles false true true sample_toggle_document))
  = []
  /\ Forall (fun kv : string * element =>
               xpath_descendants "sequence" (snd kv) = [])
       (all_propositions
          (apply_global_toggles false true true sample_toggle_document)).
Proof.
  pose proof (toggles_leave_none_of_their_tags false true true
                sample_toggle_document) as [Tags [_ Props]].
  split.
  - apply Tags. reflexivity.
  - apply Props; reflexivity.
Defined.

(** X17: the toggles take nothing else away. An element that is reached
    from the root through elements none of which has a tag that a set
    toggle removes (its own tag included) is still in the document after
    the three toggles, with its identity, its tag and its attributes, and
    is still reached that way. *)
Theorem toggles_keep_the_rest (filter_propositions
  filter_matching_proposition_sequences filter_all_sequences : bool)
  (d : document) (here : nat -> string -> list (string * string) -> bool) :
  let tags :=
    removed_tags filter_propositions filter_matching_proposition_sequences
      filter_all_sequences in
  let after :=
    apply_global_toggles filter_propositions
      filter_matching_proposition_sequences filter_all_sequences d in
  reaches (spared tags (xml_root d)) here (xml_root d) = true ->
  reaches (spared tags (xml_root d)) here (xml_root after) = true
  /\ exists e, In e (descendants (xml_root after))
               /\ here (uid e) (tag e) (attrib e) = true.
Proof.
  intros tags after R.
  assert (G : reaches (spared tags (xml_root d)) here (xml_root after) = true);
    [|split; [exact G | exact (reaches_present _ _ _ G)]].
  subst after. unfold apply_global_toggles.
  set (mid := toggles_a_b filter_propositions
                filter_matching_proposition_sequences d).
  assert (A : reaches (spared tags (xml_root d)) here (xml_root mid) = true
              /\ within (xml_root mid) (xml_root d)).
  { subst mid. unfold toggles_a_b.
    destruct filter_propositions eqn:FP.
    - cbn [xml_root]. split; [|apply remove_each_within, within_refl].
      apply remove_each_reaches; [|exact R].
      apply found_not_spared; [apply within_refl | reflexivity].
    - destruct filter_matching_proposition_sequences eqn:FM.
      + cbn [xml_root]. split; [|apply remove_each_within, within_refl].
        apply remove_each_reaches; [|exact R].
        intros x Hx. apply in_app_or in Hx as [Hx | Hx];
          revert x Hx; apply found_not_spared;
          try apply within_refl; reflexivity.
      + split; [exact R | apply within_refl]. }
  destruct A as [A W]. unfold toggle_c.
  destruct filter_all_sequences eqn:FA; [|exact A].
  cbn [xml_root]. apply remove_each_reaches; [|exact A].
  apply found_not_spared; [exact W|].
  subst tags. unfold removed_tags.
  destruct filter_propositions; [reflexivity|].
  now destruct filter_matching_proposition_sequences.
Qed.

Lemma toggles_keep_the_rest_witness :
  reaches
    (spared (removed_tags true false true) (xml_root sample_toggle_document))
    (fun u _ _ => Nat.eqb u 1) (xml_root sample_toggle_document) = true
  /\ exists e,
       In e (descendants
               (xml_root
                  (apply_global_toggles true false true
                     sample_toggle_document)))
       /\ Nat.eqb (uid e) 1 = true.
Proof.
  split; [reflexivity|].
  exact (proj2 (toggles_keep_the_rest true false true sample_toggle_document
                  (fun u _ _ => Nat.eqb u 1) eq_refl)).
Defined.

End OrchestratorMore.

(** ** What the custom sequence filter leaves in place *)

Module FiltersMore.
Import PyStr Xml Filters XmlFacts XmlMore.

(** The tests of the first pass on a sequence record: it names a
    sequence, the map has a rule for that sequence, the record is the child
    of a [sequence] element, and the rule lists the id of the THESIS around
    it. *)
Definition rule_names (root : element) (seq_to_thesis_map : filter_map)
  (m_seq : element) : bool :=
  match get m_seq "sequenceRef" with
  | None => false
  | Some seq_ref =>
      negb (is_empty seq_ref)
      && match map_get (lstrip_hash seq_ref) seq_to_thesis_map with
         | None => false
         | Some thesis_ids =>
             match getparent root (uid m_seq) with
             | None => false
             | Some parent_sequence =>
                 has_tag "sequence" parent_sequence
                 && match find_parent_thesis root (uid m_seq) with
                    | None => false
                    | Some ancestor_thesis =>
                        match get ancestor_thesis "xml:id" with
                        | None => false
                        | Some ancestor_thesis_id =>
                            mem ancestor_thesis_id thesis_ids
                        end
                    end
             end
         end
  end.

(** No element of [root] of identity [u] is a sequence record that a rule
    names, or a phase record. *)
Definition stays (root : element) (seq_to_thesis_map : filter_map) (u : nat)
  : bool :=
  negb (existsb
          (fun x =>
             Nat.eqb (uid x) u
             && ((has_tag "matchingPropositionSequence" x
                  && rule_names root seq_to_thesis_map x)
                 || has_tag "matchingPropositionPhases" x))
          (descendants root)).

(** The records queued in the table. *)
Definition queued (t : parent_table) : list element :=
  map (fun it : item => fst (fst it)) (flat_map snd t).

Lemma queued_table_append parent it t x :
  In x (queued (table_append parent it t))
  -> In x (queued t) \/ x = fst (fst it).
Proof.
  unfold queued. induction t as [|[p its] t IH]; cbn [table_append].
  - cbn. intros [<- | []]. now right.
  - destruct (Nat.eqb (uid p) (uid parent)); cbn [flat_map snd];
      rewrite !map_app, !in_app_iff.
    + cbn [map In]. intros [[H | [<- | []]] | H]; auto.
    + intros [H | H]; [auto|]. destruct (IH H); auto.
Qed.

Lemma first_pass_step_queued root m t x y :
  In y (queued (first_pass_step root m t x)) ->
  In y (queued t) \/ (y = x /\ rule_names root m x = true).
Proof.
  unfold first_pass_step, rule_names.
  destruct (get x "sequenceRef") as [seq_ref|]; [|auto].
  destruct (is_empty seq_ref); [auto|]. cbn [negb andb].
  destruct (map_get (lstrip_hash seq_ref) m) as [thesis_ids|]; [|auto].
  destruct (getparent root (uid x)) as [parent_sequence|]; [|auto].
  destruct (has_tag "sequence" parent_sequence); cbn [negb andb]; [|auto].
  destruct (find_parent_thesis root (uid x)) as [ancestor_thesis|]; [|auto].
  destruct (get ancestor_thesis "xml:id") as [ancestor_thesis_id|]; [|auto].
  destruct (mem ancestor_thesis_id thesis_ids); [|auto].
  destruct (index_of (uid x) _); [|auto].
  intros H. apply queued_table_append in H as [H | H]; auto.
Qed.

Lemma first_pass_queued root m xs : forall t y,
  In y (queued (fold_left (first_pass_step root m) xs t)) ->
  In y (queued t) \/ (In y xs /\ rule_names root m y = true).
Proof.
  induction xs as [|x xs IH]; intros t y; cbn [fold_left]; [auto|].
  intros H. apply IH in H as [H | [H R]].
  - apply first_pass_step_queued in H as [H | [-> R]]; [auto|].
    right. split; [now left | exact R].
  - right. split; [now right | exact R].
Qed.

Lemma insert_desc_In it x l : In x (insert_desc it l) -> x = it \/ In x l.
Proof.
  induction l as [|y l IH]; cbn [insert_desc].
  - intros [<- | []]. now left.
  - destruct (item_index it <=? item_index y)%nat.
    + intros [<- | H]; [right; now left|].
      destruct (IH H); [now left | right; now right].
    + intros [<- | H]; [now left | now right].
Qed.

Lemma sort_desc_In x l : In x (sort_desc l) -> In x l.
Proof.
  unfold sort_desc.
  assert (G : forall acc, In x (fold_left (fun acc it => insert_desc it acc) l acc)
                          -> In x acc \/ In x l).
  { induction l as [|y l IH]; intros acc; cbn [fold_left]; [auto|].
    intros H. apply IH in H as [H | H]; [|right; now right].
    apply insert_desc_In in H as [-> | H]; [right; now left | now left]. }
  intros H. now apply G in H as [[] | H].
Qed.

Lemma phase_holders_descendants e : forall c,
  In c (phase_holders e) -> In c (descendants e).
Proof.
  induction e as [i t a cs IH] using element_ind'. intros c.
  cbn [phase_holders]. rewrite in_flat_map. intros [x [Hx H]].
  apply in_descendants. exists x. split; [exact Hx|].
  apply in_app_or in H as [H | H].
  - left. destruct (_ && _); [|destruct H]. destruct H as [<- | []].
    reflexivity.
  - right. rewrite Forall_forall in IH. now apply IH.
Qed.

(** Every record of the removal table comes from one of the lists of
    phase records. *)
Definition drawn_from (phases_info : list (element * list element))
  (m : removal_table) : Prop :=
  forall p xs x, In (p, xs) m -> In x xs ->
    exists ph mpps, In (ph, mpps) phases_info /\ In x mpps.

Lemma removal_add_drawn phases_info ph mpps ph' x m :
  In (ph, mpps) phases_info -> In x mpps ->
  drawn_from phases_info m -> drawn_from phases_info (removal_add ph' x m).
Proof.
  intros Hph Hx. induction m as [|[p xs] m IH]; intros D; cbn [removal_add].
  - intros p' xs' x' [[= <- <-] | []] [<- | []]. eauto.
  - assert (Dm : drawn_from phases_info m).
    { intros p' xs' x' H. apply (D p' xs' x'). now right. }
    destruct (Nat.eqb (uid p) (uid ph')).
    + intros p' xs' x' [[= <- <-] | H] Hx'.
      * destruct (mem_element x xs).
        -- apply (D p xs x'); [now left | exact Hx'].
        -- apply in_app_or in Hx' as [Hx' | [<- | []]]; [|eauto].
           apply (D p xs x'); [now left | exact Hx'].
      * now apply (Dm p' xs' x').
    + intros p' xs' x' [[= <- <-] | H] Hx'.
      * apply (D p xs x'); [now left | exact Hx'].
      * now apply (IH Dm p' xs' x').
Qed.

Lemma phase_to_remove_In i n mpps x :
  phase_to_remove i n mpps = Some x -> In x mpps.
Proof.
  unfold phase_to_remove.
  destruct (_ && _); [now apply nth_error_In|].
  destruct (_ && _); [now apply nth_error_In | discriminate].
Qed.

Lemma phases_to_remove_map_drawn items phases_info :
  drawn_from phases_info (phases_to_remove_map items phases_info).
Proof.
  unfold phases_to_remove_map.
  assert (Inner : forall i n info m,
            incl info phases_info -> drawn_from phases_info m ->
            drawn_from phases_info
              (fold_left
                 (fun m (ph : element * list element) =>
                    let '(phase_element, mpp_siblings) := ph in
                    match phase_to_remove i n mpp_siblings with
                    | Some x => removal_add phase_element x m
                    | None => m
                    end) info m)).
  { intros i n info.
    induction info as [|[ph mpps] info IH]; intros m I D; cbn [fold_left];
      [exact D|].
    apply IH; [intros y Hy; apply I; now right|].
    destruct (phase_to_remove i n mpps) as [x|] eqn:P; [|exact D].
    apply removal_add_drawn with (ph := ph) (mpps := mpps);
      [apply I; now left| |exact D].
    now apply phase_to_remove_In in P. }
  assert (Outer : forall m, drawn_from phases_info m ->
            drawn_from phases_info
              (fold_left
                 (fun m (it : item) =>
                    let '(_, removed_index, num_m_seq_siblings) := it in
                    fold_left
                      (fun m (ph : element * list element) =>
                         let '(phase_element, mpp_siblings) := ph in
                         match phase_to_remove removed_index
                                 num_m_seq_siblings mpp_siblings with
                         | Some x => removal_add phase_element x m
                         | None => m
                         end) phases_info m) items m)).
  { induction items as [|[[e i] n] items IH]; intros m D; cbn [fold_left];
      [exact D|].
    apply IH. apply Inner; [apply incl_refl | exact D]. }
  apply Outer. intros p xs x [].
Qed.

Lemma find_element_In u root e :
  find_element u root = Some e -> e = root \/ In e (descendants root).
Proof.
  unfold find_element. destruct (Nat.eqb (uid root) u).
  - intros [= <-]. now left.
  - intros H. apply find_some in H as [H _]. now right.
Qed.

Lemma stays_false root m x :
  In x (descendants root) ->
  (has_tag "matchingPropositionSequence" x && rule_names root m x)
  || has_tag "matchingPropositionPhases" x = true ->
  stays root m (uid x) = false.
Proof.
  intros Hx H. unfold stays. apply negb_false_iff, existsb_exists.
  exists x. split; [exact Hx|]. now rewrite Nat.eqb_refl, H.
Qed.

(** One turn of the second pass takes away only records that do not
    stay. *)
Lemma second_pass_step_keeps root m here entry r :
  (forall it, In it (snd entry) ->
     stays root m (uid (fst (fst it))) = false) ->
  reaches (stays root m) here r = true /\ within r root ->
  reaches (stays root m) here (second_pass_step r entry) = true
  /\ within (second_pass_step r entry) root.
Proof.
  destruct entry as [parent items]. cbn [snd]. intros Items [R W].
  unfold second_pass_step.
  destruct (find_element (uid parent) r) as [parent_sequence|] eqn:F;
    [|now split].
  set (to_remove := phases_to_remove_map _ _).
  assert (Phase : forall ph mpps x,
            In (ph, mpps) to_remove -> In x mpps ->
            stays root m (uid x) = false).
  { intros ph mpps x Hph Hx.
    destruct (phases_to_remove_map_drawn _ _ _ _ _ Hph Hx)
      as (ph0 & mpps0 & H0 & Hx0).
    apply in_map_iff in H0 as [ph1 [[= <- <-] H1]].
    apply phase_holders_descendants in H1.
    unfold xpath_children in Hx0. apply filter_In in Hx0 as [Hx0 T].
    apply children_descendants in Hx0.
    pose proof (descendants_trans _ _ _ H1 Hx0) as Below.
    assert (InR : In x (descendants r)).
    { apply find_element_In in F as [-> | F]; [exact Below|].
      exact (descendants_trans _ _ _ F Below). }
    destruct (W x InR) as [x0 [Hx00 [Eu Et]]]. rewrite <- Eu.
    apply stays_false; [exact Hx00|].
    unfold has_tag in *. rewrite Et, T. apply orb_true_r. }
  set (P := fun r => reaches (stays root m) here r = true /\ within r root).
  change (P (fold_left
               (fun r (ph : element * list element) =>
                  fold_left
                    (fun r mpp => remove_child (uid (fst ph)) (uid mpp) r)
                    (snd ph) r)
               to_remove
               (fold_left
                  (fun r (it : item) =>
                     remove_child (uid parent) (uid (fst (fst it))) r)
                  (sort_desc items) r))).
  apply fold_keeps.
  - intros r1 [ph mpps] Hph H1. cbn [fst snd]. apply fold_keeps; [|exact H1].
    intros r2 x Hx [R2 W2]. split.
    + apply reaches_remove_child; [|exact R2]. exact (Phase ph mpps x Hph Hx).
    + now apply within_remove_child.
  - apply fold_keeps; [|now split].
    intros r1 it Hit [R1 W1]. split.
    + apply reaches_remove_child; [|exact R1].
      apply Items. now apply sort_desc_In.
    + now apply within_remove_child.
Qed.

(** One rule: the records of the sequence [s1] inside the THESIS [T1]. *)
Definition sample_rules : filter_map := [("s1", ["T1"])].

(** X18: the custom sequence filter takes away nothing but sequence
    records that a rule of the map names (a rule for the sequence of the
    record that lists the THESIS around it), phase records, and what is
    below them. An element that is reached from the root through elements
    that are no such records (itself included) is still in the document
    after the filter, with its identity, its tag and its attributes. *)
Theorem seq_phase_filter_keeps_the_rest (xml_root : element)
  (seq_to_thesis_map : filter_map)
  (here : nat -> string -> list (string * string) -> bool) :
  reaches (stays xml_root seq_to_thesis_map) here xml_root = true ->
  reaches (stays xml_root seq_to_thesis_map) here
    (apply_custom_seq_phase_filters xml_root seq_to_thesis_map) = true
  /\ exists e,
       In e (descendants
               (apply_custom_seq_phase_filters xml_root seq_to_thesis_map))
       /\ here (uid e) (tag e) (attrib e) = true.
Proof.
  intros R.
  assert (G : reaches (stays xml_root seq_to_thesis_map) here
                (apply_custom_seq_phase_filters xml_root seq_to_thesis_map)
              = true);
    [|split; [exact G | exact (reaches_present _ _ _ G)]].
  unfold apply_custom_seq_phase_filters.
  destruct seq_to_thesis_map as [|rule rules]; [exact R|].
  set (m := rule :: rules) in *.
  set (table := fold_left (first_pass_step xml_root m) _ []).
  assert (Q : forall entry it, In entry table -> In it (snd entry) ->
                stays xml_root m (uid (fst (fst it))) = false).
  { intros entry it He Hit.
    assert (H : In (fst (fst it)) (queued table)).
    { unfold queued. apply (in_map (fun it : item => fst (fst it))).
      apply in_flat_map. now exists entry. }
    apply first_pass_queued in H as [[] | [H Rule]].
    unfold xpath_descendants in H. apply filter_In in H as [H T].
    apply stays_false; [exact H|]. now rewrite T, Rule. }
  set (P := fun r => reaches (stays xml_root m) here r = true
                     /\ within r xml_root).
  assert (G : P (fold_left second_pass_step table xml_root));
    [|exact (proj1 G)].
  apply fold_keeps; [|split; [exact R | apply within_refl]].
  intros r entry He Hr. apply second_pass_step_keeps; [|exact Hr].
  intros it. now apply Q.
Qed.

Lemma seq_phase_filter_keeps_the_rest_witness :
  reaches (stays FiltersFacts.sample_document sample_rules)
    (fun u _ _ => Nat.eqb u 4) FiltersFacts.sample_document = true
  /\ exists e,
       In e (descendants
               (apply_custom_seq_phase_filters FiltersFacts.sample_document
                  sample_rules))
       /\ Nat.eqb (uid e) 4 = true.
Proof.
  split; [reflexivity|].
  exact (proj2 (seq_phase_filter_keeps_the_rest FiltersFacts.sample_document
                  sample_rules (fun u _ _ => Nat.eqb u 4) eq_refl)).
Defined.

End FiltersMore.

(** ** The parsers of the custom filter strings *)

Module FilterParsingFacts.
Import PyStr Filters FilterParsing.

(** [thesis_id in filters.get(id, [])]: the test that both filters make
    on the parsed map. *)
Definition has_rule (thesis_id id : string) (filters : filter_map) : bool :=
  match map_get id filters with
  | Some thesis_ids => mem thesis_id thesis_ids
  | None => false
  end.

(** The string [f_str] reads [thesis_id to id]. *)
Definition reads (f_str thesis_id id : string) : Prop :=
  exists thesis_part id_part,
    split " to " f_str = [thesis_part; id_part]
    /\ strip thesis_part = thesis_id
    /\ lstrip_hash (strip id_part) = id.

Lemma has_rule_add_rule thesis_id id k v filters :
  has_rule thesis_id id (add_rule k v filters)
  = has_rule thesis_id id filters
    || (String.eqb k id && String.eqb thesis_id v).
Proof.
  unfold has_rule.
  induction filters as [|[k' vs] rest IH]; cbn [add_rule map_get].
  - destruct (String.eqb k id); [|reflexivity].
    cbn. now rewrite orb_false_r.
  - destruct (String.eqb_spec k' k) as [-> | Ne]; cbn [map_get].
    + destruct (String.eqb k id) eqn:E.
      * rewrite andb_true_l. destruct (mem v vs) eqn:M.
        -- destruct (String.eqb_spec thesis_id v) as [-> | _];
             [now rewrite M | now rewrite orb_false_r].
        -- unfold mem. rewrite existsb_app. cbn [existsb].
           now rewrite orb_false_r.
      * now rewrite orb_false_r.
    + destruct (String.eqb k' id) eqn:E; [|exact IH].
      destruct (String.eqb_spec k id) as [-> | _];
        [|now rewrite orb_false_r].
      apply String.eqb_eq in E. congruence.
Qed.

Lemma has_rule_parse_step thesis_id id filters f_str :
  has_rule thesis_id id (parse_step filters f_str) = true
  <-> has_rule thesis_id id filters = true \/ reads f_str thesis_id id.
Proof.
  unfold parse_step, reads.
  destruct (split " to " f_str) as [|a [|b [|c parts]]].
  - split; [auto | intros [H | (? & ? & [=] & _)]; exact H].
  - split; [auto | intros [H | (? & ? & [=] & _)]; exact H].
  - rewrite has_rule_add_rule, orb_true_iff, andb_true_iff, !String.eqb_eq.
    split.
    + intros [H | [<- ->]]; [now left | right; now exists a, b].
    + intros [H | (? & ? & [= <- <-] & <- & <-)]; auto.
  - split; [auto | intros [H | (? & ? & [=] & _)]; exact H].
Qed.

Lemma has_rule_fold thesis_id id filter_strings : forall filters,
  has_rule thesis_id id (fold_left parse_step filter_strings filters) = true
  <-> has_rule thesis_id id filters = true
      \/ exists f_str, In f_str filter_strings /\ reads f_str thesis_id id.
Proof.
  induction filter_strings as [|f rest IH]; intros filters; cbn [fold_left].
  - split; [auto | intros [H | [? [[] _]]]; exact H].
  - rewrite IH, has_rule_parse_step. split.
    + intros [[H | H] | [g [Hg H]]]; [now left | |].
      * right. exists f. split; [now left | exact H].
      * right. exists g. split; [now right | exact H].
    + intros [H | [g [[<- | Hg] H]]]; [left; now left | left; now right|].
      right. now exists g.
Qed.

(** X19: the map that a parser returns holds the rule [thesis_id] for
    [id] exactly when one of the filter strings splits in two parts at
    the separator (the word [to] between two spaces), of which the first,
    stripped, is [thesis_id] and the second, stripped and without leading
    [#], is [id]. Strings with no separator or with more than one add
    nothing. *)
Theorem parsed_filters_hold_the_rules_read (filter_strings : list string)
  (thesis_id id : string) :
  (has_rule thesis_id id (parse_custom_prop_filters filter_strings) = true
   <-> exists f_str, In f_str filter_strings /\ reads f_str thesis_id id)
  /\ (has_rule thesis_id id (parse_custom_seq_phase_filters filter_strings)
      = true
      <-> exists f_str, In f_str filter_strings /\ reads f_str thesis_id id).
Proof.
  unfold parse_custom_prop_filters, parse_custom_seq_phase_filters.
  split; rewrite has_rule_fold; (split; [|auto]);
    (intros [H | H]; [discriminate | exact H]).
Qed.

Example parse_custom_filters_sample :
  parse_custom_seq_phase_filters
    ["T1 to #s1"; "T2 to s1"; " T1  to  s1 "; "T3"; "T4 to s2 to s3";
     "T5 to ##s2"]
  = [("s1", ["T1"; "T2"]); ("s2", ["T5"])].
Proof. reflexivity. Qed.

(** Every key of the map is there once, and every list of the map is
    without repetition and not empty. *)
Definition tidy (filters : filter_map) : Prop :=
  NoDup (map fst filters)
  /\ forall k vs, In (k, vs) filters -> NoDup vs /\ vs <> [].

Lemma add_rule_keys k v filters x :
  In x (map fst (add_rule k v filters)) <-> In x (map fst filters) \/ x = k.
Proof.
  induction filters as [|[k' vs] rest IH]; cbn [add_rule map fst In].
  - intuition.
  - destruct (String.eqb_spec k' k) as [-> | Ne]; cbn [map fst In].
    + intuition.
    + rewrite IH. intuition.
Qed.

Lemma mem_false_not_In v vs : mem v vs = false -> ~ In v vs.
Proof.
  intros M H. unfold mem in M.
  assert (E : existsb (String.eqb v) vs = true).
  { apply existsb_exists. exists v. split; [exact H | apply String.eqb_refl]. }
  congruence.
Qed.

Lemma add_rule_tidy k v filters : tidy filters -> tidy (add_rule k v filters).
Proof.
  unfold tidy.
  induction filters as [|[k' vs] rest IH]; intros [Keys Lists];
    cbn [add_rule].
  - split.
    + cbn. constructor; [intros [] | constructor].
    + intros k0 vs0 [[= <- <-] | []]. split; [|discriminate].
      constructor; [intros [] | constructor].
  - cbn [map fst] in Keys. inversion Keys as [|? ? Fresh Keys']; subst.
    assert (Lists' : forall k0 vs0, In (k0, vs0) rest ->
                       NoDup vs0 /\ vs0 <> []).
    { intros k0 vs0 H. apply (Lists k0). now right. }
    destruct (Lists k' vs (or_introl eq_refl)) as [Nvs Evs].
    destruct (String.eqb_spec k' k) as [-> | Ne].
    + split; [exact Keys|].
      intros k0 vs0 [[= <- <-] | H]; [|now apply (Lists' k0)].
      destruct (mem v vs) eqn:M; [now split|]. split.
      * apply NoDup_app; [exact Nvs | constructor; [intros [] | constructor]|].
        intros x Hx [<- | []]. now apply (mem_false_not_In _ _ M).
      * destruct vs; discriminate.
    + destruct (IH (conj Keys' Lists')) as [Keys2 Lists2]. split.
      * cbn [map fst]. constructor; [|exact Keys2].
        rewrite add_rule_keys. intros [H | H]; [contradiction | congruence].
      * intros k0 vs0 [[= <- <-] | H]; [now split | now apply (Lists2 k0)].
Qed.

(** X20: in the map that a parser returns no thesis id is listed twice
    for one id, and no id is listed without a thesis id, whatever is
    repeated in the filter strings. *)
Theorem parsed_filters_are_tidy (filter_strings : list string) :
  tidy (parse_custom_prop_filters filter_strings)
  /\ tidy (parse_custom_seq_phase_filters filter_strings).
Proof.
  assert (G : forall filters, tidy filters ->
                tidy (fold_left parse_step filter_strings filters)).
  { induction filter_strings as [|f rest IH]; intros filters T;
      cbn [fold_left]; [exact T|].
    apply IH. unfold parse_step.
    destruct (split " to " f) as [|a [|b [|c parts]]]; try exact T.
    now apply add_rule_tidy. }
  assert (E : tidy []).
  { split; [constructor | intros k vs []]. }
  split; apply G, E.
Qed.

End FilterParsingFacts.

(** ** Stripping and the two line patterns *)

Module ShapeFacts.
Import PyStr DotSyntax StrFacts LineFacts.
Import PseudoNodes(all_chars).
Import EdgeValidation(indentation_of, text_after).

Definition all_space (w : string) : bool := all_chars is_space w.

Lemma all_space_app a b : all_space (a ++ b) = all_space a && all_space b.
Proof.
  unfold all_space. induction a as [|c a IH]; cbn; [reflexivity|].
  now rewrite IH, andb_assoc.
Qed.

Lemma lstrip_spaces w x : all_space w = true -> lstrip (w ++ x) = lstrip x.
Proof.
  unfold all_space. induction w as [|c w IH]; cbn; [reflexivity|].
  intros H. apply andb_prop in H as [Hc H]. rewrite Hc. now apply IH.
Qed.

Lemma lstrip_nonspace c x :
  is_space c = false -> lstrip (String c x) = String c x.
Proof. cbn. now intros ->. Qed.

Lemma lstrip_split x :
  exists w, all_space w = true /\ x = (w ++ lstrip x)%string.
Proof.
  induction x as [|c x [w [Hw Hx]]]; [now exists EmptyString|].
  cbn [lstrip]. destruct (is_space c) eqn:E; [|now exists EmptyString].
  exists (String c w). split.
  - unfold all_space in *. cbn. now rewrite E.
  - cbn. now f_equal.
Qed.

Lemma lstrip_app a b :
  lstrip (a ++ b)
  = if is_empty (lstrip a) then lstrip b else (lstrip a ++ b)%string.
Proof.
  induction a as [|c a IH]; cbn [append lstrip is_empty]; [reflexivity|].
  destruct (is_space c); [exact IH | reflexivity].
Qed.

Lemma lstrip_all_space w : all_space w = true -> lstrip w = EmptyString.
Proof.
  intros H. rewrite <- (append_empty_r w). now rewrite lstrip_spaces.
Qed.

Lemma rstrip_app a b :
  rstrip (a ++ b)
  = if is_empty (rstrip b) then rstrip a else (a ++ rstrip b)%string.
Proof.
  induction a as [|c a IH]; cbn [append rstrip].
  - now destruct (rstrip b).
  - rewrite IH. destruct (is_empty (rstrip b)) eqn:E; [reflexivity|].
    assert (N : is_empty (a ++ rstrip b) = false)
      by (destruct a; [exact E | reflexivity]).
    now rewrite N, andb_false_r.
Qed.

Lemma rstrip_all_space w : all_space w = true -> rstrip w = EmptyString.
Proof.
  unfold all_space. induction w as [|c w IH]; cbn; [reflexivity|].
  intros H. apply andb_prop in H as [Hc H]. now rewrite (IH H), Hc.
Qed.

Lemma rstrip_split x :
  exists w, all_space w = true /\ x = (rstrip x ++ w)%string.
Proof.
  induction x as [|c x [w [Hw Hx]]]; [now exists EmptyString|].
  cbn [rstrip].
  destruct (is_space c && is_empty (rstrip x)) eqn:E.
  - apply andb_prop in E as [Ec Ee]. exists (String c w). split.
    + unfold all_space in *. cbn. now rewrite Ec.
    + cbn. f_equal. destruct (rstrip x); [exact Hx | discriminate].
  - exists w. split; [exact Hw|]. cbn. now f_equal.
Qed.

Lemma rstrip_nonspace_end a c :
  is_space c = false ->
  rstrip (a ++ String c EmptyString) = (a ++ String c EmptyString)%string.
Proof. intros H. rewrite rstrip_app. cbn. now rewrite H. Qed.

Lemma rstrip_idem x : rstrip (rstrip x) = rstrip x.
Proof.
  induction x as [|c x IH]; [reflexivity|]. cbn [rstrip].
  destruct (is_space c && is_empty (rstrip x)) eqn:E; [reflexivity|].
  cbn [rstrip]. now rewrite IH, E.
Qed.

Lemma lstrip_rstrip x : lstrip (rstrip x) = rstrip (lstrip x).
Proof.
  induction x as [|c x IH]; [reflexivity|]. cbn [rstrip lstrip].
  destruct (is_space c) eqn:E; cbn [andb].
  - rewrite <- IH. destruct (is_empty (rstrip x)) eqn:Ee.
    + destruct (rstrip x); [reflexivity | discriminate].
    + cbn [lstrip]. now rewrite E.
  - cbn [lstrip rstrip]. now rewrite E.
Qed.

Lemma strip_rstrip x : strip (rstrip x) = strip x.
Proof. unfold strip. now rewrite lstrip_rstrip, rstrip_idem. Qed.

Lemma strip_trailing r w : all_space w = true -> strip (r ++ w) = strip r.
Proof.
  intros H. unfold strip. rewrite lstrip_app.
  destruct (is_empty (lstrip r)) eqn:E.
  - rewrite (lstrip_all_space w H). now destruct (lstrip r).
  - rewrite rstrip_app, (rstrip_all_space w H). reflexivity.
Qed.

(** Around its stripped text a line has only spaces. *)
Lemma strip_split line :
  exists ind trail,
    all_space ind = true /\ all_space trail = true
    /\ line = (ind ++ strip line ++ trail)%string.
Proof.
  destruct (lstrip_split line) as [ind [Hi E]].
  destruct (rstrip_split (lstrip line)) as [trail [Ht E']].
  exists ind, trail. split; [exact Hi|]. split; [exact Ht|].
  unfold strip. now rewrite <- E', <- E.
Qed.

(** The tail of the two patterns looks at the stripped text only. *)
Lemma tail_ok_rstrip r : tail_ok (rstrip r) = tail_ok r.
Proof. unfold tail_ok. now rewrite strip_rstrip. Qed.

Lemma tail_ok_trailing r w : all_space w = true -> tail_ok (r ++ w) = tail_ok r.
Proof. intros H. unfold tail_ok. now rewrite strip_trailing. Qed.

(** *** Quoted ids *)

(** A text that can stand between the quotes of a pattern. *)
Definition id_like (id : string) : Prop :=
  id <> EmptyString /\ has_char dq id = false.

Lemma quoted_then id rest :
  (quoted id ++ rest)%string = String dq (id ++ String dq rest).
Proof. unfold quoted. cbn. f_equal. now rewrite append_assoc. Qed.

Lemma quoted_id_plain id rest :
  id_like id -> quoted_id (quoted id ++ rest) = Some (id, rest).
Proof.
  intros [N Q]. rewrite quoted_then. cbn [quoted_id].
  rewrite Ascii.eqb_refl, (ArrowFacts.until_quote_free id rest Q).
  destruct id; [contradiction | reflexivity].
Qed.

Lemma quoted_id_spec x id rest :
  quoted_id x = Some (id, rest) ->
  x = (quoted id ++ rest)%string /\ id_like id.
Proof.
  destruct x as [|c x]; [discriminate|]. cbn [quoted_id].
  destruct (Ascii.eqb_spec c dq) as [-> | _]; [|discriminate].
  destruct (until_quote x) as [[a r]|] eqn:U; [|discriminate].
  destruct (is_empty a) eqn:E; [discriminate|]. intros [= <- <-].
  apply ArrowFacts.until_quote_spec in U as [-> Q].
  split; [now rewrite quoted_then|]. split; [|exact Q].
  intros ->. discriminate.
Qed.

Lemma is_space_dq : is_space dq = false.
Proof. reflexivity. Qed.

Lemma skipped_quoted y : skipped (String dq y) = false.
Proof.
  unfold skipped, starts_like_structure.
  replace (startswith (String dq EmptyString) (String dq y)) with true
    by (cbn [startswith]; now rewrite Ascii.eqb_refl).
  cbn [negb]. rewrite andb_false_r, orb_false_r.
  reflexivity.
Qed.

(** *** Edge lines *)

(** The text between the two ids of an edge: an arrow with spaces
    around. *)
Definition arrow_between (btw : string) : Prop :=
  exists w1 w2,
    all_space w1 = true /\ all_space w2 = true
    /\ btw = (w1 ++ "->" ++ w2)%string.

(** The line is an edge from [s] to [t] with the indentation [ind], the
    text [btw] between the ids and the text [tail] after the target. *)
Definition edge_shape (line ind s btw t tail : string) : Prop :=
  line = (ind ++ quoted s ++ btw ++ quoted t ++ tail)%string
  /\ all_space ind = true /\ arrow_between btw
  /\ id_like s /\ id_like t /\ tail_ok tail = true.

Lemma startswith_arrow x :
  startswith "->" x = true -> x = ("->" ++ drop2 x)%string.
Proof.
  destruct x as [|a [|b x]]; cbn [startswith drop2 append];
    try discriminate; try (rewrite andb_false_r; discriminate).
  intros H. apply andb_prop in H as [Ha H]. apply andb_prop in H as [Hb _].
  apply Ascii.eqb_eq in Ha, Hb. now subst.
Qed.

Lemma edge_def_match_shape x s t :
  edge_def_match x = Some (s, t) ->
  exists ind btw tail, edge_shape x ind s btw t tail.
Proof.
  unfold edge_def_match.
  destruct (quoted_id (lstrip x)) as [[s' r1]|] eqn:Q1; [|discriminate].
  destruct (startswith "->" (lstrip r1)) eqn:A; [|discriminate].
  destruct (quoted_id (lstrip (drop2 (lstrip r1)))) as [[t' r2]|] eqn:Q2;
    [|discriminate].
  destruct (tail_ok r2) eqn:T; [|discriminate]. intros [= <- <-].
  apply quoted_id_spec in Q1 as [E1 I1]. apply quoted_id_spec in Q2 as [E2 I2].
  apply startswith_arrow in A.
  destruct (lstrip_split x) as [w0 [H0 X0]].
  destruct (lstrip_split r1) as [w1 [H1 X1]].
  destruct (lstrip_split (drop2 (lstrip r1))) as [w2 [H2 X2]].
  exists w0, (w1 ++ "->" ++ w2)%string, r2.
  split; [|split; [exact H0|split; [now exists w1, w2|auto]]].
  rewrite X0 at 1. rewrite E1. f_equal. f_equal.
  rewrite X1 at 1. rewrite A at 1. rewrite X2 at 1. rewrite E2.
  now rewrite !append_assoc.
Qed.

(** An edge line, as [classify] reads it, has the shape of an edge. *)
Lemma classify_edge_shape line s t :
  classify line = EdgeLine s t ->
  exists ind btw tail, edge_shape line ind s btw t tail.
Proof.
  unfold classify. destruct (skipped (strip line)); [discriminate|].
  destruct (edge_def_match (strip line)) as [[a b]|] eqn:M.
  - intros [= <- <-].
    apply edge_def_match_shape in M
      as (ind & btw & tail & E & Hi & Hb & Hs & Ht & Tl).
    destruct (strip_split line) as (w & w' & Hw & Hw' & L).
    exists (w ++ ind)%string, btw, (tail ++ w')%string.
    split; [|split; [|split; [exact Hb|split; [exact Hs|split; [exact Ht|]]]]].
    + rewrite L at 1. rewrite E. now rewrite !append_assoc.
    + now rewrite all_space_app, Hw, Hi.
    + now rewrite tail_ok_trailing.
  - destruct (node_def_match (strip line)); [|discriminate].
    destruct (contains "->" (strip line)); discriminate.
Qed.

Lemma strip_edge ind s btw t tail :
  all_space ind = true ->
  strip (ind ++ quoted s ++ btw ++ quoted t ++ tail)
  = (quoted s ++ btw ++ quoted t ++ rstrip tail)%string.
Proof.
  intros Hi. unfold strip. rewrite (lstrip_spaces ind _ Hi).
  rewrite quoted_then, (lstrip_nonspace dq _ is_space_dq), <- quoted_then.
  assert (B : exists body,
            (quoted s ++ btw ++ quoted t)%string
            = (body ++ String dq EmptyString)%string).
  { exists (quoted s ++ btw ++ String dq t)%string.
    unfold quoted at 2. cbn [append]. now rewrite !append_assoc. }
  destruct B as [body B].
  replace (quoted s ++ btw ++ quoted t ++ tail)%string
    with ((body ++ String dq EmptyString) ++ tail)%string
    by (rewrite <- B; now rewrite !append_assoc).
  replace (quoted s ++ btw ++ quoted t ++ rstrip tail)%string
    with ((body ++ String dq EmptyString) ++ rstrip tail)%string
    by (rewrite <- B; now rewrite !append_assoc).
  rewrite rstrip_app, (rstrip_nonspace_end body dq is_space_dq).
  destruct (rstrip tail); [now rewrite append_empty_r | reflexivity].
Qed.

(** A line of the shape of an edge is read as that edge. *)
Lemma edge_shape_classify line ind s btw t tail :
  edge_shape line ind s btw t tail -> classify line = EdgeLine s t.
Proof.
  intros (-> & Hi & (w1 & w2 & H1 & H2 & ->) & Hs & Ht & Tl).
  unfold classify. rewrite (strip_edge ind s _ t tail Hi).
  rewrite quoted_then at 1. rewrite skipped_quoted.
  unfold edge_def_match.
  rewrite quoted_then at 1.
  rewrite (lstrip_nonspace dq _ is_space_dq), <- quoted_then.
  rewrite (quoted_id_plain s _ Hs).
  rewrite !append_assoc, (lstrip_spaces w1 _ H1).
  cbn [append lstrip]. change (is_space "-") with false. cbv iota.
  cbn [startswith]. rewrite !Ascii.eqb_refl. cbn [andb drop2].
  rewrite (lstrip_spaces w2 _ H2).
  rewrite quoted_then at 1.
  rewrite (lstrip_nonspace dq _ is_space_dq), <- quoted_then.
  rewrite (quoted_id_plain t _ Ht), tail_ok_rstrip, Tl. reflexivity.
Qed.

(** *** Node lines *)

Lemma classify_node_shape line id :
  classify line = NodeLine id ->
  id_like id
  /\ exists ind tail, line = (ind ++ quoted id ++ tail)%string.
Proof.
  unfold classify. destruct (skipped (strip line)); [discriminate|].
  destruct (edge_def_match (strip line)) as [[a b]|]; [discriminate|].
  destruct (node_def_match (strip line)) as [x|] eqn:M; [|discriminate].
  destruct (contains "->" (strip line)); [discriminate|]. intros [= <-].
  unfold node_def_match in M.
  destruct (quoted_id (lstrip (strip line))) as [[y r]|] eqn:Q;
    [|discriminate].
  destruct (tail_ok r); [|discriminate]. injection M as <-.
  apply quoted_id_spec in Q as [E I]. split; [exact I|].
  destruct (lstrip_split (strip line)) as [w0 [_ X0]].
  destruct (strip_split line) as (w & w' & _ & _ & L).
  exists (w ++ w0)%string, (r ++ w')%string.
  rewrite L at 1. rewrite X0 at 1. rewrite E. now rewrite !append_assoc.
Qed.


(** *** The ends of lines *)

Lemma snoc_inj a b (x y : ascii) :
  (a ++ String x EmptyString = b ++ String y EmptyString)%string ->
  a = b /\ x = y.
Proof.
  revert b. induction a as [|c a IH]; intros [|d b]; cbn [append].
  - now intros [= ->].
  - intros [= _ H]. now destruct b.
  - intros [= _ H]. now destruct a.
  - intros [= -> H]. apply IH in H as [-> ->]. auto.
Qed.

Lemma app_snoc_cases a : forall b c (x : ascii),
  (a ++ b = c ++ String x EmptyString)%string ->
  (b = EmptyString /\ a = (c ++ String x EmptyString)%string)
  \/ exists b0, b = (b0 ++ String x EmptyString)%string /\ c = (a ++ b0)%string.
Proof.
  induction a as [|y a IH]; intros b c x; cbn [append].
  - intros ->. right. now exists c.
  - destruct c as [|z c]; cbn [append].
    + intros [= -> H]. left. destruct a; [|discriminate].
      cbn in H. now subst.
    + intros [= -> H]. apply IH in H as [[-> ->] | [b0 [-> ->]]].
      * now left.
      * right. now exists b0.
Qed.

Lemma terminated_iff l :
  terminated l
  <-> exists body,
        l = (body ++ String nl EmptyString)%string
        /\ has_char nl body = false.
Proof.
  split.
  - induction 1 as [|c s E H [body [-> Hb]]].
    + now exists EmptyString.
    + exists (String c body). split; [reflexivity|].
      cbn [has_char]. now rewrite E, Hb.
  - intros [body [-> Hb]]. induction body as [|c body IH]; [constructor|].
    cbn [has_char] in Hb. apply orb_false_elim in Hb as [E Hb].
    cbn [append]. constructor; [exact E | now apply IH].
Qed.

Lemma unterminated_iff l :
  unterminated l <-> l <> EmptyString /\ has_char nl l = false.
Proof.
  split.
  - induction 1 as [c E | c s E H [N Hs]]; (split; [discriminate|]);
      cbn [has_char]; now rewrite E.
  - intros [N H]. induction l as [|c l IH]; [contradiction|].
    cbn [has_char] in H. apply orb_false_elim in H as [E H].
    destruct l as [|d l]; [now constructor|].
    apply unterm_cons; [exact E|]. apply IH; [discriminate | exact H].
Qed.

(** A line as [readlines] gives it. *)
Definition read_line (l : string) : Prop := terminated l \/ unterminated l.

(** What stands before a character of a line holds no newline. *)
Lemma read_line_prefix l a c b :
  read_line l -> l = (a ++ String c b)%string -> has_char nl a = false.
Proof.
  intros [T | U] ->.
  - apply terminated_iff in T as [body [E Hb]].
    apply app_snoc_cases in E as [[[=] _] | [b0 [_ ->]]].
    rewrite ArrowFacts.has_char_app in Hb.
    now apply orb_false_elim in Hb as [Hb _].
  - apply unterminated_iff in U as [_ H].
    rewrite ArrowFacts.has_char_app in H.
    now apply orb_false_elim in H as [H _].
Qed.

(** Another text before the same tail ends the line in the same way. *)
Lemma same_ending p0 c p' tail :
  Ascii.eqb c nl = false -> has_char nl p' = false -> p' <> EmptyString ->
  read_line ((p0 ++ String c EmptyString) ++ tail) ->
  read_line (p' ++ tail)
  /\ (terminated ((p0 ++ String c EmptyString) ++ tail) ->
      terminated (p' ++ tail)).
Proof.
  intros Hc Hp Np R.
  assert (T : terminated ((p0 ++ String c EmptyString) ++ tail) ->
              terminated (p' ++ tail)).
  { intros T. apply terminated_iff in T as [body [E Hb]].
    apply app_snoc_cases in E as [[-> E] | [b0 [-> ->]]].
    - apply snoc_inj in E as [_ ->]. discriminate.
    - rewrite ArrowFacts.has_char_app in Hb.
      apply orb_false_elim in Hb as [_ Hb].
      apply terminated_iff. exists (p' ++ b0)%string.
      split; [now rewrite append_assoc|].
      now rewrite ArrowFacts.has_char_app, Hp, Hb. }
  split; [|exact T]. destruct R as [R | U]; [left; now apply T|].
  right. apply unterminated_iff in U as [_ H].
  rewrite ArrowFacts.has_char_app in H. apply orb_false_elim in H as [_ H].
  apply unterminated_iff. split.
  - destruct p'; [contradiction | discriminate].
  - now rewrite ArrowFacts.has_char_app, Hp, H.
Qed.

Lemma no_cr_has_char s : no_cr s <-> has_char cr s = false.
Proof.
  induction s as [|c s IH]; cbn [no_cr has_char]; [tauto|].
  rewrite IH, orb_false_iff. tauto.
Qed.

(** *** The text after a place, and the indentation *)

Lemma indentation_of_spaces ind c rest :
  all_space ind = true -> is_space c = false ->
  indentation_of (ind ++ String c rest) = ind.
Proof.
  unfold all_space. intros Hi Hc.
  induction ind as [|d ind IH];
    cbn [append indentation_of PseudoNodes.all_chars] in *.
  - now rewrite Hc.
  - apply andb_prop in Hi as [Hd Hi]. rewrite Hd. f_equal. now apply IH.
Qed.

Lemma text_after_unfold p line :
  text_after p line
  = if startswith p line
    then Some (ArrowFixup.drop (String.length p) line)
    else match line with
         | EmptyString => None
         | String _ s' => text_after p s'
         end.
Proof. now destruct line. Qed.

Lemma drop_length_app p tail :
  ArrowFixup.drop (String.length p) (p ++ tail) = tail.
Proof. induction p as [|c p IH]; [reflexivity | exact IH]. Qed.

Lemma text_after_here p tail : text_after p (p ++ tail) = Some tail.
Proof.
  rewrite text_after_unfold, ArrowFacts.startswith_refl_app.
  now rewrite drop_length_app.
Qed.

(** A stretch without the first character of [p] is passed over. *)
Lemma text_after_lacking d p a b :
  has_char d a = false ->
  text_after (String d p) (a ++ b) = text_after (String d p) b.
Proof.
  induction a as [|c a IH]; [reflexivity|]. cbn [has_char append].
  intros H. apply orb_false_elim in H as [Hc H].
  rewrite text_after_unfold. cbn [startswith].
  rewrite Ascii.eqb_sym, Hc. cbn [andb]. now apply IH.
Qed.

(** Two quoted ids that start at the same place are the same. *)
Lemma startswith_quoted t u x y :
  has_char dq t = false -> has_char dq u = false ->
  startswith (String dq (t ++ String dq x)) (String dq (u ++ String dq y))
  = true ->
  t = u.
Proof.
  intros Ht Hu H. cbn [startswith] in H. apply andb_prop in H as [_ H].
  apply startswith_iff in H as [post E]. rewrite append_assoc in E.
  cbn [append] in E. symmetry in E.
  now apply (ArrowFacts.split_at_char dq t u _ _ Ht Hu) in E as [E _].
Qed.

Lemma has_char_spaces c w :
  all_space w = true -> is_space c = false -> has_char c w = false.
Proof.
  unfold all_space. intros H Hc.
  exact (ArrowFacts.all_chars_has_char is_space c w H Hc).
Qed.

Lemma arrow_between_quote btw :
  arrow_between btw -> has_char dq btw = false.
Proof.
  intros (w1 & w2 & H1 & H2 & ->).
  rewrite ArrowFacts.has_char_app, (has_char_spaces dq w1 H1 is_space_dq).
  cbn [append has_char orb].
  change (Ascii.eqb "-" dq) with false. change (Ascii.eqb ">" dq) with false.
  cbn [orb]. exact (has_char_spaces dq w2 H2 is_space_dq).
Qed.

Lemma arrow_between_contains btw :
  arrow_between btw -> contains "->" btw = true.
Proof.
  intros (w1 & w2 & _ & _ & ->). apply contains_iff. now exists w1, w2.
Qed.

(** In an edge line with two different ends, of which the target holds
    no arrow, the first place where the quoted target is read is the
    target. *)
Lemma text_after_target line ind s btw t tail :
  edge_shape line ind s btw t tail -> s <> t -> contains "->" t = false ->
  text_after (quoted t) line = Some tail
  /\ indentation_of line = ind.
Proof.
  intros (-> & Hi & Hb & [Ns Qs] & [Nt Qt] & _) Hst Ht. split.
  - unfold quoted at 1.
    rewrite (text_after_lacking dq _ ind _
               (has_char_spaces dq ind Hi is_space_dq)).
    rewrite (quoted_then s), text_after_unfold.
    destruct (startswith (String dq (t ++ String dq EmptyString))
                (String dq (s ++ String dq (btw ++ quoted t ++ tail)))) eqn:S1.
    { apply startswith_quoted in S1; [congruence | exact Qt | exact Qs]. }
    rewrite (text_after_lacking dq _ s _ Qs), text_after_unfold.
    rewrite (quoted_then t tail).
    destruct (startswith (String dq (t ++ String dq EmptyString))
                (String dq (btw ++ String dq (t ++ String dq tail))))
      eqn:S2.
    { apply startswith_quoted in S2;
        [|exact Qt | now apply arrow_between_quote].
      subst t. now rewrite (arrow_between_contains btw Hb) in Ht. }
    rewrite (text_after_lacking dq _ btw _ (arrow_between_quote btw Hb)).
    rewrite <- (quoted_then t tail). apply text_after_here.
  - rewrite (quoted_then s).
    exact (indentation_of_spaces ind dq _ Hi is_space_dq).
Qed.


(** *** The definition of a filtered pseudo-node *)

Lemma contains_arrow_app a b :
  contains "->" (a ++ b)
  = contains "->" a || (endswith "-" a && startswith ">" b)
    || contains "->" b.
Proof.
  induction a as [|c a IH]; cbn [append].
  - cbn. now destruct (contains "->" b).
  - cbn [contains]. rewrite IH.
    assert (E : startswith "->" (String c (a ++ b))
                = startswith "->" (String c a)
                  || (String.eqb "-" (String c a) && startswith ">" b)).
    { cbn [startswith String.eqb]. destruct (Ascii.eqb "-" c); [|reflexivity].
      cbn [andb]. destruct a as [|d a]; cbn [append startswith String.eqb].
      - now destruct (startswith ">" b).
      - cbn [andb]. now rewrite orb_false_r. }
    rewrite E. cbn [endswith].
    destruct (startswith "->" (String c a)), (String.eqb "-" (String c a)),
      (contains "->" a), (endswith "-" a), (startswith ">" b),
      (contains "->" b); reflexivity.
Qed.

Lemma endswith_snoc c a d :
  endswith (String c EmptyString) (a ++ String d EmptyString) = Ascii.eqb c d.
Proof.
  induction a as [|y a IH]; cbn [append endswith String.eqb].
  - now destruct (Ascii.eqb c d).
  - rewrite IH. destruct (a ++ String d EmptyString)%string eqn:E.
    + now destruct a.
    + now destruct (Ascii.eqb c y).
Qed.

Lemma drop_last_snoc a c : drop_last (a ++ String c EmptyString) = a.
Proof.
  induction a as [|y a IH]; [reflexivity|]. cbn [append drop_last].
  rewrite IH. now destruct a.
Qed.

Lemma contains_arrow_quoted y :
  contains "->" (quoted y) = contains "->" y.
Proof.
  unfold quoted. cbn [contains startswith].
  change (Ascii.eqb "-" dq) with false. cbn [andb orb].
  rewrite contains_arrow_app. cbn [startswith].
  change (Ascii.eqb ">" dq) with false. cbn [andb].
  rewrite andb_false_r. cbn. now rewrite !orb_false_r.
Qed.

Lemma endswith_dash_quoted y : endswith "-" (quoted y) = false.
Proof.
  unfold quoted.
  change (String dq (y ++ String dq EmptyString))
    with (String dq y ++ String dq EmptyString)%string.
  now rewrite endswith_snoc.
Qed.

(** The text of a bracketed attribute list and a semicolon after one
    space is a tail of the node pattern. *)
Lemma tail_ok_brackets mid :
  has_char nl mid = false ->
  tail_ok (String " " (String "[" (mid ++ "];"))) = true.
Proof.
  intros H. unfold tail_ok, strip. cbn [lstrip].
  change (is_space " ") with true. change (is_space "[") with false.
  cbv iota.
  assert (E : String "[" (mid ++ "];")
              = ((String "[" (mid ++ "]")) ++ ";")%string).
  { cbn [append]. now rewrite append_assoc. }
  rewrite E, (rstrip_nonspace_end _ ";" eq_refl), endswith_snoc.
  cbn [Ascii.eqb Bool.eqb]. cbv iota. rewrite drop_last_snoc.
  change (String "[" (mid ++ "]"))
    with (String "[" mid ++ "]")%string.
  rewrite (rstrip_nonspace_end _ "]" eq_refl).
  cbn [is_empty append startswith orb]. rewrite Ascii.eqb_refl.
  cbn [andb].
  change (String "[" (mid ++ "]"))
    with (String "[" mid ++ "]")%string.
  rewrite endswith_snoc, Ascii.eqb_refl. cbn [andb].
  rewrite ArrowFacts.has_char_app. cbn [has_char append String.length].
  rewrite H. change (Ascii.eqb "[" nl) with false.
  change (Ascii.eqb "]" nl) with false. cbn [orb negb andb].
  rewrite andb_true_r. apply Nat.leb_le. rewrite append_length. cbn. lia.
Qed.

Lemma strip_quoted ind id tail :
  all_space ind = true ->
  strip (ind ++ quoted id ++ tail) = (quoted id ++ rstrip tail)%string.
Proof.
  intros Hi. unfold strip. rewrite (lstrip_spaces ind _ Hi).
  rewrite quoted_then, (lstrip_nonspace dq _ is_space_dq), <- quoted_then.
  unfold quoted.
  change (String dq (id ++ String dq EmptyString))
    with (String dq id ++ String dq EmptyString)%string.
  rewrite rstrip_app, (rstrip_nonspace_end _ dq is_space_dq).
  destruct (rstrip tail); [now rewrite append_empty_r | reflexivity].
Qed.

Lemma contains_strip p line :
  contains p line = false -> contains p (strip line) = false.
Proof.
  intros H. destruct (contains p (strip line)) eqn:C; [|reflexivity].
  apply contains_iff in C as (pre & post & E).
  destruct (strip_split line) as (w & w' & _ & _ & L).
  assert (T : contains p line = true).
  { apply contains_iff. exists (w ++ pre)%string, (post ++ w')%string.
    rewrite L at 1. rewrite E. now rewrite !append_assoc. }
  congruence.
Qed.

(** A line of the shape of a node definition that holds no arrow is read
    as that definition. *)
Lemma node_shape_classify ind id tail :
  all_space ind = true -> id_like id -> tail_ok tail = true ->
  contains "->" (ind ++ quoted id ++ tail) = false ->
  classify (ind ++ quoted id ++ tail) = NodeLine id.
Proof.
  intros Hi Hid Tl A. apply contains_strip in A.
  unfold classify. rewrite (strip_quoted ind id tail Hi) in *.
  rewrite quoted_then at 1. rewrite skipped_quoted.
  destruct (edge_def_match (quoted id ++ rstrip tail)) as [[a b]|] eqn:M.
  { apply PruningMore.edge_def_match_arrow in M. congruence. }
  unfold node_def_match. rewrite quoted_then at 1.
  rewrite (lstrip_nonspace dq _ is_space_dq), <- quoted_then.
  now rewrite (quoted_id_plain id _ Hid), tail_ok_rstrip, Tl, A.
Qed.

End ShapeFacts.

(** ** Redirection and removal of dangling edges *)

Module EdgeValidationFacts.
Import PyStr DotSyntax Xml EdgeValidation StrFacts LineFacts SearchFacts.
Import ShapeFacts.
Import ExcludedFilter(exclude_set_of).
Import FilteredPruning(insert_before_closing, closing_index).

(** *** The pass as a rewriting of the lines *)

Section Rewrite.
Variable xml_root_original : option element.
Variables defined excluded_set : list string.

(** The node has no definition in the file. *)
Definition dangling (node : string) : bool := negb (mem node defined).

(** The end that the pass gives to an edge in place of [node]: the node
    itself when it is defined; its filtered pseudo-node when it is
    excluded; a defined THESIS that it is, or is below, in the document;
    none otherwise. *)
Definition final_end (node : string) : option string :=
  if dangling node then
    if mem node excluded_set then Some (node ++ "_filtered")%string
    else match find_thesis_ancestor node defined xml_root_original with
         | Some ancestor => if is_empty ancestor then None else Some ancestor
         | None => None
         end
  else Some node.

(** What becomes of the edge line [line] from [source] to [target]: it is
    kept, rewritten with its indentation and with the text after its target, or
    dropped ([None]). *)
Definition fate_of_edge (source target line : string) : option string :=
  if negb (dangling source) && negb (dangling target) then Some line
  else
    match final_end source, final_end target with
    | Some final_source, Some final_target =>
        if String.eqb final_source final_target then None
        else
          match text_after (quoted target) line with
          | Some rest_of_line =>
              Some (indentation_of line ++ quoted final_source ++ " -> "
                    ++ quoted final_target ++ rest_of_line)%string
          | None => None
          end
    | _, _ => None
    end.

(** What becomes of a line. *)
Definition fate (line : string) : option string :=
  match classify line with
  | EdgeLine source target => fate_of_edge source target line
  | _ => Some line
  end.

(** The node is an end for which the pass makes a filtered pseudo-node. *)
Definition asks (node : string) : bool :=
  dangling node && mem node excluded_set.

Definition definition_line (node : string) : string :=
  _make_filtered_node_line node
    (_get_excluded_element_type node xml_root_original).

(** The definitions that an edge adds to those of the edges below it: one
    for its source, and one for its target unless the source could not be
    resolved. *)
Definition adds_of_edge (source target : string)
  (added : list (string * string)) : list (string * string) :=
  let added :=
    if asks source
    then add_filtered source (definition_line source) added
    else added in
  if asks target
     && match final_end source with Some _ => true | None => false end
  then add_filtered target (definition_line target) added
  else added.

Definition adds (line : string) (added : list (string * string))
  : list (string * string) :=
  match classify line with
  | EdgeLine source target => adds_of_edge source target added
  | _ => added
  end.

(** The definitions asked for by all lines, from the last line up. *)
Definition wanted (lines : list string) : list (string * string) :=
  fold_right adds [] lines.

(** The list of lines that the pass writes. *)
Definition rewritten (lines : list string) : list string :=
  let kept := present_lines (map fate lines) in
  match wanted lines with
  | [] => kept
  | _ :: _ => insert_before_closing (EmptyString :: map snd (wanted lines)) kept
  end.

Lemma set_at_middle (A : Type) (v x : A) (pre post : list A) :
  set_at (List.length pre) v (pre ++ x :: post) = pre ++ v :: post.
Proof.
  induction pre as [|y pre IH]; cbn [List.length app set_at]; [reflexivity|].
  now rewrite IH.
Qed.

(** One turn of the second pass on the line of its edge. *)
Lemma process_edge_at missing pre post added source target line :
  mem source missing = dangling source ->
  mem target missing = dangling target ->
  process_edge xml_root_original defined missing excluded_set
    {| processed_lines := pre ++ Some line :: post;
       filtered_nodes_to_add := added |}
    (List.length pre, source, target, line)
  = {| processed_lines := pre ++ fate_of_edge source target line :: post;
       filtered_nodes_to_add := adds_of_edge source target added |}.
Proof.
  intros Hs Ht.
  unfold process_edge, fate_of_edge, adds_of_edge, final_end, asks,
    resolve_end, definition_line.
  rewrite Hs, Ht. cbn [processed_lines filtered_nodes_to_add].
  destruct (dangling source); destruct (dangling target);
    cbn [negb andb];
    try reflexivity;
    destruct (mem source excluded_set); destruct (mem target excluded_set);
    cbn [negb andb];
    repeat match goal with
      | |- context [find_thesis_ancestor ?n defined xml_root_original] =>
          destruct (find_thesis_ancestor n defined xml_root_original)
            as [[|? ?]|];
          cbn [is_empty negb andb]
      end;
    repeat match goal with
      | |- context [String.eqb ?a ?b] =>
          destruct (String.eqb a b); cbn [negb andb]
      end;
    repeat match goal with
      | |- context [text_after ?a ?b] => destruct (text_after a b)
      end;
    rewrite ?set_at_middle; reflexivity.
Qed.

(** The edges that the first pass finds in [lines], numbered from [k]. *)
Fixpoint edges_from (k : nat) (lines : list string)
  : list (nat * string * string * string) :=
  match lines with
  | [] => []
  | line :: rest =>
      match classify line with
      | EdgeLine source target => [(k, source, target, line)]
      | _ => []
      end ++ edges_from (S k) rest
  end.

Lemma second_pass_from_below missing lines : forall pre,
  (forall line source target,
     In line lines -> classify line = EdgeLine source target ->
     mem source missing = dangling source
     /\ mem target missing = dangling target) ->
  fold_right
    (fun d st =>
       process_edge xml_root_original defined missing excluded_set st d)
    {| processed_lines := pre ++ map Some lines;
       filtered_nodes_to_add := [] |}
    (edges_from (List.length pre) lines)
  = {| processed_lines := pre ++ map fate lines;
       filtered_nodes_to_add := wanted lines |}.
Proof.
  induction lines as [|line rest IH]; intros pre M; [reflexivity|].
  cbn [edges_from map wanted fold_right]. rewrite fold_right_app.
  assert (E : pre ++ Some line :: map Some rest
              = (pre ++ [Some line]) ++ map Some rest)
    by now rewrite <- app_assoc.
  rewrite E.
  replace (S (List.length pre)) with (List.length (pre ++ [Some line]))
    by (rewrite length_app; cbn; lia).
  rewrite IH by (intros l s t Hl; apply M; now right).
  rewrite <- app_assoc. cbn [app]. fold (wanted rest).
  unfold fate at 2, adds.
  destruct (classify line) as [source target|id|] eqn:C;
    cbn [fold_right]; try reflexivity.
  destruct (M line source target (or_introl eq_refl) C) as [Hs Ht].
  now apply process_edge_at.
Qed.

End Rewrite.

(** *** The first pass *)

Definition scan_from (k : nat) (lines : list string) (st : scan) : scan :=
  fold_left scan_step (combine (seq k (List.length lines)) lines) st.

Lemma scan_from_cons k line lines st :
  scan_from k (line :: lines) st
  = scan_from (S k) lines (scan_step st (k, line)).
Proof. reflexivity. Qed.

Lemma scan_edges_data lines : forall k st,
  edges_data (scan_from k lines st) = edges_data st ++ edges_from k lines.
Proof.
  induction lines as [|line rest IH]; intros k st.
  - cbn. now rewrite app_nil_r.
  - rewrite scan_from_cons, IH. cbn [edges_from scan_step].
    destruct (classify line); cbn [edges_data app];
      now rewrite <- ?app_assoc.
Qed.

(** A line of [lines] defines the node. *)
Definition defines (lines : list string) (node : string) : Prop :=
  exists line, In line lines /\ classify line = NodeLine node.

(** A line of [lines] is an edge of which the node is an end. *)
Definition is_end (lines : list string) (node : string) : Prop :=
  exists line source target,
    In line lines /\ classify line = EdgeLine source target
    /\ (node = source \/ node = target).

Lemma scan_defined lines node : forall k st,
  In node (defined_nodes (scan_from k lines st))
  <-> In node (defined_nodes st) \/ defines lines node.
Proof.
  unfold defines.
  induction lines as [|line rest IH]; intros k st.
  - cbn. split; [auto | intros [H | [? [[] _]]]; exact H].
  - rewrite scan_from_cons, IH. cbn [scan_step].
    destruct (classify line) as [s t|id|] eqn:C; cbn [defined_nodes].
    + split.
      * intros [H | [l [Hl Hc]]]; [now left | right; exists l; split; auto].
        now right.
      * intros [H | [l [[<- | Hl] Hc]]]; [now left | congruence|].
        right. now exists l.
    + rewrite set_add_In. split.
      * intros [[-> | H] | [l [Hl Hc]]]; [|now left|].
        -- right. exists line. split; [now left | exact C].
        -- right. exists l. split; [now right | exact Hc].
      * intros [H | [l [[<- | Hl] Hc]]]; [left; now right| |].
        -- left. left. congruence.
        -- right. now exists l.
    + split.
      * intros [H | [l [Hl Hc]]]; [now left | right; exists l; split; auto].
        now right.
      * intros [H | [l [[<- | Hl] Hc]]]; [now left | congruence|].
        right. now exists l.
Qed.

Lemma scan_references lines node : forall k st,
  In node (edge_references (scan_from k lines st))
  <-> In node (edge_references st) \/ is_end lines node.
Proof.
  unfold is_end.
  induction lines as [|line rest IH]; intros k st.
  - cbn. split; [auto | intros [H | [? [? [? [[] _]]]]]; exact H].
  - rewrite scan_from_cons, IH. cbn [scan_step].
    destruct (classify line) as [s t|id|] eqn:C; cbn [edge_references].
    + rewrite !set_add_In. split.
      * intros [[-> | [-> | H]] | [l [a [b [Hl Hc]]]]].
        -- right. exists line, s, t. split; [now left | auto].
        -- right. exists line, s, t. split; [now left | auto].
        -- now left.
        -- right. exists l, a, b. split; [now right | exact Hc].
      * intros [H | [l [a [b [[<- | Hl] [Hc Hn]]]]]].
        -- left. right. now right.
        -- rewrite C in Hc. injection Hc as <- <-.
           destruct Hn as [-> | ->]; left; [right|]; now left.
        -- right. now exists l, a, b.
    + split.
      * intros [H | [l [a [b [Hl Hc]]]]]; [now left|].
        right. exists l, a, b. split; [now right | exact Hc].
      * intros [H | [l [a [b [[<- | Hl] [Hc Hn]]]]]];
          [now left | congruence|].
        right. now exists l, a, b.
    + split.
      * intros [H | [l [a [b [Hl Hc]]]]]; [now left|].
        right. exists l, a, b. split; [now right | exact Hc].
      * intros [H | [l [a [b [[<- | Hl] [Hc Hn]]]]]];
          [now left | congruence|].
        right. now exists l, a, b.
Qed.

Lemma first_pass_defined lines node :
  mem node (defined_nodes (first_pass lines)) = true <-> defines lines node.
Proof.
  rewrite mem_In. unfold first_pass, enumerate.
  change (fold_left scan_step (combine (seq 0 (List.length lines)) lines) ?st)
    with (scan_from 0 lines st).
  rewrite scan_defined. cbn [defined_nodes In]. tauto.
Qed.

Lemma first_pass_missing lines line source target :
  In line lines -> classify line = EdgeLine source target ->
  let found := first_pass lines in
  let missing :=
    filter (fun x => negb (mem x (defined_nodes found)))
      (edge_references found) in
  mem source missing = dangling (defined_nodes found) source
  /\ mem target missing = dangling (defined_nodes found) target.
Proof.
  intros Hl C found missing.
  assert (G : forall node, is_end lines node ->
                mem node missing = dangling (defined_nodes found) node).
  { intros node E. unfold dangling.
    destruct (mem node (defined_nodes found)) eqn:D; cbn [negb].
    - apply mem_not_In. intros H. apply filter_In in H as [_ H].
      now rewrite D in H.
    - apply mem_In, filter_In. split; [|now rewrite D].
      unfold found, first_pass, enumerate.
      change (fold_left scan_step
                (combine (seq 0 (List.length lines)) lines) ?st)
        with (scan_from 0 lines st).
      apply scan_references. now right. }
  split; apply G; exists line, source, target; auto.
Qed.

(** *** The order of the second pass *)

Lemma sorted_reverse_rising lines : forall k acc,
  (forall y, In y acc -> datum_index y < k) ->
  fold_left (fun acc d => insert_by_index d acc) (edges_from k lines) acc
  = rev (edges_from k lines) ++ acc.
Proof.
  induction lines as [|line rest IH]; intros k acc Below; [reflexivity|].
  cbn [edges_from]. rewrite fold_left_app, rev_app_distr, <- app_assoc.
  destruct (classify line) as [source target|id|];
    cbn [fold_left rev app];
    try (apply IH; intros y Hy; apply Below in Hy; lia).
  assert (Front : insert_by_index (k, source, target, line) acc
                  = (k, source, target, line) :: acc).
  { destruct acc as [|y acc]; [reflexivity|]. cbn [insert_by_index].
    assert (datum_index y < k) by (apply Below; now left).
    change (datum_index (k, source, target, line)) with k.
    destruct (Nat.leb_spec k (datum_index y)); [lia | reflexivity]. }
  rewrite Front, IH; [reflexivity|].
  intros y [<- | Hy]; [cbn; lia | apply Below in Hy; lia].
Qed.

Lemma sorted_reverse_edges lines k :
  sorted_reverse (edges_from k lines) = rev (edges_from k lines).
Proof.
  unfold sorted_reverse. rewrite sorted_reverse_rising.
  - apply app_nil_r.
  - intros y [].
Qed.

(** The second pass, seen from its result. *)
Lemma second_pass_result (lines : list string)
  (xml_root_original : option element) (excluded_set : list string) :
  let found := first_pass lines in
  fold_left
    (process_edge xml_root_original (defined_nodes found)
       (filter (fun x => negb (mem x (defined_nodes found)))
          (edge_references found))
       excluded_set)
    (sorted_reverse (edges_data found))
    {| processed_lines := map Some lines; filtered_nodes_to_add := [] |}
  = {| processed_lines :=
         map (fate xml_root_original (defined_nodes found) excluded_set) lines;
       filtered_nodes_to_add :=
         wanted xml_root_original (defined_nodes found) excluded_set lines |}.
Proof.
  intros found.
  assert (E : edges_data found = edges_from 0 lines).
  { unfold found, first_pass, enumerate.
    change (fold_left scan_step
              (combine (seq 0 (List.length lines)) lines) ?st)
      with (scan_from 0 lines st).
    now rewrite scan_edges_data. }
  rewrite E, sorted_reverse_edges, <- fold_left_rev_right, rev_involutive.
  exact (second_pass_from_below xml_root_original (defined_nodes found)
           excluded_set _ lines []
           (fun line source target Hl C =>
              first_pass_missing lines line source target Hl C)).
Qed.

(** X21: the pass is a rewriting of the file line by line. A line that is
    no edge, and an edge of which both ends are defined, is written as it
    is; an edge with a dangling end is written again with its final ends
    (the filtered pseudo-node of an excluded node, or a defined THESIS
    around the node in the document), its indentation and the text after
    its target, or it is dropped when an end has no final end or both
    final ends are the same; the definitions of the filtered pseudo-nodes
    asked for go before the last closing brace. The order in which the
    edges are processed shows only in the order of these definitions. *)
Theorem redirect_rewrites_line_by_line (file : string)
  (xml_root_original : option element) (elements_to_exclude : list string) :
  redirect_or_remove_invalid_edges file xml_root_original elements_to_exclude
  = writelines
      (rewritten xml_root_original
         (defined_nodes (first_pass (readlines file)))
         (exclude_set_of elements_to_exclude) (readlines file)).
Proof.
  unfold redirect_or_remove_invalid_edges, rewritten. cbv zeta.
  pose proof (second_pass_result (readlines file) xml_root_original
                (exclude_set_of elements_to_exclude)) as S.
  cbv zeta in S. rewrite S. reflexivity.
Qed.

(** *** The line of a filtered pseudo-node *)

(** The attributes of the line that come before that of the source. *)
Definition attributes_text (element_type : string) : string :=
  let style_entry := filtered_node_style element_type in
  (" [label=<" ++ ("<b>" ++ element_type ++ "</b><br/><i>(filtered)</i>")
   ++ ">, gephi_label=" ++ quoted (gephi_label style_entry)
   ++ ", gephi_filtered=" ++ quoted "true" ++ ", fontsize=" ++ quoted "11"
   ++ ", fillcolor=" ++ quoted (fill style_entry)
   ++ ", color=" ++ quoted (border style_entry)
   ++ ", style=" ++ quoted (style style_entry)
   ++ ", shape=" ++ quoted (shape style_entry))%string.

(** The attribute of the source, for an id with a dot. *)
Definition source_text (excluded_id : string) : string :=
  match before_last "." excluded_id with
  | Some source_id => (", source=" ++ quoted source_id)%string
  | None => EmptyString
  end.

(** The line without its two newlines. *)
Definition definition_text (excluded_id element_type : string) : string :=
  (quoted (excluded_id ++ "_filtered") ++ attributes_text element_type
   ++ source_text excluded_id ++ "];")%string.

Lemma make_line_parts excluded_id element_type :
  _make_filtered_node_line excluded_id element_type
  = (definition_text excluded_id element_type
     ++ String nl (String nl EmptyString))%string.
Proof.
  unfold _make_filtered_node_line, definition_text, attributes_text,
    source_text.
  cbv zeta. rewrite !append_assoc. reflexivity.
Qed.

Lemma infer_element_type_cases node_id :
  _infer_element_type_from_id node_id = "THESIS"
  \/ _infer_element_type_from_id node_id = "SUPPORT".
Proof.
  unfold _infer_element_type_from_id.
  destruct (_ && _); [now left|]. destruct (_ && _); [now right | now left].
Qed.

Lemma element_type_cases elem_id xml_root :
  _get_excluded_element_type elem_id xml_root = "THESIS"
  \/ _get_excluded_element_type elem_id xml_root = "SUPPORT".
Proof.
  unfold _get_excluded_element_type.
  destruct xml_root as [root|]; [|apply infer_element_type_cases].
  destruct (negb (query_ok elem_id)); [apply infer_element_type_cases|].
  match goal with
  | |- context [match ?l with [] => _ | e :: _ => _ end = _] =>
      destruct l as [|e l']
  end; [apply infer_element_type_cases|].
  destruct (contains "THESIS" (tag e)); [now left|].
  destruct (contains "SUPPORT" (tag e)); [now right|].
  apply infer_element_type_cases.
Qed.

Lemma attributes_text_facts element_type :
  element_type = "THESIS" \/ element_type = "SUPPORT" ->
  exists inner,
    attributes_text element_type = String " " (String "[" inner)
    /\ has_char nl inner = false /\ has_char cr inner = false
    /\ contains "->" (attributes_text element_type) = false
    /\ endswith "-" (attributes_text element_type) = false.
Proof.
  intros [-> | ->]; eexists; (split; [vm_compute; reflexivity|]);
    repeat split; vm_compute; reflexivity.
Qed.

Lemma before_last_prefix c s p :
  before_last c s = Some p -> exists q, s = (p ++ String c q)%string.
Proof.
  revert p. induction s as [|a s IH]; intros p; [discriminate|].
  cbn [before_last]. destruct (before_last c s) as [h|].
  - intros [= <-]. destruct (IH h eq_refl) as [q ->]. now exists q.
  - destruct (Ascii.eqb_spec a c) as [-> | _]; [|discriminate].
    intros [= <-]. now exists s.
Qed.

Lemma contains_prefix_false p a b :
  contains p (a ++ b) = false -> contains p a = false.
Proof.
  intros H. destruct (contains p a) eqn:C; [|reflexivity].
  apply contains_iff in C as (pre & post & ->).
  assert (T : contains p ((pre ++ p ++ post) ++ b) = true).
  { apply contains_iff. exists pre, (post ++ b)%string.
    now rewrite !append_assoc. }
  congruence.
Qed.

Lemma source_text_facts excluded_id :
  has_char dq excluded_id = false ->
  contains "->" excluded_id = false ->
  (forall c, has_char c excluded_id = false -> Ascii.eqb c dq = false ->
             has_char c ", source=" = false ->
             has_char c (source_text excluded_id) = false)
  /\ contains "->" (source_text excluded_id ++ "];") = false.
Proof.
  intros Q A. unfold source_text.
  destruct (before_last "." excluded_id) as [p|] eqn:B; [|now split].
  apply before_last_prefix in B as [q ->]. split.
  - intros c H Hc Hs. rewrite ArrowFacts.has_char_app in H.
    apply orb_false_elim in H as [H _].
    rewrite ArrowFacts.has_char_app, Hs. unfold quoted.
    cbn [has_char orb]. rewrite ArrowFacts.has_char_app, H.
    cbn [has_char orb]. rewrite Ascii.eqb_sym, Hc. reflexivity.
  - apply contains_prefix_false in A.
    rewrite !contains_arrow_app, contains_arrow_quoted, A.
    change (startswith ">" "];") with false. rewrite !andb_false_r.
    reflexivity.
Qed.

Lemma has_char_quoted c y :
  Ascii.eqb c dq = false -> has_char c (quoted y) = has_char c y.
Proof.
  intros H. unfold quoted. cbn [has_char].
  rewrite ArrowFacts.has_char_app. cbn [has_char].
  rewrite Ascii.eqb_sym, H. cbn [orb]. now rewrite !orb_false_r.
Qed.

(** An id that can be read back from a line: between two quotes, and
    free of newlines and of arrows. *)
Definition plain (id : string) : Prop :=
  id_like id /\ has_char nl id = false /\ has_char cr id = false
  /\ contains "->" id = false.

Lemma plain_filtered id : plain id -> plain (id ++ "_filtered").
Proof.
  intros ([N Q] & L & C & A). split; [split|].
  - destruct id; discriminate.
  - now rewrite ArrowFacts.has_char_app, Q.
  - rewrite !ArrowFacts.has_char_app, L, C, contains_arrow_app, A.
    rewrite andb_false_r. auto.
Qed.

(** The text made for the filtered pseudo-node of a plain id is read
    back as the definition of that pseudo-node. *)
Lemma definition_text_read excluded_id element_type :
  plain excluded_id ->
  element_type = "THESIS" \/ element_type = "SUPPORT" ->
  let d := definition_text excluded_id element_type in
  has_char nl d = false /\ has_char cr d = false
  /\ classify (d ++ String nl EmptyString)
     = NodeLine (excluded_id ++ "_filtered").
Proof.
  intros P Ty d.
  destruct (plain_filtered excluded_id P) as (If & Lf & Cf & Af).
  destruct P as ([N Q] & L & C & A).
  destruct (attributes_text_facts element_type Ty)
    as (inner & E & Li & Ci & Ai & Di).
  destruct (source_text_facts excluded_id Q A) as [Hs As].
  assert (Ls : has_char nl (source_text excluded_id) = false)
    by (apply Hs; [exact L | reflexivity | reflexivity]).
  assert (Cs : has_char cr (source_text excluded_id) = false)
    by (apply Hs; [exact C | reflexivity | reflexivity]).
  subst d. unfold definition_text.
  split; [|split].
  - rewrite ArrowFacts.has_char_app, (has_char_quoted nl _ eq_refl), Lf, E.
    cbn [orb append has_char]. rewrite !ArrowFacts.has_char_app, Li, Ls.
    reflexivity.
  - rewrite ArrowFacts.has_char_app, (has_char_quoted cr _ eq_refl), Cf, E.
    cbn [orb append has_char]. rewrite !ArrowFacts.has_char_app, Ci, Cs.
    reflexivity.
  - rewrite !append_assoc.
    change (quoted (excluded_id ++ "_filtered") ++ ?tail)%string
      with (EmptyString ++ quoted (excluded_id ++ "_filtered") ++ tail)%string.
    apply node_shape_classify; [reflexivity | exact If | |].
    + replace (attributes_text element_type ++ source_text excluded_id
               ++ "];" ++ String nl EmptyString)%string
        with (String " "
                (String "[" ((inner ++ source_text excluded_id) ++ "];"))
              ++ String nl EmptyString)%string
        by (rewrite E; cbn [append]; now rewrite !append_assoc).
      rewrite tail_ok_trailing by reflexivity.
      apply tail_ok_brackets. now rewrite ArrowFacts.has_char_app, Li, Ls.
    + cbn [append]. rewrite contains_arrow_app, contains_arrow_quoted, Af.
      rewrite endswith_dash_quoted. cbn [andb orb].
      rewrite contains_arrow_app, Ai, Di. cbn [andb orb].
      replace (source_text excluded_id
               ++ String "]" (String ";" (String nl EmptyString)))%string
        with ((source_text excluded_id ++ "];")
              ++ String nl EmptyString)%string
        by now rewrite append_assoc.
      rewrite contains_arrow_app, As.
      rewrite andb_false_r. reflexivity.
Qed.


(** *** The closing brace *)

Definition closing_step (found : option nat) (il : nat * string)
  : option nat :=
  if String.eqb (strip (snd il)) "}" then Some (fst il) else found.

Lemma closing_from_bound ls : forall k acc i,
  fold_left closing_step (combine (seq k (List.length ls)) ls) acc = Some i ->
  acc = Some i \/ (k <= i < k + List.length ls).
Proof.
  induction ls as [|l ls IH]; intros k acc i;
    cbn [List.length seq combine fold_left]; [auto|].
  intros H. apply IH in H as [H | H]; [|right; lia].
  unfold closing_step in H. cbn [fst snd] in H.
  destruct (String.eqb (strip l) "}"); [|now left].
  injection H as <-. right. lia.
Qed.

Lemma closing_from_some ls : forall k acc,
  acc <> None ->
  fold_left closing_step (combine (seq k (List.length ls)) ls) acc <> None.
Proof.
  induction ls as [|l ls IH]; intros k acc H;
    cbn [List.length seq combine fold_left]; [exact H|].
  apply IH. unfold closing_step.
  now destruct (String.eqb (strip (snd (k, l))) "}").
Qed.

Lemma closing_from_found ls : forall k acc,
  (exists l, In l ls /\ strip l = "}"%string) ->
  fold_left closing_step (combine (seq k (List.length ls)) ls) acc <> None.
Proof.
  induction ls as [|l ls IH]; intros k acc [x [Hx E]]; [destruct Hx|].
  cbn [List.length seq combine fold_left]. destruct Hx as [<- | Hx].
  - apply closing_from_some. unfold closing_step. cbn [snd].
    now rewrite E.
  - apply IH. now exists x.
Qed.

Lemma closing_index_bound ls i :
  closing_index ls = Some i -> i < List.length ls.
Proof.
  unfold closing_index, enumerate. intros H.
  apply (closing_from_bound ls 0 None i) in H as [H | H]; [discriminate | lia].
Qed.

Lemma closing_index_found ls :
  (exists l, In l ls /\ strip l = "}"%string) -> closing_index ls <> None.
Proof. apply closing_from_found. Qed.

(** *** Lines that are read from a file and lines that are written *)

Lemma file_lines_read_line ls : file_lines ls -> Forall read_line ls.
Proof.
  induction 1 as [|l U|l ls T F IH]; constructor;
    try (now right); try (now left); auto.
Qed.

Lemma file_lines_firstn ls : forall i,
  file_lines ls -> i < List.length ls -> Forall terminated (firstn i ls).
Proof.
  induction ls as [|l ls IH]; intros i F Hi; [cbn in Hi; lia|].
  destruct i as [|i]; [constructor|]. cbn [firstn].
  inversion F as [|? U|? ? T F']; subst.
  - cbn in Hi. lia.
  - constructor; [exact T|]. apply IH; [exact F' | cbn in Hi; lia].
Qed.

Lemma file_lines_skipn ls : forall i, file_lines ls -> file_lines (skipn i ls).
Proof.
  induction ls as [|l ls IH]; intros [|i] F; cbn [skipn]; try exact F.
  apply IH. now apply file_lines_tail in F.
Qed.

Lemma present_lines_In (f : string -> option string) ls l' :
  In l' (present_lines (map f ls)) <-> exists l, In l ls /\ f l = Some l'.
Proof.
  unfold present_lines. rewrite in_flat_map. split.
  - intros [o [Ho H]]. apply in_map_iff in Ho as [l [<- Hl]].
    exists l. split; [exact Hl|]. destruct (f l); [|destruct H].
    destruct H as [<- | []]. reflexivity.
  - intros [l [Hl E]]. exists (Some l'). split; [|now left].
    rewrite <- E. now apply in_map.
Qed.

Lemma present_lines_file_lines (f : string -> option string) ls :
  file_lines ls ->
  (forall l l', In l ls -> f l = Some l' ->
     read_line l' /\ (terminated l -> terminated l')) ->
  file_lines (present_lines (map f ls)).
Proof.
  unfold present_lines.
  induction 1 as [|l U|l ls T F IH]; intros K; cbn [map flat_map].
  - constructor.
  - destruct (f l) as [l'|] eqn:E; [|constructor]. cbn [app].
    destruct (K l l' (or_introl eq_refl) E) as [[T' | U'] _].
    + apply fl_cons; [exact T' | constructor].
    + now apply fl_last.
  - assert (F' : file_lines
                   (flat_map (fun o : option string =>
                                match o with
                                | Some line => [line]
                                | None => []
                                end) (map f ls)))
      by (apply IH; intros x x' Hx; apply K; now right).
    destruct (f l) as [l'|] eqn:E; [|exact F']. cbn [app].
    destruct (K l l' (or_introl eq_refl) E) as [_ T'].
    apply fl_cons; [now apply T' | exact F'].
Qed.

Lemma split_keepends_after a rest :
  Forall terminated a ->
  split_keepends (join (a ++ rest)) = a ++ split_keepends (join rest).
Proof.
  induction 1 as [|l a T F IH]; [reflexivity|]. cbn [app join fold_right].
  change (fold_right append EmptyString (a ++ rest)) with (join (a ++ rest)).
  now rewrite (split_keepends_terminated l _ T), IH.
Qed.

(** The two lines read from the text of a definition. *)
Definition definition_lines (d : string) : list string :=
  [(d ++ String nl EmptyString)%string; String nl EmptyString].

Lemma split_keepends_definitions ds rest :
  (forall d, In d ds -> has_char nl d = false) ->
  split_keepends
    (join (map (fun d => (d ++ String nl (String nl EmptyString))%string) ds
           ++ rest))
  = flat_map definition_lines ds ++ split_keepends (join rest).
Proof.
  induction ds as [|d ds IH]; intros H; [reflexivity|].
  cbn [map app join fold_right flat_map definition_lines].
  change (fold_right append EmptyString (?x ++ rest)) with (join (x ++ rest)).
  assert (T : terminated (d ++ String nl EmptyString)).
  { apply terminated_iff. exists d. split; [reflexivity|].
    apply H. now left. }
  set (tail := join (map _ ds ++ rest)).
  replace ((d ++ String nl (String nl EmptyString)) ++ tail)%string
    with ((d ++ String nl EmptyString)
          ++ String nl EmptyString ++ tail)%string
    by (rewrite !append_assoc; reflexivity).
  subst tail.
  rewrite (split_keepends_terminated _ _ T).
  rewrite (split_keepends_terminated (String nl EmptyString) _ term_nl).
  rewrite IH by (intros x Hx; apply H; now right). reflexivity.
Qed.

(** *** No dangling edge is left *)

Section Closure.
Variable xml_root_original : option element.
Variable excluded_set : list string.
Variable lines : list string.
Hypothesis Shape : file_lines lines.
Hypothesis NoCr : Forall no_cr lines.
Hypothesis Calm :
  forall node, is_end lines node -> contains "->" node = false.

Let defined : list string := defined_nodes (first_pass lines).

(** An id that a line can hold between two quotes. *)
Definition clean (id : string) : Prop :=
  id_like id /\ has_char nl id = false /\ has_char cr id = false.

Lemma inside_line l a x c b :
  In l lines -> l = (a ++ x ++ String c b)%string ->
  has_char nl x = false /\ has_char cr x = false.
Proof.
  intros Hl E. split.
  - assert (R : read_line l).
    { pose proof (file_lines_read_line lines Shape) as F.
      rewrite Forall_forall in F. now apply F. }
    rewrite <- append_assoc in E.
    apply (read_line_prefix l _ c b R) in E.
    rewrite ArrowFacts.has_char_app in E.
    now apply orb_false_elim in E as [_ E].
  - rewrite Forall_forall in NoCr. apply NoCr, no_cr_has_char in Hl.
    rewrite E, !ArrowFacts.has_char_app in Hl.
    apply orb_false_elim in Hl as [_ Hl].
    now apply orb_false_elim in Hl as [Hl _].
Qed.

Lemma edge_ends_clean l s t :
  In l lines -> classify l = EdgeLine s t -> clean s /\ clean t.
Proof.
  intros Hl C.
  destruct (classify_edge_shape l s t C)
    as (ind & btw & tail & E & _ & _ & Is & It & _).
  split; (split; [assumption|]).
  - apply (inside_line l (ind ++ String dq EmptyString) s dq
             (btw ++ quoted t ++ tail) Hl).
    rewrite E, (quoted_then s), append_assoc. reflexivity.
  - apply (inside_line l (ind ++ quoted s ++ btw ++ String dq EmptyString)
             t dq tail Hl).
    rewrite E, (quoted_then t), !append_assoc. reflexivity.
Qed.

Lemma end_plain node : is_end lines node -> plain node.
Proof.
  intros E. pose proof (Calm node E) as A.
  destruct E as (l & s & t & Hl & C & [-> | ->]);
    destruct (edge_ends_clean l s t Hl C) as [(I & L & R) (I' & L' & R')];
    repeat split; try apply I; try apply I'; assumption.
Qed.

Lemma defined_clean node : mem node defined = true -> clean node.
Proof.
  intros D. apply first_pass_defined in D as (l & Hl & C).
  apply classify_node_shape in C as [I (ind & tail & E)].
  split; [exact I|].
  apply (inside_line l (ind ++ String dq EmptyString) node dq tail Hl).
  rewrite E, (quoted_then node), append_assoc. reflexivity.
Qed.

Lemma defined_id_mem valid e a :
  defined_id valid e = Some a -> mem a valid = true.
Proof.
  unfold defined_id. destruct (get e "xml:id") as [i|]; [|discriminate].
  destruct (mem i valid) eqn:M; [|discriminate]. now intros [= <-].
Qed.

Lemma find_thesis_ancestor_defined node valid xml a :
  find_thesis_ancestor node valid xml = Some a -> mem a valid = true.
Proof.
  unfold find_thesis_ancestor. destruct xml as [root|]; [|discriminate].
  destruct (negb (query_ok node)); [discriminate|].
  match goal with
  | |- match ?found with Some _ => _ | None => _ end = _ -> _ =>
      destruct found as [[found_element above]|]; [|discriminate]
  end.
  destruct (has_tag "THESIS" found_element).
  - destruct (defined_id valid found_element) as [i|] eqn:Own.
    + intros [= <-]. exact (defined_id_mem _ _ _ Own).
    + destruct (filter (has_tag "THESIS") above) as [|anc rest];
        [discriminate | apply defined_id_mem].
  - destruct (filter (has_tag "THESIS") above) as [|anc rest];
      [discriminate | apply defined_id_mem].
Qed.

Lemma final_end_cases node final :
  final_end xml_root_original defined excluded_set node = Some final ->
  (final = node /\ dangling defined node = false)
  \/ (final = (node ++ "_filtered")%string
      /\ asks defined excluded_set node = true)
  \/ mem final defined = true.
Proof.
  unfold final_end, asks. destruct (dangling defined node) eqn:D.
  - destruct (mem node excluded_set).
    + intros [= <-]. right. left. auto.
    + destruct (find_thesis_ancestor node defined xml_root_original)
        as [a|] eqn:F; [|discriminate].
      destruct (is_empty a); [discriminate|]. intros [= <-].
      right. right. exact (find_thesis_ancestor_defined _ _ _ _ F).
  - intros [= <-]. now left.
Qed.

Lemma final_end_clean node final :
  clean node ->
  final_end xml_root_original defined excluded_set node = Some final ->
  clean final.
Proof.
  intros (I & L & R) F.
  apply final_end_cases in F as [[-> _] | [[-> _] | D]].
  - repeat split; try apply I; assumption.
  - destruct I as [N Q]. repeat split.
    + now destruct node.
    + now rewrite ArrowFacts.has_char_app, Q.
    + now rewrite ArrowFacts.has_char_app, L.
    + now rewrite ArrowFacts.has_char_app, R.
  - now apply defined_clean.
Qed.

(** The line is the edge of [line] with its final ends. *)
Definition redirected (line line' : string) : Prop :=
  exists s t final_s final_t ind tail,
    classify line = EdgeLine s t
    /\ final_end xml_root_original defined excluded_set s = Some final_s
    /\ final_end xml_root_original defined excluded_set t = Some final_t
    /\ edge_shape line' ind final_s " -> " final_t tail.

(** What [fate] keeps of a line of the file. *)
Lemma fate_cases l l' :
  In l lines ->
  fate xml_root_original defined excluded_set l = Some l' ->
  (read_line l' /\ (terminated l -> terminated l') /\ no_cr l')
  /\ ((l' = l
       /\ forall s t, classify l = EdgeLine s t ->
            dangling defined s = false /\ dangling defined t = false)
      \/ redirected l l').
Proof.
  intros Hl. unfold fate.
  assert (Rl : read_line l).
  { pose proof (file_lines_read_line lines Shape) as F.
    rewrite Forall_forall in F. now apply F. }
  assert (Cl : no_cr l) by (rewrite Forall_forall in NoCr; now apply NoCr).
  destruct (classify l) as [s t|id|] eqn:C.
  2,3: intros [= <-]; split; [auto|]; left; split; [reflexivity|];
       intros ? ?; discriminate.
  unfold fate_of_edge.
  destruct (negb (dangling defined s) && negb (dangling defined t)) eqn:Sound.
  { intros [= <-]. split; [auto|]. left. split; [reflexivity|].
    intros s' t' [= <- <-]. apply andb_prop in Sound as [Hs Ht].
    now apply negb_true_iff in Hs, Ht. }
  destruct (final_end xml_root_original defined excluded_set s)
    as [fs|] eqn:Fs; [|discriminate].
  destruct (final_end xml_root_original defined excluded_set t)
    as [ft|] eqn:Ft; [|discriminate].
  destruct (String.eqb_spec fs ft) as [Same | Diff]; [discriminate|].
  assert (Hst : s <> t) by (intros ->; congruence).
  destruct (classify_edge_shape l s t C)
    as (ind & btw & tail & Sh).
  assert (At : contains "->" t = false).
  { apply Calm. exists l, s, t. auto. }
  destruct (text_after_target l ind s btw t tail Sh Hst At) as [Ta In'].
  rewrite Ta, In'.
  destruct (edge_ends_clean l s t Hl C) as [Ks Kt].
  destruct (final_end_clean s fs Ks Fs) as (Ifs & Lfs & Rfs).
  destruct (final_end_clean t ft Kt Ft) as (Ift & Lft & Rft).
  destruct Sh as (E & Hi & Hb & Is & It & Tl).
  assert (Li : has_char nl ind = false /\ has_char cr ind = false).
  { destruct (inside_line l EmptyString ind dq
                (s ++ String dq (btw ++ quoted t ++ tail)) Hl) as [A B];
      [now rewrite E, (quoted_then s)|]. auto. }
  destruct Li as [Li Ri].
  remember (ind ++ quoted fs ++ " -> " ++ quoted ft)%string as head' eqn:Hh.
  assert (Lh : has_char nl head' = false).
  { rewrite Hh.
    rewrite !ArrowFacts.has_char_app, Li, !(has_char_quoted nl _ eq_refl).
    now rewrite Lfs, Lft. }
  assert (Rh : has_char cr head' = false).
  { rewrite Hh.
    rewrite !ArrowFacts.has_char_app, Ri, !(has_char_quoted cr _ eq_refl).
    now rewrite Rfs, Rft. }
  assert (Eh : (ind ++ quoted fs ++ " -> " ++ quoted ft ++ tail)%string
               = (head' ++ tail)%string)
    by (rewrite Hh; now rewrite !append_assoc).
  assert (El : l = (((ind ++ quoted s ++ btw ++ String dq t)
                     ++ String dq EmptyString) ++ tail)%string).
  { rewrite E, (quoted_then t), !append_assoc. reflexivity. }
  assert (Nh : head' <> EmptyString).
  { rewrite Hh. intros H. apply (f_equal String.length) in H.
    rewrite !append_length in H. unfold quoted in H. cbn in H. lia. }
  rewrite El in Rl.
  destruct (same_ending _ dq head' tail eq_refl Lh Nh Rl) as [R' T'].
  rewrite Eh. intros [= <-]. split.
  - split; [exact R'|]. split.
    + intros T. apply T'. now rewrite <- El.
    + apply no_cr_has_char. rewrite ArrowFacts.has_char_app, Rh.
      apply no_cr_has_char in Cl. rewrite El, ArrowFacts.has_char_app in Cl.
      now apply orb_false_elim in Cl as [_ Cl].
  - right. exists s, t, fs, ft, ind, tail.
    split; [exact C|]. split; [exact Fs|]. split; [exact Ft|].
    split; [now symmetry|]. split; [exact Hi|]. split.
    + exists " "%string, " "%string. auto.
    + auto.
Qed.

Definition kept : list string :=
  present_lines (map (fate xml_root_original defined excluded_set) lines).

Lemma kept_file_lines : file_lines kept /\ Forall no_cr kept.
Proof.
  split.
  - apply present_lines_file_lines; [exact Shape|].
    intros l l' Hl F.
    destruct (fate_cases l l' Hl F) as [(R & T & _) _]. auto.
  - apply Forall_forall. intros l' H.
    apply present_lines_In in H as [l [Hl F]].
    now destruct (fate_cases l l' Hl F) as [(_ & _ & N) _].
Qed.

(** A line that is no edge stays. *)
Lemma other_line_kept l :
  In l lines -> (forall s t, classify l <> EdgeLine s t) -> In l kept.
Proof.
  intros Hl N. apply present_lines_In. exists l. split; [exact Hl|].
  unfold fate. destruct (classify l) as [s t|id|]; [|reflexivity..].
  now elim (N s t).
Qed.

(** *** The definitions asked for *)

Definition type_of (node : string) : string :=
  _get_excluded_element_type node xml_root_original.

Lemma add_filtered_In n v added k w :
  In (k, w) (add_filtered n v added) ->
  In (k, w) added \/ (k = n /\ w = v).
Proof.
  unfold add_filtered. destruct (existsb _ added); [auto|].
  intros H. apply in_app_or in H as [H | [[= <- <-] | []]]; auto.
Qed.

Lemma add_filtered_key n v added k :
  In k (map fst added) \/ k = n -> In k (map fst (add_filtered n v added)).
Proof.
  unfold add_filtered. destruct (existsb _ added) eqn:X.
  - intros [H | ->]; [exact H|]. apply existsb_exists in X as [[a b] [Hin E]].
    cbn [fst] in E. apply String.eqb_eq in E. subst a.
    apply in_map_iff. now exists (n, b).
  - rewrite map_app, in_app_iff. intros [H | ->]; [now left|].
    right. now left.
Qed.

(** A key of the definitions is an end that asks for one, and its value
    is the line made for it. *)
Lemma wanted_In ls k w :
  incl ls lines ->
  In (k, w) (wanted xml_root_original defined excluded_set ls) ->
  is_end lines k
  /\ w = _make_filtered_node_line k (type_of k).
Proof.
  induction ls as [|l ls IH]; intros I; cbn [wanted fold_right];
    [intros []|].
  fold (wanted xml_root_original defined excluded_set ls).
  assert (I' : incl ls lines) by (intros x Hx; apply I; now right).
  unfold adds. destruct (classify l) as [s t|id|] eqn:C; try now apply IH.
  unfold adds_of_edge.
  assert (Es : is_end lines s)
    by (exists l, s, t; split; [apply I; now left | auto]).
  assert (Et : is_end lines t)
    by (exists l, s, t; split; [apply I; now left | auto]).
  intros H.
  destruct (asks defined excluded_set t && _).
  - apply add_filtered_In in H as [H | [-> ->]]; [|now split].
    destruct (asks defined excluded_set s); [|now apply IH].
    apply add_filtered_In in H as [H | [-> ->]]; [now apply IH | now split].
  - destruct (asks defined excluded_set s); [|now apply IH].
    apply add_filtered_In in H as [H | [-> ->]]; [now apply IH | now split].
Qed.

Lemma wanted_key ls l s t :
  In l ls -> classify l = EdgeLine s t ->
  (asks defined excluded_set s = true ->
   In s (map fst (wanted xml_root_original defined excluded_set ls)))
  /\ (asks defined excluded_set t = true ->
      final_end xml_root_original defined excluded_set s <> None ->
      In t (map fst (wanted xml_root_original defined excluded_set ls))).
Proof.
  induction ls as [|x ls IH]; intros Hl C; [destruct Hl|].
  cbn [wanted fold_right].
  fold (wanted xml_root_original defined excluded_set ls).
  destruct Hl as [-> | Hl].
  - unfold adds. rewrite C. unfold adds_of_edge. split.
    + intros As. rewrite As.
      destruct (asks defined excluded_set t && _);
        [apply add_filtered_key; left|];
        apply add_filtered_key; now right.
    + intros At F. rewrite At.
      destruct (final_end xml_root_original defined excluded_set s);
        [|congruence].
      cbn [andb]. apply add_filtered_key. now right.
  - destruct (IH Hl C) as [A B].
    assert (Mono : forall k,
              In k (map fst
                      (wanted xml_root_original defined excluded_set ls)) ->
              In k (map fst
                      (adds xml_root_original defined excluded_set x
                         (wanted xml_root_original defined excluded_set ls)))).
    { intros k Hk. unfold adds. destruct (classify x) as [a b|id|]; auto.
      unfold adds_of_edge.
      destruct (asks defined excluded_set b && _);
        [apply add_filtered_key; left|];
        (destruct (asks defined excluded_set a);
           [apply add_filtered_key; now left | exact Hk]). }
    split; [intros As | intros At F]; apply Mono; auto.
Qed.

(** *** The lines of the file after the pass *)

Hypothesis Brace : exists line, In line lines /\ strip line = "}"%string.

Definition definitions : list (string * string) :=
  wanted xml_root_original defined excluded_set lines.

(** The texts of the definitions that the pass adds, without their
    newlines. *)
Definition definition_texts : list string :=
  map (fun kv : string * string => definition_text (fst kv) (type_of (fst kv)))
    definitions.

Definition written : list string :=
  rewritten xml_root_original defined excluded_set lines.

Lemma definitions_values :
  map snd definitions
  = map (fun d => (d ++ String nl (String nl EmptyString))%string)
      definition_texts.
Proof.
  unfold definition_texts. rewrite map_map. apply map_ext_in.
  intros [k w] H. cbn [fst snd].
  destruct (wanted_In lines k w (incl_refl _) H) as [_ ->].
  apply make_line_parts.
Qed.

Lemma definition_key_plain k : In k (map fst definitions) -> plain k.
Proof.
  intros H. apply in_map_iff in H as [[k' w] [<- H]].
  destruct (wanted_In lines k' w (incl_refl _) H) as [E _].
  now apply end_plain.
Qed.

Lemma definition_texts_read d :
  In d definition_texts ->
  has_char nl d = false /\ has_char cr d = false
  /\ exists k, In k (map fst definitions)
               /\ classify (d ++ String nl EmptyString)
                  = NodeLine (k ++ "_filtered").
Proof.
  unfold definition_texts. intros H.
  apply in_map_iff in H as [[k w] [<- H]]. cbn [fst].
  assert (K : In k (map fst definitions))
    by (apply in_map_iff; now exists (k, w)).
  destruct (definition_text_read k (type_of k) (definition_key_plain k K)
              (element_type_cases k xml_root_original)) as (L & R & C).
  split; [exact L|]. split; [exact R|]. now exists k.
Qed.

Lemma brace_is_other l : strip l = "}"%string -> classify l = OtherLine.
Proof. intros E. unfold classify. now rewrite E. Qed.

Lemma kept_brace : closing_index kept <> None.
Proof.
  destruct Brace as [l [Hl E]]. apply closing_index_found. exists l.
  split; [|exact E]. apply other_line_kept; [exact Hl|].
  intros s t. now rewrite (brace_is_other l E).
Qed.

Lemma no_cr_snoc_newlines d :
  has_char cr d = false -> no_cr (d ++ String nl (String nl EmptyString)).
Proof.
  intros H. apply no_cr_has_char. now rewrite ArrowFacts.has_char_app, H.
Qed.

(** The lines read from the file after the pass: the lines kept, and the
    lines of the definitions. *)
Lemma written_lines_In l :
  In l (readlines (writelines written))
  <-> In l kept
      \/ exists d, In d definition_texts /\ In l (definition_lines d).
Proof.
  destruct kept_file_lines as [Fk Nk].
  unfold written, rewritten. fold definitions. fold kept.
  destruct definitions as [|kv rest] eqn:D.
  - rewrite (readlines_writelines kept Fk Nk).
    unfold definition_texts. rewrite D. cbn [map].
    split; [auto | intros [H | [d [[] _]]]; exact H].
  - rewrite <- D. unfold insert_before_closing.
    destruct (closing_index kept) as [i|] eqn:Ci; [|now elim kept_brace].
    apply closing_index_bound in Ci.
    unfold readlines, writelines.
    assert (Nd : forall d, In d definition_texts -> has_char nl d = false)
      by (intros d Hd; now apply definition_texts_read in Hd).
    rewrite universal_newlines_id.
    + rewrite (split_keepends_after _ _ (file_lines_firstn kept i Fk Ci)).
      cbn [app join fold_right append].
      change (fold_right append EmptyString ?x) with (join x).
      rewrite definitions_values, (split_keepends_definitions _ _ Nd).
      rewrite (split_keepends_join _ (file_lines_skipn kept i Fk)).
      rewrite !in_app_iff, in_flat_map.
      rewrite <- (firstn_skipn i kept) at 3. rewrite in_app_iff. tauto.
    + apply no_cr_join. rewrite Forall_forall in Nk.
      apply Forall_forall. intros x Hx.
      apply in_app_or in Hx as [Hx | Hx].
      * apply Nk. rewrite <- (firstn_skipn i kept). apply in_or_app. now left.
      * cbn [app] in Hx. destruct Hx as [<- | Hx]; [exact I|].
        apply in_app_or in Hx as [Hx | Hx].
        -- rewrite definitions_values in Hx.
           apply in_map_iff in Hx as [d [<- Hd]].
           apply no_cr_snoc_newlines. now apply definition_texts_read in Hd.
        -- apply Nk. rewrite <- (firstn_skipn i kept). apply in_or_app.
           now right.
Qed.

Lemma defined_stays node :
  mem node defined = true ->
  defines (readlines (writelines written)) node.
Proof.
  intros D. apply first_pass_defined in D as (l & Hl & C).
  exists l. split; [|exact C]. apply written_lines_In. left.
  apply other_line_kept; [exact Hl|]. intros s t. now rewrite C.
Qed.

Lemma filtered_defined k :
  In k (map fst definitions) ->
  defines (readlines (writelines written)) (k ++ "_filtered").
Proof.
  intros H. pose proof (definition_key_plain k H) as P.
  apply in_map_iff in H as [[k' w] [E H]]. cbn [fst] in E. subst k'.
  set (d := definition_text k (type_of k)).
  exists (d ++ String nl EmptyString)%string. split.
  - apply written_lines_In. right. exists d. split; [|now left].
    unfold definition_texts. apply in_map_iff. now exists (k, w).
  - now destruct (definition_text_read k (type_of k) P
                    (element_type_cases k xml_root_original)) as (_ & _ & C).
Qed.

Lemma final_end_defined l s t final :
  In l lines -> classify l = EdgeLine s t ->
  final_end xml_root_original defined excluded_set s <> None ->
  (final_end xml_root_original defined excluded_set s = Some final
   \/ final_end xml_root_original defined excluded_set t = Some final) ->
  defines (readlines (writelines written)) final.
Proof.
  intros Hl C Fs F. destruct (wanted_key lines l s t Hl C) as [Ks Kt].
  destruct F as [F | F];
    apply final_end_cases in F as [[-> Dn] | [[-> A] | D]];
    try (now apply defined_stays);
    try (apply defined_stays; unfold dangling in Dn;
         now apply negb_false_iff in Dn).
  - apply filtered_defined. now apply Ks.
  - apply filtered_defined. now apply Kt.
Qed.

Lemma no_dangling_edge_written node :
  is_end (readlines (writelines written)) node ->
  defines (readlines (writelines written)) node.
Proof.
  intros (l & a & b & Hl & C & Hn).
  apply written_lines_In in Hl as [Hl | [d [Hd Hl]]].
  - apply present_lines_In in Hl as [l0 [Hl0 F]].
    destruct (fate_cases l0 l Hl0 F) as [_ [[-> Sound] | Re]].
    + destruct (Sound a b C) as [Da Db]. apply defined_stays.
      unfold dangling in Da, Db. apply negb_false_iff in Da, Db.
      now destruct Hn as [-> | ->].
    + destruct Re as (s & t & fs & ft & ind & tail & C0 & Fs & Ft & Sh).
      apply edge_shape_classify in Sh. rewrite Sh in C.
      injection C as <- <-.
      apply (final_end_defined l0 s t node Hl0 C0); [congruence|].
      destruct Hn as [-> | ->]; auto.
  - apply definition_texts_read in Hd as (_ & _ & k & _ & Cd).
    destruct Hl as [<- | [<- | []]]; [congruence | discriminate].
Qed.

End Closure.


(** *** The pass on a whole file *)

(** No end of an edge holds an arrow. *)
Definition calm_ends (lines : list string) : bool :=
  forallb
    (fun line =>
       match classify line with
       | EdgeLine source target =>
           negb (contains "->" source) && negb (contains "->" target)
       | _ => true
       end) lines.

(** A line is a lone closing brace. *)
Definition has_closing_brace (lines : list string) : bool :=
  existsb (fun line => String.eqb (strip line) "}") lines.


Lemma calm_ends_spec lines node :
  calm_ends lines = true -> is_end lines node -> contains "->" node = false.
Proof.
  unfold calm_ends. rewrite forallb_forall.
  intros H (l & s & t & Hl & C & Hn). specialize (H l Hl). rewrite C in H.
  apply andb_prop in H as [Hs Ht]. apply negb_true_iff in Hs, Ht.
  now destruct Hn as [-> | ->].
Qed.

Lemma has_closing_brace_spec lines :
  has_closing_brace lines = true ->
  exists line, In line lines /\ strip line = "}"%string.
Proof.
  unfold has_closing_brace. rewrite existsb_exists.
  intros [l [Hl E]]. apply String.eqb_eq in E. now exists l.
Qed.

Lemma redirect_written file xml_root_original elements_to_exclude :
  redirect_or_remove_invalid_edges file xml_root_original elements_to_exclude
  = writelines
      (written xml_root_original (exclude_set_of elements_to_exclude)
         (readlines file)).
Proof.
  unfold redirect_or_remove_invalid_edges, written, rewritten. cbv zeta.
  pose proof (second_pass_result (readlines file) xml_root_original
                (exclude_set_of elements_to_exclude)) as S.
  cbv zeta in S. rewrite S. reflexivity.
Qed.

(** A file with an edge to an excluded node that has no definition. *)
Definition sample_dot : string :=
  "digraph G {" ++ String nl
    ("  " ++ quoted "T1" ++ " [label=x];" ++ String nl
       ("  " ++ quoted "T1" ++ " -> " ++ quoted "src.S9" ++ " [color=blue];"
        ++ String nl ("}" ++ String nl EmptyString))).

(** X22: after the pass no edge of the file dangles. When no end of an
    edge holds an arrow between its quotes and the file has a line with a
    lone closing brace, every end of every edge line of the file that the
    pass leaves is the id of a node definition line of that file: a
    definition that was there, or the definition of a filtered pseudo-node
    that the pass has added. *)
Theorem redirect_leaves_no_dangling_edge (file : string)
  (xml_root_original : option element) (elements_to_exclude : list string)
  (node : string) :
  let after :=
    readlines
      (redirect_or_remove_invalid_edges file xml_root_original
         elements_to_exclude) in
  calm_ends (readlines file) = true ->
  has_closing_brace (readlines file) = true ->
  is_end after node -> defines after node.
Proof.
  intros after Calm Brace. subst after. rewrite redirect_written.
  apply no_dangling_edge_written.
  - apply readlines_file_lines.
  - apply readlines_no_cr.
  - intros x. now apply calm_ends_spec.
  - now apply has_closing_brace_spec.
Qed.

Lemma redirect_leaves_no_dangling_edge_witness :
  calm_ends (readlines sample_dot) = true
  /\ has_closing_brace (readlines sample_dot) = true
  /\ defines
       (readlines (redirect_or_remove_invalid_edges sample_dot None ["src.S9"]))
       "src.S9_filtered".
Proof.
  split; [reflexivity|]. split; [reflexivity|].
  apply (redirect_leaves_no_dangling_edge sample_dot None ["src.S9"]
           "src.S9_filtered"); [reflexivity | reflexivity|].
  exists ("  " ++ quoted "T1" ++ " -> " ++ quoted "src.S9_filtered"
          ++ " [color=blue];" ++ String nl EmptyString)%string,
    "T1"%string, "src.S9_filtered"%string.
  split; [vm_compute; auto|]. split; [reflexivity | now right].
Defined.





(** X24: the text that the pass makes for the filtered pseudo-node of an
    id is read back by the parser of the pass as the definition of that
    pseudo-node, followed by a blank line, for every id that can stand
    between two quotes and holds no newline and no arrow. *)
Theorem filtered_definition_is_read_back (excluded_id : string)
  (xml_root_original : option element) :
  plain excluded_id ->
  exists line,
    split_keepends
      (_make_filtered_node_line excluded_id
         (_get_excluded_element_type excluded_id xml_root_original))
    = [line; String nl EmptyString]
    /\ classify line = NodeLine (excluded_id ++ "_filtered").
Proof.
  intros P.
  set (ty := _get_excluded_element_type excluded_id xml_root_original).
  destruct (definition_text_read excluded_id ty P
              (element_type_cases excluded_id xml_root_original))
    as (L & _ & C).
  exists (definition_text excluded_id ty ++ String nl EmptyString)%string.
  split; [|exact C].
  rewrite make_line_parts.
  assert (Nd : forall d, In d [definition_text excluded_id ty] ->
                 has_char nl d = false)
    by (intros d [<- | []]; exact L).
  pose proof (split_keepends_definitions [definition_text excluded_id ty] []
                Nd) as S.
  cbn [map app join fold_right flat_map definition_lines split_keepends] in S.
  rewrite append_empty_r in S. exact S.
Qed.

Lemma filtered_definition_is_read_back_witness :
  plain "src.S9"
  /\ exists line,
       split_keepends
         (_make_filtered_node_line "src.S9"
            (_get_excluded_element_type "src.S9" None))
       = [line; String nl EmptyString]
       /\ classify line = NodeLine "src.S9_filtered".
Proof.
  assert (P : plain "src.S9").
  { split; [split; [discriminate | reflexivity]|].
    split; [reflexivity|]. split; reflexivity. }
  split; [exact P|].
  exact (filtered_definition_is_read_back "src.S9" None P).
Defined.

End EdgeValidationFacts.

(** ** Excluded nodes through the two passes that treat them *)

Module PipelineFacts.
Import PyStr DotSyntax Xml ExcludedFilter EdgeValidation.
Import StrFacts LineFacts SearchFacts ShapeFacts.
Import ExcludedFilterFacts EdgeValidationFacts.

(** The lines that [remove_excluded_node_definitions] leaves. *)
Lemma removal_lines file elements_to_exclude l :
  In l (readlines (remove_excluded_node_definitions file elements_to_exclude))
  <-> In l (readlines file)
      /\ not_excluded (exclude_set_of elements_to_exclude) l = true.
Proof.
  assert (All : forall x, not_excluded [] x = true).
  { intros x. unfold not_excluded. now destruct (defines_node x). }
  destruct elements_to_exclude as [|x rest].
  - cbn [remove_excluded_node_definitions exclude_set_of fold_left].
    rewrite All. tauto.
  - destruct (exclude_set_of (x :: rest)) as [|e es] eqn:E.
    + unfold remove_excluded_node_definitions. rewrite E, All. tauto.
    + rewrite (readlines_after_removal file x (e :: es) rest);
        [|congruence|now rewrite E].
      now rewrite filter_In, keeps_line_spec.
Qed.

(** A file with an edge to a node that is defined and excluded. *)
Definition sample_excluded_dot : string :=
  "digraph G {" ++ String nl
    ("  " ++ quoted "T1" ++ " [label=x];" ++ String nl
       ("  " ++ quoted "src.S9" ++ " [label=y];" ++ String nl
          ("  " ++ quoted "T1" ++ " -> " ++ quoted "src.S9"
           ++ " [color=blue];" ++ String nl
           ("}" ++ String nl EmptyString)))).

Definition sample_excluded_edge : string :=
  "  " ++ quoted "T1" ++ " -> " ++ quoted "src.S9" ++ " [color=blue];"
  ++ String nl EmptyString.

(** X25: the two passes together, in the order of the pipeline, turn an
    end of an edge that is excluded into its filtered pseudo-node. For an
    edge line of the file with an excluded end, of which each end is
    excluded or defined, and of which the two final ends differ, the file
    after [remove_excluded_node_definitions] and
    [redirect_or_remove_invalid_edges] holds the line with each excluded
    end followed by [_filtered], the indentation and the text after the
    target kept, and holds a definition of both final ends. *)
Theorem excluded_ends_are_redirected (file : string)
  (xml_root_original : option element) (elements_to_exclude : list string)
  (line s t : string) :
  let excluded_set := exclude_set_of elements_to_exclude in
  let final x :=
    if mem x excluded_set then (x ++ "_filtered")%string else x in
  let after :=
    readlines
      (redirect_or_remove_invalid_edges
         (remove_excluded_node_definitions file elements_to_exclude)
         xml_root_original elements_to_exclude) in
  calm_ends (readlines file) = true ->
  has_closing_brace (readlines file) = true ->
  In line (readlines file) -> classify line = EdgeLine s t ->
  mem s excluded_set || mem t excluded_set = true ->
  (mem s excluded_set = true \/ defines (readlines file) s) ->
  (mem t excluded_set = true \/ defines (readlines file) t) ->
  final s <> final t ->
  exists rest_of_line,
    text_after (quoted t) line = Some rest_of_line
    /\ In (indentation_of line ++ quoted (final s) ++ " -> "
           ++ quoted (final t) ++ rest_of_line)%string after
    /\ defines after (final s) /\ defines after (final t).
Proof.
  intros excluded_set final after Calm Brace Hl C Some_excluded Hs Ht Diff.
  set (file1 := remove_excluded_node_definitions file elements_to_exclude)
    in *.
  set (lines1 := readlines file1).
  set (defined1 := defined_nodes (first_pass lines1)).
  assert (Sub : forall l, In l lines1 -> In l (readlines file))
    by (intros l H; now apply removal_lines in H).
  assert (Calm1 : forall node, is_end lines1 node ->
                    contains "->" node = false).
  { intros node (l & a & b & H & Cl & Hn).
    apply (calm_ends_spec (readlines file) node Calm).
    exists l, a, b. auto. }
  assert (Brace1 : exists l, In l lines1 /\ strip l = "}"%string).
  { apply has_closing_brace_spec in Brace as [l [H E]]. exists l.
    split; [|exact E]. apply removal_lines. split; [exact H|].
    unfold not_excluded, defines_node. now rewrite E. }
  assert (Hl1 : In line lines1).
  { apply removal_lines. split; [exact Hl|]. unfold not_excluded.
    now rewrite (PruningMore.edge_line_defines_nothing line s t C). }
  assert (Gone : forall x, mem x excluded_set = true ->
                   dangling defined1 x = true).
  { intros x M. unfold dangling.
    destruct (mem x defined1) eqn:D; [|reflexivity].
    apply first_pass_defined in D as (l & H & Cl).
    apply removal_lines in H as [_ H]. unfold not_excluded in H.
    rewrite (ParseFacts.classify_defines l x Cl) in H.
    fold excluded_set in H. now rewrite M in H. }
  assert (Stays : forall x, mem x excluded_set = false ->
                    defines (readlines file) x ->
                    dangling defined1 x = false).
  { intros x M (l & H & Cl). unfold dangling. apply negb_false_iff.
    apply first_pass_defined. exists l. split; [|exact Cl].
    apply removal_lines. split; [exact H|]. unfold not_excluded.
    rewrite (ParseFacts.classify_defines l x Cl).
    fold excluded_set. now rewrite M. }
  assert (Final : forall x,
            mem x excluded_set = true \/ defines (readlines file) x ->
            final_end xml_root_original defined1 excluded_set x
            = Some (final x)).
  { intros x H. unfold final_end, final.
    destruct (mem x excluded_set) eqn:M.
    - now rewrite (Gone x M).
    - destruct H as [H | H]; [discriminate|]. now rewrite (Stays x M H). }
  assert (Unsound : negb (dangling defined1 s) && negb (dangling defined1 t)
                    = false).
  { apply orb_prop in Some_excluded as [M | M]; rewrite (Gone _ M);
      [reflexivity | apply andb_false_r]. }
  assert (Hst : s <> t) by (intros ->; now apply Diff).
  destruct (classify_edge_shape line s t C) as (ind & btw & tail & Sh).
  assert (At : contains "->" t = false).
  { apply (calm_ends_spec (readlines file) t Calm). exists line, s, t. auto. }
  destruct (text_after_target line ind s btw t tail Sh Hst At) as [Ta _].
  exists tail. split; [exact Ta|].
  set (line' := (indentation_of line ++ quoted (final s) ++ " -> "
                 ++ quoted (final t) ++ tail)%string).
  assert (F : fate xml_root_original defined1 excluded_set line = Some line').
  { unfold fate. rewrite C. unfold fate_of_edge.
    rewrite Unsound, (Final s Hs), (Final t Ht), Ta.
    destruct (String.eqb_spec (final s) (final t)); [contradiction|].
    reflexivity. }
  pose proof (readlines_file_lines file1) as Shape1.
  pose proof (readlines_no_cr file1) as NoCr1.
  fold lines1 in Shape1, NoCr1.
  assert (Edge : classify line' = EdgeLine (final s) (final t)).
  { destruct (fate_cases xml_root_original excluded_set lines1 Shape1 NoCr1
                Calm1 line line' Hl1 F) as [_ [[_ Sound] | Re]].
    - destruct (Sound s t C) as [Ds Dt]. fold defined1 in Ds, Dt.
      now rewrite Ds, Dt in Unsound.
    - destruct Re as (a & b & fa & fb & i & tl & Ca & Fa & Fb & Sh').
      rewrite C in Ca. injection Ca as <- <-.
      fold defined1 in Fa, Fb. rewrite (Final s Hs) in Fa.
      rewrite (Final t Ht) in Fb. injection Fa as <-. injection Fb as <-.
      exact (edge_shape_classify _ _ _ _ _ _ Sh'). }
  subst after. rewrite redirect_written. fold file1. fold lines1.
  assert (In' : In line'
                  (readlines
                     (writelines
                        (written xml_root_original excluded_set lines1)))).
  { apply (written_lines_In xml_root_original excluded_set lines1 Shape1
             NoCr1 Calm1 Brace1). left.
    apply present_lines_In. exists line. split; [exact Hl1 | exact F]. }
  split; [exact In'|].
  split;
    apply (no_dangling_edge_written xml_root_original excluded_set lines1
             Shape1 NoCr1 Calm1 Brace1);
    exists line', (final s), (final t); auto.
Qed.

Lemma excluded_ends_are_redirected_witness :
  calm_ends (readlines sample_excluded_dot) = true
  /\ has_closing_brace (readlines sample_excluded_dot) = true
  /\ classify sample_excluded_edge = EdgeLine "T1" "src.S9"
  /\ exists rest_of_line,
       text_after (quoted "src.S9") sample_excluded_edge = Some rest_of_line
       /\ In ("  " ++ quoted "T1" ++ " -> " ++ quoted "src.S9_filtered"
              ++ rest_of_line)%string
            (readlines
               (redirect_or_remove_invalid_edges
                  (remove_excluded_node_definitions sample_excluded_dot
                     ["src.S9"])
                  None ["src.S9"]))
       /\ defines
            (readlines
               (redirect_or_remove_invalid_edges
                  (remove_excluded_node_definitions sample_excluded_dot
                     ["src.S9"])
                  None ["src.S9"]))
            "T1"
       /\ defines
            (readlines
               (redirect_or_remove_invalid_edges
                  (remove_excluded_node_definitions sample_excluded_dot
                     ["src.S9"])
                  None ["src.S9"]))
            "src.S9_filtered".
Proof.
  split; [reflexivity|]. split; [reflexivity|]. split; [reflexivity|].
  apply (excluded_ends_are_redirected sample_excluded_dot None ["src.S9"]
           sample_excluded_edge "T1" "src.S9").
  - reflexivity.
  - reflexivity.
  - vm_compute. auto.
  - reflexivity.
  - reflexivity.
  - right.
    exists ("  " ++ quoted "T1" ++ " [label=x];"
            ++ String nl EmptyString)%string.
    split; [vm_compute; auto | reflexivity].
  - now left.
  - discriminate.
Defined.

End PipelineFacts.
